(** * A shallow embedding of the m4 macro processor (m4.c)

    The C program is translated function by function.  Bytes are [ascii]
    values, [int] and [size_t] values are integers in [Z] with the wrap-around
    of [size_t] written out, a [struct buf] is the list of its bytes in use
    together with its capacity, the hash table is a finite map from bucket
    index to chain, and the variables of [main] are gathered in the record
    [m4].  The environment of the process (the outcomes of the allocation
    requests, standard input, standard output, standard error, the regular
    files) is the record [world]. *)

From Stdlib Require Import ZArith Ascii String Lia.
From stdpp Require Import base list gmap strings.

Open Scope Z_scope.

(** ** Platform *)

(** [size_t] and [unsigned long] are taken to be 64-bit (LP64). *)
Definition SIZE_MAX : Z := 2 ^ 64 - 1.

Definition EOF : Z := -1.
Definition INIT_BUF_SIZE : Z := 512.
Definition HASH_TABLE_SIZE : Z := 16384.
Definition UCHAR_MAX : Z := 255.

(** [size_t] arithmetic wraps around. *)
Definition wrap (x : Z) : Z := x mod (SIZE_MAX + 1).

(** size_t Addition OverFlow test: [(a) > SIZE_MAX - (b)]. *)
Definition AOF (a b : Z) : bool := SIZE_MAX - b <? a.
(** size_t Multiplication OverFlow test: [(a) && (b) > SIZE_MAX / (a)]. *)
Definition MOF (a b : Z) : bool := negb (a =? 0) && (SIZE_MAX / a <? b).

Definition MIN (a b : Z) : Z := if a <? b then a else b.

(** ** Bytes and C strings *)

(** The value of a byte as an [unsigned char]. *)
Definition code (c : ascii) : Z := Z.of_N (N_of_ascii c).

(** Conversion of an [int] to [char]: the low eight bits are kept. *)
Definition to_char (x : Z) : ascii := ascii_of_N (Z.to_N (x mod 256)).

Definition NUL : ascii := to_char 0.

(** A string is the list of its bytes; a function that takes a [char *]
    reads its argument up to the terminator, which is [cstr]. *)
Fixpoint cstr (l : list ascii) : list ascii :=
  match l with
  | [] => []
  | c :: l' => if code c =? 0 then [] else c :: cstr l'
  end.

Definition lit (x : string) : list ascii := list_ascii_of_string x.

Definition streq (x y : list ascii) : bool := bool_decide (x = y).

(** <ctype.h> in the "C" locale; the program never calls [setlocale].  The
    argument is an [int]; values outside the letters and digits, negative
    ones included, are in no class. *)
Definition isdigit (x : Z) : bool := (48 <=? x) && (x <=? 57).
Definition isalpha (x : Z) : bool :=
  ((65 <=? x) && (x <=? 90)) || ((97 <=? x) && (x <=? 122)).
Definition isalnum (x : Z) : bool := isalpha x || isdigit x.
Definition isgraph (x : Z) : bool := (33 <=? x) && (x <=? 126).

(** [snprintf(num, NUM_SIZE, "%lu", n)]: a 64-bit number has at most twenty
    digits, which fit in [NUM_SIZE]. *)
Fixpoint digits (fuel : nat) (n : Z) (acc : list ascii) : list ascii :=
  match fuel with
  | O => acc
  | S f =>
      let acc' := to_char (48 + n mod 10) :: acc in
      if n / 10 =? 0 then acc' else digits f (n / 10) acc'
  end.
Definition ulong_str (n : Z) : list ascii := digits 20 n [].

(** [strstr(s, t)] as the offset of the first occurrence, if any. *)
Fixpoint is_prefix (t s : list ascii) : bool :=
  match t, s with
  | [], _ => true
  | _ :: _, [] => false
  | x :: t', y :: s' => bool_decide (x = y) && is_prefix t' s'
  end.
Fixpoint strstr (s t : list ascii) : option Z :=
  if is_prefix t s then Some 0
  else match s with
       | [] => None
       | _ :: s' => Z.succ <$> strstr s' t
       end.

(** ** The environment of the process *)

(** A regular file: the size that [stat] reports, and what happens when the
    file is opened and read afterwards.  The two need not agree, as for a
    file that is changed in between or that cannot be read. *)
Record file := {
  st_size : Z;
    (** [st.st_size] *)
  opens : bool;
    (** whether [fopen] gives a stream *)
  bytes : list ascii;
    (** the bytes that [getc] delivers before its [EOF] *)
  read_errno : bool;
    (** whether that [EOF] is a read error (sets [errno]) *)
  closes : bool
    (** whether [fclose] returns 0 *)
}.

Record world := {
  heap : list bool;
    (** outcomes of the coming allocation requests ([malloc], [calloc],
        [realloc], [strdup]), [false] for a NULL result; once the list is
        used up every request succeeds *)
  stdin : list ascii;
  stdin_errno : bool;
    (** whether the end of standard input is a read error (sets [errno]) *)
  disk : list bool;
    (** outcomes of the coming [fwrite] calls on standard output, [false]
        for a short count; a short write is taken to write nothing *)
  stdout : list ascii;
  stderr : list ascii;
  files : list (list ascii * file)
    (** the regular files, by name; for any other name [stat] fails or
        gives another kind of file; the files are the same during the run *)
}.

Definition with_heap (w : world) (h : list bool) : world :=
  {| heap := h; stdin := stdin w; stdin_errno := stdin_errno w;
     disk := disk w; stdout := stdout w; stderr := stderr w;
     files := files w |}.
Definition with_stdin (w : world) (l : list ascii) : world :=
  {| heap := heap w; stdin := l; stdin_errno := stdin_errno w;
     disk := disk w; stdout := stdout w; stderr := stderr w;
     files := files w |}.
Definition with_disk (w : world) (d : list bool) : world :=
  {| heap := heap w; stdin := stdin w; stdin_errno := stdin_errno w;
     disk := d; stdout := stdout w; stderr := stderr w;
     files := files w |}.
Definition with_stdout (w : world) (l : list ascii) : world :=
  {| heap := heap w; stdin := stdin w; stdin_errno := stdin_errno w;
     disk := disk w; stdout := l; stderr := stderr w;
     files := files w |}.
Definition with_stderr (w : world) (l : list ascii) : world :=
  {| heap := heap w; stdin := stdin w; stdin_errno := stdin_errno w;
     disk := disk w; stdout := stdout w; stderr := l;
     files := files w |}.

(** One allocation request. *)
Definition alloc (w : world) : bool * world :=
  match heap w with
  | [] => (true, w)
  | ok :: h => (ok, with_heap w h)
  end.

(** [fwrite(a, 1, n, stdout)]: the count written. *)
Definition fwrite (l : list ascii) (w : world) : Z * world :=
  match disk w with
  | [] => (Z.of_nat (length l), with_stdout w (stdout w ++ l))
  | true :: d =>
      (Z.of_nat (length l), with_stdout (with_disk w d) (stdout w ++ l))
  | false :: d => (0, with_disk w d)
  end.

(** [fprintf(stderr, ...)]; its result is never looked at. *)
Definition eprint (l : list ascii) (w : world) : world :=
  with_stderr w (stderr w ++ l).

(** [getchar()], with [errno] after an [EOF]. *)
Definition getchar (w : world) : Z * bool * world :=
  match stdin w with
  | [] => (EOF, stdin_errno w, w)
  | c :: l => (code c, false, with_stdin w l)
  end.

(** [strdup]: a copy, or NULL. *)
Definition strdup (x : list ascii) (w : world) : option (list ascii) * world :=
  let '(ok, w) := alloc w in
  (if ok then Some (cstr x) else None, w).

(** ** Growable buffers *)

(** [b_a] holds the bytes [a[0]] to [a[i-1]], so that [i] is its length;
    [b_s] is the capacity [s].  The bytes from [a[i]] on are never read:
    every string read from a buffer is terminated below [i]. *)
Record buf := { b_a : list ascii; b_s : Z }.

Definition b_i (b : buf) : Z := Z.of_nat (length (b_a b)).

Definition BUF_FREE_SIZE (b : buf) : Z := b_s b - b_i b.

Definition init_buf (w : world) : option buf * world :=
  let '(ok, w) := alloc w in
  if negb ok then (None, w)
  else
    let '(ok, w) := alloc w in
    if negb ok then (None, w)
    else (Some {| b_a := []; b_s := INIT_BUF_SIZE |}, w).

Definition grow_buf (b : buf) (will_use : Z) (w : world) : Z * buf * world :=
  if will_use <=? BUF_FREE_SIZE b then (0, b, w)
  else if MOF (b_s b) 2 then (1, b, w)
  else
    let new_s := b_s b * 2 in
    if AOF new_s will_use then (1, b, w)
    else
      let new_s := new_s + will_use in
      let '(ok, w) := alloc w in
      if negb ok then (1, b, w)
      else (0, {| b_a := b_a b; b_s := new_s |}, w).

Definition delete_buf (b : buf) : buf := {| b_a := []; b_s := b_s b |}.

(** [memcpy(b->a + b->i, l, n); b->i += n] *)
Definition append (b : buf) (l : list ascii) : buf :=
  {| b_a := b_a b ++ l; b_s := b_s b |}.

(** Whether plain [char] is a signed type is left to the platform. *)
Class Platform := { char_signed : bool }.

Section Buffers.

Context {platform : Platform}.

(** The value of a [char] promoted to [int]. *)
Definition char_to_int (c : ascii) : Z :=
  if char_signed && (128 <=? code c) then code c - 256 else code c.

(** The result is the value of the assignment to a [char], or [EOF]. *)
Definition ungetch (b : buf) (ch : Z) (w : world) : Z * buf * world :=
  let '(r, b, w) :=
    if b_i b =? b_s b then grow_buf b 1 w else (0, b, w) in
  if negb (r =? 0) then (EOF, b, w)
  else (char_to_int (to_char ch), append b [to_char ch], w).

(** The macro [getch(b, read_stdin)]; the second component is [errno]
    after the call, which the callers clear beforehand. *)
Definition getch (b : buf) (read_stdin : bool) (w : world)
  : Z * bool * buf * world :=
  match reverse (b_a b) with
  | c :: r => (char_to_int c, false, {| b_a := reverse r; b_s := b_s b |}, w)
  | [] =>
      if read_stdin then
        let '(x, e, w) := getchar w in (x, e, b, w)
      else (EOF, false, b, w)
  end.

(** The bytes of the string are pushed last byte first. *)
Fixpoint ungetstr_loop (r : list ascii) (b : buf) (w : world)
  : Z * buf * world :=
  match r with
  | [] => (0, b, w)
  | c :: r' =>
      let '(x, b, w) := ungetch b (char_to_int c) w in
      if x =? EOF then (1, b, w) else ungetstr_loop r' b w
  end.
Definition ungetstr (b : buf) (x : list ascii) (w : world) : Z * buf * world :=
  ungetstr_loop (reverse (cstr x)) b w.

Definition put_str (b : buf) (x : list ascii) (w : world) : Z * buf * world :=
  let x := cstr x in
  let len := Z.of_nat (length x) in
  let '(r, b, w) :=
    if BUF_FREE_SIZE b <? len then grow_buf b len w else (0, b, w) in
  if negb (r =? 0) then (1, b, w) else (0, append b x, w).

(** [getword]: the result, [*err], the token, the input and the world.  The
    inner [while (1)] takes one byte per round; [fuel] bounds the rounds and
    [getword] supplies more rounds than there are bytes to read. *)
Fixpoint getword_loop (fuel : nat) (token input : buf) (read_stdin : bool)
    (w : world) : Z * bool * buf * buf * world :=
  match fuel with
  | O => (1, false, token, input, w)
  | S fuel =>
      let '(x, e, input, w) := getch input read_stdin w in
      if x =? EOF then (1, e, token, input, w)
      else if negb (isalnum x || (x =? 95)) then
        (* Read past the end of the token, so put the char back *)
        let '(r, input, w) := ungetch input x w in
        if r =? EOF then (1, true, token, input, w)
        else
          (* Null terminate token *)
          let '(r, token, w) := ungetch token 0 w in
          if r =? EOF then (1, true, token, input, w)
          else (0, false, token, input, w)
      else
        (* Store the char *)
        let '(r, token, w) := ungetch token x w in
        if r =? EOF then (1, true, token, input, w)
        else getword_loop fuel token input read_stdin w
  end.

Definition getword (token input : buf) (read_stdin : bool) (w : world)
  : Z * bool * buf * buf * world :=
  let token := delete_buf token in
  (* Always read at least one char *)
  let '(x, e, input, w) := getch input read_stdin w in
  if x =? EOF then (1, e, token, input, w)
  else
    let '(r, token, w) := ungetch token x w in
    if r =? EOF then (1, false, token, input, w)
    else if isalpha x || (x =? 95) then
      (* Could be the start of a macro name *)
      getword_loop (S (length (b_a input) + length (stdin w)))
        token input read_stdin w
    else
      let '(r, token, w) := ungetch token 0 w in
      if r =? EOF then (1, true, token, input, w)
      else (0, false, token, input, w).

End Buffers.

(** ** The symbol table *)

(** An entry of the hash table; the [next] pointers are the list structure
    of a chain.  A [def] of [None] is the NULL pointer of a built-in. *)
Record entry := { e_name : list ascii; e_def : option (list ascii) }.

(** The array of [HASH_TABLE_SIZE] chain heads, by index; an index without
    a binding holds NULL, the empty chain. *)
Abbreviation table := (gmap Z (list entry)).

Definition bucket (ht : table) (h : Z) : list entry := default [] (ht !! h).

(** djb2: [h = h * 33 ^ c], the product taken before the exclusive or. *)
Definition hash_str (x : list ascii) : Z :=
  foldl (fun h c => Z.lxor (wrap (h * 33)) (code c)) 5381 (cstr x)
    mod HASH_TABLE_SIZE.

Fixpoint find_entry (name : list ascii) (chain : list entry) : option entry :=
  match chain with
  | [] => None
  | e :: chain' =>
      if streq name (e_name e) then Some e else find_entry name chain'
  end.

Definition lookup_entry (ht : table) (name : list ascii) : option entry :=
  find_entry (cstr name) (bucket ht (hash_str name)).

Definition get_def (ht : table) (name : list ascii) : option (list ascii) :=
  match lookup_entry ht name with
  | None => None
  | Some e => e_def e
  end.

(** [e->def = t] on the entry that [lookup_entry] found. *)
Fixpoint set_def (name : list ascii) (t : option (list ascii))
    (chain : list entry) : list entry :=
  match chain with
  | [] => []
  | e :: chain' =>
      if streq name (e_name e) then {| e_name := e_name e; e_def := t |} :: chain'
      else e :: set_def name t chain'
  end.

Definition upsert_entry (ht : table) (name : list ascii)
    (def : option (list ascii)) (w : world) : Z * table * world :=
  match lookup_entry ht name with
  | None =>
      (* Insert entry: *)
      let '(ok, w) := alloc w in
      if negb ok then (1, ht, w)
      else
        let '(n, w) := strdup name w in
        match n with
        | None => (1, ht, w)
        | Some n =>
            let '(d, failed, w) :=
              match def with
              | None => (None, false, w)
              | Some d =>
                  let '(d, w) := strdup d w in
                  (d, bool_decide (d = None), w)
              end in
            if failed then (1, ht, w)
            else
              let h := hash_str name in
              (* Link new entry in at head of list *)
              (0, <[h := {| e_name := n; e_def := d |} :: bucket ht h]> ht, w)
        end
  | Some _ =>
      (* Update entry: *)
      let '(t, failed, w) :=
        match def with
        | None => (None, false, w)
        | Some d =>
            let '(d, w) := strdup d w in
            (d, bool_decide (d = None), w)
        end in
      if failed then (1, ht, w)
      else
        let h := hash_str name in
        (0, <[h := set_def (cstr name) t (bucket ht h)]> ht, w)
  end.

(** The walk of [delete_entry]: the entries passed over (the last of them
    is [prev]), the entry found and its successors. *)
Fixpoint chain_split (name : list ascii) (before chain : list entry)
  : option (list entry * entry * list entry) :=
  match chain with
  | [] => None
  | e :: chain' =>
      if streq name (e_name e) then Some (before, e, chain')
      else chain_split name (before ++ [e]) chain'
  end.

Definition delete_entry (ht : table) (name : list ascii) : Z * table :=
  let h := hash_str name in
  match chain_split (cstr name) [] (bucket ht h) with
  | Some (before, e, after) =>
      match before with
      | _ :: _ =>
          (* Link around the entry: prev->next = e->next *)
          (0, <[h := before ++ after]> ht)
      | [] =>
          (* At head of list: *(ht + h) = NULL *)
          (0, <[h := []]> ht)
      end
  | None => (1, ht)
  end.

(** [htdist]: the histogram of the chain lengths, written to [stderr]. *)
Definition htdist_freq (ht : table) : list Z :=
  foldl (fun freq k =>
           let count := Z.of_nat (length (bucket ht k)) in
           let j := Z.to_nat (if count <? 100 then count else 100) in
           <[j := default 0 (freq !! j) + 1]> freq)
        (replicate 101 0) (seqZ 0 HASH_TABLE_SIZE).

Definition htdist (ht : table) (w : world) : world :=
  let freq := htdist_freq ht in
  let w := eprint (lit "entries_per_bucket number_of_buckets
") w in
  let w :=
    foldl (fun w k =>
             let f := default 0 (freq !! Z.to_nat k) in
             if f =? 0 then w
             else eprint (ulong_str k ++ lit " " ++ ulong_str f ++ lit "
") w)
          w (seqZ 0 100) in
  let f := default 0 (freq !! 100%nat) in
  if f =? 0 then w else eprint (lit ">=100 " ++ ulong_str f ++ lit "
") w.

(** ** Macro calls *)

(** A frame of the stack of nested macro calls; [arg_buf] has ten slots, of
    which slot 0 stays NULL. *)
Record mcall := {
  mc_name : list ascii;
  mc_def : option (list ascii);
  bracket_depth : Z;
  act_arg : Z;
  arg_buf : list (option buf)
}.

Definition init_mcall (w : world) : option mcall * world :=
  let '(ok, w) := alloc w in
  if negb ok then (None, w)
  else
    let '(b, w) := init_buf w in
    match b with
    | None => (None, w)
    | Some b =>
        (Some {| mc_name := []; mc_def := None; bracket_depth := 0;
                 act_arg := 1;
                 arg_buf := <[1%nat := Some b]> (replicate 10 None) |}, w)
    end.

Definition stack_on_mcall (stack : list mcall) (w : world)
  : Z * list mcall * world :=
  let '(t, w) := init_mcall w in
  match t with
  | None => (1, stack, w)
  | Some t => (0, t :: stack, w)
  end.

(** [*(stack->arg_buf + n)], a NULL pointer when the slot is empty. *)
Definition arg_slot (m : mcall) (n : Z) : option buf :=
  if n <? 0 then None else mjoin (arg_buf m !! Z.to_nat n).

(** [*(m->arg_buf + j)] in the loops that walk the slots until a NULL one:
    the array has the slots 0 to 9, and the read of slot 10, one past its
    end, has no meaning in C ([None]). *)
Definition read_slot (m : mcall) (j : Z) : option (option buf) :=
  if (0 <=? j) && (j <? 10) then Some (arg_slot m j) else None.

(** [free_mcall], of which only the walk over the slots matters: the loop
    tests [*(m->arg_buf + j) != NULL] before [j < 10], so that it reads
    slot 10 when the slots 1 to 9 are all in use.  The walk ends after nine
    steps at the latest. *)
Fixpoint free_mcall_loop (fuel : nat) (j : Z) (m : mcall) : option unit :=
  match fuel with
  | O => None
  | S fuel =>
      match read_slot m j with
      | None => None
      | Some None => Some tt
      | Some (Some _) =>
          if j <? 10 then free_mcall_loop fuel (j + 1) m else Some tt
      end
  end.
Definition free_mcall (m : mcall) : option unit := free_mcall_loop 10 1 m.

(** The stack without its head, or [None] when freeing the head has no
    meaning. *)
Definition delete_stack_head (stack : list mcall) : option (list mcall) :=
  match stack with
  | [] => Some []
  | m :: stack' =>
      match free_mcall m with
      | Some _ => Some stack'
      | None => None
      end
  end.

Fixpoint free_stack (stack : list mcall) : option unit :=
  match stack with
  | [] => Some tt
  | m :: next =>
      match free_mcall m with
      | Some _ => free_stack next
      | None => None
      end
  end.

Section Calls.

Context {platform : Platform}.

(** The walk of [sub_args] over the definition. *)
Fixpoint sub_args_loop (x : list ascii) (result : buf) (m : mcall)
    (w : world) : Z * buf * world :=
  match x with
  | [] => (0, result, w)
  | ch :: x' =>
      let plain k :=
        let '(r, result, w) := ungetch result (char_to_int ch) w in
        if r =? EOF then (1, result, w) else k result w in
      if bool_decide (ch = "$"%char) then
        match x' with
        | h :: x'' =>
            if isdigit (char_to_int h) && negb (bool_decide (h = "0"%char))
            then
              (* Arg *)
              match arg_slot m (char_to_int h - 48) with
              | Some b =>
                  let '(r, result, w) :=
                    if BUF_FREE_SIZE result <? b_i b
                    then grow_buf result (b_i b) w else (0, result, w) in
                  if negb (r =? 0) then (1, result, w)
                  else sub_args_loop x'' (append result (b_a b)) m w
              | None => sub_args_loop x'' result m w
              end
            else plain (fun result w => sub_args_loop x' result m w)
        | [] => plain (fun result w => sub_args_loop x' result m w)
        end
      else plain (fun result w => sub_args_loop x' result m w)
  end.

(** [stack->def] is not NULL when [sub_args] is called. *)
Definition sub_args (result : buf) (m : mcall) (w : world)
  : Z * buf * world :=
  let result := delete_buf result in
  let '(r, result, w) :=
    sub_args_loop (cstr (default [] (mc_def m))) result m w in
  if negb (r =? 0) then (1, result, w)
  else
    let '(r, result, w) := ungetch result 0 w in
    if r =? EOF then (1, result, w) else (0, result, w).

Fixpoint strip_def_loop (x : list ascii) : list ascii :=
  match x with
  | [] => []
  | ch :: x' =>
      if bool_decide (ch = "$"%char) then
        match x' with
        | h :: x'' =>
            if isdigit (char_to_int h) && negb (bool_decide (h = "0"%char))
            then strip_def_loop x''
            else ch :: strip_def_loop x'
        | [] => ch :: strip_def_loop x'
        end
      else ch :: strip_def_loop x'
  end.

Definition strip_def (def : list ascii) (w : world)
  : option (list ascii) * world :=
  let '(d, w) := strdup def w in
  match d with
  | None => (None, w)
  | Some _ => (Some (strip_def_loop (cstr def)), w)
  end.

(** The slots are walked from 1 until the first NULL one; as in
    [free_mcall] the slot is read before [j < 10] is tested, so that slot 10
    is read when the slots 1 to 9 are all in use ([None]).  The walk ends
    after nine steps at the latest. *)
Fixpoint terminate_args_loop (fuel : nat) (j : Z) (m : mcall) (w : world)
  : option (Z * mcall * world) :=
  match fuel with
  | O => None
  | S fuel =>
      match read_slot m j with
      | None => None
      | Some None => Some (0, m, w)
      | Some (Some b) =>
          if j <? 10 then
            let '(r, b, w) := ungetch b 0 w in
            let m := {| mc_name := mc_name m; mc_def := mc_def m;
                        bracket_depth := bracket_depth m;
                        act_arg := act_arg m;
                        arg_buf := <[Z.to_nat j := Some b]> (arg_buf m) |} in
            if negb (r =? 0) then Some (1, m, w)
            else terminate_args_loop fuel (j + 1) m w
          else Some (0, m, w)
      end
  end.
Definition terminate_args (m : mcall) (w : world)
  : option (Z * mcall * world) :=
  terminate_args_loop 10 1 m w.

(** [str_to_num]: the number, or [None] for the result 1. *)
Fixpoint str_to_num_loop (x : list ascii) (n : Z) : option Z :=
  match x with
  | [] => Some n
  | ch :: x' =>
      if isdigit (char_to_int ch) then
        if MOF n 10 then None
        else
          let n := n * 10 in
          if AOF n (char_to_int ch - 48) then None
          else str_to_num_loop x' (n + (char_to_int ch - 48))
      else None
  end.
Definition str_to_num (x : list ascii) : option Z :=
  match cstr x with
  | [] => None
  | x => str_to_num_loop x 0
  end.

Definition buf_dump_buf (dst src : buf) (w : world)
  : Z * buf * buf * world :=
  let '(r, dst, w) :=
    if BUF_FREE_SIZE dst <? b_i src then grow_buf dst (b_i src) w
    else (0, dst, w) in
  if negb (r =? 0) then (1, dst, src, w)
  else (0, append dst (b_a src), delete_buf src, w).

End Calls.

(** ** Files *)

Definition file_lookup (w : world) (fn : list ascii) : option file :=
  snd <$> find (fun f => streq (cstr fn) (fst f)) (files w).

(** [filesize]: the size, or [None] for the result 1. *)
Definition filesize (fn : list ascii) (w : world) : option Z :=
  match file_lookup w fn with
  | None => None
  | Some f => if st_size f <? 0 then None else Some (wrap (st_size f))
  end.

(** [while ((x = getc(fp)) != EOF) *(b->a + --back_i) = x;] on the bytes
    [x] that [getc] delivers and the array [a].  Nothing bounds the loop: a
    file that delivers more bytes than [stat] reported is stored over the
    bytes that the buffer holds, and when [back_i] is 0 the decrement wraps
    around and the store is outside the array ([None]).  The result is the
    final [back_i] and the array. *)
Fixpoint include_loop (x : list ascii) (back_i : Z) (a : list ascii)
  : option (Z * list ascii) :=
  match x with
  | [] => Some (back_i, a)
  | c :: x' =>
      if back_i =? 0 then None
      else include_loop x' (back_i - 1) (<[Z.to_nat (back_i - 1) := c]> a)
  end.

(** The file is stored last byte first from [a[i + fs - 1]] downwards, so
    that its first byte is read first.  The array is followed here from
    [a[0]] to [a[i + fs - 1]]; the bytes from [a[i]] on, which are never read
    before they are stored, start as NUL bytes.  [None] stands for a store
    outside the array. *)
Definition include (b : buf) (fn : list ascii) (w : world)
  : option (Z * buf * world) :=
  match filesize fn w with
  | None => Some (1, b, w)
  | Some fs =>
      let '(r, b, w) :=
        if BUF_FREE_SIZE b <? fs then grow_buf b fs w else (0, b, w) in
      if negb (r =? 0) then Some (1, b, w)
      else
        match file_lookup w fn with
        | None => Some (1, b, w)
        | Some f =>
            (* fopen *)
            if negb (opens f) then Some (1, b, w)
            else
              match include_loop (bytes f) (b_i b + fs)
                      (b_a b ++ replicate (Z.to_nat fs) NUL) with
              | None => None
              | Some (back_i, a) =>
                  (* the buffer with [b->i] as it was *)
                  let b' := {| b_a := take (length (b_a b)) a;
                               b_s := b_s b |} in
                  if read_errno f then Some (1, b', w)
                  else if negb (closes f) then Some (1, b', w)
                  else if negb (back_i =? b_i b) then Some (1, b', w)
                  else Some (0, {| b_a := a; b_s := b_s b |}, w)
              end
        end
  end.

(** ** The engine *)

(** Where [output] points: at a diversion, or at an argument buffer of the
    head of the stack. *)
Inductive sink := Diversion (n : Z) | Argument (n : Z).

(** The variables of [main] that live across the rounds of its loop. *)
Record m4 := {
  input : buf;
  token : buf;
  next_token : buf;
  result : buf;
  ht : table;
  quote_on : bool;
  quote_depth : Z;
  act_div : Z;
  diversion : list buf;
  output : sink;
  left_quote : ascii;
  right_quote : ascii;
  stack : list mcall;
  read_stdin : bool;
  env : world
}.

Definition set_input (x : buf) (st : m4) : m4 :=
  {| input := x; token := token st; next_token := next_token st; result :=
     result st; ht := ht st; quote_on := quote_on st; quote_depth :=
     quote_depth st; act_div := act_div st; diversion := diversion st;
     output := output st; left_quote := left_quote st; right_quote :=
     right_quote st; stack := stack st; read_stdin := read_stdin st; env
     := env st |}.
Definition set_token (x : buf) (st : m4) : m4 :=
  {| input := input st; token := x; next_token := next_token st; result :=
     result st; ht := ht st; quote_on := quote_on st; quote_depth :=
     quote_depth st; act_div := act_div st; diversion := diversion st;
     output := output st; left_quote := left_quote st; right_quote :=
     right_quote st; stack := stack st; read_stdin := read_stdin st; env
     := env st |}.
Definition set_next_token (x : buf) (st : m4) : m4 :=
  {| input := input st; token := token st; next_token := x; result :=
     result st; ht := ht st; quote_on := quote_on st; quote_depth :=
     quote_depth st; act_div := act_div st; diversion := diversion st;
     output := output st; left_quote := left_quote st; right_quote :=
     right_quote st; stack := stack st; read_stdin := read_stdin st; env
     := env st |}.
Definition set_result (x : buf) (st : m4) : m4 :=
  {| input := input st; token := token st; next_token := next_token st;
     result := x; ht := ht st; quote_on := quote_on st; quote_depth :=
     quote_depth st; act_div := act_div st; diversion := diversion st;
     output := output st; left_quote := left_quote st; right_quote :=
     right_quote st; stack := stack st; read_stdin := read_stdin st; env
     := env st |}.
Definition set_ht (x : table) (st : m4) : m4 :=
  {| input := input st; token := token st; next_token := next_token st;
     result := result st; ht := x; quote_on := quote_on st; quote_depth :=
     quote_depth st; act_div := act_div st; diversion := diversion st;
     output := output st; left_quote := left_quote st; right_quote :=
     right_quote st; stack := stack st; read_stdin := read_stdin st; env
     := env st |}.
Definition set_quote_on (x : bool) (st : m4) : m4 :=
  {| input := input st; token := token st; next_token := next_token st;
     result := result st; ht := ht st; quote_on := x; quote_depth :=
     quote_depth st; act_div := act_div st; diversion := diversion st;
     output := output st; left_quote := left_quote st; right_quote :=
     right_quote st; stack := stack st; read_stdin := read_stdin st; env
     := env st |}.
Definition set_quote_depth (x : Z) (st : m4) : m4 :=
  {| input := input st; token := token st; next_token := next_token st;
     result := result st; ht := ht st; quote_on := quote_on st;
     quote_depth := x; act_div := act_div st; diversion := diversion st;
     output := output st; left_quote := left_quote st; right_quote :=
     right_quote st; stack := stack st; read_stdin := read_stdin st; env
     := env st |}.
Definition set_act_div (x : Z) (st : m4) : m4 :=
  {| input := input st; token := token st; next_token := next_token st;
     result := result st; ht := ht st; quote_on := quote_on st;
     quote_depth := quote_depth st; act_div := x; diversion := diversion
     st; output := output st; left_quote := left_quote st; right_quote :=
     right_quote st; stack := stack st; read_stdin := read_stdin st; env
     := env st |}.
Definition set_diversion (x : list buf) (st : m4) : m4 :=
  {| input := input st; token := token st; next_token := next_token st;
     result := result st; ht := ht st; quote_on := quote_on st;
     quote_depth := quote_depth st; act_div := act_div st; diversion := x;
     output := output st; left_quote := left_quote st; right_quote :=
     right_quote st; stack := stack st; read_stdin := read_stdin st; env
     := env st |}.
Definition set_output (x : sink) (st : m4) : m4 :=
  {| input := input st; token := token st; next_token := next_token st;
     result := result st; ht := ht st; quote_on := quote_on st;
     quote_depth := quote_depth st; act_div := act_div st; diversion :=
     diversion st; output := x; left_quote := left_quote st; right_quote
     := right_quote st; stack := stack st; read_stdin := read_stdin st;
     env := env st |}.
Definition set_left_quote (x : ascii) (st : m4) : m4 :=
  {| input := input st; token := token st; next_token := next_token st;
     result := result st; ht := ht st; quote_on := quote_on st;
     quote_depth := quote_depth st; act_div := act_div st; diversion :=
     diversion st; output := output st; left_quote := x; right_quote :=
     right_quote st; stack := stack st; read_stdin := read_stdin st; env
     := env st |}.
Definition set_right_quote (x : ascii) (st : m4) : m4 :=
  {| input := input st; token := token st; next_token := next_token st;
     result := result st; ht := ht st; quote_on := quote_on st;
     quote_depth := quote_depth st; act_div := act_div st; diversion :=
     diversion st; output := output st; left_quote := left_quote st;
     right_quote := x; stack := stack st; read_stdin := read_stdin st; env
     := env st |}.
Definition set_stack (x : list mcall) (st : m4) : m4 :=
  {| input := input st; token := token st; next_token := next_token st;
     result := result st; ht := ht st; quote_on := quote_on st;
     quote_depth := quote_depth st; act_div := act_div st; diversion :=
     diversion st; output := output st; left_quote := left_quote st;
     right_quote := right_quote st; stack := x; read_stdin := read_stdin
     st; env := env st |}.
Definition set_read_stdin (x : bool) (st : m4) : m4 :=
  {| input := input st; token := token st; next_token := next_token st;
     result := result st; ht := ht st; quote_on := quote_on st;
     quote_depth := quote_depth st; act_div := act_div st; diversion :=
     diversion st; output := output st; left_quote := left_quote st;
     right_quote := right_quote st; stack := stack st; read_stdin := x;
     env := env st |}.
Definition set_env (x : world) (st : m4) : m4 :=
  {| input := input st; token := token st; next_token := next_token st;
     result := result st; ht := ht st; quote_on := quote_on st;
     quote_depth := quote_depth st; act_div := act_div st; diversion :=
     diversion st; output := output st; left_quote := left_quote st;
     right_quote := right_quote st; stack := stack st; read_stdin :=
     read_stdin st; env := x |}.

(** How a piece of [main] ends: it falls through to the next statement, it
    runs [QUIT] ([ret = 1; goto clean_up]), it jumps to [end_of_input], it
    does something that C gives no meaning to, or the model is out of
    fuel. *)
Inductive outcome (A : Type) : Type :=
| Ret (x : A) (st : m4)
| Quit (st : m4)
| EndOfInput (st : m4)
| Undefined
| Timeout.
Arguments Ret {A} x st.
Arguments Quit {A} st.
Arguments EndOfInput {A} st.
Arguments Undefined {A}.
Arguments Timeout {A}.

Definition M (A : Type) : Type := m4 -> outcome A.

Definition ret {A} (x : A) : M A := fun st => Ret x st.
Definition bind {A B} (c : M A) (k : A -> M B) : M B := fun st =>
  match c st with
  | Ret x st' => k x st'
  | Quit st' => Quit st'
  | EndOfInput st' => EndOfInput st'
  | Undefined => Undefined
  | Timeout => Timeout
  end.

Notation "'let*' x ':=' c 'in' k" := (bind c (fun x => k))
  (at level 10, x binder, k at level 200).
Notation "c ;;; k" := (bind c (fun _ => k))
  (at level 100, k at level 200, right associativity).

Definition get : M m4 := fun st => Ret st st.
Definition modify (f : m4 -> m4) : M unit := fun st => Ret tt (f st).
Definition QUIT {A} : M A := fun st => Quit st.
Definition undefined {A} : M A := fun _ => Undefined.

Definition EMSG (m : string) : M unit :=
  modify (fun st => set_env (eprint (lit m ++ [to_char 10]) (env st)) st).
Definition EQUIT {A} (m : string) : M A := EMSG m ;;; QUIT.

Fixpoint for_each {A} (l : list A) (f : A -> M unit) : M unit :=
  match l with
  | [] => ret tt
  | k :: l' => f k ;;; for_each l' f
  end.

(** A call of a function on a buffer of the engine, with the test of its
    result: [if (f(b, ...)) QUIT;]. *)
Definition on_buf (b : m4 -> buf) (set_b : buf -> m4 -> m4)
    (f : buf -> world -> Z * buf * world) : M unit := fun st =>
  let '(r, b', w) := f (b st) (env st) in
  let st := set_env w (set_b b' st) in
  if negb (r =? 0) then Quit st else Ret tt st.

Section Engine.

Context {platform : Platform}.

Definition unget_input (x : list ascii) : M unit :=
  on_buf input set_input (fun b => ungetstr b x).

(** [TS] and [NTS]: the token and the next token as strings. *)
Definition TS (st : m4) : list ascii := cstr (b_a (token st)).
Definition NTS (st : m4) : list ascii := cstr (b_a (next_token st)).

(** [DIV(n)] *)
Definition DIV (st : m4) (n : Z) : option buf :=
  if n <? 0 then None else diversion st !! Z.to_nat n.
Definition set_DIV (n : Z) (b : buf) (st : m4) : m4 :=
  set_diversion (<[Z.to_nat n := b]> (diversion st)) st.

Definition set_arg_buf (n : Z) (b : buf) (m : mcall) : mcall :=
  {| mc_name := mc_name m; mc_def := mc_def m;
     bracket_depth := bracket_depth m; act_arg := act_arg m;
     arg_buf := <[Z.to_nat n := Some b]> (arg_buf m) |}.
Definition set_bracket_depth (d : Z) (m : mcall) : mcall :=
  {| mc_name := mc_name m; mc_def := mc_def m; bracket_depth := d;
     act_arg := act_arg m; arg_buf := arg_buf m |}.
Definition set_act_arg (n : Z) (m : mcall) : mcall :=
  {| mc_name := mc_name m; mc_def := mc_def m;
     bracket_depth := bracket_depth m; act_arg := n;
     arg_buf := arg_buf m |}.
Definition set_name_def (n : list ascii) (d : option (list ascii))
    (m : mcall) : mcall :=
  {| mc_name := n; mc_def := d; bracket_depth := bracket_depth m;
     act_arg := act_arg m; arg_buf := arg_buf m |}.

(** [SET_OUTPUT] *)
Definition SET_OUTPUT : M unit :=
  modify (fun st =>
            set_output (match stack st with
                        | [] => Diversion (act_div st)
                        | m :: _ => Argument (act_arg m)
                        end) st).

(** [if (put_str(output, x)) QUIT;] *)
Definition put_output (x : list ascii) : M unit := fun st =>
  match output st with
  | Diversion n =>
      match DIV st n with
      | Some b =>
          let '(r, b, w) := put_str b x (env st) in
          let st := set_env w (set_DIV n b st) in
          if negb (r =? 0) then Quit st else Ret tt st
      | None => Undefined
      end
  | Argument n =>
      match stack st with
      | m :: stack' =>
          match arg_slot m n with
          | Some b =>
              let '(r, b, w) := put_str b x (env st) in
              let st := set_env w (set_stack (set_arg_buf n b m :: stack') st) in
              if negb (r =? 0) then Quit st else Ret tt st
          | None => Undefined
          end
      | [] => Undefined
      end
  end.

(** [OUT_DIV(n)] *)
Definition OUT_DIV (n : Z) : M unit := fun st =>
  match DIV st n with
  | Some d =>
      if negb (b_i d =? 0) then
        let '(c, w) := fwrite (b_a d) (env st) in
        if negb (c =? b_i d) then Quit (set_env w st)
        else Ret tt (set_DIV n (delete_buf d) (set_env w st))
      else Ret tt (set_DIV n (delete_buf d) st)
  | None => Undefined
  end.

(** [UNDIVERT_ALL] *)
Definition UNDIVERT_ALL : M unit := for_each (seqZ 0 10) OUT_DIV.

(** [WS(s)] *)
Definition WS (x : list ascii) : bool :=
  streq x (lit " ") || streq x [to_char 9] || streq x [to_char 10]
  || streq x [to_char 13].

(** [REMOVE_SH] *)
Definition REMOVE_SH : M unit :=
  (fun st =>
     match delete_stack_head (stack st) with
     | Some stack' => Ret tt (set_stack stack' st)
     | None => Undefined
     end) ;;;
  SET_OUTPUT.

(** [ARG(n)] on the head [m] of the stack. *)
Definition ARG (m : mcall) (n : Z) : list ascii :=
  match arg_slot m n with
  | None => []
  | Some b => cstr (b_a b)
  end.

(** [READ_TOKEN(t)], for [t] the token or the next token. *)
Definition READ_TOKEN (t : m4 -> buf) (set_t : buf -> m4 -> m4) : M unit :=
  fun st =>
    let '(r, err, tk, inp, w) :=
      getword (t st) (input st) (read_stdin st) (env st) in
    let st := set_env w (set_input inp (set_t tk st)) in
    if negb (r =? 0) then (if err then Quit st else EndOfInput st)
    else Ret tt st.

(** The bytes that are left to read: every token takes at least one. *)
Definition pending (st : m4) : nat :=
  length (b_a (input st)) + length (stdin (env st)).

(** [EAT_WS] *)
Fixpoint EAT_WS_loop (fuel : nat) : M unit :=
  match fuel with
  | O => fun _ => Timeout
  | S fuel =>
      READ_TOKEN next_token set_next_token ;;;
      let* st := get in
      if WS (NTS st) then EAT_WS_loop fuel else ret tt
  end.
Definition EAT_WS : M unit :=
  let* st := get in
  EAT_WS_loop (S (pending st)) ;;;
  let* st := get in
  unget_input (NTS st).

(** [DNL] *)
Fixpoint DNL_loop (fuel : nat) : M unit :=
  match fuel with
  | O => fun _ => Timeout
  | S fuel =>
      READ_TOKEN next_token set_next_token ;;;
      let* st := get in
      if negb (streq (NTS st) [to_char 10]) then DNL_loop fuel else ret tt
  end.
Definition DNL : M unit :=
  let* st := get in DNL_loop (S (pending st)).

(** [DIVNUM] *)
Definition DIVNUM : M unit :=
  let* st := get in
  unget_input (if act_div st =? 10 then lit "-1" else ulong_str (act_div st)).

(** [ISMACRO(s)], with the entry [e] that it leaves behind. *)
Definition ISMACRO (ht : table) (x : list ascii) : option entry :=
  let c := char_to_int (default NUL (head x)) in
  if isalpha c || (c =? 95) then lookup_entry ht x else None.

Definition DIRSEP : list ascii := lit "/".

(** ** Built-in macros *)

(** The map of [translit] is [int map[UCHAR_MAX]]: indices 0 to
    [UCHAR_MAX - 1].  An access outside the array has no meaning in C and
    is [None] here. *)
Definition map_init : list Z := replicate (Z.to_nat UCHAR_MAX) (-1).

Definition map_read (map : list Z) (uc : ascii) : option Z :=
  map !! Z.to_nat (code uc).
Definition map_write (map : list Z) (uc : ascii) (x : Z) : option (list Z) :=
  if code uc <? Z.of_nat (length map)
  then Some (<[Z.to_nat (code uc) := x]> map) else None.

(** Continue first string, setting mapping to delete. *)
Fixpoint translit_delete (p : list ascii) (map : list Z)
  : option (list Z) :=
  match p with
  | [] => Some map
  | uc :: p' =>
      match map_write map uc 0 with
      | Some map => translit_delete p' map
      | None => None
      end
  end.

(** Create mapping while strings are in parallel. *)
Fixpoint translit_pairs (p q : list ascii) (map : list Z)
  : option (list Z) :=
  match p with
  | [] => Some map
  | uc :: p' =>
      match q with
      | [] => translit_delete p map
      | uc2 :: q' =>
          match map_read map uc with
          | Some x =>
              (* Preference to first occurrence *)
              if x =? -1 then
                match map_write map uc (code uc2) with
                | Some map => translit_pairs p' q' map
                | None => None
                end
              else translit_pairs p' q' map
          | None => None
          end
      end
  end.

Fixpoint translit_apply (p : list ascii) (map : list Z)
  : option (list ascii) :=
  match p with
  | [] => Some []
  | uc :: p' =>
      match map_read map uc with
      | Some x =>
          match translit_apply p' map with
          | Some q =>
              Some (if x =? -1 then uc :: q
                    else if negb (x =? 0) then to_char x :: q
                    else q)
          | None => None
          end
      | None => None
      end
  end.

(** [strdup] and [malloc] in [main]: [if ((p = ...) == NULL) QUIT;] *)
Definition must_alloc : M unit := fun st =>
  let '(ok, w) := alloc (env st) in
  if ok then Ret tt (set_env w st) else Quit (set_env w st).

Definition bi_translit (m : mcall) : M unit :=
  match translit_pairs (ARG m 2) (ARG m 3) map_init with
  | None => undefined
  | Some map =>
      must_alloc ;;;
      match translit_apply (ARG m 1) map with
      | None => undefined
      | Some tmp_str => unget_input tmp_str
      end
  end.

Definition bi_changequote (m : mcall) : M unit :=
  match ARG m 1, ARG m 2 with
  | [l], [r] =>
      if bool_decide (l = r)
         || negb (isgraph (char_to_int l)) || negb (isgraph (char_to_int r))
         || bool_decide (l = "("%char) || bool_decide (r = "("%char)
         || bool_decide (l = ")"%char) || bool_decide (r = ")"%char)
         || bool_decide (l = ","%char) || bool_decide (r = ","%char)
      then EQUIT ("changequote: quotes must be different single graph chars"
                  ++ " that cannot a comma or parentheses")
      else modify (fun st => set_right_quote r (set_left_quote l st))
  | _, _ =>
      EQUIT ("changequote: quotes must be different single graph chars"
             ++ " that cannot a comma or parentheses")
  end.

(** A string that is one digit. *)
Definition one_digit (x : list ascii) : option Z :=
  match x with
  | [c] => if isdigit (char_to_int c) then Some (char_to_int c - 48) else None
  | _ => None
  end.

Definition bi_divert (m : mcall) : M unit :=
  match one_digit (ARG m 1) with
  | Some d => modify (set_act_div d) ;;; SET_OUTPUT
  | None =>
      if streq (ARG m 1) (lit "-1") then modify (set_act_div 10) ;;; SET_OUTPUT
      else EQUIT "divert: Diversion number must be 0 to 9 or -1"
  end.

Definition bi_dumpdef (m : mcall) : M unit :=
  for_each (seqZ 1 9) (fun k =>
    let* st := get in
    match ISMACRO (ht st) (ARG m k) with
    | Some e =>
        modify (fun st =>
          set_env (eprint (ARG m k ++ lit ": "
                           ++ default (lit "built-in") (e_def e)
                           ++ [to_char 10]) (env st)) st)
    | None =>
        if negb (streq (ARG m k) []) then
          modify (fun st =>
            set_env (eprint (ARG m k ++ lit ": undefined" ++ [to_char 10])
                       (env st)) st)
        else ret tt
    end).

Definition bi_errprint (m : mcall) : M unit :=
  for_each (seqZ 1 9) (fun k =>
    if negb (streq (ARG m k) []) then
      modify (fun st => set_env (eprint (ARG m k ++ [to_char 10]) (env st)) st)
    else ret tt).

Definition bi_ifdef (m : mcall) : M unit :=
  let* st := get in
  unget_input (match ISMACRO (ht st) (ARG m 1) with
               | Some _ => ARG m 2
               | None => ARG m 3
               end).

Definition bi_ifelse (m : mcall) : M unit :=
  unget_input (if streq (ARG m 1) (ARG m 2) then ARG m 3 else ARG m 4).

Definition bi_include (m : mcall) : M unit := fun st =>
  match include (input st) (ARG m 1) (env st) with
  | None => Undefined
  | Some (r, b, w) =>
      let st := set_env w (set_input b st) in
      if negb (r =? 0) then
        Quit (set_env (eprint (lit "include: Failed to include file: "
                               ++ ARG m 1 ++ [to_char 10]) (env st)) st)
      else Ret tt st
  end.

Definition bi_len (m : mcall) : M unit :=
  unget_input (ulong_str (Z.of_nat (length (ARG m 1)))).

Definition bi_index (m : mcall) : M unit :=
  unget_input (match strstr (ARG m 1) (ARG m 2) with
               | None => lit "-1"
               | Some off => ulong_str off
               end).

Definition bi_substr (m : mcall) : M unit :=
  let len := Z.of_nat (length (ARG m 1)) in
  if len =? 0 then ret tt
  else
    match str_to_num (ARG m 2), str_to_num (ARG m 3) with
    | Some w, Some n =>
        if w <? len then
          must_alloc ;;;
          if AOF n 1 then QUIT
          else
            (* snprintf(tmp_str, MIN(len + 1, n + 1), "%s", ARG(1) + w) *)
            unget_input (take (Z.to_nat (MIN (len + 1) (n + 1) - 1))
                           (drop (Z.to_nat w) (ARG m 1)))
        else ret tt
    | _, _ => EQUIT "substr: Invalid index or length"
    end.

Definition bi_undivert (m : mcall) : M unit :=
  let* st := get in
  if act_div st =? 0 then
    (* In diversion 0 *)
    for_each (seqZ 1 9) (fun k =>
      match one_digit (ARG m k) with
      | Some d => if negb (d =? 0) then OUT_DIV d else ret tt
      | None => ret tt
      end)
  else
    (* Cannot undivert division 0 or the active diversion *)
    for_each (seqZ 1 9) (fun k =>
      match one_digit (ARG m k) with
      | Some d =>
          if negb (d =? 0) && negb (d =? act_div st) then
            fun st =>
              match DIV st (act_div st), DIV st d with
              | Some dst, Some src =>
                  let '(r, dst, src, w) := buf_dump_buf dst src (env st) in
                  let st :=
                    set_env w (set_DIV d src (set_DIV (act_div st) dst st)) in
                  if negb (r =? 0) then Quit st else Ret tt st
              | _, _ => Undefined
              end
          else ret tt
      | None => ret tt
      end).

Definition bi_incr (m : mcall) : M unit :=
  match str_to_num (ARG m 1) with
  | None => EQUIT "incr: Invalid number"
  | Some n =>
      if AOF n 1 then EQUIT "incr: Integer overflow"
      else unget_input (ulong_str (n + 1))
  end.

Definition bi_htdist : M unit :=
  modify (fun st => set_env (htdist (ht st) (env st)) st).

Definition bi_dirsep : M unit := unget_input DIRSEP.

(** The loop of the arithmetic macros over the arguments [ks]: an empty
    argument is passed over, any other must be a number, which [step]
    combines with the running value [w]. *)
Fixpoint arith_loop (ks : list Z) (m : mcall) (invalid : string)
    (step : Z -> Z -> M Z) (w : Z) : M Z :=
  match ks with
  | [] => ret w
  | k :: ks' =>
      if negb (streq (ARG m k) []) then
        match str_to_num (ARG m k) with
        | None => EQUIT invalid
        | Some n => let* w := step w n in arith_loop ks' m invalid step w
        end
      else arith_loop ks' m invalid step w
  end.

Definition bi_add (m : mcall) : M unit :=
  let* w :=
    arith_loop (seqZ 1 9) m "add: Invalid number"
      (fun w n => if AOF w n then EQUIT "add: Integer overflow"
                  else ret (w + n)) 0 in
  unget_input (ulong_str w).

Definition bi_mult (m : mcall) : M unit :=
  let* w :=
    arith_loop (seqZ 1 9) m "mult: Invalid number"
      (fun w n => if MOF w n then EQUIT "mult: Integer overflow"
                  else ret (w * n)) 1 in
  unget_input (ulong_str w).

(** [sub], [div] and [mod] start from argument 1. *)
Definition arith_from_arg1 (m : mcall) (unused invalid : string)
    (step : Z -> Z -> M Z) : M unit :=
  if streq (ARG m 1) [] then EQUIT unused
  else
    match str_to_num (ARG m 1) with
    | None => EQUIT invalid
    | Some w =>
        let* w := arith_loop (seqZ 2 8) m invalid step w in
        unget_input (ulong_str w)
    end.

Definition bi_sub (m : mcall) : M unit :=
  arith_from_arg1 m "sub: Argument 1 must be used" "sub: Invalid number"
    (fun w n => if w <? n then EQUIT "sub: Integer underflow"
                else ret (w - n)).

Definition bi_div (m : mcall) : M unit :=
  arith_from_arg1 m "div: Argument 1 must be used" "div: Invalid number"
    (fun w n => if n =? 0 then EQUIT "div: Divide by zero"
                else ret (w / n)).

Definition bi_mod (m : mcall) : M unit :=
  arith_from_arg1 m "mod: Argument 1 must be used" "mod: Invalid number"
    (fun w n => if n =? 0 then EQUIT "mod: Modulo by zero"
                else ret (w mod n)).

Definition bi_define (m : mcall) : M unit := fun st =>
  let '(r, t, w) := upsert_entry (ht st) (ARG m 1) (Some (ARG m 2)) (env st) in
  let st := set_env w (set_ht t st) in
  if negb (r =? 0) then Quit st else Ret tt st.

Definition bi_undefine (m : mcall) : M unit := fun st =>
  let '(r, t) := delete_entry (ht st) (ARG m 1) in
  let st := set_ht t st in
  if negb (r =? 0) then Quit st else Ret tt st.

(** [PROCESS_BI_WITH_ARGS], on the head [m] of the stack. *)
Definition PROCESS_BI_WITH_ARGS (m : mcall) : M unit :=
  let SN := mc_name m in
  if streq SN (lit "define") then bi_define m
  else if streq SN (lit "undefine") then bi_undefine m
  else if streq SN (lit "changequote") then bi_changequote m
  else if streq SN (lit "divert") then bi_divert m
  else if streq SN (lit "dumpdef") then bi_dumpdef m
  else if streq SN (lit "errprint") then bi_errprint m
  else if streq SN (lit "ifdef") then bi_ifdef m
  else if streq SN (lit "ifelse") then bi_ifelse m
  else if streq SN (lit "include") then bi_include m
  else if streq SN (lit "len") then bi_len m
  else if streq SN (lit "index") then bi_index m
  else if streq SN (lit "translit") then bi_translit m
  else if streq SN (lit "substr") then bi_substr m
  else if streq SN (lit "undivert") then bi_undivert m
  else if streq SN (lit "dnl") then DNL
  else if streq SN (lit "divnum") then DIVNUM
  else if streq SN (lit "incr") then bi_incr m
  else if streq SN (lit "htdist") then bi_htdist
  else if streq SN (lit "dirsep") then bi_dirsep
  else if streq SN (lit "add") then bi_add m
  else if streq SN (lit "mult") then bi_mult m
  else if streq SN (lit "sub") then bi_sub m
  else if streq SN (lit "div") then bi_div m
  else if streq SN (lit "mod") then bi_mod m
  else ret tt.

(** [PROCESS_BI_NO_ARGS], on the token. *)
Definition PROCESS_BI_NO_ARGS : M unit :=
  let* st := get in
  if streq (TS st) (lit "dnl") then DNL
  else if streq (TS st) (lit "divnum") then DIVNUM
  else if streq (TS st) (lit "undivert") then
    if negb (act_div st =? 0) then
      EQUIT ("undivert: Can only call from diversion 0"
             ++ " when called without arguments")
    else UNDIVERT_ALL
  else if streq (TS st) (lit "divert") then
    modify (set_act_div 0) ;;; SET_OUTPUT
  else if streq (TS st) (lit "htdist") then bi_htdist
  else if streq (TS st) (lit "dirsep") then bi_dirsep
  else
    (* The remaining macros must take arguments, so pass through *)
    put_output (TS st).

(** ** The loop of [main] *)

(** The head of the stack; the branches that use it are guarded by
    [stack != NULL]. *)
Definition on_head (f : mcall -> mcall) : M unit := fun st =>
  match stack st with
  | m :: stack' => Ret tt (set_stack (f m :: stack') st)
  | [] => Undefined
  end.

(** A token that matched the entry [e]. *)
Definition macro_token (e : entry) : M unit :=
  READ_TOKEN next_token set_next_token ;;;
  let* st := get in
  if streq (NTS st) (lit "(") then
    (* Start of macro with arguments: add macro call to stack *)
    (fun st =>
       let '(r, stk, w) := stack_on_mcall (stack st) (env st) in
       let st := set_env w (set_stack stk st) in
       if negb (r =? 0) then Quit st else Ret tt st) ;;;
    (* Copy macro name *)
    must_alloc ;;;
    (* Copy macro definition (built-ins will be NULL) *)
    match e_def e with
    | Some _ => must_alloc
    | None => ret tt
    end ;;;
    on_head (set_name_def (TS st) (e_def e)) ;;;
    (* Increment bracket depth for this first bracket *)
    on_head (fun m => set_bracket_depth (wrap (bracket_depth m + 1)) m) ;;;
    SET_OUTPUT ;;;
    EAT_WS
  else
    (* Macro call without arguments (stack is not used) *)
    unget_input (NTS st) ;;;
    match e_def e with
    | None => PROCESS_BI_NO_ARGS
    | Some d =>
        (* Strip dollar argument positions from definition *)
        let* sd := (fun st =>
                      let '(sd, w) := strip_def d (env st) in
                      match sd with
                      | Some sd => Ret sd (set_env w st)
                      | None => Quit (set_env w st)
                      end) in
        unget_input sd
    end.

(** The head of the stack, where the branch taken has tested
    [stack != NULL]. *)
Definition head_mcall : M mcall := fun st =>
  match stack st with
  | m :: _ => Ret m st
  | [] => Undefined
  end.

(** The tests of the token against the state of the call on the stack. *)
Definition ARG_END (st : m4) : bool :=
  match stack st with
  | m :: _ => (bracket_depth m =? 1) && streq (TS st) (lit ")")
  | [] => false
  end.
Definition NESTED_CB (st : m4) : bool :=
  match stack st with
  | m :: _ => (1 <? bracket_depth m) && streq (TS st) (lit ")")
  | [] => false
  end.
Definition NESTED_OB (st : m4) : bool :=
  match stack st with
  | _ :: _ => streq (TS st) (lit "(")
  | [] => false
  end.
Definition ARG_COMMA (st : m4) : bool :=
  match stack st with
  | m :: _ => (bracket_depth m =? 1) && streq (TS st) (lit ",")
  | [] => false
  end.

(** End of argument collection, up to [REMOVE_SH]. *)
Definition arg_end_call : M unit :=
  (* Decrement bracket depth for bracket just encountered *)
  on_head (fun m => set_bracket_depth (wrap (bracket_depth m - 1)) m) ;;;
  let* m := head_mcall in
  match mc_def m with
  | None =>
      (* Built-in macro *)
      (fun st =>
         match terminate_args m (env st) with
         | None => Undefined
         | Some (r, m, w) =>
             let st := set_env w (set_stack (m :: tail (stack st)) st) in
             if negb (r =? 0) then Quit st else Ret tt st
         end) ;;;
      let* m := head_mcall in
      PROCESS_BI_WITH_ARGS m
  | Some _ =>
      (* User defined macro *)
      on_buf result set_result (fun b => sub_args b m) ;;;
      let* st := get in
      unget_input (b_a (result st))
  end.

(** End of argument collection. *)
Definition arg_end : M unit := arg_end_call ;;; REMOVE_SH.

(** Argument comma in a macro call. *)
Definition arg_comma : M unit :=
  let* m := head_mcall in
  if act_arg m =? 9 then EQUIT "Macro call has too many arguments"
  else
    (* Allocate buffer for argument collection *)
    on_head (set_act_arg (act_arg m + 1)) ;;;
    (fun st =>
       let '(b, w) := init_buf (env st) in
       match b with
       | Some b => on_head (set_arg_buf (act_arg m + 1) b) (set_env w st)
       | None => Quit (set_env w st)
       end) ;;;
    SET_OUTPUT ;;;
    EAT_WS.

(** One round of [while (1)]. *)
Definition m4_round : M unit :=
  (* Write diversion 0 (for interactive use) *)
  OUT_DIV 0 ;;;
  (* Read token *)
  READ_TOKEN token set_token ;;;
  let* st := get in
  if streq (TS st) [left_quote st] then
    modify (set_quote_on true) ;;;
    (if negb (quote_depth st =? 0) then put_output (TS st) else ret tt) ;;;
    modify (set_quote_depth (wrap (quote_depth st + 1)))
  else if streq (TS st) [right_quote st] then
    (if 1 <? quote_depth st then put_output (TS st) else ret tt) ;;;
    modify (set_quote_depth (wrap (quote_depth st - 1))) ;;;
    (if wrap (quote_depth st - 1) =? 0 then modify (set_quote_on false)
     else ret tt)
  else if quote_on st then put_output (TS st)
  else
    match ISMACRO (ht st) (TS st) with
    | Some e => macro_token e
    | None =>
        if ARG_END st then arg_end
        else if ARG_COMMA st then arg_comma
        else if NESTED_CB st then
          put_output (TS st) ;;;
          on_head (fun m => set_bracket_depth (wrap (bracket_depth m - 1)) m)
        else if NESTED_OB st then
          put_output (TS st) ;;;
          on_head (fun m => set_bracket_depth (wrap (bracket_depth m + 1)) m)
        else
          (* Pass through token *)
          put_output (TS st)
    end.

Fixpoint m4_loop (fuel : nat) : M unit :=
  match fuel with
  | O => fun _ => Timeout
  | S fuel => m4_round ;;; m4_loop fuel
  end.

(** From the label [end_of_input] to the jump or the fall through to
    [clean_up], with the value of [ret]. *)
Definition end_of_input : M Z :=
  let* st := get in
  (* Checks *)
  if negb (bool_decide (stack st = [])) then
    EQUIT "Input finished without unwinding the stack"
  else if quote_on st then EQUIT "Input finished without exiting quotes"
  else UNDIVERT_ALL ;;; ret 0.

(** From the label [clean_up] to [return ret].  The code only frees
    memory; [free_stack] walks the argument slots of the frames that are
    left on the stack. *)
Definition clean_up (ret : Z) : M Z := fun st =>
  match free_stack (stack st) with
  | Some _ => Ret ret st
  | None => Undefined
  end.

(** The program from the top of its loop to its exit status. *)
Definition m4_run (fuel : nat) : M Z := fun st =>
  match m4_loop fuel st with
  | EndOfInput st =>
      match end_of_input st with
      | Ret ret st => clean_up ret st
      | Quit st => clean_up 1 st
      | o => o
      end
  | Quit st => clean_up 1 st
  | Ret _ _ => Timeout
  | Undefined => Undefined
  | Timeout => Timeout
  end.

(** ** Start of [main] *)

Definition builtin_names : list (list ascii) :=
  map lit ["define"; "undefine"; "changequote"; "divert"; "dumpdef";
           "errprint"; "ifdef"; "ifelse"; "include"; "len"; "index";
           "translit"; "substr"; "dnl"; "divnum"; "undivert"; "incr";
           "htdist"; "dirsep"; "add"; "mult"; "sub"; "div"; "mod"]%string.

(** A run of [n] calls of [init_buf]; [None] when one of them fails. *)
Fixpoint init_bufs (n : nat) (w : world) : option (list buf) * world :=
  match n with
  | O => (Some [], w)
  | S n =>
      let '(b, w) := init_buf w in
      match b with
      | None => (None, w)
      | Some b =>
          let '(l, w) := init_bufs n w in
          (cons b <$> l, w)
      end
  end.

(** Define built-in macros. They have a def of NULL. *)
Fixpoint define_builtins (names : list (list ascii)) (t : table) (w : world)
  : option table * world :=
  match names with
  | [] => (Some t, w)
  | n :: names' =>
      let '(r, t, w) := upsert_entry t n None w in
      if negb (r =? 0) then (None, w) else define_builtins names' t w
  end.

(** Load command line files into buffer, the last one first. *)
Fixpoint include_files (fns : list (list ascii)) (b : buf) (w : world)
  : option (option buf * world) :=
  match fns with
  | [] => Some (Some b, w)
  | fn :: fns' =>
      match include b fn w with
      | None => None
      | Some (r, b, w) =>
          if negb (r =? 0) then Some (None, w) else include_files fns' b w
      end
  end.

(** Get total size of command line files *)
Fixpoint total_filesize (fns : list (list ascii)) (total_fs : Z) (w : world)
  : option Z :=
  match fns with
  | [] => Some total_fs
  | fn :: fns' =>
      match filesize fn w with
      | None => None
      | Some fs => total_filesize fns' (wrap (total_fs + fs)) w
      end
  end.

(** [main] up to its loop, for the file arguments [argv[1]] to
    [argv[argc - 1]]: the state at the top of the loop, or the world at a
    [QUIT]; [None] when the start has no meaning in C.  The buffer
    [tmp_buf] is set up and never used afterwards. *)
Definition m4_init (args : list (list ascii)) (w : world)
  : option (m4 + world) :=
  (* Setup buffers *)
  let '(bufs, w) := init_bufs 5 w in
  match bufs with
  | Some [input; token; next_token; result; _] =>
      (* Setup diversions *)
      let '(divs, w) := init_bufs 11 w in
      match divs with
      | Some divs =>
          let '(ok, w) := alloc w in
          if negb ok then Some (inr w)
          else
            let '(t, w) := define_builtins builtin_names ∅ w in
            match t with
            | Some t =>
                let st :=
                  {| input := input; token := token;
                     next_token := next_token; result := result; ht := t;
                     quote_on := false; quote_depth := 0; act_div := 0;
                     diversion := divs; output := Diversion 0;
                     left_quote := "`"%char; right_quote := "'"%char;
                     stack := []; read_stdin := true; env := w |} in
                match args with
                | [] => Some (inl st)
                | _ :: _ =>
                    (* Do not read stdin if there are command line files *)
                    match total_filesize (reverse args) 0 w with
                    | None => Some (inr w)
                    | Some total_fs =>
                        (* Make sure buffer is big enough to hold all files *)
                        let '(r, input, w) := grow_buf input total_fs w in
                        if negb (r =? 0) then Some (inr w)
                        else
                          match include_files (reverse args) input w with
                          | None => None
                          | Some (None, w) => Some (inr w)
                          | Some (Some input, w) =>
                              Some (inl (set_env w
                                           (set_input input
                                              (set_read_stdin false st))))
                          end
                    end
                end
            | None => Some (inr w)
            end
      | None => Some (inr w)
      end
  | _ => Some (inr w)
  end.

(** [main]: the exit status and the world that the process leaves.  The
    program name [argv[0]] is left out, so that [argc < 1] does not arise;
    [None] stands for a run that is out of fuel or has no meaning in C. *)
Definition main (fuel : nat) (args : list (list ascii)) (w : world)
  : option (Z * world) :=
  match m4_init args w with
  | Some (inr w) => Some (1, w)
  | Some (inl st) =>
      match m4_run fuel st with
      | Ret r st => Some (r, env st)
      | _ => None
      end
  | None => None
  end.

End Engine.

(** ** Vocabulary of the statements *)

(** The bytes of a buffer in the order in which [getch] reads them. *)
Definition unread (b : buf) : list ascii := reverse (b_a b).

(** A bound on the number of bytes in a buffer below which no size
    computation of [grow_buf] overflows. *)
Definition LIMIT : Z := 2 ^ 61.

(** The fill index is within the capacity, and the capacity within what
    buffers below [LIMIT] grow to. *)
Definition buf_ok (b : buf) : Prop :=
  b_i b <= b_s b /\ b_s b <= 3 * LIMIT.

(** No write to standard output fails. *)
Definition disk_ok (w : world) : Prop := Forall (fun ok => ok = true) (disk w).

(** The state apart from the diversions, standard output and the outcomes
    of the writes still to come. *)
Definition same_but_flushed (st st' : m4) : Prop :=
  input st' = input st /\ token st' = token st
  /\ next_token st' = next_token st /\ result st' = result st
  /\ ht st' = ht st /\ quote_on st' = quote_on st
  /\ quote_depth st' = quote_depth st /\ act_div st' = act_div st
  /\ output st' = output st /\ left_quote st' = left_quote st
  /\ right_quote st' = right_quote st /\ stack st' = stack st
  /\ read_stdin st' = read_stdin st
  /\ heap (env st') = heap (env st) /\ stdin (env st') = stdin (env st)
  /\ stdin_errno (env st') = stdin_errno (env st)
  /\ stderr (env st') = stderr (env st) /\ files (env st') = files (env st).

(** An entry without a definition carries the name of a built-in. *)
Definition entry_ok (e : entry) : Prop :=
  e_def e = None -> e_name e ∈ builtin_names.

Definition table_ok (t : table) : Prop :=
  forall h chain, t !! h = Some chain -> Forall entry_ok chain.

(** ** Concrete platforms, worlds and inputs *)

Definition unsigned_char : Platform := {| char_signed := false |}.
Definition signed_char : Platform := {| char_signed := true |}.

Definition newline : list ascii := [to_char 10].

(** A world in which no request fails, with the given standard input. *)
Definition world_of (inp : list ascii) : world :=
  {| heap := []; stdin := inp; stdin_errno := false; disk := [];
     stdout := []; stderr := []; files := [] |}.

(** The exit status and what was written to standard output. *)
Definition status_and_output (r : option (Z * world))
  : option (Z * list ascii) :=
  (fun x => (fst x, stdout (snd x))) <$> r.

(** A buffer with one free byte, and a world whose next allocation
    fails. *)
Definition nearly_full : buf :=
  {| b_a := replicate 511 "x"%char; b_s := INIT_BUF_SIZE |}.
Definition no_memory : world :=
  {| heap := [false]; stdin := []; stdin_errno := false; disk := [];
     stdout := []; stderr := []; files := [] |}.

(** [translit] applied to the single byte 255. *)
Definition translit_255 : list ascii :=
  lit "translit(" ++ [to_char 255] ++ lit ",a,b)" ++ newline.

(** The table after [define(ht, x)]: [ht] is chained in front of the
    built-in [include]. *)
Definition table_with_ht (w : world) : option table :=
  match m4_init [] w with
  | Some (inl st) =>
      let '(r, t, _) := upsert_entry (ht st) (lit "ht") (Some (lit "x")) w in
      if r =? 0 then Some t else None
  | _ => None
  end.

Definition define_undefine_ht : list ascii :=
  lit "define(ht,x)undefine(`ht')ifdef(`include',yes,no)" ++ newline.
Definition only_ifdef : list ascii :=
  lit "ifdef(`include',yes,no)" ++ newline.

(** A state of the engine at the call of [PROCESS_BI_NO_ARGS] on the token
    [undivert], with text held in diversions 0, 1, 3 and 10 and with [n]
    the active diversion. *)
Definition held (x : string) : buf := {| b_a := lit x; b_s := INIT_BUF_SIZE |}.
Definition undivert_state (n : Z) : m4 :=
  {| input := held ""; token := append (held "undivert") [NUL];
     next_token := append (held " ") [NUL]; result := held ""; ht := ∅;
     quote_on := false; quote_depth := 0; act_div := n;
     diversion := [held "zero "; held "one "; held ""; held "three ";
                   held ""; held ""; held ""; held ""; held ""; held "";
                   held "discarded"];
     output := Diversion n; left_quote := "`"%char; right_quote := "'"%char;
     stack := []; read_stdin := true; env := world_of [] |}.

Definition divert_then_undivert : list ascii :=
  lit "divert(2)held" ++ newline ++ lit "undivert" ++ newline.

(** ** The expansion of a user-defined macro, in the words of the
    specification *)

(** The collected contents of argument [n] of a call, empty when the
    argument buffer is absent. *)
Definition arg_bytes (m : mcall) (n : Z) : list ascii :=
  match arg_slot m n with
  | Some b => b_a b
  | None => []
  end.

(** The byte is the digit of a number from 1 to 9. *)
Definition param_digit (c : ascii) : bool :=
  (1 <=? code c - 48) && (code c - 48 <=? 9).

(** Every [$d], with [d] from 1 to 9, is replaced by argument [d]; all
    other bytes stay as they are. *)
Fixpoint expansion (def : list ascii) (args : Z -> list ascii) : list ascii :=
  match def with
  | [] => []
  | c :: def' =>
      match def' with
      | d :: def'' =>
          if bool_decide (c = "$"%char) && param_digit d
          then args (code d - 48) ++ expansion def'' args
          else c :: expansion def' args
      | [] => [c]
      end
  end.

(** The list has no NUL byte: it is a C string as it stands. *)
Definition no_nul (x : list ascii) : Prop := Forall (fun c => code c <> 0) x.

(** No byte of the string is taken for [EOF] when it is pushed. *)
Definition no_eof {platform : Platform} (x : list ascii) : Prop :=
  Forall (fun c => char_to_int c <> EOF) x.

(** A call of [cool] with the arguments [goat] and [mice], at its closing
    bracket. *)
Definition cool_call : mcall :=
  {| mc_name := lit "cool"; mc_def := Some (lit "$1 and $2, not $0 or $x");
     bracket_depth := 1; act_arg := 2;
     arg_buf := [None; Some (held "goat"); Some (held "mice"); None; None;
                 None; None; None; None; None] |}.
Definition cool_state : m4 :=
  {| input := held "tser"; token := append (held ")") [NUL];
     next_token := append (held " ") [NUL]; result := held ""; ht := ∅;
     quote_on := false; quote_depth := 0; act_div := 0;
     diversion := replicate 11 (held "");
     output := Argument 2; left_quote := "`"%char; right_quote := "'"%char;
     stack := [cool_call]; read_stdin := true; env := world_of [] |}.

(** ** The arithmetic macros, in the words of the specification *)

(** The value of a decimal digit. *)
Definition digit_value (c : ascii) : option Z :=
  if (48 <=? code c) && (code c <=? 57) then Some (code c - 48) else None.

(** The number that the digits [x] write after the digits of [acc]. *)
Fixpoint decimal (x : list ascii) (acc : Z) : option Z :=
  match x with
  | [] => Some acc
  | c :: x' =>
      match digit_value c with
      | Some d => decimal x' (acc * 10 + d)
      | None => None
      end
  end.

(** An argument is a number when it is a non-empty string of digits whose
    value is an unsigned integer of the machine. *)
Definition number (x : list ascii) : option Z :=
  match x with
  | [] => None
  | _ =>
      match decimal x 0 with
      | Some v => if v <=? SIZE_MAX then Some v else None
      | None => None
      end
  end.

(** The fold over the arguments: an empty argument is skipped, any other
    must be a number and is combined with the running value by [f];
    [None] is the fatal error. *)
Fixpoint fold_args (f : Z -> Z -> option Z) (args : list (list ascii))
    (w : Z) : option Z :=
  match args with
  | [] => Some w
  | [] :: args' => fold_args f args' w
  | a :: args' =>
      match number a with
      | Some n =>
          match f w n with
          | Some w' => fold_args f args' w'
          | None => None
          end
      | None => None
      end
  end.

Definition add_step (w n : Z) : option Z :=
  if w + n <=? SIZE_MAX then Some (w + n) else None.
Definition mult_step (w n : Z) : option Z :=
  if w * n <=? SIZE_MAX then Some (w * n) else None.
Definition sub_step (w n : Z) : option Z :=
  if n <=? w then Some (w - n) else None.
Definition div_step (w n : Z) : option Z :=
  if n =? 0 then None else Some (w / n).
Definition mod_step (w n : Z) : option Z :=
  if n =? 0 then None else Some (w mod n).

(** [add] sums from 0 and [mult] multiplies from 1, over all arguments. *)
Definition add_spec (args : list (list ascii)) : option Z :=
  fold_args add_step args 0.
Definition mult_spec (args : list (list ascii)) : option Z :=
  fold_args mult_step args 1.

(** [sub], [div] and [mod] need argument 1 and fold over the others. *)
Definition from_arg1 (f : Z -> Z -> option Z) (args : list (list ascii))
  : option Z :=
  match args with
  | [] => None
  | a :: args' =>
      match number a with
      | Some w => fold_args f args' w
      | None => None
      end
  end.

(** The arguments 1 to 9 of a call. *)
Definition ARGS {platform : Platform} (m : mcall) : list (list ascii) :=
  ARG m <$> seqZ 1 9.

(** ** Tokens, in the words of the specification *)

(** A letter or an underscore; a letter, a digit or an underscore. *)
Definition ident_start (c : ascii) : bool :=
  isalpha (code c) || (code c =? 95).
Definition ident_char (c : ascii) : bool :=
  isalnum (code c) || (code c =? 95).

(** The bytes that are still to be read, in the order of reading: those of
    the input buffer, then standard input if it is read. *)
Definition to_read (b : buf) (read_stdin : bool) (w : world) : list ascii :=
  unread b ++ (if read_stdin then stdin w else []).
Definition to_read_of (st : m4) : list ascii :=
  to_read (input st) (read_stdin st) (env st).

(** The longest run of identifier bytes at the head of [x], and the rest. *)
Fixpoint ident_run (x : list ascii) : list ascii * list ascii :=
  match x with
  | [] => ([], [])
  | c :: x' =>
      if ident_char c then
        let '(r, rest) := ident_run x' in (c :: r, rest)
      else ([], x)
  end.

(** The first token of [x] and what follows it: an identifier that is
    followed by a byte, or one byte that does not start an identifier.
    There is none when [x] is empty or ends within an identifier. *)
Definition first_token (x : list ascii)
  : option (list ascii * list ascii) :=
  match x with
  | [] => None
  | c :: x' =>
      if ident_start c then
        match ident_run x' with
        | (_, []) => None
        | (r, rest) => Some (c :: r, rest)
        end
      else Some ([c], x')
  end.

(** The tokens of [x]; there are at most as many as bytes. *)
Fixpoint tokens_upto (fuel : nat) (x : list ascii) : list (list ascii) :=
  match fuel with
  | O => []
  | S fuel =>
      match first_token x with
      | Some (t, rest) => t :: tokens_upto fuel rest
      | None => []
      end
  end.
Definition tokens (x : list ascii) : list (list ascii) :=
  tokens_upto (length x) x.

(** The worlds differ at most in what is left of standard input. *)
Definition same_but_stdin (w w' : world) : Prop :=
  heap w' = heap w /\ stdin_errno w' = stdin_errno w /\ disk w' = disk w
  /\ stdout w' = stdout w /\ stderr w' = stderr w /\ files w' = files w.

(** The integer [x] is the byte [c] as [getch] returns it: promoted from
    [char] out of the buffer, or as [getchar] gives it. *)
Definition reads {platform : Platform} (x : Z) (c : ascii) : Prop :=
  x = char_to_int c \/ x = code c.

(** What a change of the table does to an outcome that does not read it. *)
Definition with_table {A} (t : table) (o : outcome A) : outcome A :=
  match o with
  | Ret x st => Ret x (set_ht t st)
  | Quit st => Quit (set_ht t st)
  | EndOfInput st => EndOfInput (set_ht t st)
  | Undefined => Undefined
  | Timeout => Timeout
  end.


(** The input [x] is made of the tokens [toks]: it does not end within an
    identifier. *)
Inductive tokenized : list ascii -> list (list ascii) -> Prop :=
| tokenized_nil : tokenized [] []
| tokenized_cons x tok rest toks :
    first_token x = Some (tok, rest) -> tokenized rest toks ->
    tokenized x (tok :: toks).



(** The state at the top of the loop when standard input holds [inp] and
    the table is [t]. *)
Definition top_state (inp : list ascii) (t : table) : m4 :=
  {| input := held ""; token := held ""; next_token := held "";
     result := held ""; ht := t; quote_on := false; quote_depth := 0;
     act_div := 0; diversion := replicate 11 (held "");
     output := Diversion 0; left_quote := "`"%char; right_quote := "'"%char;
     stack := []; read_stdin := true; env := world_of inp |}.

(** The table of the built-ins, as [main] sets it up. *)
Definition builtin_table : table :=
  match define_builtins builtin_names ∅ (world_of []) with
  | (Some t, _) => t
  | (None, _) => ∅
  end.


(** A call with the arguments 8, 2, 0 and 4, at its closing bracket. *)
Definition sum_call : mcall :=
  {| mc_name := lit "add"; mc_def := None; bracket_depth := 0; act_arg := 4;
     arg_buf := [None; Some (append (held "8") [NUL]);
                 Some (append (held "2") [NUL]);
                 Some (append (held "0") [NUL]);
                 Some (append (held "4") [NUL]);
                 None; None; None; None; None] |}.

(** ** Vocabulary of the further properties *)

(** The world apart from the outcomes of the coming allocation requests. *)
Definition same_but_heap (w w' : world) : Prop :=
  stdin w' = stdin w /\ stdin_errno w' = stdin_errno w /\ disk w' = disk w
  /\ stdout w' = stdout w /\ stderr w' = stderr w /\ files w' = files w.

(** The file is read as [stat] reported it: it opens, it delivers [fs]
    bytes without a read error, and it closes. *)
Definition reads_fully (f : file) (fs : Z) : Prop :=
  opens f = true /\ Z.of_nat (length (bytes f)) = fs
  /\ read_errno f = false /\ closes f = true.

(** A file that holds [x] and is read as [stat] reports it. *)
Definition plain_file (x : list ascii) : file :=
  {| st_size := Z.of_nat (length x); opens := true; bytes := x;
     read_errno := false; closes := true |}.

(** A world with the one file [f], which holds [abcd]. *)
Definition one_file : world :=
  {| heap := []; stdin := []; stdin_errno := false; disk := [];
     stdout := []; stderr := [];
     files := [(lit "f", plain_file (lit "abcd"))] |}.

(** A world with the one file [f], which has grown to [abcdef] since
    [stat] reported 4 bytes. *)
Definition grown_file : world :=
  {| heap := []; stdin := []; stdin_errno := false; disk := [];
     stdout := []; stderr := [];
     files := [(lit "f", {| st_size := 4; opens := true;
                            bytes := lit "abcdef"; read_errno := false;
                            closes := true |})] |}.

(** ** The shape of the symbol table *)

(** Every entry of a chain is in the chain of the hash of its name, a name
    is a C string, and no chain holds a name twice. *)
Definition chain_wf (h : Z) (chain : list entry) : Prop :=
  NoDup (e_name <$> chain)
  /\ Forall (fun e => hash_str (e_name e) = h /\ cstr (e_name e) = e_name e)
       chain.

(** The chains are those of the slots of the array. *)
Definition table_wf (t : table) : Prop :=
  forall h chain,
    t !! h = Some chain -> 0 <= h < HASH_TABLE_SIZE /\ chain_wf h chain.

(** The name of the entry at the head of the chain of [name]. *)
Definition head_name (t : table) (name : list ascii) : option (list ascii) :=
  e_name <$> head (bucket t (hash_str name)).

(** A table of one chain: [ht] in front of [include], which have the same
    hash. *)
Definition ht_chain : list entry :=
  [{| e_name := lit "ht"; e_def := Some (lit "x") |};
   {| e_name := lit "include"; e_def := None |}].
Definition ht_table : table := <[hash_str (lit "ht") := ht_chain]> ∅.

(** ** The shape of a macro call *)

(** The arguments of a call are those from 1 to [act_arg]: these slots of
    [arg_buf] hold a buffer and the others hold NULL. *)
Definition args_ok (m : mcall) : Prop :=
  length (arg_buf m) = 10%nat /\ 1 <= act_arg m <= 9
  /\ forall n, is_Some (arg_slot m n) <-> 1 <= n <= act_arg m.

(** A call of [f] with the arguments [ab] and an empty second one, before
    and after [terminate_args]. *)
Definition two_args : mcall :=
  {| mc_name := lit "f"; mc_def := None; bracket_depth := 0; act_arg := 2;
     arg_buf := [None; Some (held "ab"); Some (held ""); None; None; None;
                 None; None; None; None] |}.

(** ** Skipping input *)

(** A space, a tab, a newline or a carriage return. *)
Definition is_ws (c : ascii) : bool :=
  bool_decide (c = " "%char) || bool_decide (c = to_char 9)
  || bool_decide (c = to_char 10) || bool_decide (c = to_char 13).

(** The input without its leading white space. *)
Fixpoint skip_ws (x : list ascii) : list ascii :=
  match x with
  | [] => []
  | c :: x' => if is_ws c then skip_ws x' else x
  end.

(** The state apart from the input, the next token and what is left of
    standard input. *)
Definition same_but_input (st st' : m4) : Prop :=
  token st' = token st /\ result st' = result st
  /\ ht st' = ht st /\ quote_on st' = quote_on st
  /\ quote_depth st' = quote_depth st /\ act_div st' = act_div st
  /\ diversion st' = diversion st
  /\ output st' = output st /\ left_quote st' = left_quote st
  /\ right_quote st' = right_quote st /\ stack st' = stack st
  /\ read_stdin st' = read_stdin st
  /\ same_but_stdin (env st) (env st').

(** The state apart from the token, the next token, the input and what is
    left of standard input. *)
Definition same_but_read (st st' : m4) : Prop :=
  result st' = result st
  /\ ht st' = ht st /\ quote_on st' = quote_on st
  /\ quote_depth st' = quote_depth st /\ act_div st' = act_div st
  /\ diversion st' = diversion st
  /\ output st' = output st /\ left_quote st' = left_quote st
  /\ right_quote st' = right_quote st /\ stack st' = stack st
  /\ read_stdin st' = read_stdin st
  /\ same_but_stdin (env st) (env st').

(** The line feed. *)
Definition LF : ascii := to_char 10.

(** A closed decidable proposition, by evaluation. *)
Ltac closed_bool := apply (bool_decide_unpack _); vm_compute; exact I.

(** ** The shape of the engine *)

(** [output] points where [SET_OUTPUT] would point it. *)
Definition sink_ok (st : m4) : Prop :=
  output st = match stack st with
              | [] => Diversion (act_div st)
              | m :: _ => Argument (act_arg m)
              end.

(** The quotes are different graph characters, neither a comma nor a
    parenthesis. *)
Definition quotes_ok (l r : ascii) : Prop :=
  l <> r /\ isgraph (code l) = true /\ isgraph (code r) = true
  /\ (l ∉ lit "(),") /\ (r ∉ lit "(),").

(** There are eleven diversions and the active one is among them, every
    call on the stack has the arguments from 1 to its [act_arg], the output
    is where [SET_OUTPUT] puts it, and the quotes are proper. *)
Definition engine_ok (st : m4) : Prop :=
  length (diversion st) = 11%nat /\ 0 <= act_div st <= 10
  /\ Forall args_ok (stack st) /\ sink_ok st
  /\ quotes_ok (left_quote st) (right_quote st).

(** Two calls that differ at most in the bracket depth and in the contents
    of the argument buffers. *)
Definition frame_like (m m' : mcall) : Prop :=
  mc_name m' = mc_name m /\ mc_def m' = mc_def m /\ act_arg m' = act_arg m
  /\ length (arg_buf m') = length (arg_buf m)
  /\ forall n, is_Some (arg_slot m' n) <-> is_Some (arg_slot m n).

(** Two states with the same shape: as many diversions, the same active
    diversion, output and quotes, and like calls on the stack. *)
Definition like (st st' : m4) : Prop :=
  length (diversion st') = length (diversion st)
  /\ act_div st' = act_div st /\ output st' = output st
  /\ left_quote st' = left_quote st /\ right_quote st' = right_quote st
  /\ Forall2 frame_like (stack st) (stack st').

(** An outcome that is a result, or the end of the input, in a state that
    satisfies [Q], or a [QUIT]; [u] and [t] say whether it may be undefined
    and whether it may be out of fuel. *)
Definition run_ok {A} (u t : Prop) (o : outcome A) (Q : m4 -> Prop) : Prop :=
  match o with
  | Ret _ st' | EndOfInput st' => Q st'
  | Quit _ => True
  | Undefined => u
  | Timeout => t
  end.

(** An outcome in a state of the same shape as [st]. *)
Definition run_like {A} (u t : Prop) (st : m4) (o : outcome A) : Prop :=
  match o with
  | Ret _ st' | Quit st' | EndOfInput st' => like st st'
  | Undefined => u
  | Timeout => t
  end.

(** A piece of [main] that keeps the shape of the engine. *)
Definition steady {A} (u : Prop) (c : M A) : Prop :=
  forall st, engine_ok st -> run_like u False st (c st).

(** Slot [i] of the diversions holds an empty buffer. *)
Definition emptied (l : list buf) (i : nat) : Prop :=
  exists d, l !! i = Some d /\ b_a d = [].

(** ** Quotes, in the words of the manual *)

(** One token read at quote depth [d], outside every call: the new depth
    and what is written.  A quote of the outermost level is dropped, any
    other token in quotes is written as it is, and outside quotes a token that
    is no macro is written.  There is no answer for a right quote outside
    quotes and for a macro outside quotes. *)
Definition quote_step (macro : list ascii -> bool) (lq rq : ascii) (d : nat)
    (tok : list ascii) : option (nat * list ascii) :=
  if bool_decide (tok = [lq]) then
    Some (S d, match d with O => [] | S _ => tok end)
  else if bool_decide (tok = [rq]) then
    match d with
    | O => None
    | S d' => Some (d', match d' with O => [] | S _ => tok end)
    end
  else
    match d with
    | O => if macro tok then None else Some (d, tok)
    | S _ => Some (d, tok)
    end.

(** What is written for the tokens [toks], read from depth [d] on; the
    quotes must be closed at the end. *)
Fixpoint unquoted (macro : list ascii -> bool) (lq rq : ascii) (d : nat)
    (toks : list (list ascii)) : option (list ascii) :=
  match toks with
  | [] => match d with O => Some [] | S _ => None end
  | tok :: toks' =>
      match quote_step macro lq rq d tok with
      | Some (d', w) => (fun x => w ++ x) <$> unquoted macro lq rq d' toks'
      | None => None
      end
  end.

(** The engine is outside calls and at quote depth [d], writes to diversion
    0, no allocation and no write fails, the end of standard input is not a
    read error, and the sizes are below [LIMIT]. *)
Definition flowing (d : nat) (st : m4) : Prop :=
  stack st = [] /\ quote_on st = negb (bool_decide (d = 0%nat))
  /\ quote_depth st = Z.of_nat d
  /\ act_div st = 0 /\ output st = Diversion 0
  /\ length (diversion st) = 11%nat
  /\ (forall d0, diversion st !! 0%nat = Some d0 -> buf_ok d0)
  /\ buf_ok (token st) /\ buf_ok (input st)
  /\ heap (env st) = [] /\ disk_ok (env st)
  /\ (read_stdin st = true -> stdin_errno (env st) = false)
  /\ Z.of_nat d + Z.of_nat (pending st) + 2 <= LIMIT.

(** A text with quotes in quotes. *)
Definition nested_quotes : list ascii :=
  lit "a `len(b) ``c'' d' e" ++ newline.

(** ** [translit], in the words of the manual *)

(** The partner of the byte [c]: the byte of [to] at the place of the first
    occurrence of [c] in [from], if [to] is that long. *)
Fixpoint partner (c : ascii) (from to : list ascii) : option ascii :=
  match from, to with
  | f :: from', t :: to' =>
      if bool_decide (c = f) then Some t else partner c from' to'
  | _, _ => None
  end.

(** What becomes of the byte [c]: it is deleted when it occurs in [from]
    beyond the length of [to], else it is replaced by its partner, if it has
    one. *)
Definition transliterated (from to : list ascii) (c : ascii) : option ascii :=
  if bool_decide (c ∈ drop (length to) from) then None
  else Some (default c (partner c from to)).

(** The array [map] holds the values of [g] for the bytes that it has a
    slot for. *)
Definition map_of (g : ascii -> Z) (map : list Z) : Prop :=
  length map = 255%nat
  /\ forall c, code c < 255 -> map_read map c = Some (g c).

(** A call of [translit] on [bananas]. *)
Definition bananas_call : mcall :=
  {| mc_name := lit "translit"; mc_def := None; bracket_depth := 0;
     act_arg := 3;
     arg_buf := [None; Some (append (held "bananas") [NUL]);
                 Some (append (held "abcs") [NUL]);
                 Some (append (held "xyz") [NUL]);
                 None; None; None; None; None; None] |}.

(** ** [index], in the words of the manual *)

(** [t] occurs in [s] at the offset [k]. *)
Definition occurs_at (t s : list ascii) (k : nat) : Prop :=
  t `prefix_of` drop k s.

(** The sum of a list of numbers. *)
Definition total (l : list Z) : Z := foldr Z.add 0 l.

(** The number of slots of the hash table whose chain has a length with
    the property [P]. *)
Definition chains_of (t : table) (P : nat -> Prop)
    `{forall n, Decision (P n)} : Z :=
  Z.of_nat (length (filter (fun k => P (length (bucket t k)))
                      (seqZ 0 HASH_TABLE_SIZE))).

(** A call of [undivert] with the argument 3. *)
Definition undivert_call : mcall :=
  {| mc_name := lit "undivert"; mc_def := None; bracket_depth := 0;
     act_arg := 1;
     arg_buf := [None; Some (append (held "3") [NUL]); None; None; None;
                 None; None; None; None; None] |}.

(** ** Start-up *)

(** The name [a] is a regular file of the size of [c], which is read as
    [stat] reported it and delivers [c]. *)
Definition holds (w : world) (a c : list ascii) : Prop :=
  exists f,
    file_lookup w a = Some f
    /\ filesize a w = Some (Z.of_nat (length c))
    /\ reads_fully f (Z.of_nat (length c)) /\ bytes f = c.

(** A world with the files [one] and [two] and an empty standard input. *)
Definition two_files : world :=
  {| heap := []; stdin := []; stdin_errno := false; disk := [];
     stdout := []; stderr := [];
     files := [(lit "one", plain_file (lit "define(x, 1)"));
               (lit "two", plain_file (lit "x"))] |}.

Section Buffer_facts.

Context {platform : Platform}.

Lemma code_range c : 0 <= code c < 256.
Proof.
  unfold code. pose proof (N_ascii_bounded c). lia.
Qed.

Lemma to_char_code c : to_char (code c) = c.
Proof.
  unfold to_char, code. pose proof (N_ascii_bounded c).
  rewrite Z.mod_small by lia. rewrite N2Z.id. apply ascii_N_embedding.
Qed.

Lemma code_to_char x : code (to_char x) = x mod 256.
Proof.
  unfold to_char, code. pose proof (Z.mod_pos_bound x 256).
  rewrite N_ascii_embedding by lia. lia.
Qed.

Lemma to_char_char_to_int c : to_char (char_to_int c) = c.
Proof.
  unfold char_to_int. pose proof (code_range c).
  destruct (char_signed && (128 <=? code c)) eqn:E.
  - rewrite <- (to_char_code c) at 2. unfold to_char.
    replace ((code c - 256) mod 256) with (code c mod 256); [done|].
    replace (code c - 256) with (code c + (-1) * 256) by lia.
    by rewrite Z.mod_add.
  - apply to_char_code.
Qed.

Lemma cstr_no_nul x : Forall (fun c => code c <> 0) (cstr x).
Proof.
  induction x as [|c x IH]; simpl; [constructor|].
  destruct (code c =? 0) eqn:E; constructor; [lia|done].
Qed.

Lemma cstr_id x : Forall (fun c => code c <> 0) x -> cstr x = x.
Proof.
  induction 1 as [|c x Hc _ IH]; simpl; [done|].
  destruct (code c =? 0) eqn:E; [lia|]. by rewrite IH.
Qed.

Lemma cstr_idemp x : cstr (cstr x) = cstr x.
Proof. apply cstr_id, cstr_no_nul. Qed.

Lemma cstr_prefix x : cstr x `prefix_of` x.
Proof.
  induction x as [|c x IH]; simpl; [done|].
  destruct (code c =? 0); [apply prefix_nil|by apply prefix_cons].
Qed.

(** *** [grow_buf] *)

Lemma alloc_no_fault w : heap w = [] -> alloc w = (true, w).
Proof. unfold alloc. by intros ->. Qed.

Lemma grow_buf_bytes b n w r b' w' :
  grow_buf b n w = (r, b', w') -> b_a b' = b_a b.
Proof.
  unfold grow_buf. intros H.
  repeat case_match; simplify_eq; done.
Qed.

Lemma b_i_nonneg b : 0 <= b_i b.
Proof. unfold b_i. lia. Qed.

Lemma grow_buf_result b n w r b' w' :
  grow_buf b n w = (r, b', w') ->
  b_i b <= b_s b ->
  (r = 0 /\ b_i b' + n <= b_s b' /\ b_s b <= b_s b') \/ (r = 1 /\ b' = b).
Proof.
  unfold grow_buf, BUF_FREE_SIZE. intros H Hi.
  pose proof (b_i_nonneg b).
  repeat case_match; simplify_eq; auto.
  - left. lia.
  - left. unfold b_i in *. simpl. lia.
Qed.

(** Without allocation failure and below [LIMIT], [grow_buf] succeeds. *)
Lemma grow_buf_ok b n w :
  heap w = [] -> buf_ok b -> 0 <= n -> b_i b + n <= LIMIT ->
  exists s', grow_buf b n w = (0, {| b_a := b_a b; b_s := s' |}, w)
             /\ b_i b + n <= s' /\ b_s b <= s' <= 3 * LIMIT.
Proof.
  intros Hh [Hi Hs] Hn HL. unfold grow_buf, BUF_FREE_SIZE.
  pose proof (b_i_nonneg b). unfold LIMIT in *.
  destruct (n <=? b_s b - b_i b) eqn:E1.
  { exists (b_s b). destruct b; simpl in *. split; [done|]. lia. }
  assert (b_s b < 2 ^ 61) by lia.
  assert (MOF (b_s b) 2 = false) as ->.
  { unfold MOF. destruct (b_s b =? 0) eqn:E0; [done|]. simpl.
    apply Z.ltb_ge. apply Z.div_le_lower_bound; [lia|].
    unfold SIZE_MAX. lia. }
  assert (AOF (b_s b * 2) n = false) as ->.
  { unfold AOF, SIZE_MAX. apply Z.ltb_ge. lia. }
  rewrite alloc_no_fault by done. simpl.
  eexists. split; [done|]. lia.
Qed.

(** *** [ungetch] *)

Lemma ungetch_result b ch w r b' w' :
  ungetch b ch w = (r, b', w') ->
  (r = EOF /\ b' = b)
  \/ (r = char_to_int (to_char ch) /\ b_a b' = b_a b ++ [to_char ch]).
Proof.
  unfold ungetch. intros H.
  destruct (b_i b =? b_s b) eqn:E.
  - destruct (grow_buf b 1 w) as [[r1 b1] w1] eqn:G.
    destruct (r1 =? 0) eqn:E1; simpl in H; simplify_eq.
    + right. split; [done|]. simpl. by rewrite (grow_buf_bytes _ _ _ _ _ _ G).
    + left. split; [done|].
      unfold grow_buf in G. repeat case_match; simplify_eq; done.
  - simpl in H. simplify_eq. by right.
Qed.

Lemma length_app_Z (x y : list ascii) :
  Z.of_nat (length (x ++ y)) = Z.of_nat (length x) + Z.of_nat (length y).
Proof. rewrite length_app. lia. Qed.

Lemma ungetch_ok b ch w :
  heap w = [] -> buf_ok b -> b_i b + 1 <= LIMIT ->
  exists b', ungetch b ch w = (char_to_int (to_char ch), b', w)
             /\ b_a b' = b_a b ++ [to_char ch] /\ buf_ok b'
             /\ b_s b <= b_s b'.
Proof.
  intros Hh Hok HL. unfold ungetch.
  destruct (b_i b =? b_s b) eqn:E.
  - destruct (grow_buf_ok b 1 w) as (s' & -> & H1 & H2); [done..|lia|done|].
    simpl. eexists. split; [done|]. split; [done|].
    unfold buf_ok, b_i in *. simpl. rewrite length_app_Z. simpl. lia.
  - simpl. eexists. split; [done|]. split; [done|].
    destruct Hok. unfold buf_ok, b_i in *. simpl. rewrite length_app_Z.
    simpl. lia.
Qed.

(** *** [ungetstr] *)

Lemma ungetstr_loop_result r b w res b' w' :
  ungetstr_loop r b w = (res, b', w') ->
  (res = 0 /\ b_a b' = b_a b ++ r)
  \/ (res = 1 /\ exists r1, r1 `prefix_of` r /\ b_a b' = b_a b ++ r1).
Proof.
  revert b w. induction r as [|c r IH]; simpl; intros b w H.
  { simplify_eq. left. by rewrite app_nil_r. }
  destruct (ungetch b (char_to_int c) w) as [[x b1] w1] eqn:U.
  apply ungetch_result in U. rewrite to_char_char_to_int in U.
  destruct (x =? EOF) eqn:E.
  - simplify_eq. right. split; [done|].
    destruct U as [[_ ->]|[_ ->]].
    + exists []. split; [apply prefix_nil|by rewrite app_nil_r].
    + exists [c]. split; [|done]. by apply prefix_cons, prefix_nil.
  - destruct U as [[-> _]|[_ Hb]]; [done|].
    apply IH in H. rewrite Hb in H.
    destruct H as [[-> ->]|[-> (r1 & Hp & ->)]];
      [left; by rewrite <- app_assoc|].
    right. split; [done|]. exists (c :: r1). split; [by apply prefix_cons|].
    by rewrite <- app_assoc.
Qed.

Lemma ungetstr_loop_ok r b w :
  heap w = [] -> buf_ok b -> b_i b + Z.of_nat (length r) <= LIMIT ->
  Forall (fun c => char_to_int c <> EOF) r ->
  exists b', ungetstr_loop r b w = (0, b', w)
             /\ b_a b' = b_a b ++ r /\ buf_ok b' /\ b_s b <= b_s b'.
Proof.
  intros Hh. revert b. induction r as [|c r IH]; simpl; intros b Hok HL Hc.
  { exists b. rewrite app_nil_r. destruct Hok. unfold buf_ok. repeat split; (done || lia). }
  inversion Hc as [|? ? Hc1 Hc2]; subst.
  destruct (ungetch_ok b (char_to_int c) w) as (b1 & -> & Hb1 & Hok1 & Hs1);
    [done|done|lia|].
  rewrite to_char_char_to_int in *.
  destruct (char_to_int c =? EOF) eqn:E; [lia|].
  destruct (IH b1) as (b' & -> & Hb' & Hok' & Hs'); [done| |done|].
  { unfold b_i in *. rewrite Hb1, length_app_Z. simpl. lia. }
  exists b'. rewrite Hb', Hb1, <- app_assoc. destruct Hok'.
  unfold buf_ok. repeat split; (done || lia).
Qed.

(** *** [ungetstr] as a whole *)

Lemma ungetstr_result (b : buf) (x : list ascii) (w : world) :
  (exists b' w', ungetstr b x w = (0, b', w')
                 /\ unread b' = cstr x ++ unread b)
  \/ (exists b' w' t, ungetstr b x w = (1, b', w')
                      /\ t `suffix_of` cstr x
                      /\ unread b' = t ++ unread b).
Proof.
  unfold ungetstr, unread.
  destruct (ungetstr_loop (reverse (cstr x)) b w) as [[res b'] w'] eqn:U.
  apply ungetstr_loop_result in U.
  destruct U as [[-> Hb]|[-> (r1 & Hp & Hb)]].
  - left. exists b', w'. split; [done|].
    by rewrite Hb, reverse_app, reverse_involutive.
  - right. exists b', w', (reverse r1). split; [done|]. split.
    + apply suffix_prefix_reverse. by rewrite reverse_involutive.
    + by rewrite Hb, reverse_app.
Qed.

Lemma ungetstr_ok (b : buf) (x : list ascii) (w : world) :
  heap w = [] -> buf_ok b ->
  b_i b + Z.of_nat (length (cstr x)) <= LIMIT ->
  Forall (fun c => char_to_int c <> EOF) (cstr x) ->
  exists b', ungetstr b x w = (0, b', w)
             /\ unread b' = cstr x ++ unread b /\ buf_ok b'.
Proof.
  intros Hh Hok HL Hc. unfold ungetstr, unread.
  destruct (ungetstr_loop_ok (reverse (cstr x)) b w) as (b' & -> & Hb & Hok' & _);
    [done|done| |by apply Forall_reverse|].
  { by rewrite length_reverse. }
  exists b'. split; [done|].
  by rewrite Hb, reverse_app, reverse_involutive.
Qed.

(** C2, as amended: [ungetstr] pushes the string byte by byte, last byte
    first.  Either it succeeds and the stream is the string followed by the
    prior contents, or it fails and the bytes pushed before the failure
    stay: the stream is then a suffix of the string followed by the prior
    contents.  It succeeds when no allocation fails, the sizes stay below
    [LIMIT] and no byte of the string is taken for [EOF]. *)
Theorem ungetstr_pushes_a_suffix (b : buf) (x : list ascii) (w : world) :
  ((exists b' w', ungetstr b x w = (0, b', w')
                  /\ unread b' = cstr x ++ unread b)
   \/ (exists b' w' t, ungetstr b x w = (1, b', w')
                       /\ t `suffix_of` cstr x
                       /\ unread b' = t ++ unread b))
  /\ (heap w = [] -> buf_ok b ->
      b_i b + Z.of_nat (length (cstr x)) <= LIMIT ->
      Forall (fun c => char_to_int c <> EOF) (cstr x) ->
      exists b', ungetstr b x w = (0, b', w)
                 /\ unread b' = cstr x ++ unread b).
Proof.
  split; [apply ungetstr_result|].
  intros Hh Hok HL Hc.
  destruct (ungetstr_ok b x w Hh Hok HL Hc) as (b' & H1 & H2 & _).
  by exists b'.
Qed.

End Buffer_facts.




Lemma ungetstr_pushes_a_suffix_witness :
  exists b', @ungetstr unsigned_char {| b_a := []; b_s := INIT_BUF_SIZE |}
               (lit "ab") (world_of []) = (0, b', world_of [])
             /\ unread b' = cstr (lit "ab") ++ [].
Proof.
  apply (@ungetstr_pushes_a_suffix unsigned_char
           {| b_a := []; b_s := INIT_BUF_SIZE |} (lit "ab") (world_of [])).
  - reflexivity.
  - unfold buf_ok; vm_compute; split; discriminate.
  - vm_compute; discriminate.
  - repeat constructor; vm_compute; discriminate.
Defined.

(** C2 as stated fails: with one free byte and no memory left, pushing "ab"
    fails after the byte b has been pushed. *)
Lemma ungetstr_not_atomic :
  exists b' w',
    @ungetstr unsigned_char nearly_full (lit "ab") no_memory = (1, b', w')
    /\ unread b' = "b"%char :: unread nearly_full
    /\ unread b' <> unread nearly_full
    /\ unread b' <> lit "ab" ++ unread nearly_full.
Proof.
  do 2 eexists. split; [vm_compute; reflexivity|].
  split; [vm_compute; reflexivity|].
  split; vm_compute; discriminate.
Qed.

Section Diversion_facts.

Context {platform : Platform}.

Lemma same_but_flushed_refl st : same_but_flushed st st.
Proof. unfold same_but_flushed. tauto. Qed.

Lemma same_but_flushed_trans st1 st2 st3 :
  same_but_flushed st1 st2 -> same_but_flushed st2 st3 ->
  same_but_flushed st1 st3.
Proof.
  unfold same_but_flushed. intros H1 H2.
  destruct_and!. repeat split; congruence.
Qed.

Lemma fwrite_ok l w :
  disk_ok w ->
  exists w', fwrite l w = (Z.of_nat (length l), w')
             /\ stdout w' = stdout w ++ l /\ disk_ok w'
             /\ heap w' = heap w /\ stdin w' = stdin w
             /\ stdin_errno w' = stdin_errno w /\ stderr w' = stderr w
             /\ files w' = files w.
Proof.
  unfold disk_ok, fwrite. intros H.
  destruct (disk w) as [|[] d] eqn:E.
  - eexists. split; [done|]. simpl. rewrite E. by repeat split.
  - eexists. split; [done|]. simpl. inversion H; subst. by repeat split.
  - inversion H; subst. done.
Qed.

(** [OUT_DIV(n)] writes diversion [n] and empties it. *)
Lemma OUT_DIV_ok (n : nat) (d : buf) (st : m4) :
  diversion st !! n = Some d -> disk_ok (env st) ->
  exists st', OUT_DIV (Z.of_nat n) st = Ret tt st'
              /\ stdout (env st') = stdout (env st) ++ b_a d
              /\ diversion st' = <[n := delete_buf d]> (diversion st)
              /\ disk_ok (env st')
              /\ same_but_flushed st st'.
Proof.
  intros Hd Hok. unfold OUT_DIV, DIV, set_DIV.
  destruct (Z.ltb_spec (Z.of_nat n) 0); [lia|]. rewrite Nat2Z.id, Hd.
  destruct (b_i d =? 0) eqn:Ei; simpl.
  - eexists. split; [done|]. simpl.
    assert (b_a d = []) as ->.
    { unfold b_i in Ei. destruct (b_a d); [done|]. simpl in Ei. lia. }
    rewrite app_nil_r. repeat split; done.
  - destruct (fwrite_ok (b_a d) (env st) Hok) as (w' & -> & Hw).
    destruct_and!. unfold b_i. rewrite Z.eqb_refl. simpl.
    eexists. split; [done|]. simpl. unfold same_but_flushed. simpl.
    repeat split; done.
Qed.

Lemma seqZ_succ (m : Z) (n : nat) :
  seqZ m (Z.of_nat (S n)) = m :: seqZ (m + 1) (Z.of_nat n).
Proof. rewrite seqZ_cons by lia. f_equal. f_equal; lia. Qed.

(** A run of [OUT_DIV] over the diversions [divs] that follow [pre]. *)
Lemma OUT_DIV_range (divs pre post : list buf) (st : m4) :
  diversion st = pre ++ divs ++ post -> disk_ok (env st) ->
  exists st',
    for_each (seqZ (Z.of_nat (length pre)) (Z.of_nat (length divs))) OUT_DIV st
    = Ret tt st'
    /\ stdout (env st') = stdout (env st) ++ concat (b_a <$> divs)
    /\ diversion st' = pre ++ (delete_buf <$> divs) ++ post
    /\ disk_ok (env st')
    /\ same_but_flushed st st'.
Proof.
  revert pre st. induction divs as [|d divs IH]; intros pre st Hd Hok.
  { exists st. simpl. rewrite app_nil_r. repeat (split; [done|]).
    apply same_but_flushed_refl. }
  change (length (d :: divs)) with (S (length divs)).
  rewrite seqZ_succ. simpl. unfold bind.
  destruct (OUT_DIV_ok (length pre) d st) as (st1 & -> & H1 & H2 & H3 & H4);
    [|done|].
  { rewrite Hd. simpl. by apply list_lookup_middle. }
  destruct (IH (pre ++ [delete_buf d]) st1) as (st' & Hr & H5 & H6 & H7 & H8);
    [|done|].
  { rewrite H2, Hd. simpl. rewrite insert_app_r_alt, Nat.sub_diag by done.
    simpl. by rewrite <- app_assoc. }
  rewrite length_app in Hr. simpl in Hr.
  replace (Z.of_nat (length pre) + 1) with (Z.of_nat (length pre + 1)) by lia.
  rewrite Hr. exists st'. split; [done|].
  rewrite H5, H1, H6, <- !app_assoc. simpl.
  repeat (split; [done|]). by eapply same_but_flushed_trans.
Qed.

(** C7, as amended: from diversion 0, [undivert] without arguments writes
    diversions 0 to 9 to standard output in this order and empties each of
    them; diversion 10 is left alone.  From any other active diversion the
    call is a fatal error and nothing is written. *)
Theorem undivert_without_arguments (st : m4) :
  TS st = lit "undivert" ->
  length (diversion st) = 11%nat ->
  (act_div st = 0 -> disk_ok (env st) ->
   exists st',
     PROCESS_BI_NO_ARGS st = Ret tt st'
     /\ stdout (env st')
        = stdout (env st) ++ concat (b_a <$> take 10 (diversion st))
     /\ diversion st'
        = (delete_buf <$> take 10 (diversion st)) ++ drop 10 (diversion st)
     /\ same_but_flushed st st')
  /\ (act_div st <> 0 ->
      exists st',
        PROCESS_BI_NO_ARGS st = Quit st'
        /\ stdout (env st') = stdout (env st)
        /\ diversion st' = diversion st).
Proof.
  intros HTS Hlen. unfold PROCESS_BI_NO_ARGS, bind, get. rewrite HTS.
  change (streq (lit "undivert") (lit "dnl")) with false.
  change (streq (lit "undivert") (lit "divnum")) with false.
  change (streq (lit "undivert") (lit "undivert")) with true.
  cbv iota. split.
  - intros Ha Hok. rewrite Ha. simpl negb. cbv iota.
    destruct (OUT_DIV_range (take 10 (diversion st)) [] (drop 10 (diversion st)) st)
      as (st' & Hr & H1 & H2 & H3 & H4); [by rewrite take_drop|done|].
    rewrite length_take, Hlen in Hr. exists st'. by repeat (split; [done|]).
  - intros Ha. destruct (Z.eqb_spec (act_div st) 0); [lia|]. simpl negb. cbv iota.
    unfold EQUIT, EMSG, bind, modify, QUIT. eexists. split; [done|]. by split.
Qed.

End Diversion_facts.

Section Table_facts.

Context {platform : Platform}.

Lemma bucket_ok t h : table_ok t -> Forall entry_ok (bucket t h).
Proof.
  intros Ht. unfold bucket. destruct (t !! h) as [chain|] eqn:E; simpl.
  - by eapply Ht.
  - constructor.
Qed.

Lemma table_ok_insert t h chain :
  table_ok t -> Forall entry_ok chain -> table_ok (<[h := chain]> t).
Proof.
  intros Ht Hc h' chain' H.
  destruct (decide (h = h')) as [->|Hne].
  - rewrite lookup_insert_eq in H. by simplify_eq.
  - rewrite lookup_insert_ne in H by done. by eapply Ht.
Qed.

Lemma table_ok_empty : table_ok ∅.
Proof. intros h chain H. by rewrite lookup_empty in H. Qed.

Lemma streq_true x y : streq x y = true <-> x = y.
Proof. unfold streq. by rewrite bool_decide_eq_true. Qed.

Lemma find_entry_name n chain e :
  find_entry n chain = Some e -> e_name e = n /\ e ∈ chain.
Proof.
  induction chain as [|e' chain IH]; simpl; [done|].
  destruct (streq n (e_name e')) eqn:E.
  - intros [= <-]. apply streq_true in E. split; [done|]. by left.
  - intros H. destruct (IH H). split; [done|]. by right.
Qed.

Lemma set_def_ok n t chain :
  Forall entry_ok chain ->
  (t = None -> n ∈ builtin_names) ->
  Forall entry_ok (set_def n t chain).
Proof.
  intros Hc Ht. induction Hc as [|e chain He Hc IH]; simpl; [constructor|].
  destruct (streq n (e_name e)) eqn:E.
  - constructor; [|done]. apply streq_true in E. intros Hd. simpl in *.
    rewrite <- E. by apply Ht.
  - by constructor.
Qed.

Lemma find_entry_set_def n t chain e :
  find_entry n chain = Some e ->
  find_entry n (set_def n t chain) = Some {| e_name := e_name e; e_def := t |}.
Proof.
  induction chain as [|e' chain IH]; simpl; [done|].
  destruct (streq n (e_name e')) eqn:E; simpl; rewrite E.
  - by intros [= <-].
  - done.
Qed.

Lemma builtin_names_cstr n : n ∈ builtin_names -> cstr n = n.
Proof.
  intros H. apply cstr_id. revert n H. apply Forall_forall.
  unfold builtin_names.
  repeat (apply Forall_cons; split;
          [apply Forall_forall; intros c Hc;
           repeat (apply elem_of_cons in Hc as [->|Hc]; [vm_compute; discriminate|]);
           by apply elem_of_nil in Hc|]).
  constructor.
Qed.

Lemma builtin_names_nonempty n : n ∈ builtin_names -> n <> [].
Proof.
  intros H ->. revert H. unfold builtin_names.
  intros H. repeat (apply elem_of_cons in H as [H|H]; [discriminate H|]).
  by apply elem_of_nil in H.
Qed.

Lemma strdup_result x w d w' :
  strdup x w = (d, w') -> d = None \/ d = Some (cstr x).
Proof.
  unfold strdup. destruct (alloc w) as [[] w1]; intros [= <- <-]; auto.
Qed.

(** [upsert_entry] keeps the invariant when it stores a definition or the
    name of a built-in. *)
Lemma upsert_entry_ok t name def w r t' w' :
  table_ok t ->
  (def = None -> name ∈ builtin_names) ->
  upsert_entry t name def w = (r, t', w') ->
  table_ok t'.
Proof.
  intros Ht Hn. unfold upsert_entry.
  destruct (lookup_entry t name) as [e|] eqn:L.
  - destruct def as [d|].
    + destruct (strdup d w) as [d' w1] eqn:S.
      destruct (bool_decide (d' = None)) eqn:B; intros [= <- <- <-]; [done|].
      apply table_ok_insert; [done|]. apply set_def_ok; [by apply bucket_ok|].
      intros ->. by rewrite bool_decide_eq_false in B.
    + intros [= <- <- <-]. apply table_ok_insert; [done|].
      apply set_def_ok; [by apply bucket_ok|].
      intros _. rewrite builtin_names_cstr; auto.
  - destruct (alloc w) as [[] w1]; simpl; [|by intros [= <- <- <-]].
    destruct (strdup name w1) as [[n|] w2] eqn:S; [|by intros [= <- <- <-]].
    apply strdup_result in S as [?| [= ->]]; [done|].
    destruct def as [d|].
    + destruct (strdup d w2) as [d' w3] eqn:S.
      destruct (bool_decide (d' = None)) eqn:B; intros [= <- <- <-]; [done|].
      apply table_ok_insert; [done|]. constructor; [|by apply bucket_ok].
      intros Hd. simpl in Hd. subst d'. by rewrite bool_decide_eq_false in B.
    + intros [= <- <- <-]. apply table_ok_insert; [done|].
      constructor; [|by apply bucket_ok].
      intros _. simpl. rewrite builtin_names_cstr; auto.
Qed.

Lemma chain_split_app n before chain b e a :
  chain_split n before chain = Some (b, e, a) ->
  before ++ chain = b ++ e :: a.
Proof.
  revert before. induction chain as [|e' chain IH]; simpl; intros before; [done|].
  destruct (streq n (e_name e')).
  - by intros [= <- <- <-].
  - intros H. apply IH in H. by rewrite <- app_assoc in H.
Qed.

Lemma delete_entry_ok t name r t' :
  table_ok t -> delete_entry t name = (r, t') -> table_ok t'.
Proof.
  intros Ht. unfold delete_entry.
  destruct (chain_split (cstr name) [] (bucket t (hash_str name)))
    as [[[b e] a]|] eqn:C; [|by intros [= <- <-]].
  apply chain_split_app in C. simpl in C.
  pose proof (bucket_ok t (hash_str name) Ht) as Hb. rewrite C in Hb.
  destruct b as [|e0 b]; intros [= <- <-]; apply table_ok_insert; try done.
  apply Forall_app in Hb as [H1 H2]. apply Forall_cons in H2 as [_ H2].
  by apply (Forall_app_2 _ (e0 :: b) a).
Qed.

Lemma define_builtins_ok names t w t' w' :
  table_ok t -> names ⊆ builtin_names ->
  define_builtins names t w = (Some t', w') -> table_ok t'.
Proof.
  revert t w. induction names as [|n names IH]; simpl; intros t w Ht Hn.
  { by intros [= <- <-]. }
  destruct (upsert_entry t n None w) as [[r t1] w1] eqn:U.
  destruct (r =? 0); simpl; [|done].
  apply IH; [|set_solver].
  eapply upsert_entry_ok; [done| |done]. intros _. set_solver.
Qed.

Lemma m4_init_table_ok args w st : m4_init args w = Some (inl st) -> table_ok (ht st).
Proof.
  unfold m4_init. intros H.
  repeat (case_match; simplify_eq); simpl;
    by (eapply define_builtins_ok; [apply table_ok_empty| |done]).
Qed.

Lemma bucket_insert t h chain : bucket (<[h := chain]> t) h = chain.
Proof. unfold bucket. by rewrite lookup_insert_eq. Qed.

Lemma streq_refl x : streq x x = true.
Proof. by apply streq_true. Qed.

(** After a successful [upsert_entry] with a definition, the name is bound
    to a copy of that definition. *)
Lemma upsert_entry_lookup t name d w t' w' :
  upsert_entry t name (Some d) w = (0, t', w') ->
  lookup_entry t' name
  = Some {| e_name := cstr name; e_def := Some (cstr d) |}.
Proof.
  unfold upsert_entry, lookup_entry.
  destruct (find_entry (cstr name) (bucket t (hash_str name))) as [e|] eqn:L.
  - destruct (strdup d w) as [d' w1] eqn:S.
    destruct (bool_decide (d' = None)) eqn:B; intros [= <- <-].
    rewrite bucket_insert. apply strdup_result in S as [-> | ->].
    { by rewrite bool_decide_eq_false in B. }
    rewrite (find_entry_set_def _ _ _ _ L).
    by destruct (find_entry_name _ _ _ L) as [-> _].
  - destruct (alloc w) as [[] w1]; simpl; [|done].
    destruct (strdup name w1) as [[n|] w2] eqn:S; [|done].
    apply strdup_result in S as [?| [= ->]]; [done|].
    destruct (strdup d w2) as [d' w3] eqn:S.
    destruct (bool_decide (d' = None)) eqn:B; intros [= <- <-].
    rewrite bucket_insert. simpl. rewrite streq_refl.
    apply strdup_result in S as [-> | ->]; [|done].
    by rewrite bool_decide_eq_false in B.
Qed.

Lemma ARG_cstr m n : cstr (ARG m n) = ARG m n.
Proof. unfold ARG. destruct (arg_slot m n); [apply cstr_idemp|done]. Qed.

(** C8, as amended.  The invariant [table_ok] (an entry without a
    definition carries the name of a built-in, which is not empty) holds
    after the insertion of the built-ins and is kept by [define] and
    [undefine], whatever their outcome; [define] always stores a
    definition, so that the entry it leaves is not taken for a built-in.
    Nothing is said of the names of the entries that [define] stores. *)
Theorem table_invariant :
  (forall args w st, m4_init args w = Some (inl st) -> table_ok (ht st))
  /\ (forall m st, table_ok (ht st) ->
       match bi_define m st with
       | Ret _ st' =>
           table_ok (ht st')
           /\ lookup_entry (ht st') (ARG m 1)
              = Some {| e_name := ARG m 1; e_def := Some (ARG m 2) |}
       | Quit st' => table_ok (ht st')
       | _ => False
       end)
  /\ (forall m st, table_ok (ht st) ->
       match bi_undefine m st with
       | Ret _ st' | Quit st' => table_ok (ht st')
       | _ => False
       end)
  /\ (forall t n e, table_ok t -> lookup_entry t n = Some e ->
       e_def e = None -> e_name e ∈ builtin_names /\ e_name e <> []).
Proof.
  split; [apply m4_init_table_ok|]. split; [|split].
  - intros m st Ht. unfold bi_define.
    destruct (upsert_entry (ht st) (ARG m 1) (Some (ARG m 2)) (env st))
      as [[r t'] w'] eqn:U.
    assert (table_ok t').
    { eapply upsert_entry_ok; [exact Ht| |exact U]. done. }
    destruct (Z.eqb_spec r 0) as [->|]; simpl; [|done].
    split; [done|].
    rewrite (upsert_entry_lookup _ _ _ _ _ _ U). by rewrite !ARG_cstr.
  - intros m st Ht. unfold bi_undefine.
    destruct (delete_entry (ht st) (ARG m 1)) as [r t'] eqn:D.
    assert (table_ok t') by (eapply delete_entry_ok; [exact Ht|exact D]).
    by destruct (r =? 0).
  - intros t n e Ht L Hd. unfold lookup_entry in L.
    apply find_entry_name in L as [_ L].
    pose proof (bucket_ok t (hash_str n) Ht) as Hb.
    rewrite Forall_forall in Hb. specialize (Hb e L Hd).
    split; [done|]. by apply builtin_names_nonempty.
Qed.

End Table_facts.


Lemma table_invariant_witness :
  exists st, m4_init [] (world_of []) = Some (inl st) /\ table_ok (ht st).
Proof.
  eexists. split; [vm_compute; reflexivity|].
  apply (proj1 table_invariant [] (world_of [])).
  vm_compute; reflexivity.
Defined.

(** C8 as stated fails: [define] with an empty first argument stores an
    entry whose name is empty. *)
Lemma define_stores_empty_name :
  exists st st',
    m4_init [] (world_of (lit "define(,x)" ++ newline)) = Some (inl st)
    /\ @m4_run unsigned_char 100 st = Ret 0 st'
    /\ lookup_entry (ht st') []
       = Some {| e_name := []; e_def := Some (lit "x") |}.
Proof.
  do 2 eexists. split; [vm_compute; reflexivity|].
  split; vm_compute; reflexivity.
Qed.

Section Expansion_facts.

Context {platform : Platform}.

Lemma char_to_int_small c : code c < 128 -> char_to_int c = code c.
Proof.
  unfold char_to_int. intros H.
  destruct (Z.leb_spec 128 (code c)); [lia|]. by rewrite andb_false_r.
Qed.

Lemma char_to_int_cases c :
  char_to_int c = code c \/ (char_to_int c = code c - 256 /\ 128 <= code c).
Proof.
  unfold char_to_int. destruct char_signed; simpl; [|by left].
  destruct (Z.leb_spec 128 (code c)); [right|left]; done.
Qed.

(** The test of [sub_args] and [strip_def] on the byte after a dollar. *)
Lemma param_digit_test h :
  isdigit (char_to_int h) && negb (bool_decide (h = "0"%char)) = param_digit h.
Proof.
  unfold isdigit, param_digit. pose proof (code_range h).
  destruct (bool_decide_reflect (h = "0"%char)) as [->|Hne].
  { vm_compute (code "0"). simpl. by rewrite andb_false_r. }
  assert (code h <> 48).
  { intros E. apply Hne. rewrite <- (to_char_code h), E. reflexivity. }
  destruct (char_to_int_cases h) as [->|[-> ?]]; simpl; rewrite ?andb_true_r.
  - destruct (Z.leb_spec 48 (code h)), (Z.leb_spec (code h) 57),
      (Z.leb_spec 1 (code h - 48)), (Z.leb_spec (code h - 48) 9);
      simpl; try done; lia.
  - destruct (Z.leb_spec 48 (code h - 256)), (Z.leb_spec (code h - 256) 57),
      (Z.leb_spec 1 (code h - 48)), (Z.leb_spec (code h - 48) 9);
      simpl; try done; lia.
Qed.

Lemma param_digit_index h :
  param_digit h = true -> char_to_int h - 48 = code h - 48.
Proof.
  unfold param_digit. intros H. rewrite char_to_int_small; [done|]. lia.
Qed.

Lemma expansion_unfold c d def args :
  expansion (c :: d :: def) args =
  if bool_decide (c = "$"%char) && param_digit d
  then args (code d - 48) ++ expansion def args
  else c :: expansion (d :: def) args.
Proof. reflexivity. Qed.

Lemma expansion_cons_plain c def args :
  c <> "$"%char -> expansion (c :: def) args = c :: expansion def args.
Proof.
  intros Hc. simpl. destruct def; [done|].
  by rewrite bool_decide_eq_false_2.
Qed.

Lemma expansion_dollar_other d def args :
  param_digit d = false ->
  expansion ("$"%char :: d :: def) args = "$"%char :: expansion (d :: def) args.
Proof. intros Hd. cbn [expansion]. by rewrite Hd, andb_false_r. Qed.

Lemma expansion_dollar_param d def args :
  param_digit d = true ->
  expansion ("$"%char :: d :: def) args = args (code d - 48) ++ expansion def args.
Proof. intros Hd. cbn [expansion]. by rewrite Hd. Qed.

Lemma sub_args_loop_unfold x result m w :
  sub_args_loop x result m w =
  match x with
  | [] => (0, result, w)
  | ch :: x' =>
      let plain :=
        let '(r, result, w) := ungetch result (char_to_int ch) w in
        if r =? EOF then (1, result, w) else sub_args_loop x' result m w in
      if bool_decide (ch = "$"%char) then
        match x' with
        | h :: x'' =>
            if param_digit h then
              match arg_slot m (code h - 48) with
              | Some b =>
                  let '(r, result, w) :=
                    if BUF_FREE_SIZE result <? b_i b
                    then grow_buf result (b_i b) w else (0, result, w) in
                  if negb (r =? 0) then (1, result, w)
                  else sub_args_loop x'' (append result (b_a b)) m w
              | None => sub_args_loop x'' result m w
              end
            else plain
        | [] => plain
        end
      else plain
  end.
Proof.
  destruct x as [|ch [|h x'']]; try reflexivity.
  cbn [sub_args_loop]. rewrite param_digit_test.
  destruct (param_digit h) eqn:E; [|reflexivity].
  by rewrite (param_digit_index h E).
Qed.

(** What [sub_args_loop] leaves in [result] when it succeeds. *)
Lemma sub_args_loop_result n x result m w r result' w' :
  (length x <= n)%nat ->
  sub_args_loop x result m w = (r, result', w') ->
  (r = 0 /\ b_a result' = b_a result ++ expansion x (arg_bytes m)) \/ r = 1.
Proof.
  revert x result w. induction n as [|n IH]; intros x result w Hn.
  { destruct x; [|simpl in Hn; lia]. intros [= <- <- <-]. left.
    by rewrite app_nil_r. }
  rewrite sub_args_loop_unfold. destruct x as [|ch x']; [|simpl in Hn].
  { intros [= <- <- <-]. left. by rewrite app_nil_r. }
  assert (Hplain :
    (let '(r, result, w) := ungetch result (char_to_int ch) w in
     if r =? EOF then (1, result, w) else sub_args_loop x' result m w)
    = (r, result', w') ->
    (r = 0 /\ b_a result' = b_a result ++ ch :: expansion x' (arg_bytes m))
    \/ r = 1).
  { destruct (ungetch result (char_to_int ch) w) as [[r1 res1] w1] eqn:U.
    destruct (Z.eqb_spec r1 EOF); [intros [= <- <- <-]; by right|].
    apply ungetch_result in U. rewrite to_char_char_to_int in U.
    intros H. apply IH in H; [|lia].
    destruct H as [[-> H] | ->]; [|by right].
    destruct U as [[-> _]|[_ Hb]]; [done|].
    left. split; [done|]. by rewrite H, Hb, <- app_assoc. }
  destruct (bool_decide_reflect (ch = "$"%char)) as [->|Hne];
    [|rewrite expansion_cons_plain by done; exact Hplain].
  destruct x' as [|h x''].
  { exact Hplain. }
  destruct (param_digit h) eqn:Ed;
    [|rewrite expansion_dollar_other by done; exact Hplain].
  rewrite expansion_dollar_param by done. unfold arg_bytes at 1.
  simpl in Hn.
  destruct (arg_slot m (code h - 48)) as [b|].
  - destruct (if BUF_FREE_SIZE result <? b_i b
              then grow_buf result (b_i b) w else (0, result, w))
      as [[r1 res1] w1] eqn:G.
    assert (b_a res1 = b_a result) as Hres.
    { destruct (BUF_FREE_SIZE result <? b_i b).
      - by eapply grow_buf_bytes.
      - by simplify_eq. }
    destruct (r1 =? 0); simpl; [|intros [= <- <- <-]; by right].
    intros H. apply IH in H; [|lia].
    destruct H as [[-> H] | ->]; [|by right].
    left. split; [done|]. rewrite H. simpl. by rewrite Hres, <- app_assoc.
  - intros H. apply IH in H; [|lia]. by simpl.
Qed.

(** Room for [n] more bytes, as [put_str], [sub_args], [buf_dump_buf] and
    [include] make it. *)
Lemma reserve_ok b n w :
  heap w = [] -> buf_ok b -> 0 <= n -> b_i b + n <= LIMIT ->
  exists b1,
    (if BUF_FREE_SIZE b <? n then grow_buf b n w else (0, b, w)) = (0, b1, w)
    /\ b_a b1 = b_a b /\ b_i b1 + n <= b_s b1 /\ b_s b <= b_s b1 <= 3 * LIMIT.
Proof.
  intros Hh Hok Hn HL. destruct (Z.ltb_spec (BUF_FREE_SIZE b) n).
  - destruct (grow_buf_ok b n w) as (s' & -> & H1 & H2); try done.
    eexists. split; [done|]. unfold b_i in *. simpl. by repeat split; try lia.
  - exists b. destruct Hok. unfold BUF_FREE_SIZE in *. repeat split; try done; lia.
Qed.

Lemma buf_ok_append b x :
  b_i b + Z.of_nat (length x) <= b_s b -> b_s b <= 3 * LIMIT ->
  buf_ok (append b x).
Proof.
  unfold buf_ok, append, b_i. simpl. rewrite length_app_Z. lia.
Qed.

Lemma sub_args_loop_ok n x result m w :
  (length x <= n)%nat ->
  heap w = [] -> buf_ok result ->
  b_i result + Z.of_nat (length (expansion x (arg_bytes m))) <= LIMIT ->
  no_eof (expansion x (arg_bytes m)) ->
  exists result',
    sub_args_loop x result m w = (0, result', w)
    /\ b_a result' = b_a result ++ expansion x (arg_bytes m)
    /\ buf_ok result'.
Proof.
  intros Hn Hh. revert x result Hn.
  induction n as [|n IH]; intros x result Hn Hok HL He.
  { destruct x; [|simpl in Hn; lia]. exists result. by rewrite app_nil_r. }
  rewrite sub_args_loop_unfold. destruct x as [|ch x']; [|simpl in Hn].
  { exists result. by rewrite app_nil_r. }
  assert (Hplain :
    b_i result + Z.of_nat (length (ch :: expansion x' (arg_bytes m))) <= LIMIT ->
    no_eof (ch :: expansion x' (arg_bytes m)) ->
    exists result',
      (let '(r, result, w) := ungetch result (char_to_int ch) w in
       if r =? EOF then (1, result, w) else sub_args_loop x' result m w)
      = (0, result', w)
      /\ b_a result' = b_a result ++ ch :: expansion x' (arg_bytes m)
      /\ buf_ok result').
  { intros HL' He'. apply Forall_cons in He' as [Hc He']. simpl in HL'.
    destruct (ungetch_ok result (char_to_int ch) w) as (b1 & -> & Hb1 & Hok1 & _);
      [done|done|lia|].
    rewrite to_char_char_to_int in *.
    destruct (Z.eqb_spec (char_to_int ch) EOF); [done|].
    destruct (IH x' b1) as (res' & -> & Hres & Hok'); [lia|done| |done|].
    { unfold b_i in *. rewrite Hb1, length_app_Z. simpl. lia. }
    exists res'. split; [done|]. split; [|done].
    by rewrite Hres, Hb1, <- app_assoc. }
  destruct (bool_decide_reflect (ch = "$"%char)) as [->|Hne];
    [|rewrite expansion_cons_plain in * by done; by apply Hplain].
  destruct x' as [|h x''].
  { by apply Hplain. }
  destruct (param_digit h) eqn:Ed;
    [|rewrite expansion_dollar_other in * by done; by apply Hplain].
  rewrite expansion_dollar_param in * by done. simpl in Hn.
  pose proof (eq_refl (arg_bytes m (code h - 48))) as Ea.
  unfold arg_bytes at 2 in Ea.
  destruct (arg_slot m (code h - 48)) as [b|]; rewrite Ea in *.
  - rewrite length_app_Z in HL. apply Forall_app in He as [_ He].
    destruct (reserve_ok result (b_i b) w) as (b1 & -> & Hb1 & Hs1 & Hs2);
      [done|done|apply b_i_nonneg|unfold b_i in *; lia|].
    simpl.
    assert (b_i b1 = b_i result) as Hi by (unfold b_i; by rewrite Hb1).
    destruct (IH x'' (append b1 (b_a b))) as (res' & -> & Hres & Hok');
      [lia| | |done|].
    { apply buf_ok_append; [unfold b_i in *; lia|lia]. }
    { unfold b_i in *. simpl. rewrite length_app_Z. lia. }
    exists res'. split; [done|]. split; [|done].
    rewrite Hres. simpl. by rewrite Hb1, <- app_assoc.
  - simpl in *. apply IH; try done. lia.
Qed.

Lemma no_nul_cstr x : no_nul x -> cstr x = x.
Proof. apply cstr_id. Qed.

Lemma cstr_app_nul x y : no_nul x -> cstr (x ++ NUL :: y) = x.
Proof.
  induction 1 as [|c x Hc _ IH]; simpl; [done|].
  destruct (Z.eqb_spec (code c) 0); [done|]. by rewrite IH.
Qed.

Lemma expansion_no_nul n x args :
  (length x <= n)%nat ->
  no_nul x -> (forall k, no_nul (args k)) -> no_nul (expansion x args).
Proof.
  intros Hn Hx Ha. revert x Hn Hx.
  induction n as [|n IH]; intros x Hn Hx.
  { destruct x; [constructor|simpl in Hn; lia]. }
  destruct x as [|c [|d x]]; [constructor|done|].
  simpl in Hn. apply Forall_cons in Hx as [Hc Hx].
  rewrite expansion_unfold.
  destruct (bool_decide (c = "$"%char) && param_digit d).
  - apply Forall_app. split; [apply Ha|]. apply IH; [lia|].
    by apply Forall_cons in Hx as [_ Hx].
  - apply Forall_cons. split; [done|]. apply IH; [simpl; lia|done].
Qed.

Lemma NUL_code : code NUL = 0.
Proof. reflexivity. Qed.

Lemma char_to_int_NUL : char_to_int (to_char 0) = 0.
Proof. apply char_to_int_small. vm_compute. done. Qed.

Lemma sub_args_result result m w d r res' w' :
  mc_def m = Some d -> no_nul d ->
  sub_args result m w = (r, res', w') ->
  (r = 0 /\ b_a res' = expansion d (arg_bytes m) ++ [NUL]) \/ r = 1.
Proof.
  intros Hd Hn. unfold sub_args. rewrite Hd. simpl.
  rewrite (no_nul_cstr d Hn).
  destruct (sub_args_loop d (delete_buf result) m w) as [[r1 res1] w1] eqn:S.
  apply (sub_args_loop_result (length d)) in S; [|done].
  destruct S as [[-> S] | ->]; simpl; [|intros [= <- <- <-]; by right].
  destruct (ungetch res1 0 w1) as [[r2 res2] w2] eqn:U.
  apply ungetch_result in U.
  destruct (Z.eqb_spec r2 EOF); intros [= <- <- <-]; [by right|].
  destruct U as [[-> _]|[_ Hb]]; [done|].
  left. split; [done|]. by rewrite Hb, S.
Qed.

Lemma sub_args_ok result m w d :
  mc_def m = Some d -> no_nul d ->
  heap w = [] -> buf_ok result ->
  Z.of_nat (length (expansion d (arg_bytes m))) + 1 <= LIMIT ->
  no_eof (expansion d (arg_bytes m)) ->
  exists res',
    sub_args result m w = (0, res', w)
    /\ b_a res' = expansion d (arg_bytes m) ++ [NUL] /\ buf_ok res'.
Proof.
  intros Hd Hn Hh Hok HL He. unfold sub_args. rewrite Hd. simpl.
  rewrite (no_nul_cstr d Hn).
  destruct (sub_args_loop_ok (length d) d (delete_buf result) m w)
    as (res1 & -> & Hres & Hok1); [done|done| | |done|].
  { destruct Hok. pose proof (b_i_nonneg result).
    unfold buf_ok, delete_buf, b_i in *. simpl. lia. }
  { unfold b_i. simpl. lia. }
  simpl in Hres. simpl.
  destruct (ungetch_ok res1 0 w) as (res2 & -> & Hb2 & Hok2 & _); [done|done| |].
  { unfold b_i. rewrite Hres. lia. }
  rewrite char_to_int_NUL. simpl. exists res2. by rewrite Hb2, Hres.
Qed.

Lemma unget_input_result x st :
  match unget_input x st with
  | Ret _ st' =>
      unread (input st') = cstr x ++ unread (input st)
      /\ stack st' = stack st /\ diversion st' = diversion st
      /\ ht st' = ht st /\ act_div st' = act_div st
  | Quit _ => True
  | _ => False
  end.
Proof.
  unfold unget_input, on_buf.
  destruct (ungetstr_result (input st) x (env st))
    as [(b' & w' & -> & H)|(b' & w' & t & -> & _)]; simpl; done.
Qed.

Lemma unget_input_ok x st :
  heap (env st) = [] -> buf_ok (input st) ->
  b_i (input st) + Z.of_nat (length (cstr x)) <= LIMIT ->
  no_eof (cstr x) ->
  exists b',
    unget_input x st = Ret tt (set_env (env st) (set_input b' st))
    /\ unread b' = cstr x ++ unread (input st).
Proof.
  intros Hh Hok HL He. unfold unget_input, on_buf.
  destruct (ungetstr_ok (input st) x (env st)) as (b' & -> & H & _);
    try done. simpl. by exists b'.
Qed.

Lemma free_mcall_loop_bracket fuel j d m :
  free_mcall_loop fuel j (set_bracket_depth d m) = free_mcall_loop fuel j m.
Proof. revert j. induction fuel as [|fuel IH]; intros j; [done|]. simpl.
  change (read_slot (set_bracket_depth d m) j) with (read_slot m j).
  destruct (read_slot m j) as [[b|]|]; try done.
  destruct (j <? 10); [apply IH|done].
Qed.

Lemma REMOVE_SH_cases st m stk :
  stack st = m :: stk ->
  match free_mcall m with
  | Some _ =>
      REMOVE_SH st
      = Ret tt (set_output (match stk with
                            | [] => Diversion (act_div st)
                            | m' :: _ => Argument (act_arg m')
                            end) (set_stack stk st))
  | None => REMOVE_SH st = Undefined
  end.
Proof.
  intros Hs. unfold REMOVE_SH, bind, delete_stack_head. rewrite Hs.
  by destruct (free_mcall m) as [[]|].
Qed.

(** C5: at the closing bracket of a call of a user-defined macro, what is
    pushed back onto the input is the definition with every [$d], for [d]
    from 1 to 9, replaced by the contents of argument [d] (nothing when the
    argument is absent) and every other byte kept; a dollar that is
    followed by 0, by another byte or by nothing is kept.  This holds of the
    step up to [REMOVE_SH], which can only fail by [QUIT].  [REMOVE_SH] then
    takes the call off the stack; it has no meaning in C when the slots 1 to
    9 of the frame are all in use, because [free_mcall] then reads slot 10.
    The whole step does not fail when no allocation fails, the sizes stay
    below [LIMIT], no byte is taken for [EOF] and the frame has a free
    slot. *)
Theorem call_completion_pushes_expansion
    (st : m4) (m : mcall) (stk : list mcall) (d : list ascii) :
  stack st = m :: stk -> mc_def m = Some d ->
  no_nul d -> (forall n, no_nul (arg_bytes m n)) ->
  let e := expansion d (arg_bytes m) in
  match arg_end_call st with
  | Ret _ st1 =>
      unread (input st1) = e ++ unread (input st)
      /\ diversion st1 = diversion st /\ ht st1 = ht st
      /\ arg_end st = REMOVE_SH st1
  | Quit st1 => arg_end st = Quit st1
  | _ => False
  end
  /\ match arg_end st with
     | Ret _ st' =>
         unread (input st') = e ++ unread (input st)
         /\ stack st' = stk /\ diversion st' = diversion st /\ ht st' = ht st
     | Quit _ => True
     | Undefined => free_mcall m = None
     | _ => False
     end
  /\ (heap (env st) = [] -> buf_ok (result st) -> buf_ok (input st) ->
      b_i (input st) + Z.of_nat (length e) + 1 <= LIMIT -> no_eof e ->
      free_mcall m = Some tt ->
      exists st', arg_end st = Ret tt st')
  /\ (forall c x, c <> "$"%char ->
       expansion (c :: x) (arg_bytes m) = c :: expansion x (arg_bytes m))
  /\ (forall c x, param_digit c = false ->
       expansion ("$"%char :: c :: x) (arg_bytes m)
       = "$"%char :: expansion (c :: x) (arg_bytes m))
  /\ (forall c x, param_digit c = true ->
       expansion ("$"%char :: c :: x) (arg_bytes m)
       = arg_bytes m (code c - 48) ++ expansion x (arg_bytes m))
  /\ expansion ["$"%char] (arg_bytes m) = ["$"%char]
  /\ param_digit "0"%char = false.
Proof.
  intros Hs Hd Hn Ha e.
  assert (no_nul e) as Hne by (by apply (expansion_no_nul (length d))).
  set (m1 := set_bracket_depth (wrap (bracket_depth m - 1)) m).
  assert (match arg_end_call st with
          | Ret _ st1 =>
              unread (input st1) = e ++ unread (input st)
              /\ diversion st1 = diversion st /\ ht st1 = ht st
              /\ stack st1 = m1 :: stk
          | Quit _ => True
          | _ => False
          end) as Hcall.
  { unfold arg_end_call, bind, on_head, head_mcall. rewrite Hs. simpl.
    rewrite Hd. unfold on_buf at 1. simpl. fold m1.
    destruct (sub_args (result st) m1 (env st)) as [[r res'] w'] eqn:S.
    apply (sub_args_result _ _ _ d) in S; [|done|done].
    destruct S as [[-> S] | ->]; simpl; [|done].
    unfold get. simpl. rewrite S.
    match goal with |- context [unget_input ?x ?s] =>
      pose proof (unget_input_result x s) as U;
      destruct (unget_input x s) as [[] st3| | | |] end; try done.
    destruct U as (U1 & U2 & U3 & U4 & U5).
    rewrite U1, U2, U3, U4. simpl.
    change (arg_bytes m1) with (arg_bytes m). fold e.
    by rewrite (cstr_app_nul e [] Hne). }
  assert (free_mcall m1 = free_mcall m) as Hfree
    by apply free_mcall_loop_bracket.
  split; [|split; [|split; [|split; [|split; [|split; [|split]]]]]].
  - unfold arg_end, bind.
    destruct (arg_end_call st) as [[] st1|st1| | |]; try done.
    by destruct Hcall as (? & ? & ? & _).
  - unfold arg_end, bind.
    destruct (arg_end_call st) as [[] st1|st1| | |]; try done.
    destruct Hcall as (H1 & H2 & H3 & H4).
    pose proof (REMOVE_SH_cases st1 m1 stk H4) as HR. rewrite Hfree in HR.
    destruct (free_mcall m) as [[]|]; rewrite HR; [|done].
    by simpl.
  - intros Hh Hr Hi HL He Hfm.
    unfold arg_end, bind.
    assert (exists st1, arg_end_call st = Ret tt st1
                        /\ stack st1 = m1 :: stk) as (st1 & E & Hs1).
    { unfold arg_end_call, bind, on_head, head_mcall. rewrite Hs. simpl.
      rewrite Hd. unfold on_buf at 1. simpl. fold m1.
      destruct (sub_args_ok (result st) m1 (env st) d) as (res' & -> & S & _);
        try done.
      { change (arg_bytes m1) with (arg_bytes m). fold e.
        pose proof (b_i_nonneg (input st)). lia. }
      simpl. unfold get. simpl. rewrite S.
      change (arg_bytes m1) with (arg_bytes m). fold e.
      match goal with |- context [unget_input ?x ?s] =>
        destruct (unget_input_ok x s) as (b' & -> & _) end; simpl; try done.
      + rewrite (cstr_app_nul e [] Hne). lia.
      + by rewrite (cstr_app_nul e [] Hne).
      + by eexists. }
    rewrite E. pose proof (REMOVE_SH_cases st1 m1 stk Hs1) as HR.
    rewrite Hfree, Hfm in HR. rewrite HR. by eexists.
  - intros c x Hc. by apply expansion_cons_plain.
  - intros c x Hc. by apply expansion_dollar_other.
  - intros c x Hc. by apply expansion_dollar_param.
  - reflexivity.
  - reflexivity.
Qed.

End Expansion_facts.

Section Arithmetic_facts.

Context {platform : Platform}.

Lemma isdigit_char_to_int c :
  isdigit (char_to_int c) = (48 <=? code c) && (code c <=? 57).
Proof.
  unfold isdigit. pose proof (code_range c).
  destruct (char_to_int_cases c) as [->|[-> ?]]; [done|].
  destruct (Z.leb_spec 48 (code c - 256)), (Z.leb_spec (code c - 256) 57),
    (Z.leb_spec 48 (code c)), (Z.leb_spec (code c) 57); simpl; try done; lia.
Qed.

Lemma digit_value_range c d : digit_value c = Some d -> 0 <= d <= 9.
Proof.
  unfold digit_value.
  destruct (Z.leb_spec 48 (code c)), (Z.leb_spec (code c) 57); simpl;
    intros [= <-]; lia.
Qed.

Lemma digit_value_char_to_int c d :
  digit_value c = Some d -> char_to_int c - 48 = d.
Proof.
  unfold digit_value.
  destruct (Z.leb_spec 48 (code c)), (Z.leb_spec (code c) 57); simpl;
    intros [= <-]. rewrite char_to_int_small; lia.
Qed.

Lemma decimal_ge x acc v : 0 <= acc -> decimal x acc = Some v -> acc <= v.
Proof.
  revert acc. induction x as [|c x IH]; simpl; intros acc Ha.
  { intros [= <-]. lia. }
  destruct (digit_value c) as [d|] eqn:E; [|done].
  apply digit_value_range in E. intros H. apply IH in H; lia.
Qed.

Lemma MOF_spec a b :
  0 <= a -> 0 <= b -> MOF a b = negb (a * b <=? SIZE_MAX).
Proof.
  intros Ha Hb. unfold MOF.
  destruct (Z.eqb_spec a 0) as [->|Hne].
  { destruct (Z.leb_spec (0 * b) SIZE_MAX); [done|]. unfold SIZE_MAX in *. lia. }
  simpl.
  assert (0 < a) by lia.
  destruct (Z.ltb_spec (SIZE_MAX / a) b) as [H1|H1];
    destruct (Z.leb_spec (a * b) SIZE_MAX) as [H2|H2]; simpl; try done.
  - exfalso. apply Z.div_le_lower_bound in H2; [lia|done].
  - exfalso. pose proof (Z.mul_div_le SIZE_MAX a).
    assert (a * b <= a * (SIZE_MAX / a)) by (apply Z.mul_le_mono_nonneg_l; lia).
    lia.
Qed.

Lemma AOF_spec a b : AOF a b = negb (a + b <=? SIZE_MAX).
Proof.
  unfold AOF.
  destruct (Z.ltb_spec (SIZE_MAX - b) a), (Z.leb_spec (a + b) SIZE_MAX);
    simpl; try done; lia.
Qed.

(** [str_to_num_loop] computes the decimal value and rejects what does not
    fit in [size_t]. *)
Lemma str_to_num_loop_spec x n :
  0 <= n <= SIZE_MAX ->
  str_to_num_loop x n
  = match decimal x n with
    | Some v => if v <=? SIZE_MAX then Some v else None
    | None => None
    end.
Proof.
  revert n. induction x as [|c x IH]; simpl; intros n Hn.
  { destruct (Z.leb_spec n SIZE_MAX); [done|lia]. }
  rewrite isdigit_char_to_int. unfold digit_value at 1.
  destruct ((48 <=? code c) && (code c <=? 57)) eqn:E; [|done].
  assert (digit_value c = Some (code c - 48)) as Hd
    by (unfold digit_value; by rewrite E).
  rewrite (digit_value_char_to_int _ _ Hd).
  apply digit_value_range in Hd.
  rewrite MOF_spec by lia. rewrite AOF_spec.
  destruct (Z.leb_spec (n * 10) SIZE_MAX) as [H1|H1]; simpl.
  - destruct (Z.leb_spec (n * 10 + (code c - 48)) SIZE_MAX) as [H2|H2]; simpl.
    + apply IH. lia.
    + destruct (decimal x (n * 10 + (code c - 48))) as [v|] eqn:D; [|done].
      apply decimal_ge in D; [|lia].
      destruct (Z.leb_spec v SIZE_MAX); [lia|done].
  - destruct (decimal x (n * 10 + (code c - 48))) as [v|] eqn:D; [|done].
    apply decimal_ge in D; [|lia].
    destruct (Z.leb_spec v SIZE_MAX); [lia|done].
Qed.

Lemma str_to_num_spec x : str_to_num x = number (cstr x).
Proof.
  unfold str_to_num, number. destruct (cstr x) as [|c y]; [done|].
  apply str_to_num_loop_spec. unfold SIZE_MAX. lia.
Qed.

Lemma number_range x v : number x = Some v -> 0 <= v <= SIZE_MAX.
Proof.
  unfold number. destruct x as [|c x]; [done|].
  destruct (decimal (c :: x) 0) as [v'|] eqn:D; [|done].
  apply decimal_ge in D; [|lia].
  destruct (Z.leb_spec v' SIZE_MAX); intros [= <-]. lia.
Qed.

(** *** Printing *)

Lemma digit_value_to_char d :
  0 <= d <= 9 -> digit_value (to_char (48 + d)) = Some d.
Proof.
  intros Hd. unfold digit_value. rewrite code_to_char.
  rewrite Z.mod_small by lia.
  destruct (Z.leb_spec 48 (48 + d)), (Z.leb_spec (48 + d) 57); simpl;
    try lia. f_equal. lia.
Qed.

Lemma decimal_digits fuel n acc :
  0 <= n < 10 ^ Z.of_nat fuel -> (0 < fuel)%nat ->
  decimal (digits fuel n acc) 0 = decimal acc n.
Proof.
  revert n acc. induction fuel as [|fuel IH]; intros n acc Hn Hf; [lia|].
  simpl digits.
  pose proof (Z.mod_pos_bound n 10 ltac:(lia)).
  destruct (Z.eqb_spec (n / 10) 0) as [E|E].
  - simpl. rewrite digit_value_to_char by lia. simpl.
    f_equal. pose proof (Z.div_mod n 10 ltac:(lia)). lia.
  - assert (0 < n / 10) by (pose proof (Z.div_pos n 10); lia).
    destruct fuel as [|fuel].
    { change (10 ^ Z.of_nat 1) with 10 in Hn.
      rewrite Z.div_small in E by lia. done. }
    rewrite IH; [| |lia].
    + simpl. rewrite digit_value_to_char by lia.
      f_equal. pose proof (Z.div_mod n 10 ltac:(lia)). lia.
    + split; [lia|]. apply Z.div_lt_upper_bound; [lia|].
      rewrite Nat2Z.inj_succ, Z.pow_succ_r in Hn by lia. lia.
Qed.

Lemma digits_nonempty fuel n acc : (0 < fuel)%nat -> digits fuel n acc <> [].
Proof.
  revert n acc. induction fuel as [|fuel IH]; intros n acc Hf; [lia|].
  simpl. destruct (n / 10 =? 0); [done|].
  destruct fuel; [done|]. apply IH. lia.
Qed.

(** What [ulong_str] prints reads back as the number printed. *)
Lemma number_ulong_str r : 0 <= r <= SIZE_MAX -> number (ulong_str r) = Some r.
Proof.
  intros Hr. unfold number, ulong_str.
  pose proof (digits_nonempty 20 r [] ltac:(lia)) as Hne.
  destruct (digits 20 r []) as [|c x] eqn:E; [done|].
  rewrite <- E, decimal_digits; [|unfold SIZE_MAX in Hr; lia|lia].
  simpl. destruct (Z.leb_spec r SIZE_MAX); [done|lia].
Qed.

(** *** The loops of the macros *)

Lemma EQUIT_bind {A B} msg (k : A -> M B) st :
  bind (EQUIT msg) k st = EQUIT msg st.
Proof. reflexivity. Qed.

Lemma fold_args_cons f a args w :
  fold_args f (a :: args) w
  = if streq a [] then fold_args f args w
    else match number a with
         | Some n =>
             match f w n with
             | Some w' => fold_args f args w'
             | None => None
             end
         | None => None
         end.
Proof. by destruct a. Qed.

Lemma arith_loop_spec ks m invalid (step : Z -> Z -> M Z) f w st :
  (forall w n, 0 <= w <= SIZE_MAX -> 0 <= n <= SIZE_MAX ->
     match f w n with
     | Some w' => step w n = ret w' /\ 0 <= w' <= SIZE_MAX
     | None => exists msg, step w n = EQUIT msg
     end) ->
  0 <= w <= SIZE_MAX ->
  match fold_args f (ARG m <$> ks) w with
  | Some r => arith_loop ks m invalid step w st = Ret r st /\ 0 <= r <= SIZE_MAX
  | None => exists msg, arith_loop ks m invalid step w st = EQUIT msg st
  end.
Proof.
  intros Hstep. revert w. induction ks as [|k ks IH]; intros w Hw.
  { simpl. done. }
  rewrite fmap_cons, fold_args_cons. cbn [arith_loop].
  destruct (streq (ARG m k) []); simpl; [by apply IH|].
  rewrite str_to_num_spec, ARG_cstr.
  destruct (number (ARG m k)) as [n|] eqn:N; [|by eexists].
  apply number_range in N. specialize (Hstep w n Hw N).
  destruct (f w n) as [w'|].
  - destruct Hstep as [-> Hw']. unfold bind at 1. simpl. by apply IH.
  - destruct Hstep as [msg ->]. exists msg. by rewrite EQUIT_bind.
Qed.

Lemma add_step_refined w n :
  0 <= w <= SIZE_MAX -> 0 <= n <= SIZE_MAX ->
  match add_step w n with
  | Some w' =>
      (if AOF w n then EQUIT "add: Integer overflow" else ret (w + n))
      = ret w' /\ 0 <= w' <= SIZE_MAX
  | None =>
      exists msg,
        (if AOF w n then EQUIT "add: Integer overflow" else ret (w + n))
        = EQUIT (A:=Z) msg
  end.
Proof.
  intros Hw Hn. unfold add_step. rewrite AOF_spec.
  destruct (Z.leb_spec (w + n) SIZE_MAX); simpl; [split; [done|lia]|by eexists].
Qed.

Lemma mult_step_refined w n :
  0 <= w <= SIZE_MAX -> 0 <= n <= SIZE_MAX ->
  match mult_step w n with
  | Some w' =>
      (if MOF w n then EQUIT "mult: Integer overflow" else ret (w * n))
      = ret w' /\ 0 <= w' <= SIZE_MAX
  | None =>
      exists msg,
        (if MOF w n then EQUIT "mult: Integer overflow" else ret (w * n))
        = EQUIT (A:=Z) msg
  end.
Proof.
  intros Hw Hn. unfold mult_step. rewrite MOF_spec by lia.
  destruct (Z.leb_spec (w * n) SIZE_MAX); simpl; [split; [done|lia]|by eexists].
Qed.

Lemma sub_step_refined w n :
  0 <= w <= SIZE_MAX -> 0 <= n <= SIZE_MAX ->
  match sub_step w n with
  | Some w' =>
      (if w <? n then EQUIT "sub: Integer underflow" else ret (w - n))
      = ret w' /\ 0 <= w' <= SIZE_MAX
  | None =>
      exists msg,
        (if w <? n then EQUIT "sub: Integer underflow" else ret (w - n))
        = EQUIT (A:=Z) msg
  end.
Proof.
  intros Hw Hn. unfold sub_step.
  destruct (Z.leb_spec n w), (Z.ltb_spec w n); try lia;
    [split; [done|lia]|by eexists].
Qed.

Lemma div_step_refined w n :
  0 <= w <= SIZE_MAX -> 0 <= n <= SIZE_MAX ->
  match div_step w n with
  | Some w' =>
      (if n =? 0 then EQUIT "div: Divide by zero" else ret (w / n))
      = ret w' /\ 0 <= w' <= SIZE_MAX
  | None =>
      exists msg,
        (if n =? 0 then EQUIT "div: Divide by zero" else ret (w / n))
        = EQUIT (A:=Z) msg
  end.
Proof.
  intros Hw Hn. unfold div_step.
  destruct (Z.eqb_spec n 0); [by eexists|]. split; [done|].
  split; [apply Z.div_pos; lia|].
  pose proof (Z.div_le_upper_bound w n w ltac:(lia) ltac:(nia)). lia.
Qed.

Lemma mod_step_refined w n :
  0 <= w <= SIZE_MAX -> 0 <= n <= SIZE_MAX ->
  match mod_step w n with
  | Some w' =>
      (if n =? 0 then EQUIT "mod: Modulo by zero" else ret (w mod n))
      = ret w' /\ 0 <= w' <= SIZE_MAX
  | None =>
      exists msg,
        (if n =? 0 then EQUIT "mod: Modulo by zero" else ret (w mod n))
        = EQUIT (A:=Z) msg
  end.
Proof.
  intros Hw Hn. unfold mod_step.
  destruct (Z.eqb_spec n 0); [by eexists|]. split; [done|].
  pose proof (Z.mod_pos_bound w n ltac:(lia)). lia.
Qed.

Lemma arith_from_arg1_spec m unused invalid (step : Z -> Z -> M Z) f st :
  (forall w n, 0 <= w <= SIZE_MAX -> 0 <= n <= SIZE_MAX ->
     match f w n with
     | Some w' => step w n = ret w' /\ 0 <= w' <= SIZE_MAX
     | None => exists msg, step w n = EQUIT msg
     end) ->
  match from_arg1 f (ARGS m) with
  | Some r =>
      arith_from_arg1 m unused invalid step st = unget_input (ulong_str r) st
      /\ 0 <= r <= SIZE_MAX
  | None => exists msg, arith_from_arg1 m unused invalid step st = EQUIT msg st
  end.
Proof.
  intros Hstep. unfold ARGS.
  change (seqZ 1 9) with (1 :: seqZ 2 8). rewrite fmap_cons.
  unfold from_arg1, arith_from_arg1.
  destruct (streq (ARG m 1) []) eqn:E.
  { apply streq_true in E. rewrite E. by eexists. }
  rewrite str_to_num_spec, ARG_cstr.
  destruct (number (ARG m 1)) as [w|] eqn:N; [|by eexists].
  apply number_range in N.
  pose proof (arith_loop_spec (seqZ 2 8) m invalid step f w st Hstep N) as H.
  destruct (fold_args f (ARG m <$> seqZ 2 8) w) as [r|].
  - destruct H as [H Hr]. unfold bind. by rewrite H.
  - destruct H as [msg H]. exists msg. unfold bind. by rewrite H.
Qed.

(** C9: the arithmetic macros are the folds of the specification over the
    arguments 1 to 9, on unsigned integers of the machine.  An empty
    argument is skipped; [add] sums from 0, [mult] multiplies from 1;
    [sub], [div] and [mod] need argument 1 and fold over arguments 2 to 9;
    a zero divisor, a sum or product above [SIZE_MAX], a difference below
    0 and an argument that is not a number are fatal.  The result is
    pushed back in decimal: what [ulong_str] prints reads back as the
    number.  The five calls of the specification print 14, 15, 55, 2
    and 1. *)
Theorem arithmetic_builtins (m : mcall) (st : m4) :
  match add_spec (ARGS m) with
  | Some r => bi_add m st = unget_input (ulong_str r) st
  | None => exists msg, bi_add m st = EQUIT msg st
  end
  /\ match mult_spec (ARGS m) with
     | Some r => bi_mult m st = unget_input (ulong_str r) st
     | None => exists msg, bi_mult m st = EQUIT msg st
     end
  /\ match from_arg1 sub_step (ARGS m) with
     | Some r => bi_sub m st = unget_input (ulong_str r) st
     | None => exists msg, bi_sub m st = EQUIT msg st
     end
  /\ match from_arg1 div_step (ARGS m) with
     | Some r => bi_div m st = unget_input (ulong_str r) st
     | None => exists msg, bi_div m st = EQUIT msg st
     end
  /\ match from_arg1 mod_step (ARGS m) with
     | Some r => bi_mod m st = unget_input (ulong_str r) st
     | None => exists msg, bi_mod m st = EQUIT msg st
     end
  /\ (forall r, 0 <= r <= SIZE_MAX -> number (ulong_str r) = Some r)
  /\ status_and_output (main 100 [] (world_of (lit "add(8, 2, 4)")))
     = Some (0, lit "14")
  /\ status_and_output (main 100 [] (world_of (lit "mult( , 5, , 3)")))
     = Some (0, lit "15")
  /\ status_and_output (main 100 [] (world_of (lit "sub(80, 20, 5)")))
     = Some (0, lit "55")
  /\ status_and_output (main 100 [] (world_of (lit "div(5, 2)")))
     = Some (0, lit "2")
  /\ status_and_output (main 100 [] (world_of (lit "mod(5, 2)")))
     = Some (0, lit "1").
Proof.
  assert (0 <= 0 <= SIZE_MAX) as H0 by (unfold SIZE_MAX; lia).
  assert (0 <= 1 <= SIZE_MAX) as H1 by (unfold SIZE_MAX; lia).
  split; [|split; [|split; [|split; [|split; [|split]]]]].
  - pose proof (arith_loop_spec (seqZ 1 9) m "add: Invalid number" _ _ 0 st
                  add_step_refined H0) as H.
    unfold add_spec, ARGS, bi_add, bind.
    destruct (fold_args add_step (ARG m <$> seqZ 1 9) 0).
    + destruct H as [-> _]. done.
    + destruct H as [msg ->]. by exists msg.
  - pose proof (arith_loop_spec (seqZ 1 9) m "mult: Invalid number" _ _ 1 st
                  mult_step_refined H1) as H.
    unfold mult_spec, ARGS, bi_mult, bind.
    destruct (fold_args mult_step (ARG m <$> seqZ 1 9) 1).
    + destruct H as [-> _]. done.
    + destruct H as [msg ->]. by exists msg.
  - pose proof (arith_from_arg1_spec m "sub: Argument 1 must be used"
                  "sub: Invalid number" _ _ st sub_step_refined) as H.
    unfold bi_sub. destruct (from_arg1 sub_step (ARGS m)); [apply H|done].
  - pose proof (arith_from_arg1_spec m "div: Argument 1 must be used"
                  "div: Invalid number" _ _ st div_step_refined) as H.
    unfold bi_div. destruct (from_arg1 div_step (ARGS m)); [apply H|done].
  - pose proof (arith_from_arg1_spec m "mod: Argument 1 must be used"
                  "mod: Invalid number" _ _ st mod_step_refined) as H.
    unfold bi_mod. destruct (from_arg1 mod_step (ARGS m)); [apply H|done].
  - apply number_ulong_str.
  - clear. destruct platform as [[]]; repeat split; vm_compute; reflexivity.
Qed.

End Arithmetic_facts.

Section Tokenizer_facts.

Context {platform : Platform}.

Lemma same_but_stdin_refl w : same_but_stdin w w.
Proof. unfold same_but_stdin. tauto. Qed.

Lemma same_but_stdin_trans w1 w2 w3 :
  same_but_stdin w1 w2 -> same_but_stdin w2 w3 -> same_but_stdin w1 w3.
Proof.
  unfold same_but_stdin. intros H1 H2. destruct_and!.
  repeat split; congruence.
Qed.

Lemma reads_to_char x c : reads x c -> to_char x = c.
Proof.
  intros [->| ->]; [apply to_char_char_to_int|apply to_char_code].
Qed.

Lemma class_char_to_int (P : Z -> bool) c :
  (forall x, P x = true -> 0 <= x < 128) ->
  P (char_to_int c) = P (code c).
Proof.
  intros HP. pose proof (code_range c).
  destruct (char_to_int_cases c) as [->|[-> ?]]; [done|].
  destruct (P (code c - 256)) eqn:E1; [apply HP in E1; lia|].
  destruct (P (code c)) eqn:E2; [apply HP in E2; lia|done].
Qed.

Lemma isalpha_range x : isalpha x = true -> 0 <= x < 128.
Proof. unfold isalpha. lia. Qed.
Lemma isalnum_range x : isalnum x = true -> 0 <= x < 128.
Proof. unfold isalnum, isalpha, isdigit. lia. Qed.
Lemma underscore_range x : (x =? 95) = true -> 0 <= x < 128.
Proof. lia. Qed.

Lemma reads_ident_start x c :
  reads x c -> isalpha x || (x =? 95) = ident_start c.
Proof.
  intros [->| ->]; [|done]. unfold ident_start.
  rewrite (class_char_to_int isalpha c isalpha_range).
  by rewrite (class_char_to_int (fun x => x =? 95) c underscore_range).
Qed.

Lemma reads_ident_char x c :
  reads x c -> isalnum x || (x =? 95) = ident_char c.
Proof.
  intros [->| ->]; [|done]. unfold ident_char.
  rewrite (class_char_to_int isalnum c isalnum_range).
  by rewrite (class_char_to_int (fun x => x =? 95) c underscore_range).
Qed.

Lemma reads_not_EOF x c : reads x c -> char_to_int c <> EOF -> x <> EOF.
Proof.
  intros [->| ->] H; [done|]. pose proof (code_range c). unfold EOF. lia.
Qed.

Lemma ident_char_small c : ident_char c = true -> code c < 128.
Proof. unfold ident_char, isalnum, isalpha, isdigit. lia. Qed.

Lemma ident_start_char c : ident_start c = true -> ident_char c = true.
Proof.
  unfold ident_start, ident_char, isalnum. intros H.
  apply orb_true_iff in H as [-> | ->]; [done|by rewrite orb_true_r].
Qed.

Lemma ident_char_not_EOF c : ident_char c = true -> char_to_int c <> EOF.
Proof.
  intros H. apply ident_char_small in H. rewrite char_to_int_small by done.
  pose proof (code_range c). unfold EOF. lia.
Qed.

(** *** [getch] *)

Lemma getch_eof b rs w :
  to_read b rs w = [] ->
  getch b rs w = (EOF, if rs then stdin_errno w else false, b, w).
Proof.
  unfold to_read, unread, getch. intros H.
  apply app_eq_nil in H as [H1 H2]. rewrite H1.
  destruct rs; [|done]. unfold getchar. by rewrite H2.
Qed.

Lemma getch_read b rs w c rest :
  to_read b rs w = c :: rest ->
  exists x b' w',
    getch b rs w = (x, false, b', w') /\ reads x c
    /\ to_read b' rs w' = rest
    /\ b_s b' = b_s b /\ b_i b' <= b_i b
    /\ same_but_stdin w w'
    /\ (length (b_a b') + length (stdin w') < length (b_a b) + length (stdin w))%nat
    /\ (rs = false -> w' = w).
Proof.
  unfold to_read, unread, getch. intros H.
  destruct (reverse (b_a b)) as [|c' r] eqn:E.
  - simpl in H. destruct rs; [|done]. unfold getchar. rewrite H.
    eexists _, _, _. split; [done|]. split; [by right|].
    simpl. rewrite E. simpl. repeat split; try done; try lia.
  - simpl in H. injection H as <- <-.
    eexists _, _, _. split; [done|]. split; [by left|]. simpl.
    rewrite reverse_involutive.
    assert (length (b_a b) = S (length r)) as Hl.
    { rewrite <- (length_reverse (b_a b)), E. done. }
    unfold b_i. simpl. rewrite length_reverse, Hl.
    repeat split; try done; lia.
Qed.

Lemma same_but_stdin_heap w w' : same_but_stdin w w' -> heap w' = heap w.
Proof. by intros [? _]. Qed.

Lemma buf_ok_shrunk b b' :
  buf_ok b -> b_s b' = b_s b -> b_i b' <= b_i b -> buf_ok b'.
Proof. unfold buf_ok. intros [? ?] -> ?. lia. Qed.

Lemma to_read_push b rs w c b' :
  b_a b' = b_a b ++ [c] -> to_read b' rs w = c :: to_read b rs w.
Proof.
  unfold to_read, unread. intros ->. by rewrite reverse_app.
Qed.

(** *** The loop of [getword] *)

(** The identifier bytes [run] are followed by the byte [d]: the loop
    stores the run, puts [d] back and terminates the token. *)
Lemma getword_loop_token run : forall fuel token input rs w d rest,
  to_read input rs w = run ++ d :: rest ->
  Forall (fun c => ident_char c = true) run -> ident_char d = false ->
  char_to_int d <> EOF ->
  heap w = [] -> buf_ok token -> buf_ok input ->
  b_i token + Z.of_nat (length run) + 1 <= LIMIT ->
  b_i input + 1 <= LIMIT ->
  (length run < fuel)%nat ->
  exists token' input' w',
    getword_loop fuel token input rs w = (0, false, token', input', w')
    /\ b_a token' = b_a token ++ run ++ [NUL]
    /\ to_read input' rs w' = d :: rest
    /\ buf_ok token' /\ buf_ok input' /\ same_but_stdin w w'
    /\ (length (b_a input') + length (stdin w')
        <= length (b_a input) + length (stdin w))%nat
    /\ (rs = false -> w' = w).
Proof.
  induction run as [|c run IH];
    intros fuel token input rs w d rest Hr Hrun Hd He Hh Htk Hin HLt HLi Hf.
  - destruct fuel as [|fuel]; [simpl in Hf; lia|]. simpl in Hr.
    destruct (getch_read _ _ _ _ _ Hr)
      as (x & b1 & w1 & G & Hx & Hr1 & Hs1 & Hi1 & Hw1 & Hlen & Hrs).
    cbn [getword_loop]. rewrite G.
    destruct (Z.eqb_spec x EOF) as [E|_]; [by apply reads_not_EOF in Hx|].
    rewrite (reads_ident_char x d Hx), Hd. simpl.
    pose proof (same_but_stdin_heap _ _ Hw1) as Hh1. rewrite Hh in Hh1.
    pose proof (buf_ok_shrunk _ _ Hin Hs1 Hi1) as Hok1.
    destruct (ungetch_ok b1 x w1) as (b2 & -> & Hb2 & Hok2 & _);
      [done|done|lia|].
    rewrite (reads_to_char x d Hx) in *.
    destruct (Z.eqb_spec (char_to_int d) EOF); [done|].
    destruct (ungetch_ok token 0 w1) as (t2 & -> & Ht2 & Hokt & _);
      [done|done|simpl in HLt; lia|].
    rewrite char_to_int_NUL. simpl.
    eexists _, _, _. split; [done|]. split; [done|].
    split; [by rewrite (to_read_push b1 rs w1 d b2 Hb2), Hr1|].
    split; [done|]. split; [done|]. split; [done|]. split; [|done].
    rewrite Hb2, length_app. simpl. lia.
  - destruct fuel as [|fuel]; [simpl in Hf; lia|]. simpl in Hr.
    apply Forall_cons in Hrun as [Hc Hrun].
    destruct (getch_read _ _ _ _ _ Hr)
      as (x & b1 & w1 & G & Hx & Hr1 & Hs1 & Hi1 & Hw1 & Hlen & Hrs).
    cbn [getword_loop]. rewrite G.
    pose proof (ident_char_not_EOF c Hc) as Hce.
    destruct (Z.eqb_spec x EOF) as [E|_]; [by apply reads_not_EOF in Hx|].
    rewrite (reads_ident_char x c Hx), Hc. simpl.
    pose proof (same_but_stdin_heap _ _ Hw1) as Hh1. rewrite Hh in Hh1.
    pose proof (buf_ok_shrunk _ _ Hin Hs1 Hi1) as Hok1.
    simpl in HLt, Hf.
    destruct (ungetch_ok token x w1) as (t2 & -> & Ht2 & Hokt & _);
      [done|done|lia|].
    rewrite (reads_to_char x c Hx) in *.
    destruct (Z.eqb_spec (char_to_int c) EOF); [done|].
    destruct (IH fuel t2 b1 rs w1 d rest)
      as (t3 & b3 & w3 & -> & Ht3 & Hr3 & Hokt3 & Hokb3 & Hw3 & Hlen3 & Hrs3);
      try done.
    { unfold b_i in *. rewrite Ht2, length_app_Z. simpl. lia. }
    { lia. }
    { lia. }
    eexists _, _, _. split; [done|].
    split; [by rewrite Ht3, Ht2, <- app_assoc|].
    split; [done|]. split; [done|]. split; [done|].
    split; [by eapply same_but_stdin_trans|]. split; [lia|].
    intros ->. rewrite Hrs3, Hrs; done.
Qed.

(** The input ends within the identifier: the loop gives up at the end of
    input and the bytes it stored are in no token. *)
Lemma getword_loop_eof run : forall fuel token input rs w,
  to_read input rs w = run ->
  Forall (fun c => ident_char c = true) run ->
  heap w = [] -> buf_ok token ->
  b_i token + Z.of_nat (length run) + 1 <= LIMIT ->
  (length run < fuel)%nat ->
  exists token' input' w',
    getword_loop fuel token input rs w
    = (1, if rs then stdin_errno w else false, token', input', w')
    /\ to_read input' rs w' = []
    /\ b_a input' = [] /\ b_s input' = b_s input
    /\ same_but_stdin w w'
    /\ (rs = true -> stdin w' = []).
Proof.
  induction run as [|c run IH];
    intros fuel token input rs w Hr Hrun Hh Htk HLt Hf.
  - destruct fuel as [|fuel]; [simpl in Hf; lia|].
    cbn [getword_loop]. rewrite (getch_eof _ _ _ Hr). simpl.
    eexists _, _, _. split; [done|]. split; [done|].
    unfold to_read, unread in Hr. apply app_eq_nil in Hr as [H1 H2].
    apply (f_equal reverse) in H1. rewrite reverse_involutive in H1.
    split; [done|]. split; [done|]. split; [apply same_but_stdin_refl|].
    by intros ->.
  - destruct fuel as [|fuel]; [simpl in Hf; lia|].
    apply Forall_cons in Hrun as [Hc Hrun].
    destruct (getch_read _ _ _ _ _ Hr)
      as (x & b1 & w1 & G & Hx & Hr1 & Hs1 & Hi1 & Hw1 & Hlen & Hrs).
    cbn [getword_loop]. rewrite G.
    pose proof (ident_char_not_EOF c Hc) as Hce.
    destruct (Z.eqb_spec x EOF) as [E|_]; [by apply reads_not_EOF in Hx|].
    rewrite (reads_ident_char x c Hx), Hc. simpl.
    pose proof (same_but_stdin_heap _ _ Hw1) as Hh1. rewrite Hh in Hh1.
    simpl in HLt, Hf.
    destruct (ungetch_ok token x w1) as (t2 & -> & Ht2 & Hokt & _);
      [done|done|lia|].
    rewrite (reads_to_char x c Hx) in *.
    destruct (Z.eqb_spec (char_to_int c) EOF); [done|].
    destruct (IH fuel t2 b1 rs w1)
      as (t3 & b3 & w3 & -> & Hr3 & Hb3 & Hs3 & Hw3 & Hin3); try done.
    { unfold b_i in *. rewrite Ht2, length_app_Z. simpl. lia. }
    { lia. }
    eexists _, _, _. split.
    { destruct Hw1 as (_ & -> & _). done. }
    split; [done|]. split; [done|]. split; [congruence|].
    split; [by eapply same_but_stdin_trans|done].
Qed.

(** *** [getword] *)

Lemma ident_run_spec x r rest :
  ident_run x = (r, rest) ->
  x = r ++ rest /\ Forall (fun c => ident_char c = true) r
  /\ match rest with
     | [] => True
     | d :: _ => ident_char d = false
     end.
Proof.
  revert r rest. induction x as [|c x IH]; simpl; intros r rest.
  { intros [= <- <-]. by repeat split. }
  destruct (ident_char c) eqn:E.
  - destruct (ident_run x) as [r' rest'] eqn:R. intros [= <- <-].
    destruct (IH _ _ eq_refl) as (-> & Hr & Hd).
    repeat split; try done. by constructor.
  - intros [= <- <-]. by repeat split.
Qed.

Lemma to_read_length b rs w :
  (length (to_read b rs w) <= length (b_a b) + length (stdin w))%nat.
Proof.
  unfold to_read, unread. rewrite length_app, length_reverse.
  destruct rs; simpl; lia.
Qed.

Lemma buf_ok_delete b : buf_ok b -> buf_ok (delete_buf b).
Proof.
  unfold buf_ok, delete_buf, b_i. simpl. intros [? ?]. lia.
Qed.

(** A token is read: the token buffer holds it with its terminator and
    the bytes after it are still to be read. *)
Lemma getword_token token input rs w tok rest :
  first_token (to_read input rs w) = Some (tok, rest) ->
  no_eof (to_read input rs w) ->
  heap w = [] -> buf_ok token -> buf_ok input ->
  Z.of_nat (length (b_a input) + length (stdin w)) + 2 <= LIMIT ->
  exists token' input' w',
    getword token input rs w = (0, false, token', input', w')
    /\ b_a token' = tok ++ [NUL]
    /\ to_read input rs w = tok ++ rest
    /\ to_read input' rs w' = rest
    /\ buf_ok token' /\ buf_ok input' /\ same_but_stdin w w'
    /\ (length (b_a input') + length (stdin w')
        < length (b_a input) + length (stdin w))%nat
    /\ (rs = false -> w' = w).
Proof.
  intros Hf He Hh Htk Hin HL. unfold getword.
  destruct (to_read input rs w) as [|c x'] eqn:Hr; [done|].
  apply Forall_cons in He as [Hc He].
  destruct (getch_read _ _ _ _ _ Hr)
    as (x & b1 & w1 & -> & Hx & Hr1 & Hs1 & Hi1 & Hw1 & Hlen & Hrs).
  destruct (Z.eqb_spec x EOF) as [E|_]; [by apply reads_not_EOF in Hx|].
  pose proof (same_but_stdin_heap _ _ Hw1) as Hh1. rewrite Hh in Hh1.
  pose proof (buf_ok_shrunk _ _ Hin Hs1 Hi1) as Hok1.
  destruct (ungetch_ok (delete_buf token) x w1) as (t2 & -> & Ht2 & Hokt & _);
    [done|by apply buf_ok_delete|unfold b_i, LIMIT; simpl; lia|].
  rewrite (reads_to_char x c Hx) in *.
  destruct (Z.eqb_spec (char_to_int c) EOF); [done|].
  rewrite (reads_ident_start x c Hx). simpl in Hf, Ht2.
  destruct (ident_start c) eqn:Es.
  - destruct (ident_run x') as [r rest'] eqn:R.
    apply ident_run_spec in R as (-> & Hrun & Hd).
    destruct rest' as [|d rest'']; [done|]. injection Hf as <- <-.
    apply Forall_app in He as [_ He]. apply Forall_cons in He as [Hde _].
    pose proof (to_read_length b1 rs w1) as Hlen1.
    rewrite Hr1, length_app in Hlen1. simpl in Hlen1.
    destruct (getword_loop_token r (S (length (b_a b1) + length (stdin w1)))
                t2 b1 rs w1 d rest'')
      as (t3 & b3 & w3 & -> & Ht3 & Hr3 & Hokt3 & Hokb3 & Hw3 & Hlen3 & Hrs3);
      try done.
    { unfold b_i. rewrite Ht2. simpl. lia. }
    { unfold b_i in *. lia. }
    { lia. }
    eexists _, _, _. split; [done|].
    split; [by rewrite Ht3, Ht2|]. split; [done|]. split; [done|].
    split; [done|]. split; [done|].
    split; [by eapply same_but_stdin_trans|]. split; [lia|].
    intros ->. rewrite Hrs3, Hrs; done.
  - injection Hf as <- <-.
    destruct (ungetch_ok t2 0 w1) as (t3 & -> & Ht3 & Hokt3 & _);
      [done|done|unfold b_i, LIMIT; rewrite Ht2; simpl; lia|].
    rewrite char_to_int_NUL. simpl.
    eexists _, _, _. split; [done|].
    split; [by rewrite Ht3, Ht2|]. by repeat (split; [done|]).
Qed.

(** The end of the input, also within an identifier: no token. *)
Lemma getword_eof token input rs w :
  first_token (to_read input rs w) = None ->
  heap w = [] -> buf_ok token ->
  Z.of_nat (length (b_a input) + length (stdin w)) + 2 <= LIMIT ->
  exists token' input' w',
    getword token input rs w
    = (1, if rs then stdin_errno w else false, token', input', w')
    /\ b_a input' = [] /\ b_s input' = b_s input
    /\ same_but_stdin w w'
    /\ (rs = true -> stdin w' = []).
Proof.
  intros Hf Hh Htk HL. unfold getword.
  destruct (to_read input rs w) as [|c x'] eqn:Hr.
  { rewrite (getch_eof _ _ _ Hr). simpl.
    unfold to_read, unread in Hr. apply app_eq_nil in Hr as [H1 H2].
    apply (f_equal reverse) in H1. rewrite reverse_involutive in H1.
    eexists _, _, _. split; [done|]. split; [done|]. split; [done|].
    split; [apply same_but_stdin_refl|]. by intros ->. }
  simpl in Hf. destruct (ident_start c) eqn:Es; [|done].
  destruct (ident_run x') as [r rest'] eqn:R.
  apply ident_run_spec in R as (-> & Hrun & _).
  destruct rest' as [|? ?]; [|done]. rewrite app_nil_r in *.
  destruct (getch_read _ _ _ _ _ Hr)
    as (x & b1 & w1 & -> & Hx & Hr1 & Hs1 & Hi1 & Hw1 & Hlen & Hrs).
  pose proof (ident_char_not_EOF c (ident_start_char c Es)) as Hce.
  destruct (Z.eqb_spec x EOF) as [E|_]; [by apply reads_not_EOF in Hx|].
  pose proof (same_but_stdin_heap _ _ Hw1) as Hh1. rewrite Hh in Hh1.
  destruct (ungetch_ok (delete_buf token) x w1) as (t2 & -> & Ht2 & Hokt & _);
    [done|by apply buf_ok_delete|unfold b_i, LIMIT; simpl; lia|].
  rewrite (reads_to_char x c Hx) in *.
  destruct (Z.eqb_spec (char_to_int c) EOF); [done|].
  rewrite (reads_ident_start x c Hx), Es.
  pose proof (to_read_length b1 rs w1) as Hlen1. rewrite Hr1 in Hlen1.
  destruct (getword_loop_eof r (S (length (b_a b1) + length (stdin w1)))
              t2 b1 rs w1)
    as (t3 & b3 & w3 & -> & Hr3 & Hb3 & Hs3 & Hw3 & Hin3); try done.
  { unfold b_i. rewrite Ht2. simpl. lia. }
  { lia. }
  eexists _, _, _. split.
  { destruct Hw1 as (_ & -> & _). done. }
  split; [done|]. split; [congruence|].
  split; [by eapply same_but_stdin_trans|done].
Qed.

Lemma ident_run_all run :
  Forall (fun c => ident_char c = true) run -> ident_run run = (run, []).
Proof.
  induction 1 as [|c run Hc _ IH]; simpl; [done|]. by rewrite Hc, IH.
Qed.

(** *** The round of the loop at the end of the input *)

Lemma OUT_DIV_set_ht n t st :
  OUT_DIV n (set_ht t st) = with_table t (OUT_DIV n st).
Proof.
  unfold OUT_DIV, DIV. simpl. destruct (n <? 0); [done|].
  destruct (diversion st !! Z.to_nat n) as [d|]; [|done]. simpl.
  destruct (b_i d =? 0); simpl; [done|].
  destruct (fwrite (b_a d) (env st)) as [k w]. by destruct (k =? b_i d).
Qed.

Lemma READ_TOKEN_token_set_ht t st :
  READ_TOKEN token set_token (set_ht t st)
  = with_table t (READ_TOKEN token set_token st).
Proof.
  unfold READ_TOKEN. simpl.
  destruct (getword (token st) (input st) (read_stdin st) (env st))
    as [[[[r e] tk] inp] w].
  destruct (r =? 0); simpl; [done|]. by destruct e.
Qed.

(** A round of the loop when there is no token to read: diversion 0 is
    flushed and the round jumps to [end_of_input]. *)
Lemma m4_round_eof (st : m4) (d0 : buf) :
  first_token (to_read_of st) = None ->
  (read_stdin st = true -> stdin_errno (env st) = false) ->
  heap (env st) = [] -> disk_ok (env st) -> buf_ok (token st) ->
  Z.of_nat (pending st) + 2 <= LIMIT ->
  diversion st !! 0%nat = Some d0 ->
  exists st',
    m4_round st = EndOfInput st'
    /\ (forall t, m4_round (set_ht t st) = EndOfInput (set_ht t st'))
    /\ stack st' = stack st /\ ht st' = ht st
    /\ diversion st' = <[0%nat := delete_buf d0]> (diversion st)
    /\ stdout (env st') = stdout (env st) ++ b_a d0
    /\ stderr (env st') = stderr (env st)
    /\ to_read_of st' = []
    /\ quote_on st' = quote_on st /\ quote_depth st' = quote_depth st
    /\ act_div st' = act_div st /\ output st' = output st
    /\ disk_ok (env st').
Proof.
  intros Hf0 Herr Hh Hd Htk HL Hd0.
  destruct (OUT_DIV_ok 0 d0 st Hd0 Hd) as (st1 & HO & H1 & H2 & H3 & H4).
  change (Z.of_nat 0) with 0 in HO.
  destruct H4 as (Ein & Etok & Ent & Eres & Eht & Eqo & Eqd & Ead & Eout
                  & Elq & Erq & Estk & Ers & Eheap & Estdin & Eerrno
                  & Estderr & Efiles).
  assert (first_token (to_read (input st1) (read_stdin st1) (env st1)) = None)
    as Hf.
  { replace (to_read (input st1) (read_stdin st1) (env st1))
      with (to_read_of st)
      by (unfold to_read_of, to_read; by rewrite Ein, Ers, Estdin).
    done. }
  destruct (getword_eof (token st1) (input st1) (read_stdin st1) (env st1))
    as (tk & inp & w & G & Hi & _ & Hw & Hin); try done.
  { by rewrite Eheap. }
  { by rewrite Etok. }
  { unfold pending in HL. by rewrite Ein, Estdin. }
  assert ((if read_stdin st1 then stdin_errno (env st1) else false) = false)
    as Hno.
  { destruct (read_stdin st1) eqn:E; [|done].
    rewrite Eerrno. apply Herr. by rewrite <- Ers. }
  rewrite Hno in G.
  assert (READ_TOKEN token set_token st1
          = EndOfInput (set_env w (set_input inp (set_token tk st1)))) as HR.
  { unfold READ_TOKEN. by rewrite G. }
  eexists. split; [|split].
  - unfold m4_round, bind. rewrite HO, HR. done.
  - intros t. unfold m4_round, bind.
    rewrite OUT_DIV_set_ht, HO. simpl.
    rewrite READ_TOKEN_token_set_ht, HR. done.
  - simpl. destruct Hw as (_ & _ & Hdisk & Hout & Herr' & _).
    rewrite Hout, Herr'.
    repeat (split; [done|]). split; [|split; [done|]]; [|split; [done|]];
      [|split; [done|]]; [|split; [done|]].
    + unfold to_read_of, to_read, unread. simpl. rewrite Hi. simpl.
      destruct (read_stdin st1) eqn:E; [|done]. by apply Hin.
    + unfold disk_ok in *. by rewrite Hdisk.
Qed.

End Tokenizer_facts.

Section Pass_through_facts.

Context {platform : Platform}.

Lemma put_str_ok b x w :
  heap w = [] -> buf_ok b ->
  b_i b + Z.of_nat (length (cstr x)) <= LIMIT ->
  exists b',
    put_str b x w = (0, b', w) /\ b_a b' = b_a b ++ cstr x /\ buf_ok b'.
Proof.
  intros Hh Hok HL. unfold put_str.
  destruct (reserve_ok b (Z.of_nat (length (cstr x))) w)
    as (b1 & -> & Hb1 & Hs1 & Hs2); [done|done|lia|done|].
  simpl. eexists. split; [done|]. simpl. rewrite Hb1. split; [done|].
  apply buf_ok_append; [done|lia].
Qed.

Lemma first_token_app x tok rest :
  first_token x = Some (tok, rest) -> x = tok ++ rest /\ tok <> [].
Proof.
  destruct x as [|c x']; [done|]. simpl.
  destruct (ident_start c).
  - destruct (ident_run x') as [r rest'] eqn:R.
    apply ident_run_spec in R as (-> & _ & _).
    destruct rest'; [done|]. by intros [= <- <-].
  - by intros [= <- <-].
Qed.




Lemma tokenized_tokens_upto n : forall x,
  concat (tokens_upto n x) = x -> tokenized x (tokens_upto n x).
Proof.
  induction n as [|n IH]; intros x; simpl.
  { intros <-. constructor. }
  destruct (first_token x) as [[tok rest]|] eqn:F.
  - intros H. pose proof (first_token_app _ _ _ F) as [Happ _].
    simpl in H. rewrite Happ in H. apply app_inv_head in H.
    econstructor; [done|]. by apply IH.
  - intros <-. constructor.
Qed.

Lemma tokenized_elem x toks :
  tokenized x toks -> forall t c, t ∈ toks -> c ∈ t -> c ∈ x.
Proof.
  induction 1 as [|x tok rest toks Hf _ IH]; intros t c Ht Hc.
  { by apply elem_of_nil in Ht. }
  apply first_token_app in Hf as [-> _].
  apply elem_of_cons in Ht as [->|Ht]; [set_solver|].
  apply elem_of_app. right. by eapply IH.
Qed.

Lemma ISMACRO_lookup t x : lookup_entry t x = None -> ISMACRO t x = None.
Proof. unfold ISMACRO. intros ->. by case_match. Qed.

Lemma concat_empty (l : list buf) :
  Forall (fun d => b_a d = []) l -> concat (b_a <$> l) = [].
Proof.
  induction 1 as [|d l Hd _ IH]; [done|].
  rewrite fmap_cons. cbn [concat]. by rewrite Hd, IH.
Qed.


(** The table that [main] sets up binds the names of the built-ins and no
    other. *)
Lemma builtin_table_names :
  map_Forall (fun _ chain => Forall (fun e => e_name e ∈ builtin_names) chain)
    builtin_table.
Proof. apply (bool_decide_unpack _). vm_compute. exact I. Qed.

Lemma builtin_table_lookup t :
  no_nul t -> t ∉ builtin_names -> lookup_entry builtin_table t = None.
Proof.
  intros Hn Ht. unfold lookup_entry. rewrite (no_nul_cstr t Hn).
  generalize builtin_table_names. generalize builtin_table. intros tb Htb.
  destruct (find_entry t (bucket tb (hash_str t))) as [e|] eqn:F; [|done].
  apply find_entry_name in F as [<- F]. exfalso. apply Ht.
  unfold bucket in F.
  destruct (tb !! hash_str (e_name e)) as [chain|] eqn:L.
  - pose proof (Htb _ _ L) as H. cbv beta in H.
    rewrite Forall_forall in H. by apply H.
  - by apply elem_of_nil in F.
Qed.


Lemma top_state_empty inp t :
  Forall (fun d => b_a d = []) (diversion (top_state inp t)).
Proof. repeat constructor. Qed.

Lemma m4_init_stdin inp :
  m4_init [] (world_of inp) = Some (inl (top_state inp builtin_table)).
Proof. vm_compute. reflexivity. Qed.


End Pass_through_facts.

(** ** The fuel of the inner loops is enough *)

Section Fuel_facts.

Context {platform : Platform}.

Lemma alloc_stdin w ok w' : alloc w = (ok, w') -> stdin w' = stdin w.
Proof.
  unfold alloc. destruct (heap w); intros [= <- <-]; done.
Qed.

Lemma grow_buf_stdin b n w r b' w' :
  grow_buf b n w = (r, b', w') -> stdin w' = stdin w.
Proof.
  unfold grow_buf. intros H.
  repeat case_match; simplify_eq; try done; by eapply alloc_stdin.
Qed.

Lemma ungetch_length b ch w r b' w' :
  ungetch b ch w = (r, b', w') ->
  (length (b_a b') <= S (length (b_a b)))%nat /\ stdin w' = stdin w.
Proof.
  unfold ungetch. intros H.
  destruct (b_i b =? b_s b).
  - destruct (grow_buf b 1 w) as [[r1 b1] w1] eqn:G.
    pose proof (grow_buf_bytes _ _ _ _ _ _ G) as Hb.
    pose proof (grow_buf_stdin _ _ _ _ _ _ G) as Hs.
    destruct (r1 =? 0); simpl in H; simplify_eq; simpl;
      rewrite ?length_app, Hb; simpl; split; (done || lia).
  - simpl in H. simplify_eq. simpl. rewrite length_app. simpl. split; (done || lia).
Qed.

Lemma getch_length b rs w x e b' w' :
  getch b rs w = (x, e, b', w') ->
  (length (b_a b') + length (stdin w') <= length (b_a b) + length (stdin w))%nat
  /\ (x <> EOF ->
      (length (b_a b') + length (stdin w')
       < length (b_a b) + length (stdin w))%nat).
Proof.
  unfold getch. destruct (reverse (b_a b)) as [|c r] eqn:E.
  - destruct rs; [|intros [= <- <- <- <-]; split; [lia|done]].
    unfold getchar. destruct (stdin w) as [|c l] eqn:S; intros [= <- <- <- <-].
    + rewrite ?S. split; [lia|done].
    + simpl. rewrite ?S. simpl. split; lia.
  - intros [= <- <- <- <-]. simpl. rewrite length_reverse.
    assert (length (b_a b) = S (length r)) as ->.
    { rewrite <- (length_reverse (b_a b)), E. done. }
    split; lia.
Qed.

(** Once [fuel] exceeds the number of bytes left, more fuel changes
    nothing: the branch of [getword_loop] for no fuel is never taken. *)
Lemma getword_loop_more_fuel fuel : forall n token input rs w,
  (length (b_a input) + length (stdin w) < fuel)%nat ->
  getword_loop (fuel + n) token input rs w
  = getword_loop fuel token input rs w.
Proof.
  induction fuel as [|fuel IH]; intros n token input rs w Hf; [lia|].
  change (S fuel + n)%nat with (S (fuel + n)). cbn [getword_loop].
  destruct (getch input rs w) as [[[x e] b1] w1] eqn:G.
  apply getch_length in G as [_ G].
  destruct (Z.eqb_spec x EOF); [done|]. specialize (G ltac:(done)).
  destruct (negb (isalnum x || (x =? 95))); [done|].
  destruct (ungetch token x w1) as [[r t2] w2] eqn:U.
  apply ungetch_length in U as [_ U].
  destruct (r =? EOF); [done|]. apply IH. rewrite U. lia.
Qed.

(** A token that is read takes at least one byte. *)
Lemma getword_loop_consumes fuel : forall token input rs w e tk inp w',
  getword_loop fuel token input rs w = (0, e, tk, inp, w') ->
  (length (b_a inp) + length (stdin w')
   <= length (b_a input) + length (stdin w))%nat.
Proof.
  induction fuel as [|fuel IH]; intros token input rs w e tk inp w'; [done|].
  cbn [getword_loop].
  destruct (getch input rs w) as [[[x e1] b1] w1] eqn:G.
  apply getch_length in G as [_ G].
  destruct (Z.eqb_spec x EOF); [done|]. specialize (G ltac:(done)).
  destruct (negb (isalnum x || (x =? 95))).
  - destruct (ungetch b1 x w1) as [[r b2] w2] eqn:U.
    apply ungetch_length in U as [U1 U2].
    destruct (r =? EOF); [done|].
    destruct (ungetch token 0 w2) as [[r3 t3] w3] eqn:U3.
    apply ungetch_length in U3 as [_ U3].
    destruct (r3 =? EOF); intros [= <- <- <- <-]. rewrite U3, U2. lia.
  - destruct (ungetch token x w1) as [[r t2] w2] eqn:U.
    apply ungetch_length in U as [_ U].
    destruct (r =? EOF); [done|]. intros H. apply IH in H. rewrite U in H. lia.
Qed.

Lemma getword_consumes token input rs w e tk inp w' :
  getword token input rs w = (0, e, tk, inp, w') ->
  (length (b_a inp) + length (stdin w')
   < length (b_a input) + length (stdin w))%nat.
Proof.
  unfold getword.
  destruct (getch input rs w) as [[[x e1] b1] w1] eqn:G.
  apply getch_length in G as [_ G].
  destruct (Z.eqb_spec x EOF); [done|]. specialize (G ltac:(done)).
  destruct (ungetch (delete_buf token) x w1) as [[r t2] w2] eqn:U.
  apply ungetch_length in U as [_ U].
  destruct (r =? EOF); [done|].
  destruct (isalpha x || (x =? 95)).
  - intros H. apply getword_loop_consumes in H. rewrite U in H. lia.
  - destruct (ungetch t2 0 w2) as [[r3 t3] w3] eqn:U3.
    apply ungetch_length in U3 as [_ U3].
    destruct (r3 =? EOF); intros [= <- <- <- <-]. rewrite U3, U. lia.
Qed.

Lemma READ_TOKEN_consumes t set_t st :
  match READ_TOKEN t set_t st with
  | Ret _ st' => (pending st' < pending st)%nat
  | Quit _ | EndOfInput _ => True
  | Undefined | Timeout => False
  end.
Proof.
  unfold READ_TOKEN.
  destruct (getword (t st) (input st) (read_stdin st) (env st))
    as [[[[r e] tk] inp] w] eqn:G.
  destruct (Z.eqb_spec r 0) as [->|]; simpl; [|by destruct e].
  apply getword_consumes in G. unfold pending. simpl. done.
Qed.

(** [EAT_WS] and [DNL] never run out of the fuel that they are given. *)
Lemma EAT_WS_loop_fuel fuel : forall st,
  (pending st < fuel)%nat -> EAT_WS_loop fuel st <> Timeout.
Proof.
  induction fuel as [|fuel IH]; intros st Hf; [lia|].
  cbn [EAT_WS_loop]. unfold bind at 1.
  pose proof (READ_TOKEN_consumes next_token set_next_token st) as H.
  destruct (READ_TOKEN next_token set_next_token st) as [[] st'| | | |];
    try done.
  unfold bind, get. destruct (WS (NTS st')); [|done]. apply IH. lia.
Qed.

Lemma DNL_loop_fuel fuel : forall st,
  (pending st < fuel)%nat -> DNL_loop fuel st <> Timeout.
Proof.
  induction fuel as [|fuel IH]; intros st Hf; [lia|].
  cbn [DNL_loop]. unfold bind at 1.
  pose proof (READ_TOKEN_consumes next_token set_next_token st) as H.
  destruct (READ_TOKEN next_token set_next_token st) as [[] st'| | | |];
    try done.
  unfold bind, get.
  destruct (negb (streq (NTS st') [to_char 10])); [|done]. apply IH. lia.
Qed.

End Fuel_facts.

(** ** Concrete platforms, worlds and inputs *)





(** C6: the map of [translit] has [UCHAR_MAX] slots, indices 0 to 254, so
    that byte 255 has no slot: on a platform whose [char] is unsigned the
    call [translit(s, a, b)] with [s] the byte 255 reads outside the map. *)
Theorem translit_map_lacks_slot_255 :
  map_init = replicate 255 (-1)
  /\ map_read map_init (to_char 254) = Some (-1)
  /\ map_read map_init (to_char 255) = None
  /\ @main unsigned_char 100 [] (world_of translit_255) = None
  /\ exists st, m4_init [] (world_of translit_255) = Some (inl st)
       /\ @m4_run unsigned_char 100 st = Undefined.
Proof.
  split; [reflexivity|]. split; [reflexivity|]. split; [reflexivity|].
  split; [vm_compute; reflexivity|].
  eexists. split; [vm_compute; reflexivity|]. vm_compute. reflexivity.
Qed.

(** C1: [ht] and [include] hash to the same bucket.  After [define(ht, x)]
    the entry [ht] is the head of the chain and [include] its successor;
    [delete_entry] on [ht] sets the bucket to NULL, so that the built-in
    [include] is lost with it. *)
Theorem delete_entry_drops_successors :
  hash_str (lit "ht") = hash_str (lit "include")
  /\ exists t t',
       table_with_ht (world_of []) = Some t
       /\ e_name <$> bucket t (hash_str (lit "ht")) = [lit "ht"; lit "include"]
       /\ lookup_entry t (lit "include")
          = Some {| e_name := lit "include"; e_def := None |}
       /\ delete_entry t (lit "ht") = (0, t')
       /\ lookup_entry t' (lit "ht") = None
       /\ lookup_entry t' (lit "include") = None.
Proof.
  split; [vm_compute; reflexivity|].
  eexists. eexists. split; [vm_compute; reflexivity|].
  split; [vm_compute; reflexivity|].
  split; [vm_compute; reflexivity|].
  split; [vm_compute; reflexivity|].
  split; vm_compute; reflexivity.
Qed.

Lemma undivert_without_arguments_witness :
  (exists st',
     @PROCESS_BI_NO_ARGS unsigned_char (undivert_state 0) = Ret tt st'
     /\ stdout (env st') = lit "zero one three "
     /\ diversion st' = replicate 10 (held "") ++ [held "discarded"]
     /\ same_but_flushed (undivert_state 0) st')
  /\ (exists st',
        @PROCESS_BI_NO_ARGS unsigned_char (undivert_state 2) = Quit st'
        /\ stdout (env st') = []
        /\ diversion st' = diversion (undivert_state 2)).
Proof.
  split.
  - apply (@undivert_without_arguments unsigned_char (undivert_state 0));
      try reflexivity.
    constructor.
  - apply (@undivert_without_arguments unsigned_char (undivert_state 2));
      try reflexivity.
    discriminate.
Defined.

(** C7 as stated fails: when the active diversion is 2, [undivert] without
    arguments is a fatal error and the held text is never written. *)
Lemma undivert_needs_diversion_0 :
  (exists st',
     @PROCESS_BI_NO_ARGS unsigned_char (undivert_state 2) = Quit st'
     /\ stdout (env st') = []
     /\ b_a <$> diversion st' = b_a <$> diversion (undivert_state 2))
  /\ status_and_output
       (@main unsigned_char 100 [] (world_of divert_then_undivert))
     = Some (1, []).
Proof.
  split.
  - eexists. split; [vm_compute; reflexivity|]. split; reflexivity.
  - vm_compute. reflexivity.
Qed.

(** C3: the exit status follows [quote_on], and a right quote outside
    quotes wraps [quote_depth] around without setting [quote_on].  On the
    input that is one right quote, the run ends with an empty stack,
    [quote_depth] at [SIZE_MAX] and the exit status 0; on a right quote
    followed by a left quote it ends with an empty stack, [quote_depth] at
    0 and the exit status 1. *)
Theorem exit_status_follows_quote_on (platform : Platform) :
  (exists st st',
     m4_init [] (world_of (lit "'")) = Some (inl st)
     /\ m4_run 10 st = Ret 0 st'
     /\ stack st' = [] /\ quote_depth st' = SIZE_MAX
     /\ quote_on st' = false)
  /\ (exists st st',
        m4_init [] (world_of (lit "'`")) = Some (inl st)
        /\ m4_run 10 st = Ret 1 st'
        /\ stack st' = [] /\ quote_depth st' = 0
        /\ quote_on st' = true).
Proof.
  destruct platform as [[]]; split;
    (do 2 eexists; split; [vm_compute; reflexivity|];
     split; [vm_compute; reflexivity|]; repeat split; reflexivity).
Qed.

Lemma call_completion_pushes_expansion_witness :
  match @arg_end unsigned_char cool_state with
  | Ret _ st' =>
      unread (input st') = lit "goat and mice, not $0 or $x" ++ lit "rest"
      /\ stack st' = [] /\ diversion st' = diversion cool_state
      /\ ht st' = ht cool_state
  | Quit _ => True
  | _ => False
  end
  /\ exists st', @arg_end unsigned_char cool_state = Ret tt st'.
Proof.
  assert (no_nul (lit "$1 and $2, not $0 or $x")) as Hd.
  { unfold no_nul. apply (bool_decide_unpack _). vm_compute. exact I. }
  assert (forall n, no_nul (arg_bytes cool_call n)) as Ha.
  { intros n. unfold arg_bytes, arg_slot. destruct (n <? 0); [constructor|].
    destruct (Z.to_nat n) as [|k]; [constructor|].
    do 10 (destruct k as [|k];
           [unfold no_nul; apply (bool_decide_unpack _); vm_compute; exact I|]).
    constructor. }
  destruct (@call_completion_pushes_expansion unsigned_char cool_state
              cool_call [] _ eq_refl eq_refl Hd Ha) as (_ & H1 & H2 & _).
  destruct H2 as [st' E].
  - reflexivity.
  - unfold buf_ok. vm_compute. split; discriminate.
  - unfold buf_ok. vm_compute. split; discriminate.
  - vm_compute. discriminate.
  - unfold no_eof. apply (bool_decide_unpack _). vm_compute. exact I.
  - reflexivity.
  - rewrite E in H1 |- *. split; [exact H1|]. by exists st'.
Defined.



Lemma arithmetic_builtins_witness :
  @bi_add unsigned_char sum_call (top_state [] builtin_table)
  = @unget_input unsigned_char (lit "14") (top_state [] builtin_table)
  /\ (exists msg,
        @bi_div unsigned_char sum_call (top_state [] builtin_table)
        = EQUIT msg (top_state [] builtin_table))
  /\ number (ulong_str SIZE_MAX) = Some SIZE_MAX.
Proof.
  destruct (@arithmetic_builtins unsigned_char sum_call
              (top_state [] builtin_table))
    as (Hadd & _ & _ & Hdiv & _ & Hnum & _).
  split; [exact Hadd|]. split; [exact Hdiv|].
  apply Hnum. vm_compute. split; discriminate.
Defined.

(** * Further properties of the code *)

(** ** Buffers: [grow_buf], [put_str], [buf_dump_buf], [include], [getch] *)

Section Buffer_extras.

Context {platform : Platform}.

(** X1.  [grow_buf] never changes the bytes held and never shrinks the
    buffer; the new capacity [2 * s + will_use] is computed without
    wrap-around, so it stays a [size_t].  It does nothing when the room is
    there already, on success the room is there, and on failure the buffer is
    as it was. *)
Theorem grow_buf_never_wraps (b : buf) (n : Z) (w : world) r b' w' :
  grow_buf b n w = (r, b', w') ->
  0 <= b_s b <= SIZE_MAX -> b_i b <= b_s b -> 0 <= n <= SIZE_MAX ->
  b_a b' = b_a b
  /\ b_s b <= b_s b' <= SIZE_MAX
  /\ ((r = 0 /\ n <= BUF_FREE_SIZE b') \/ (r = 1 /\ b' = b))
  /\ (n <= BUF_FREE_SIZE b -> r = 0 /\ b' = b /\ w' = w).
Proof.
  unfold grow_buf, BUF_FREE_SIZE. intros H Hs Hi Hn.
  destruct (Z.leb_spec n (b_s b - b_i b)).
  { simplify_eq. repeat split; auto with lia. }
  rewrite MOF_spec in H by lia. rewrite AOF_spec in H.
  destruct (Z.leb_spec (b_s b * 2) SIZE_MAX); cbn [negb] in H;
    [|simplify_eq; repeat split; auto with lia].
  destruct (Z.leb_spec (b_s b * 2 + n) SIZE_MAX); cbn [negb] in H;
    [|simplify_eq; repeat split; auto with lia].
  destruct (alloc w) as [[] w1]; cbn [negb] in H; simplify_eq;
    unfold b_i in *; cbn [b_a b_s]; repeat split; auto with lia.
Qed.

(** X2.  [put_str] is all or nothing: it appends the whole string, up to
    its terminator, within the capacity, or it fails and leaves the buffer as
    it was. *)
Theorem put_str_all_or_nothing (b : buf) (x : list ascii) (w : world) r b' w' :
  put_str b x w = (r, b', w') -> b_i b <= b_s b ->
  (r = 0 /\ b_a b' = b_a b ++ cstr x /\ b_i b' <= b_s b')
  \/ (r = 1 /\ b' = b).
Proof.
  unfold put_str, BUF_FREE_SIZE. intros H Hi.
  destruct (Z.ltb_spec (b_s b - b_i b) (Z.of_nat (length (cstr x)))).
  - destruct (grow_buf b _ w) as [[r1 b1] w1] eqn:Hg.
    pose proof (grow_buf_bytes _ _ _ _ _ _ Hg) as Hb.
    destruct (grow_buf_result _ _ _ _ _ _ Hg Hi) as [(-> & Hr & _)|[-> ->]];
      cbn in H; simplify_eq; [left|by right].
    unfold append, b_i in *; cbn [b_a b_s]. rewrite Hb.
    split_and!; try done. rewrite length_app_Z. rewrite Hb in Hr. lia.
  - cbn in H. simplify_eq. left. unfold append, b_i in *; cbn [b_a b_s].
    split_and!; try done. rewrite length_app_Z. lia.
Qed.

Lemma same_but_heap_refl w : same_but_heap w w.
Proof. by unfold same_but_heap. Qed.

Lemma same_but_heap_trans w1 w2 w3 :
  same_but_heap w1 w2 -> same_but_heap w2 w3 -> same_but_heap w1 w3.
Proof.
  unfold same_but_heap. intros (?&?&?&?&?&?) (?&?&?&?&?&?).
  split_and!; congruence.
Qed.

Lemma alloc_heap w ok w' : alloc w = (ok, w') -> same_but_heap w w'.
Proof.
  unfold alloc. destruct (heap w); intros [= <- <-]; by unfold same_but_heap.
Qed.

Lemma grow_buf_heap b n w r b' w' :
  grow_buf b n w = (r, b', w') -> same_but_heap w w'.
Proof.
  unfold grow_buf. intros H.
  destruct (n <=? BUF_FREE_SIZE b); [simplify_eq; apply same_but_heap_refl|].
  destruct (MOF (b_s b) 2); [simplify_eq; apply same_but_heap_refl|].
  destruct (AOF (b_s b * 2) n); [simplify_eq; apply same_but_heap_refl|].
  destruct (alloc w) as [[] w1] eqn:E; cbn [negb] in H; simplify_eq;
    by eapply alloc_heap.
Qed.

Lemma file_lookup_heap w w' fn :
  same_but_heap w w' -> file_lookup w' fn = file_lookup w fn.
Proof. unfold file_lookup. by intros (_&_&_&_&_&->). Qed.

Lemma filesize_heap w w' fn :
  same_but_heap w w' -> filesize fn w' = filesize fn w.
Proof. intros H. unfold filesize. by rewrite (file_lookup_heap w w'). Qed.

(** X3.  [buf_dump_buf] moves the contents of the source to the end of the
    destination and empties the source, or it fails and leaves both as they
    were.  It fails only when the destination lacks the room and [grow_buf]
    fails: it succeeds when the room is there, and when no allocation fails
    and the sizes are below [LIMIT]. *)
Theorem buf_dump_buf_moves (dst src : buf) (w : world) r dst' src' w' :
  buf_dump_buf dst src w = (r, dst', src', w') -> b_i dst <= b_s dst ->
  ((r = 0 /\ b_a dst' = b_a dst ++ b_a src /\ b_i dst' <= b_s dst'
    /\ b_a src' = [] /\ b_s src' = b_s src)
   \/ (r = 1 /\ dst' = dst /\ src' = src
       /\ BUF_FREE_SIZE dst < b_i src
       /\ grow_buf dst (b_i src) w = (1, dst, w')))
  /\ (b_i src <= BUF_FREE_SIZE dst -> r = 0 /\ w' = w)
  /\ (heap w = [] -> buf_ok dst -> b_i dst + b_i src <= LIMIT -> r = 0).
Proof.
  unfold buf_dump_buf, BUF_FREE_SIZE. intros H Hi.
  destruct (Z.ltb_spec (b_s dst - b_i dst) (b_i src)).
  - destruct (grow_buf dst _ w) as [[r1 b1] w1] eqn:Hg.
    pose proof (grow_buf_bytes _ _ _ _ _ _ Hg) as Hb.
    destruct (grow_buf_result _ _ _ _ _ _ Hg Hi) as [(-> & Hr & _)|[-> ->]];
      cbn in H; injection H as <- <- <- <-.
    + split; [left|split; [lia|done]].
      unfold append, delete_buf, b_i in *; cbn [b_a b_s]. rewrite Hb.
      split_and!; try done. rewrite length_app_Z. rewrite Hb in Hr. lia.
    + split; [by right|]. split; [lia|]. intros Hh Hok HL.
      destruct (grow_buf_ok dst (b_i src) w Hh Hok) as (s' & E & _);
        [apply b_i_nonneg|done|]. by rewrite E in Hg.
  - cbn in H. injection H as <- <- <- <-. split; [left|done].
    unfold append, delete_buf, b_i in *; cbn [b_a b_s].
    split_and!; try done. rewrite length_app_Z. lia.
Qed.

(** The loop of [include]: the bytes are stored downwards from
    [a[back_i - 1]], unless there are more of them than slots below
    [back_i]. *)
Lemma include_loop_spec x : forall back_i a,
  0 <= back_i <= Z.of_nat (length a) ->
  match include_loop x back_i a with
  | Some (k, a') =>
      k = back_i - Z.of_nat (length x) /\ 0 <= k
      /\ a' = take (Z.to_nat k) a ++ reverse x ++ drop (Z.to_nat back_i) a
  | None => back_i < Z.of_nat (length x)
  end.
Proof.
  induction x as [|c x IH]; intros back_i a Hb; cbn [include_loop].
  { split; [cbn; lia|]. split; [lia|].
    change (reverse (@nil ascii)) with (@nil ascii). cbn [app].
    by rewrite take_drop. }
  destruct (Z.eqb_spec back_i 0) as [->|Hne]; [cbn [length]; lia|].
  specialize (IH (back_i - 1) (<[Z.to_nat (back_i - 1) := c]> a)).
  rewrite length_insert in IH. specialize (IH ltac:(lia)).
  destruct (include_loop x (back_i - 1) _) as [[k a']|];
    [|cbn [length]; lia].
  destruct IH as (-> & Hk & ->). cbn [length].
  split; [lia|]. split; [lia|].
  rewrite take_insert_ge by lia.
  rewrite reverse_cons, <- !app_assoc. do 2 f_equal. cbn [app].
  rewrite drop_insert_ge by lia.
  replace (Z.to_nat (back_i - 1) - Z.to_nat (back_i - 1))%nat with 0%nat
    by lia.
  destruct (lookup_lt_is_Some_2 a (Z.to_nat (back_i - 1))) as [y Hy]; [lia|].
  rewrite (drop_S _ y _ Hy). cbn [insert list_insert]. do 2 f_equal. lia.
Qed.

(** X4.  [include] of a name that is no regular file returns 1 without
    any effect.  For a regular file the result is 0 or 1, or a store leaves
    the array.  With the result 0 the file was opened, delivered as many
    bytes as [stat] reported without a read error, and was closed; its bytes
    are then in front of what the buffer held, so that the first byte of the
    file is the next one read.  With the result 1 the fill index is as it
    was, and the bytes held are as they were unless the file delivered more
    bytes than [stat] reported: those are stored over the bytes held, and
    over the start of the array when there are more of them than bytes
    held and reported.  The result is 0 for a file that is read as [stat]
    reported it when the room is there or no allocation fails and the sizes
    are below [LIMIT]. *)
Theorem include_reads_file_first (b : buf) (fn : list ascii) (w : world) :
  b_i b <= b_s b ->
  match filesize fn w, file_lookup w fn with
  | Some fs, Some f =>
      match include b fn w with
      | Some (r, b', w') =>
          same_but_heap w w' /\ b_s b <= b_s b'
          /\ ((r = 0 /\ reads_fully f fs
               /\ unread b' = bytes f ++ unread b /\ b_i b' <= b_s b')
              \/ (r = 1 /\ b_i b' = b_i b
                  /\ (opens f = false \/ Z.of_nat (length (bytes f)) <= fs ->
                      b_a b' = b_a b)))
      | None => opens f = true /\ b_i b + fs < Z.of_nat (length (bytes f))
      end
      /\ (reads_fully f fs ->
          fs <= BUF_FREE_SIZE b
          \/ (heap w = [] /\ buf_ok b /\ b_i b + fs <= LIMIT) ->
          exists b' w', include b fn w = Some (0, b', w'))
  | _, _ => include b fn w = Some (1, b, w)
  end.
Proof.
  intros Hi. unfold include.
  destruct (filesize fn w) as [fs|] eqn:Efs; [|done].
  assert (0 <= fs) as Hfs.
  { unfold filesize in Efs. destruct (file_lookup w fn) as [f0|]; [|done].
    destruct (st_size f0 <? 0); [done|]. injection Efs as <-.
    unfold wrap, SIZE_MAX. apply Z.mod_pos_bound. lia. }
  destruct (file_lookup w fn) as [f|] eqn:Ef.
  2:{ unfold filesize in Efs. by rewrite Ef in Efs. }
  (* the buffer with the room, and the rest of the call on it *)
  assert (forall b1 w1,
            b_a b1 = b_a b -> b_i b1 + fs <= b_s b1 -> b_s b <= b_s b1 ->
            same_but_heap w w1 ->
            match
              match file_lookup w1 fn with
              | None => Some (1, b1, w1)
              | Some f =>
                  if negb (opens f) then Some (1, b1, w1)
                  else
                    match include_loop (bytes f) (b_i b1 + fs)
                            (b_a b1 ++ replicate (Z.to_nat fs) NUL) with
                    | None => None
                    | Some (back_i, a) =>
                        let b' := {| b_a := take (length (b_a b1)) a;
                                     b_s := b_s b1 |} in
                        if read_errno f then Some (1, b', w1)
                        else if negb (closes f) then Some (1, b', w1)
                        else if negb (back_i =? b_i b1) then Some (1, b', w1)
                        else Some (0, {| b_a := a; b_s := b_s b1 |}, w1)
                    end
              end
            with
            | Some (r, b', w') =>
                same_but_heap w w' /\ b_s b <= b_s b'
                /\ ((r = 0 /\ reads_fully f fs
                     /\ unread b' = bytes f ++ unread b /\ b_i b' <= b_s b')
                    \/ (r = 1 /\ b_i b' = b_i b
                        /\ (opens f = false
                            \/ Z.of_nat (length (bytes f)) <= fs ->
                            b_a b' = b_a b)))
            | None => opens f = true /\ b_i b + fs < Z.of_nat (length (bytes f))
            end
            /\ (reads_fully f fs ->
                exists b' w',
                  match file_lookup w1 fn with
                  | None => Some (1, b1, w1)
                  | Some f =>
                      if negb (opens f) then Some (1, b1, w1)
                      else
                        match include_loop (bytes f) (b_i b1 + fs)
                                (b_a b1 ++ replicate (Z.to_nat fs) NUL) with
                        | None => None
                        | Some (back_i, a) =>
                            let b' := {| b_a := take (length (b_a b1)) a;
                                         b_s := b_s b1 |} in
                            if read_errno f then Some (1, b', w1)
                            else if negb (closes f) then Some (1, b', w1)
                            else if negb (back_i =? b_i b1)
                                 then Some (1, b', w1)
                            else Some (0, {| b_a := a; b_s := b_s b1 |}, w1)
                        end
                  end = Some (0, b', w'))) as Hrest.
  { intros b1 w1 Hb Hroom Hs Hw. rewrite (file_lookup_heap w w1 fn Hw), Ef.
    assert (b_i b1 = b_i b) as Hi1 by (unfold b_i; by rewrite Hb).
    destruct (opens f) eqn:Eo; cbn [negb].
    2:{ split; [|intros [? _]; congruence]. split; [done|]. split; [done|].
        right. split; [done|]. split; [done|]. by intros _. }
    set (a0 := b_a b1 ++ replicate (Z.to_nat fs) NUL).
    assert (Z.of_nat (length a0) = b_i b1 + fs) as Hla.
    { subst a0. rewrite length_app, length_replicate. unfold b_i. lia. }
    pose proof (include_loop_spec (bytes f) (b_i b1 + fs) a0) as HL.
    pose proof (b_i_nonneg b1) as Hnn.
    specialize (HL ltac:(lia)).
    destruct (include_loop (bytes f) (b_i b1 + fs) a0) as [[k a']|].
    2:{ split; [|intros (_ & Hn & _); lia]. split; [done|lia]. }
    destruct HL as (-> & Hk & ->).
    rewrite drop_ge, app_nil_r by lia.
    set (n := Z.of_nat (length (bytes f))) in *.
    assert (length (take (length (b_a b1))
                      (take (Z.to_nat (b_i b1 + fs - n)) a0
                       ++ reverse (bytes f))) = length (b_a b1)) as Hlen.
    { rewrite length_take, length_app, length_take, length_reverse.
      unfold b_i in *. lia. }
    assert (n <= fs ->
            take (length (b_a b1))
              (take (Z.to_nat (b_i b1 + fs - n)) a0 ++ reverse (bytes f))
            = b_a b) as Hkeep.
    { intros Hn. rewrite take_app_le
        by (rewrite length_take; unfold b_i in *; lia).
      rewrite take_take. replace (length (b_a b1) `min` _)%nat
        with (length (b_a b1)) by (unfold b_i in *; lia).
      subst a0. by rewrite take_app_length. }
    set (b2 := {| b_a := take (length (b_a b1))
                          (take (Z.to_nat (b_i b1 + fs - n)) a0
                           ++ reverse (bytes f));
                  b_s := b_s b1 |}).
    assert (same_but_heap w w1 /\ b_s b <= b_s b2
            /\ ((1 = 0 /\ reads_fully f fs
                 /\ unread b2 = bytes f ++ unread b /\ b_i b2 <= b_s b2)
                \/ (1 = 1 /\ b_i b2 = b_i b
                    /\ (true = false \/ n <= fs -> b_a b2 = b_a b))))
      as Hfail.
    { split; [done|]. split; [done|]. right. split; [done|].
      split; [unfold b_i at 1; cbn [b_a b2]; rewrite Hlen; by rewrite <- Hi1|].
      intros [|]; [done|]. by apply Hkeep. }
    destruct (read_errno f) eqn:Ee.
    { split; [exact Hfail|]. intros (_ & _ & ? & _). congruence. }
    destruct (closes f) eqn:Ec; cbn [negb].
    2:{ split; [exact Hfail|]. intros (_ & _ & _ & ?). congruence. }
    destruct (Z.eqb_spec (b_i b1 + fs - n) (b_i b1)) as [E|E]; cbn [negb].
    2:{ split; [exact Hfail|]. intros (_ & Hn & _). lia. }
    clear Hfail. clearbody b2.
    assert (n = fs) as Hn by lia.
    assert (take (Z.to_nat (b_i b1 + fs - n)) a0 = b_a b) as Ht.
    { rewrite E. subst a0. unfold b_i. rewrite Nat2Z.id.
      by rewrite take_app_length. }
    split; [|by eexists _, _].
    split; [done|]. split; [done|]. left. split; [done|].
    split; [done|]. rewrite Ht. unfold unread, b_i. cbn [b_a b_s].
    rewrite reverse_app, reverse_involutive. split; [done|].
    rewrite length_app, length_reverse. unfold b_i in *. lia. }
  unfold BUF_FREE_SIZE.
  destruct (Z.ltb_spec (b_s b - b_i b) fs) as [Hlt|Hge].
  - destruct (grow_buf b fs w) as [[r1 b1] w1] eqn:Hg.
    pose proof (grow_buf_bytes _ _ _ _ _ _ Hg) as Hb.
    pose proof (grow_buf_heap _ _ _ _ _ _ Hg) as Hw.
    destruct (grow_buf_result _ _ _ _ _ _ Hg Hi)
      as [(-> & Hr & Hs)|[-> ->]]; cbn [Z.eqb negb].
    + destruct (Hrest b1 w1 Hb Hr Hs Hw) as [H1 H2]. split; [exact H1|].
      intros Hf _. by apply H2.
    + split.
      { split; [done|]. split; [lia|]. right. by repeat split. }
      intros Hf [Hroom|(Hh & Hok & HL)]; [lia|].
      destruct (grow_buf_ok b fs w Hh Hok Hfs HL) as (s' & E & _).
      by rewrite E in Hg.
  - cbn [Z.eqb negb].
    destruct (Hrest b w eq_refl ltac:(lia) ltac:(lia) (same_but_heap_refl w))
      as [H1 H2].
    split; [exact H1|]. intros Hf _. by apply H2.
Qed.

(** X5.  A byte that [ungetch] pushed is the byte that the next [getch]
    returns, whatever the source of input, and the buffer then holds what it
    held before the push; standard input is not touched.  An empty buffer
    that does not read standard input gives [EOF]. *)
Theorem getch_after_ungetch (b : buf) (ch : Z) (w : world) r b' w'
    (rs : bool) :
  ungetch b ch w = (r, b', w') -> r <> EOF ->
  (exists b'', getch b' rs w' = (r, false, b'', w')
               /\ b_a b'' = b_a b /\ b_s b'' = b_s b')
  /\ getch (delete_buf b) false w = (EOF, false, delete_buf b, w).
Proof.
  intros H Hr. split; [|done].
  destruct (ungetch_result _ _ _ _ _ _ H) as [[-> _]|[-> Hb]]; [done|].
  unfold getch. rewrite Hb, reverse_app. cbn [reverse app].
  eexists. split; [reflexivity|]. cbn [b_a b_s].
  by rewrite reverse_involutive.
Qed.

End Buffer_extras.

Lemma grow_buf_never_wraps_witness :
  b_a {| b_a := b_a nearly_full; b_s := 1026 |} = b_a nearly_full
  /\ b_s nearly_full <= 1026 <= SIZE_MAX
  /\ ((0 = 0 /\ 2 <= BUF_FREE_SIZE {| b_a := b_a nearly_full; b_s := 1026 |})
      \/ (0 = 1 /\ {| b_a := b_a nearly_full; b_s := 1026 |} = nearly_full))
  /\ (2 <= BUF_FREE_SIZE nearly_full ->
      0 = 0 /\ {| b_a := b_a nearly_full; b_s := 1026 |} = nearly_full
      /\ world_of [] = world_of []).
Proof.
  apply (grow_buf_never_wraps nearly_full 2 (world_of []) 0
           {| b_a := b_a nearly_full; b_s := 1026 |} (world_of [])).
  - vm_compute. reflexivity.
  - vm_compute. split; discriminate.
  - vm_compute. discriminate.
  - vm_compute. split; discriminate.
Defined.

Lemma put_str_all_or_nothing_witness :
  (0 = 0 /\ b_a (held "abcd") = b_a (held "ab") ++ cstr (lit "cd")
   /\ b_i (held "abcd") <= b_s (held "abcd"))
  \/ (0 = 1 /\ held "abcd" = held "ab").
Proof.
  apply (put_str_all_or_nothing (held "ab") (lit "cd")
           (world_of []) 0 (held "abcd") (world_of [])).
  - vm_compute. reflexivity.
  - vm_compute. discriminate.
Defined.

Lemma buf_dump_buf_moves_witness :
  ((0 = 0 /\ b_a (held "abcd") = b_a (held "ab") ++ b_a (held "cd")
    /\ b_i (held "abcd") <= b_s (held "abcd")
    /\ b_a (held "") = [] /\ b_s (held "") = b_s (held "cd"))
   \/ (0 = 1 /\ held "abcd" = held "ab" /\ held "" = held "cd"
       /\ BUF_FREE_SIZE (held "ab") < b_i (held "cd")
       /\ grow_buf (held "ab") (b_i (held "cd")) (world_of [])
          = (1, held "ab", world_of [])))
  /\ (b_i (held "cd") <= BUF_FREE_SIZE (held "ab") ->
      0 = 0 /\ world_of [] = world_of [])
  /\ (heap (world_of []) = [] -> buf_ok (held "ab") ->
      b_i (held "ab") + b_i (held "cd") <= LIMIT -> 0 = 0).
Proof.
  apply (buf_dump_buf_moves (held "ab") (held "cd")
           (world_of []) 0 (held "abcd") (held "") (world_of [])).
  - vm_compute. reflexivity.
  - vm_compute. discriminate.
Defined.

Lemma include_reads_file_first_witness :
  exists b' w',
    include (held "zyx") (lit "f") one_file = Some (0, b', w')
    /\ unread b' = lit "abcd" ++ lit "xyz".
Proof.
  pose proof (include_reads_file_first (held "zyx") (lit "f") one_file) as H.
  change (filesize (lit "f") one_file) with (Some 4) in H.
  change (file_lookup one_file (lit "f"))
    with (Some (plain_file (lit "abcd"))) in H.
  destruct H as [H1 H2]; [vm_compute; discriminate|].
  destruct H2 as (b' & w' & E).
  - by unfold reads_fully.
  - left. vm_compute. discriminate.
  - rewrite E in H1.
    destruct H1 as (_ & _ & [(_ & _ & Hu & _)|(Hr & _)]); [|done].
    by exists b', w'.
Defined.

(** A file that has grown since [stat]: [include] fails, and the bytes that
    [stat] did not count are stored over the bytes that the buffer held. *)
Lemma include_of_a_grown_file :
  include (held "zyx") (lit "f") grown_file
  = Some (1, held "zfe", grown_file)
  /\ include (held "z") (lit "f") grown_file = None.
Proof. split; vm_compute; reflexivity. Qed.

Lemma getch_after_ungetch_witness :
  (exists b'', @getch unsigned_char (held "abc") true (world_of (lit "x"))
               = (99, false, b'', world_of (lit "x"))
               /\ b_a b'' = b_a (held "ab") /\ b_s b'' = b_s (held "abc"))
  /\ @getch unsigned_char (delete_buf (held "ab")) false (world_of (lit "x"))
     = (EOF, false, delete_buf (held "ab"), world_of (lit "x")).
Proof.
  apply (@getch_after_ungetch unsigned_char (held "ab") 99
           (world_of (lit "x")) 99 (held "abc") (world_of (lit "x")) true).
  - vm_compute. reflexivity.
  - vm_compute. discriminate.
Defined.

(** ** The symbol table: [hash_str], [lookup_entry], [get_def],
    [upsert_entry], [delete_entry] *)

Section Table_extras.

Lemma hash_str_range x : 0 <= hash_str x < HASH_TABLE_SIZE.
Proof. unfold hash_str. by apply Z.mod_pos_bound. Qed.

Lemma hash_str_cstr x : hash_str (cstr x) = hash_str x.
Proof. unfold hash_str. by rewrite cstr_idemp. Qed.

Lemma find_entry_None n chain :
  find_entry n chain = None <-> n ∉ e_name <$> chain.
Proof.
  induction chain as [|e chain IH]; cbn [find_entry fmap list_fmap].
  { split; [intros _; apply not_elem_of_nil|done]. }
  rewrite not_elem_of_cons. destruct (streq n (e_name e)) eqn:E.
  - apply streq_true in E. split; [done|]. by intros [? _].
  - rewrite IH. split; [|by intros [_ ?]]. intros H. split; [|done].
    intros ->. by rewrite streq_refl in E.
Qed.

Lemma find_entry_skip n p e a :
  e_name e <> n -> find_entry n (p ++ e :: a) = find_entry n (p ++ a).
Proof.
  intros Hne. induction p as [|e' p IH]; cbn [app find_entry].
  - destruct (streq n (e_name e)) eqn:E; [|done].
    apply streq_true in E. by subst.
  - by rewrite IH.
Qed.

Lemma find_entry_middle n q e a :
  e_name e = n -> n ∉ e_name <$> q -> find_entry n (q ++ e :: a) = Some e.
Proof.
  intros Hn. induction q as [|e' q IH]; cbn [app find_entry fmap list_fmap].
  - by rewrite Hn, streq_refl.
  - intros [Hq1 Hq2]%not_elem_of_cons.
    destruct (streq n (e_name e')) eqn:E; [|by apply IH].
    by apply streq_true in E.
Qed.

Lemma find_entry_set_def_ne n n' d chain :
  n' <> n -> find_entry n' (set_def n d chain) = find_entry n' chain.
Proof.
  intros Hne. induction chain as [|e chain IH]; cbn [set_def find_entry]; [done|].
  destruct (streq n (e_name e)) eqn:E; cbn [find_entry e_name].
  - apply streq_true in E. subst n.
    destruct (streq n' (e_name e)) eqn:E'; [|done].
    by apply streq_true in E'.
  - by rewrite IH.
Qed.

Lemma set_def_names n d chain : e_name <$> set_def n d chain = e_name <$> chain.
Proof.
  induction chain as [|e chain IH]; cbn [set_def]; [done|].
  destruct (streq n (e_name e)); [done|]. cbn [fmap list_fmap] in *.
  by rewrite IH.
Qed.

Lemma set_def_Forall (P : list ascii -> Prop) n d chain :
  Forall (fun e => P (e_name e)) chain ->
  Forall (fun e => P (e_name e)) (set_def n d chain).
Proof.
  induction 1 as [|e chain He Hc IH]; cbn [set_def]; [constructor|].
  destruct (streq n (e_name e)); by constructor.
Qed.

(** What [upsert_entry] does to the table: nothing when it fails, a new head
    of the chain when the name is not bound, a new definition in place when it
    is. *)
Lemma upsert_entry_shape t name def w r t' w' :
  upsert_entry t name def w = (r, t', w') ->
  let h := hash_str name in
  (r = 1 /\ t' = t)
  \/ (r = 0 /\ find_entry (cstr name) (bucket t h) = None
      /\ t' = <[h := {| e_name := cstr name; e_def := cstr <$> def |}
                       :: bucket t h]> t)
  \/ (r = 0 /\ is_Some (find_entry (cstr name) (bucket t h))
      /\ t' = <[h := set_def (cstr name) (cstr <$> def) (bucket t h)]> t).
Proof.
  unfold upsert_entry, lookup_entry. cbn zeta.
  destruct (find_entry (cstr name) (bucket t (hash_str name))) as [e|] eqn:L.
  - destruct def as [d|].
    + destruct (strdup d w) as [d' w1] eqn:S.
      apply strdup_result in S as [-> | ->]; cbn; intros [= <- <- <-]; auto.
    + intros [= <- <- <-]. auto.
  - destruct (alloc w) as [[] w1]; cbn [negb]; [|intros [= <- <- <-]; auto].
    destruct (strdup name w1) as [[n|] w2] eqn:S; [|intros [= <- <- <-]; auto].
    apply strdup_result in S as [?| [= ->]]; [done|].
    destruct def as [d|].
    + destruct (strdup d w2) as [d' w3] eqn:S.
      apply strdup_result in S as [-> | ->]; cbn; intros [= <- <- <-]; auto.
    + intros [= <- <- <-]. auto.
Qed.

(** What [delete_entry] does to the table: nothing when the name is not
    bound, an empty chain when the entry is the head of its chain, and the
    chain without the entry otherwise. *)
Lemma chain_split_spec n chain : forall before,
  match chain_split n before chain with
  | None => find_entry n chain = None
  | Some (b, e, a) =>
      exists p, b = before ++ p /\ chain = p ++ e :: a /\ e_name e = n
                /\ n ∉ e_name <$> p
  end.
Proof.
  induction chain as [|e chain IH]; intros before; cbn [chain_split find_entry];
    [done|].
  destruct (streq n (e_name e)) eqn:E.
  - apply streq_true in E. exists []. rewrite app_nil_r.
    split_and!; try done. apply not_elem_of_nil.
  - specialize (IH (before ++ [e])).
    destruct (chain_split n (before ++ [e]) chain) as [[[b e'] a]|]; [|done].
    destruct IH as (p & -> & -> & Hn & Hp). exists (e :: p).
    rewrite <- app_assoc. split_and!; try done.
    cbn [fmap list_fmap]. rewrite not_elem_of_cons. split; [|done].
    intros ->. by rewrite streq_refl in E.
Qed.

Lemma delete_entry_shape t name r t' :
  delete_entry t name = (r, t') ->
  let h := hash_str name in
  (r = 1 /\ t' = t /\ find_entry (cstr name) (bucket t h) = None)
  \/ (exists e a, r = 0 /\ bucket t h = e :: a /\ e_name e = cstr name
                  /\ t' = <[h := []]> t)
  \/ (exists e0 p e a,
        r = 0 /\ bucket t h = e0 :: p ++ e :: a /\ e_name e = cstr name
        /\ (cstr name ∉ e_name <$> (e0 :: p))
        /\ t' = <[h := e0 :: p ++ a]> t).
Proof.
  unfold delete_entry. cbn zeta.
  pose proof (chain_split_spec (cstr name) (bucket t (hash_str name)) []) as C.
  destruct (chain_split (cstr name) [] (bucket t (hash_str name)))
    as [[[b e] a]|]; [|intros [= <- <-]; auto].
  destruct C as (p & -> & Hc & Hn & Hp). cbn [app].
  destruct p as [|e0 p]; intros [= <- <-]; right; [left|right].
  - by exists e, a.
  - by exists e0, p, e, a.
Qed.

Lemma bucket_insert_ne t h h' chain :
  h <> h' -> bucket (<[h := chain]> t) h' = bucket t h'.
Proof. intros. unfold bucket. by rewrite lookup_insert_ne. Qed.

Lemma bucket_wf t h : table_wf t -> chain_wf h (bucket t h).
Proof.
  intros Ht. unfold bucket. destruct (t !! h) as [chain|] eqn:E; cbn.
  - by apply Ht.
  - split; constructor.
Qed.

Lemma table_wf_insert t h chain :
  table_wf t -> 0 <= h < HASH_TABLE_SIZE -> chain_wf h chain ->
  table_wf (<[h := chain]> t).
Proof.
  intros Ht Hh Hc h' chain' H.
  destruct (decide (h = h')) as [->|Hne].
  - rewrite lookup_insert_eq in H. by simplify_eq.
  - rewrite lookup_insert_ne in H by done. by eapply Ht.
Qed.

Lemma upsert_entry_wf t name def w r t' w' :
  table_wf t -> upsert_entry t name def w = (r, t', w') -> table_wf t'.
Proof.
  intros Ht H.
  pose proof (bucket_wf t (hash_str name) Ht) as [Hnd Hall].
  destruct (upsert_entry_shape _ _ _ _ _ _ _ H)
    as [[_ ->]|[(_ & Hf & ->)|(_ & Hf & ->)]]; [done| |];
    (apply table_wf_insert; [done|apply hash_str_range|]); split.
  - cbn [fmap list_fmap e_name]. apply NoDup_cons.
    split; [by apply find_entry_None|done].
  - constructor; [|done]. cbn [e_name].
    by rewrite hash_str_cstr, cstr_idemp.
  - by rewrite set_def_names.
  - by apply (set_def_Forall
                (fun n => hash_str n = hash_str name /\ cstr n = n)).
Qed.

Lemma delete_entry_wf t name r t' :
  table_wf t -> delete_entry t name = (r, t') -> table_wf t'.
Proof.
  intros Ht H.
  pose proof (bucket_wf t (hash_str name) Ht) as [Hnd Hall].
  destruct (delete_entry_shape _ _ _ _ H)
    as [(_ & -> & _)|[(e & a & _ & _ & _ & ->)
                     |(e0 & p & e & a & _ & Hb & _ & _ & ->)]]; [done| |];
    (apply table_wf_insert; [done|apply hash_str_range|]).
  - split; constructor.
  - rewrite Hb in Hnd, Hall.
    change (e0 :: p ++ e :: a) with ((e0 :: p) ++ e :: a) in Hnd, Hall.
    change (e0 :: p ++ a) with ((e0 :: p) ++ a).
    rewrite fmap_app in Hnd. cbn [fmap list_fmap] in Hnd.
    apply NoDup_app in Hnd as (H1 & H2 & H3).
    apply NoDup_cons in H3 as [H3 H4].
    apply Forall_app in Hall as [H5 H6]. apply Forall_cons in H6 as [_ H6].
    split.
    + rewrite fmap_app. apply NoDup_app. split_and!; [done| |done].
      intros x Hx Hx'. apply (H2 x Hx). by right.
    + by apply Forall_app.
Qed.

Lemma define_builtins_wf names t w t' w' :
  table_wf t -> define_builtins names t w = (Some t', w') -> table_wf t'.
Proof.
  revert t w. induction names as [|n names IH]; cbn [define_builtins];
    intros t w Ht.
  { by intros [= <- <-]. }
  destruct (upsert_entry t n None w) as [[r t1] w1] eqn:U.
  destruct (r =? 0); cbn [negb]; [|done].
  apply IH. by eapply upsert_entry_wf.
Qed.

Lemma table_wf_empty : table_wf ∅.
Proof. intros h chain H. by rewrite lookup_empty in H. Qed.

(** X6.  [upsert_entry] is all or nothing.  When it succeeds, the name,
    read up to its terminator, is bound to a copy of the definition (to no
    definition for NULL) and every other name is bound as it was; when it
    fails, the table is as it was. *)
Theorem upsert_then_lookup (t : table) (name : list ascii)
    (def : option (list ascii)) (w : world) :
  let '(r, t', w') := upsert_entry t name def w in
  (r = 0
   /\ lookup_entry t' name
      = Some {| e_name := cstr name; e_def := cstr <$> def |}
   /\ get_def t' name = cstr <$> def
   /\ forall other, cstr other <> cstr name ->
        lookup_entry t' other = lookup_entry t other)
  \/ (r = 1 /\ t' = t).
Proof.
  destruct (upsert_entry t name def w) as [[r t'] w'] eqn:H.
  destruct (upsert_entry_shape _ _ _ _ _ _ _ H)
    as [[-> ->]|[(-> & Hf & ->)|(-> & [e Hf] & ->)]]; [by right|left..].
  - assert (lookup_entry
              (<[hash_str name := {| e_name := cstr name; e_def := cstr <$> def |}
                  :: bucket t (hash_str name)]> t) name
            = Some {| e_name := cstr name; e_def := cstr <$> def |}) as Hl.
    { unfold lookup_entry. rewrite bucket_insert. cbn [find_entry e_name].
      by rewrite streq_refl. }
    split_and!; [done|done|by unfold get_def; rewrite Hl|].
    intros other Hne. unfold lookup_entry.
    destruct (decide (hash_str name = hash_str other)) as [Hh|Hh].
    + rewrite <- Hh, bucket_insert. cbn [find_entry e_name].
      destruct (streq (cstr other) (cstr name)) eqn:E; [|done].
      by apply streq_true in E.
    + by rewrite bucket_insert_ne.
  - assert (lookup_entry
              (<[hash_str name := set_def (cstr name) (cstr <$> def)
                                    (bucket t (hash_str name))]> t) name
            = Some {| e_name := cstr name; e_def := cstr <$> def |}) as Hl.
    { unfold lookup_entry. rewrite bucket_insert.
      rewrite (find_entry_set_def _ _ _ _ Hf).
      by destruct (find_entry_name _ _ _ Hf) as [-> _]. }
    split_and!; [done|done|by unfold get_def; rewrite Hl|].
    intros other Hne. unfold lookup_entry.
    destruct (decide (hash_str name = hash_str other)) as [Hh|Hh].
    + rewrite <- Hh, bucket_insert. by apply find_entry_set_def_ne.
    + by rewrite bucket_insert_ne.
Qed.

(** X7.  On a table without a name twice in a chain, [delete_entry] fails
    exactly when the name is not bound, and then changes nothing; when it
    succeeds the name is no longer bound.  A name of another chain is bound
    as before, and so is a name of the same chain unless the entry deleted
    was the head of the chain. *)
Theorem delete_entry_removes_name (t : table) (name : list ascii) :
  table_wf t ->
  let '(r, t') := delete_entry t name in
  (lookup_entry t name = None -> r = 1 /\ t' = t)
  /\ (is_Some (lookup_entry t name) ->
      r = 0 /\ lookup_entry t' name = None)
  /\ (forall other,
        cstr other <> cstr name ->
        hash_str other <> hash_str name \/ head_name t name <> Some (cstr name) ->
        lookup_entry t' other = lookup_entry t other).
Proof.
  intros Ht. destruct (delete_entry t name) as [r t'] eqn:H.
  pose proof (bucket_wf t (hash_str name) Ht) as [Hnd _].
  unfold lookup_entry, head_name.
  destruct (delete_entry_shape _ _ _ _ H)
    as [(-> & -> & Hf)|[(e & a & -> & Hb & Hn & ->)
                       |(e0 & p & e & a & -> & Hb & Hn & Hp & ->)]].
  - rewrite Hf. split_and!; [done|by intros [? ?]|done].
  - rewrite bucket_insert, Hb. cbn [find_entry head fmap option_fmap option_map].
    rewrite Hn, streq_refl. split_and!; [done|done|].
    intros other Hne [Hh|Hh]; [|done]. by rewrite bucket_insert_ne.
  - rewrite bucket_insert, Hb.
    change (e0 :: p ++ e :: a) with ((e0 :: p) ++ e :: a) in *.
    change (e0 :: p ++ a) with ((e0 :: p) ++ a).
    rewrite Hb, fmap_app in Hnd. cbn [fmap list_fmap] in Hnd.
    apply NoDup_app in Hnd as (H1 & H2 & H3).
    apply NoDup_cons in H3 as [H3 H4]. rewrite Hn in H3.
    assert (find_entry (cstr name) ((e0 :: p) ++ e :: a) = Some e) as Hfound.
    { by apply find_entry_middle. }
    rewrite Hfound. split_and!; [done| |].
    + intros _. split; [done|]. apply find_entry_None.
      rewrite fmap_app. rewrite not_elem_of_app. by split.
    + intros other Hne _.
      destruct (decide (hash_str name = hash_str other)) as [Hh|Hh].
      * rewrite <- Hh, bucket_insert, Hb.
        symmetry. apply find_entry_skip. by rewrite Hn.
      * by rewrite bucket_insert_ne.
Qed.

(** X8.  The shape of the table is an invariant: the empty table has it,
    [upsert_entry] and [delete_entry] keep it whatever their result, and so
    the table that [main] sets up has it.  On such a table every entry is the
    one that [lookup_entry] finds for its name. *)
Theorem table_shape_is_kept :
  table_wf ∅
  /\ (forall t name def w r t' w',
        table_wf t -> upsert_entry t name def w = (r, t', w') -> table_wf t')
  /\ (forall t name r t',
        table_wf t -> delete_entry t name = (r, t') -> table_wf t')
  /\ (forall args w st, m4_init args w = Some (inl st) -> table_wf (ht st))
  /\ (forall t h e,
        table_wf t -> e ∈ bucket t h -> lookup_entry t (e_name e) = Some e).
Proof.
  split_and!.
  - apply table_wf_empty.
  - apply upsert_entry_wf.
  - apply delete_entry_wf.
  - intros args w st. unfold m4_init. intros H.
    repeat (case_match; simplify_eq); cbn;
      by (eapply define_builtins_wf; [apply table_wf_empty|done]).
  - intros t h e Ht He.
    destruct (bucket_wf t h Ht) as [Hnd Hall].
    rewrite Forall_forall in Hall. destruct (Hall e He) as [Hh Hc].
    unfold lookup_entry. rewrite Hh, Hc.
    induction (bucket t h) as [|e' chain IH]; [by apply elem_of_nil in He|].
    cbn [find_entry]. cbn [fmap list_fmap] in Hnd.
    apply NoDup_cons in Hnd as [Hn1 Hn2].
    apply elem_of_cons in He as [->|He]; [by rewrite streq_refl|].
    destruct (streq (e_name e) (e_name e')) eqn:E.
    + apply streq_true in E. exfalso. apply Hn1. rewrite <- E.
      by apply list_elem_of_fmap_2.
    + apply IH; [done|done|]. intros x Hx. apply Hall. by right.
Qed.

End Table_extras.

Lemma delete_entry_removes_name_witness :
  let '(r, t') := delete_entry ht_table (lit "include") in
  (lookup_entry ht_table (lit "include") = None -> r = 1 /\ t' = ht_table)
  /\ (is_Some (lookup_entry ht_table (lit "include")) ->
      r = 0 /\ lookup_entry t' (lit "include") = None)
  /\ (forall other,
        cstr other <> cstr (lit "include") ->
        hash_str other <> hash_str (lit "include")
        \/ head_name ht_table (lit "include") <> Some (cstr (lit "include")) ->
        lookup_entry t' other = lookup_entry ht_table other).
Proof.
  apply (delete_entry_removes_name ht_table (lit "include")).
  apply table_wf_insert; [apply table_wf_empty|apply hash_str_range|].
  split; apply (bool_decide_unpack _); vm_compute; exact I.
Defined.

Lemma table_shape_is_kept_witness :
  table_wf (ht (top_state [] builtin_table)).
Proof.
  destruct table_shape_is_kept as (_ & _ & _ & H & _).
  apply (H [] (world_of [])). apply m4_init_stdin.
Defined.

(** ** Macro calls: [strip_def], [terminate_args] *)

Section Call_extras.

Context {platform : Platform}.




Lemma arg_slot_insert m j b n :
  0 <= j -> (Z.to_nat j < length (arg_buf m))%nat ->
  arg_slot {| mc_name := mc_name m; mc_def := mc_def m;
              bracket_depth := bracket_depth m; act_arg := act_arg m;
              arg_buf := <[Z.to_nat j := Some b]> (arg_buf m) |} n
  = if bool_decide (n = j) then Some b else arg_slot m n.
Proof.
  intros Hj Hl. unfold arg_slot. cbn [arg_buf]. case_bool_decide as E.
  - subst n. destruct (Z.ltb_spec j 0); [lia|].
    by rewrite list_lookup_insert_eq.
  - destruct (Z.ltb_spec n 0); [done|].
    rewrite list_lookup_insert_ne; [done|lia].
Qed.

Lemma read_slot_in m j : 0 <= j < 10 -> read_slot m j = Some (arg_slot m j).
Proof.
  intros Hj. unfold read_slot.
  destruct (Z.leb_spec 0 j), (Z.ltb_spec j 10); try lia. done.
Qed.

Lemma read_slot_out m j : 10 <= j -> read_slot m j = None.
Proof.
  intros Hj. unfold read_slot.
  destruct (Z.leb_spec 0 j), (Z.ltb_spec j 10); try lia; done.
Qed.

Lemma terminate_args_loop_spec fuel : forall j m w a,
  1 <= j <= 10 -> 11 - j <= Z.of_nat fuel -> length (arg_buf m) = 10%nat ->
  j - 1 <= a <= 9 -> (forall n, j <= n -> is_Some (arg_slot m n) <-> n <= a) ->
  match terminate_args_loop fuel j m w with
  | Some (r, m', w') =>
      mc_name m' = mc_name m /\ mc_def m' = mc_def m
      /\ bracket_depth m' = bracket_depth m /\ act_arg m' = act_arg m
      /\ length (arg_buf m') = 10%nat
      /\ (forall n, is_Some (arg_slot m' n) <-> is_Some (arg_slot m n))
      /\ (r = 0 \/ r = 1)
      /\ (r = 0 ->
          a <= 8
          /\ forall n, arg_bytes m' n
                       = if (j <=? n) && (n <=? a) then arg_bytes m n ++ [NUL]
                         else arg_bytes m n)
  | None => a = 9
  end.
Proof.
  induction fuel as [|fuel IH]; intros j m w a Hj Hf Hl Ha Hp;
    cbn [terminate_args_loop]; [lia|].
  destruct (Z.eq_dec j 10) as [->|Hj10].
  { rewrite read_slot_out by lia.
    lia. }
  rewrite read_slot_in by lia.
  destruct (arg_slot m j) as [b|] eqn:Hb.
  - assert (j <= a) as Hja by (apply Hp; [lia|by rewrite Hb]).
    destruct (Z.ltb_spec j 10); [|lia].
    destruct (ungetch b 0 w) as [[r0 b'] w1] eqn:Hu.
    assert (Z.to_nat j < length (arg_buf m))%nat as Hlt by lia.
    set (m1 := {| mc_name := mc_name m; mc_def := mc_def m;
                  bracket_depth := bracket_depth m; act_arg := act_arg m;
                  arg_buf := <[Z.to_nat j := Some b']> (arg_buf m) |}).
    assert (forall n, arg_slot m1 n
                      = if bool_decide (n = j) then Some b' else arg_slot m n)
      as Hm1 by (intros n; apply arg_slot_insert; [lia|done]).
    assert (forall n, is_Some (arg_slot m1 n) <-> is_Some (arg_slot m n))
      as Hs1.
    { intros n. rewrite Hm1. case_bool_decide; [subst n|done].
      rewrite Hb. split; by eexists. }
    destruct (ungetch_result _ _ _ _ _ _ Hu) as [[-> ->]|[Hr0 Hb']].
    + cbn [Z.eqb EOF negb].
      split_and!; auto; [|done]. subst m1. cbn [arg_buf].
      by rewrite length_insert.
    + rewrite char_to_int_NUL in Hr0. subst r0. cbn [Z.eqb negb].
      specialize (IH (j + 1) m1 w1 a).
      destruct (terminate_args_loop fuel (j + 1) m1 w1) as [[[r m'] w']|].
      * destruct IH as (H1 & H2 & H3 & H4 & H5 & H6 & H7 & H8);
          [lia|lia|by cbn [arg_buf m1]; rewrite length_insert|lia| |].
        { intros n Hn. rewrite Hs1. apply Hp. lia. }
        split_and!; try done.
        { intros n. by rewrite H6. }
        intros Hr. destruct (H8 Hr) as [H9 H10]. split; [done|].
        intros n. rewrite (H10 n). unfold arg_bytes. rewrite Hm1.
        case_bool_decide as E.
        -- subst n. rewrite Hb, Hb'.
           destruct (Z.leb_spec (j + 1) j); [lia|].
           destruct (Z.leb_spec j j); [|lia].
           by destruct (Z.leb_spec j a); [|lia].
        -- destruct (Z.leb_spec (j + 1) n), (Z.leb_spec j n); try lia; done.
      * apply IH; [lia|lia|by cbn [arg_buf m1]; rewrite length_insert|lia|].
        intros n Hn. rewrite Hs1. apply Hp. lia.
  - assert (a < j) as Haj.
    { destruct (Z.lt_ge_cases a j) as [|Hge]; [done|].
      destruct (Hp j ltac:(lia)) as [_ Hq]. specialize (Hq Hge).
      rewrite Hb in Hq. by destruct Hq. }
    split_and!; auto. intros _. split; [lia|]. intros n.
    destruct (Z.leb_spec j n), (Z.leb_spec n a); cbn; auto; lia.
Qed.

(** Without allocation failure the walk does not fail. *)
Lemma terminate_args_loop_ok fuel : forall j m w a,
  1 <= j <= 10 -> 11 - j <= Z.of_nat fuel -> length (arg_buf m) = 10%nat ->
  j - 1 <= a <= 9 -> (forall n, j <= n -> is_Some (arg_slot m n) <-> n <= a) ->
  heap w = [] ->
  (forall n b, j <= n -> arg_slot m n = Some b ->
               buf_ok b /\ b_i b + 1 <= LIMIT) ->
  if a =? 9 then terminate_args_loop fuel j m w = None
  else exists m', terminate_args_loop fuel j m w = Some (0, m', w).
Proof.
  induction fuel as [|fuel IH]; intros j m w a Hj Hf Hl Ha Hp Hh Hok;
    cbn [terminate_args_loop]; [lia|].
  destruct (Z.eq_dec j 10) as [->|Hj10].
  { rewrite read_slot_out by lia.
    destruct (Z.eqb_spec a 9) as [|Hne]; [done|]. lia. }
  rewrite read_slot_in by lia.
  destruct (arg_slot m j) as [b|] eqn:Hb.
  - assert (j <= a) as Hja by (apply Hp; [lia|by rewrite Hb]).
    destruct (Z.ltb_spec j 10); [|lia].
    destruct (Hok j b ltac:(lia) Hb) as [Hbok HbL].
    destruct (ungetch_ok b 0 w Hh Hbok HbL) as (b' & -> & Hb' & Hok' & _).
    rewrite char_to_int_NUL. cbn [Z.eqb negb].
    assert (Z.to_nat j < length (arg_buf m))%nat as Hlt by lia.
    set (m1 := {| mc_name := mc_name m; mc_def := mc_def m;
                  bracket_depth := bracket_depth m; act_arg := act_arg m;
                  arg_buf := <[Z.to_nat j := Some b']> (arg_buf m) |}).
    assert (forall n, arg_slot m1 n
                      = if bool_decide (n = j) then Some b' else arg_slot m n)
      as Hm1 by (intros n; apply arg_slot_insert; [lia|done]).
    apply IH; [lia|lia|by cbn [arg_buf m1]; rewrite length_insert|lia| |done|].
    + intros n Hn. rewrite Hm1. case_bool_decide; [lia|]. apply Hp. lia.
    + intros n b0 Hn. rewrite Hm1. case_bool_decide; [lia|].
      apply Hok. lia.
  - assert (a < j) as Haj.
    { destruct (Z.lt_ge_cases a j) as [|Hge]; [done|].
      destruct (Hp j ltac:(lia)) as [_ Hq]. specialize (Hq Hge).
      rewrite Hb in Hq. by destruct Hq. }
    destruct (Z.eqb_spec a 9); [lia|]. by eexists.
Qed.

Lemma terminate_args_unfold m w :
  terminate_args m w = terminate_args_loop 10 1 m w.
Proof. reflexivity. Qed.

Lemma cstr_snoc_NUL x : cstr (x ++ [NUL]) = cstr x.
Proof.
  induction x as [|c x IH]; [done|]. cbn [app cstr].
  destruct (code c =? 0); [done|]. by rewrite IH.
Qed.

(** X10.  On a call whose arguments are those from 1 to [act_arg],
    [terminate_args] puts a NUL at the end of each argument collected and
    leaves the rest of the call as it is, so that [ARG(n)] then reads the
    text collected for argument [n], for every [n], and the empty string for
    an argument that was not given.  It returns 1 only when an [ungetch]
    fails.  For a call with nine arguments it reads slot 10 of the array of
    ten: then it returns 1 or has no meaning in C, and never returns 0.
    When no allocation fails and the sizes are below [LIMIT], it returns 0
    for a call with fewer than nine arguments and has no meaning for a call
    with nine. *)
Theorem terminate_args_ends_each_argument (m : mcall) (w : world) :
  args_ok m ->
  match terminate_args m w with
  | Some (r, m', w') =>
      mc_name m' = mc_name m /\ mc_def m' = mc_def m
      /\ bracket_depth m' = bracket_depth m /\ act_arg m' = act_arg m
      /\ args_ok m'
      /\ (r = 0 \/ r = 1)
      /\ (r = 0 ->
          act_arg m <= 8
          /\ forall n,
               ARG m' n = cstr (arg_bytes m n)
               /\ arg_bytes m' n
                  = if (1 <=? n) && (n <=? act_arg m)
                    then arg_bytes m n ++ [NUL] else [])
  | None => act_arg m = 9
  end
  /\ (heap w = [] ->
      (forall n b, arg_slot m n = Some b -> buf_ok b /\ b_i b + 1 <= LIMIT) ->
      if act_arg m =? 9 then terminate_args m w = None
      else exists m', terminate_args m w = Some (0, m', w)).
Proof.
  intros (Hl & Ha & Hp).
  assert (11 - 1 <= Z.of_nat 10) as Hfuel by (by vm_compute).
  assert (forall n, 1 <= n -> is_Some (arg_slot m n) <-> n <= act_arg m)
    as Hp' by (intros n Hn; rewrite Hp; lia).
  split.
  - pose proof (terminate_args_loop_spec 10 1 m w (act_arg m)
                  ltac:(lia) Hfuel Hl ltac:(lia) Hp') as H.
    rewrite terminate_args_unfold.
    destruct (terminate_args_loop 10 1 m w) as [[[r m'] w']|]; [|done].
    destruct H as (H1 & H2 & H3 & H4 & H5 & H6 & H7 & H8).
    split_and!; try done.
    { split; [done|]. split; [lia|]. intros n. by rewrite H6, H4. }
    intros Hr. destruct (H8 Hr) as [H9 H10]. split; [done|]. intros n.
    specialize (H10 n).
    assert (ARG m' n = cstr (arg_bytes m' n)) as ->.
    { unfold ARG, arg_bytes. by destruct (arg_slot m' n). }
    rewrite H10.
    destruct (Z.leb_spec 1 n), (Z.leb_spec n (act_arg m)); cbn [andb].
    + split; [apply cstr_snoc_NUL|done].
    + assert (arg_bytes m n = []) as ->; [|done].
      unfold arg_bytes. destruct (arg_slot m n) eqn:E; [|done].
      assert (is_Some (arg_slot m n)) as Hs by (by rewrite E).
      apply Hp in Hs. lia.
    + assert (arg_bytes m n = []) as ->; [|done].
      unfold arg_bytes. destruct (arg_slot m n) eqn:E; [|done].
      assert (is_Some (arg_slot m n)) as Hs by (by rewrite E).
      apply Hp in Hs. lia.
    + lia.
  - intros Hh Hok. rewrite terminate_args_unfold.
    apply (terminate_args_loop_ok 10 1 m w (act_arg m)); try done; try lia.
    intros n b _. apply Hok.
Qed.

End Call_extras.

Lemma terminate_args_ends_each_argument_witness :
  exists m',
    @terminate_args unsigned_char two_args (world_of [])
    = Some (0, m', world_of [])
    /\ ARG m' 1 = lit "ab" /\ ARG m' 2 = [] /\ ARG m' 3 = [].
Proof.
  destruct (@terminate_args_ends_each_argument unsigned_char two_args
              (world_of [])) as [H1 H2].
  { split; [reflexivity|]. split; [vm_compute; split; discriminate|].
    intros n. unfold arg_slot.
    destruct (Z.ltb_spec n 0); [split; [by intros [? ?]|cbn; lia]|].
    assert (n = 0 \/ n = 1 \/ n = 2 \/ 3 <= n) as [->|[->|[->|Hn]]] by lia.
    - vm_compute. split; [by intros [? ?]|by intros [? _]].
    - vm_compute. split; [by split|by eexists].
    - vm_compute. split; [by split|by eexists].
    - destruct (Z.to_nat n) as [|[|[|k]]] eqn:E; [lia..|].
      split; [|cbn; lia]. cbn.
      do 7 (destruct k as [|k]; [by intros [? ?]|]). by intros [? ?]. }
  destruct H2 as [m' E]; [reflexivity| |].
  { intros n b Hb.
    assert (b = held "ab" \/ b = held "") as [-> | ->].
    { unfold arg_slot in Hb. destruct (n <? 0); [done|].
      destruct (Z.to_nat n) as [|[|[|k]]]; vm_compute in Hb;
        [done|injection Hb as <-; by left|injection Hb as <-; by right|].
      do 7 (destruct k as [|k]; [done|]). done. }
    - unfold buf_ok. vm_compute. split; [split|]; discriminate.
    - unfold buf_ok. vm_compute. split; [split|]; discriminate. }
  rewrite E in H1. destruct H1 as (_ & _ & _ & _ & _ & _ & H).
  destruct (H eq_refl) as [_ Hn].
  exists m'. split; [done|].
  split; [|split]; [apply (Hn 1)|apply (Hn 2)|apply (Hn 3)].
Defined.

(** ** Reading: [getword], [EAT_WS], [DNL] *)

Section Reading_extras.

Context {platform : Platform}.

(** X11.  [getword] implements the grammar of tokens: when no allocation
    fails, it reads exactly the first token of what is left to read, an
    identifier or one other byte, stores it with a terminator and leaves the
    bytes after it to be read; when the input is empty or ends within an
    identifier it returns 1, with the error flag only for a read error, and
    nothing is left to read. *)
Theorem getword_reads_first_token (token input : buf) (rs : bool) (w : world) :
  no_eof (to_read input rs w) -> heap w = [] ->
  buf_ok token -> buf_ok input ->
  Z.of_nat (length (b_a input) + length (stdin w)) + 2 <= LIMIT ->
  exists r e token' input' w',
    getword token input rs w = (r, e, token', input', w')
    /\ same_but_stdin w w'
    /\ match first_token (to_read input rs w) with
       | Some (tok, rest) =>
           r = 0 /\ b_a token' = tok ++ [NUL]
           /\ to_read input' rs w' = rest
           /\ to_read input rs w = tok ++ rest
       | None =>
           r = 1 /\ e = (if rs then stdin_errno w else false)
           /\ to_read input' rs w' = []
       end.
Proof.
  intros He Hh Htk Hin HL.
  destruct (first_token (to_read input rs w)) as [[tok rest]|] eqn:Hf.
  - destruct (getword_token token input rs w tok rest)
      as (tk & inp & w' & G & H1 & H2 & H3 & _ & _ & H4 & _); try done.
    by exists 0, false, tk, inp, w'.
  - destruct (getword_eof token input rs w)
      as (tk & inp & w' & G & H1 & H2 & H3 & H4); try done.
    eexists 1, _, tk, inp, w'. split; [done|]. split; [done|].
    split; [done|]. split; [done|].
    unfold to_read, unread. rewrite H1. destruct rs; [|done].
    by rewrite H4.
Qed.

Lemma same_but_input_refl st : same_but_input st st.
Proof.
  unfold same_but_input. repeat (split; [done|]). apply same_but_stdin_refl.
Qed.

Lemma same_but_input_trans st1 st2 st3 :
  same_but_input st1 st2 -> same_but_input st2 st3 -> same_but_input st1 st3.
Proof.
  unfold same_but_input. intros H1 H2. destruct_and!.
  repeat (split; [congruence|]). by eapply same_but_stdin_trans.
Qed.

(** Reading the next token, when no allocation fails. *)
Lemma READ_next_token st tok rest :
  first_token (to_read_of st) = Some (tok, rest) ->
  no_eof (to_read_of st) -> heap (env st) = [] ->
  buf_ok (next_token st) -> buf_ok (input st) ->
  Z.of_nat (pending st) + 2 <= LIMIT ->
  exists st',
    READ_TOKEN next_token set_next_token st = Ret tt st'
    /\ NTS st' = cstr tok /\ to_read_of st' = rest
    /\ to_read_of st = tok ++ rest
    /\ heap (env st') = [] /\ buf_ok (next_token st') /\ buf_ok (input st')
    /\ (pending st' + length tok <= pending st)%nat
    /\ same_but_input st st'.
Proof.
  intros Hf He Hh Hnt Hin HL.
  destruct (getword_token (next_token st) (input st) (read_stdin st) (env st)
              tok rest)
    as (tk & inp & w & G & Htk & Happ & Hr & Hoktk & Hokin & Hw & Hpend & Hrs);
    try done.
  exists (set_env w (set_input inp (set_next_token tk st))).
  unfold READ_TOKEN. rewrite G. cbn [Z.eqb negb].
  split; [done|]. split.
  { unfold NTS. cbn. rewrite Htk. apply cstr_snoc_NUL. }
  split; [done|]. split; [done|].
  split; [cbn; by rewrite (same_but_stdin_heap _ _ Hw)|].
  split; [done|]. split; [done|]. split.
  { unfold pending. cbn. unfold to_read, unread in Happ, Hr.
    apply (f_equal length) in Happ, Hr.
    rewrite !length_app, !length_reverse in *.
    destruct (read_stdin st); [lia|]. rewrite (Hrs eq_refl).
    cbn [length] in *. lia. }
  unfold same_but_input. cbn. by repeat (split; [done|]).
Qed.

(** Reading the next token at the end of the input. *)
Lemma READ_next_token_eof st :
  first_token (to_read_of st) = None -> heap (env st) = [] ->
  buf_ok (next_token st) -> Z.of_nat (pending st) + 2 <= LIMIT ->
  (read_stdin st = true -> stdin_errno (env st) = false) ->
  exists st',
    READ_TOKEN next_token set_next_token st = EndOfInput st'
    /\ to_read_of st' = [] /\ same_but_input st st'.
Proof.
  intros Hf Hh Hnt HL Herr.
  destruct (getword_eof (next_token st) (input st) (read_stdin st) (env st))
    as (tk & inp & w & G & H1 & H2 & H3 & H4); try done.
  exists (set_env w (set_input inp (set_next_token tk st))).
  unfold READ_TOKEN. rewrite G. cbn [Z.eqb negb]. split.
  { destruct (read_stdin st); [by rewrite Herr|done]. }
  split.
  { unfold to_read_of, to_read, unread. cbn. rewrite H1.
    destruct (read_stdin st); [by rewrite H4|done]. }
  unfold same_but_input. cbn. by repeat (split; [done|]).
Qed.

Lemma WS_single c : WS [c] = is_ws c.
Proof.
  unfold WS, is_ws, streq. change (lit " ") with [" "%char].
  f_equal; [f_equal; [f_equal|]|];
    apply bool_decide_ext; (split; [by intros [= ->]|by intros ->]).
Qed.

Lemma WS_true x : WS x = true -> exists c, x = [c] /\ is_ws c = true.
Proof.
  unfold WS, is_ws, streq. rewrite !orb_true_iff, !bool_decide_eq_true.
  intros [[[->| ->]| ->]| ->]; eexists; (split; [reflexivity|]);
    vm_compute; reflexivity.
Qed.

Lemma is_ws_plain c :
  is_ws c = true -> ident_start c = false /\ code c <> 0.
Proof.
  unfold is_ws. rewrite !orb_true_iff, !bool_decide_eq_true.
  intros [[[->| ->]| ->]| ->]; vm_compute; split; congruence.
Qed.

Lemma cstr_single c : code c <> 0 -> cstr [c] = [c].
Proof. intros H. cbn. by destruct (Z.eqb_spec (code c) 0). Qed.

Lemma cstr_head x c y : cstr x = c :: y -> exists x', x = c :: x'.
Proof.
  destruct x as [|d x]; [done|]. cbn. destruct (code d =? 0); [done|].
  intros [= -> _]. by eexists.
Qed.

Lemma no_eof_app x y : no_eof (x ++ y) -> no_eof x /\ no_eof y.
Proof. apply Forall_app. Qed.

Lemma no_eof_cstr x : no_eof x -> no_eof (cstr x).
Proof.
  unfold no_eof. induction 1 as [|c x Hc Hx IH]; cbn; [constructor|].
  destruct (code c =? 0); by constructor.
Qed.

Lemma cstr_length x : (length (cstr x) <= length x)%nat.
Proof.
  induction x as [|c x IH]; cbn; [lia|].
  destruct (code c =? 0); cbn; lia.
Qed.

(** The loop of [EAT_WS]: the white space is read, then the token after
    it. *)
Lemma EAT_WS_loop_skips x : forall st fuel,
  to_read_of st = x -> no_eof x -> heap (env st) = [] ->
  buf_ok (next_token st) -> buf_ok (input st) ->
  Z.of_nat (pending st) + 2 <= LIMIT ->
  (read_stdin st = true -> stdin_errno (env st) = false) ->
  (length x < fuel)%nat ->
  match first_token (skip_ws x) with
  | Some (tok, rest) =>
      exists st',
        EAT_WS_loop fuel st = Ret tt st'
        /\ NTS st' = cstr tok /\ to_read_of st' = rest
        /\ heap (env st') = [] /\ buf_ok (input st')
        /\ (pending st' + length tok <= pending st)%nat
        /\ same_but_input st st'
  | None =>
      exists st',
        EAT_WS_loop fuel st = EndOfInput st'
        /\ to_read_of st' = [] /\ same_but_input st st'
  end.
Proof.
  induction x as [|c x IH]; intros st fuel Hx He Hh Hnt Hin HL Herr Hfuel;
    (destruct fuel as [|fuel]; [cbn in Hfuel; lia|]);
    cbn [skip_ws EAT_WS_loop]; unfold bind.
  { cbn [first_token].
    destruct (READ_next_token_eof st) as (st1 & -> & H1 & H2);
      try done; [by rewrite Hx|]. by exists st1. }
  destruct (is_ws c) eqn:Ews.
  - destruct (is_ws_plain c Ews) as [Hi Hc].
    destruct (READ_next_token st [c] x)
      as (st1 & -> & H1 & H2 & _ & H3 & H4 & H5 & H6 & H7); try done.
    { rewrite Hx. cbn [first_token]. by rewrite Hi. }
    { by rewrite Hx. }
    unfold get. rewrite H1, (cstr_single c Hc), WS_single, Ews.
    pose proof H7 as (_ & _ & _ & _ & _ & _ & _ & _ & _ & _ & _ & Hrs & Hw).
    destruct Hw as (_ & Hen & _).
    specialize (IH st1 fuel H2).
    destruct (first_token (skip_ws x)) as [[tok rest]|].
    + destruct IH as (st2 & -> & I1 & I2 & I3 & I4 & I5 & I6); try done.
      { apply Forall_cons in He. tauto. }
      { cbn [length] in H6. lia. }
      { by rewrite Hrs, Hen. }
      { cbn [length] in Hfuel. lia. }
      exists st2. split_and!; try done; [cbn [length] in H6; lia|].
      by eapply same_but_input_trans.
    + destruct IH as (st2 & -> & I1 & I2); try done.
      { apply Forall_cons in He. tauto. }
      { cbn [length] in H6. lia. }
      { by rewrite Hrs, Hen. }
      { cbn [length] in Hfuel. lia. }
      exists st2. split_and!; try done. by eapply same_but_input_trans.
  - destruct (first_token (c :: x)) as [[tok rest]|] eqn:Hf.
    + destruct (READ_next_token st tok rest)
        as (st1 & -> & H1 & H2 & H2' & H3 & H4 & H5 & H6 & H7); try done;
        [by rewrite Hx|by rewrite Hx|].
      unfold get. rewrite H1.
      destruct (WS (cstr tok)) eqn:EW.
      { apply WS_true in EW as (d & Hd & Ed). apply cstr_head in Hd as [t' ->].
        rewrite Hx in H2'. injection H2' as ->. congruence. }
      by exists st1.
    + destruct (READ_next_token_eof st) as (st1 & -> & H1 & H2);
        try done; [by rewrite Hx|]. by exists st1.
Qed.

(** X12.  When no allocation fails, no byte that is left to read is taken
    for [EOF], the end of standard input is not a read error and the sizes
    are below [LIMIT], [EAT_WS] drops the white space in front of what is
    left to read: the first token after the white space is read and pushed
    back as a C string, so that a NUL byte that follows the white space is
    dropped with it, and nothing else is.  At the end of the input, or when
    the input ends within an identifier, control goes to [end_of_input]. *)
Theorem EAT_WS_skips_white_space (st : m4) :
  no_eof (to_read_of st) -> heap (env st) = [] ->
  buf_ok (next_token st) -> buf_ok (input st) ->
  Z.of_nat (pending st) + 2 <= LIMIT ->
  (read_stdin st = true -> stdin_errno (env st) = false) ->
  match first_token (skip_ws (to_read_of st)) with
  | Some (tok, rest) =>
      exists st',
        EAT_WS st = Ret tt st'
        /\ to_read_of st' = cstr tok ++ rest
        /\ (no_nul tok -> to_read_of st' = skip_ws (to_read_of st))
        /\ same_but_input st st'
  | None =>
      exists st',
        EAT_WS st = EndOfInput st'
        /\ to_read_of st' = [] /\ same_but_input st st'
  end.
Proof.
  intros He Hh Hnt Hin HL Herr.
  pose proof (EAT_WS_loop_skips (to_read_of st) st (S (pending st))
                eq_refl He Hh Hnt Hin HL Herr) as H.
  pose proof (to_read_length (input st) (read_stdin st) (env st)) as Hlen.
  fold (to_read_of st) in Hlen. fold (pending st) in Hlen.
  destruct (first_token (skip_ws (to_read_of st))) as [[tok rest]|] eqn:Hf.
  - destruct H as (st1 & H0 & H1 & H2 & H3 & H4 & H5 & H6); [lia|].
    apply first_token_app in Hf as [Hf _].
    assert (no_eof tok) as Htok.
    { assert (no_eof (skip_ws (to_read_of st))) as Hs.
      { clear -He. induction (to_read_of st) as [|c x IH]; [done|].
        cbn [skip_ws]. destruct (is_ws c); [|done].
        apply IH. apply Forall_cons in He. tauto. }
      rewrite Hf in Hs. by apply no_eof_app in Hs as [? _]. }
    destruct (unget_input_ok (NTS st1) st1) as (b' & U & Hb'); try done.
    { rewrite H1, cstr_idemp. pose proof (cstr_length tok).
      unfold b_i, pending in *. lia. }
    { rewrite H1, cstr_idemp. by apply no_eof_cstr. }
    assert (to_read_of (set_env (env st1) (set_input b' st1))
            = cstr tok ++ rest) as Hr.
    { rewrite <- H2. unfold to_read_of, to_read. cbn.
      by rewrite Hb', H1, cstr_idemp, <- app_assoc. }
    eexists. unfold EAT_WS, bind, get. rewrite H0. split; [exact U|].
    split; [exact Hr|]. split.
    { intros Hnn. by rewrite Hr, Hf, (no_nul_cstr tok Hnn). }
    unfold same_but_input in *. cbn. done.
  - destruct H as (st1 & H0 & H1 & H2); [lia|].
    exists st1. unfold EAT_WS, bind, get. by rewrite H0.
Qed.

Lemma ident_run_app p d s :
  ident_char d = false ->
  ident_run (p ++ d :: s) = ((ident_run p).1, (ident_run p).2 ++ d :: s).
Proof.
  intros Hd. induction p as [|c p IH]; cbn [app ident_run].
  - by rewrite Hd.
  - destruct (ident_char c); [|done]. rewrite IH.
    by destruct (ident_run p).
Qed.

(** The first token of an input that goes on with a byte that is in no
    identifier lies before that byte. *)
Lemma first_token_before c p d s :
  ident_char d = false ->
  exists tok pre',
    first_token ((c :: p) ++ d :: s) = Some (tok, pre' ++ d :: s)
    /\ c :: p = tok ++ pre' /\ tok <> [].
Proof.
  intros Hd. cbn [app first_token]. destruct (ident_start c).
  - rewrite ident_run_app by done.
    destruct (ident_run p) as [r rest] eqn:R.
    apply ident_run_spec in R as (-> & _ & _). cbn [fst snd].
    exists (c :: r), rest. split; [by destruct rest|done].
  - by exists [c], p.
Qed.

Lemma LF_plain : ident_char LF = false /\ ident_start LF = false /\ cstr [LF] = [LF].
Proof. by vm_compute. Qed.

Lemma cstr_elem c x : c ∈ cstr x -> c ∈ x.
Proof.
  induction x as [|d x IH]; [done|]. cbn [cstr].
  destruct (code d =? 0); [by intros ?%elem_of_nil|].
  intros [->|H]%elem_of_cons; [by left|]. right. by apply IH.
Qed.

(** The loop of [DNL] on a line. *)
Lemma DNL_loop_line n : forall pre st fuel rest,
  (length pre <= n)%nat ->
  to_read_of st = pre ++ LF :: rest -> LF ∉ pre ->
  no_eof (to_read_of st) -> heap (env st) = [] ->
  buf_ok (next_token st) -> buf_ok (input st) ->
  Z.of_nat (pending st) + 2 <= LIMIT ->
  (length pre < fuel)%nat ->
  exists st',
    DNL_loop fuel st = Ret tt st'
    /\ to_read_of st' = rest /\ same_but_input st st'.
Proof.
  induction n as [|n IH]; intros pre st fuel rest Hn Hx Hnl He Hh Hnt Hin HL
    Hfuel; (destruct fuel as [|fuel]; [cbn in Hfuel; lia|]);
    cbn [DNL_loop]; unfold bind; destruct LF_plain as (L1 & L2 & L3).
  { destruct pre; [|cbn in Hn; lia]. cbn [app] in Hx.
    destruct (READ_next_token st [LF] rest)
      as (st1 & -> & H1 & H2 & _ & H3 & H4 & H5 & H6 & H7); try done.
    { rewrite Hx. cbn [first_token]. by rewrite L2. }
    unfold get. rewrite H1, L3, streq_refl. by exists st1. }
  destruct pre as [|c p].
  { cbn [app] in Hx.
    destruct (READ_next_token st [LF] rest)
      as (st1 & -> & H1 & H2 & _ & H3 & H4 & H5 & H6 & H7); try done.
    { rewrite Hx. cbn [first_token]. by rewrite L2. }
    unfold get. rewrite H1, L3, streq_refl. by exists st1. }
  destruct (first_token_before c p LF rest L1) as (tok & pre' & Hf & Hp & Ht).
  destruct (READ_next_token st tok (pre' ++ LF :: rest))
    as (st1 & -> & H1 & H2 & H2' & H3 & H4 & H5 & H6 & H7); try done;
    [by rewrite Hx|].
  unfold get. rewrite H1.
  assert (streq (cstr tok) [to_char 10] = false) as ->.
  { apply bool_decide_eq_false_2. intros E. apply Hnl. rewrite Hp.
    apply elem_of_app. left. apply cstr_elem. rewrite E. by left. }
  cbn [negb].
  assert (0 < length tok)%nat by (destruct tok; [done|cbn; lia]).
  apply (f_equal length) in Hp as Hlen. rewrite length_app in Hlen.
  destruct (IH pre' st1 fuel rest) as (st2 & -> & I1 & I2); try done.
  { cbn [length] in *. lia. }
  { intros Hin'. apply Hnl. rewrite Hp. apply elem_of_app. by right. }
  { rewrite H2' in He. rewrite H2. by apply no_eof_app in He as [_ ?]. }
  { lia. }
  { cbn [length] in *. lia. }
  exists st2. split_and!; try done. by eapply same_but_input_trans.
Qed.

(** The loop of [DNL] on an input without a newline. *)
Lemma DNL_loop_eof n : forall x st fuel,
  (length x <= n)%nat ->
  to_read_of st = x -> LF ∉ x ->
  no_eof x -> heap (env st) = [] ->
  buf_ok (next_token st) -> buf_ok (input st) ->
  Z.of_nat (pending st) + 2 <= LIMIT ->
  (read_stdin st = true -> stdin_errno (env st) = false) ->
  (length x < fuel)%nat ->
  exists st',
    DNL_loop fuel st = EndOfInput st'
    /\ to_read_of st' = [] /\ same_but_input st st'.
Proof.
  induction n as [|n IH]; intros x st fuel Hn Hx Hnl He Hh Hnt Hin HL Herr
    Hfuel; (destruct fuel as [|fuel]; [cbn in Hfuel; lia|]);
    cbn [DNL_loop]; unfold bind.
  { destruct x; [|cbn in Hn; lia].
    destruct (READ_next_token_eof st) as (st1 & -> & H1 & H2); try done;
      [by rewrite Hx|]. by exists st1. }
  destruct (first_token x) as [[tok rest]|] eqn:Hf.
  - destruct (READ_next_token st tok rest)
      as (st1 & -> & H1 & H2 & H2' & H3 & H4 & H5 & H6 & H7); try done;
      [by rewrite Hx|by rewrite Hx|].
    unfold get. rewrite H1. rewrite Hx in H2'.
    assert (streq (cstr tok) [to_char 10] = false) as ->.
    { apply bool_decide_eq_false_2. intros E. apply Hnl. rewrite H2'.
      apply elem_of_app. left. apply cstr_elem. rewrite E. by left. }
    cbn [negb].
    apply first_token_app in Hf as [_ Ht].
    assert (0 < length tok)%nat by (destruct tok; [done|cbn; lia]).
    apply (f_equal length) in H2' as Hlen. rewrite length_app in Hlen.
    pose proof H7 as (_ & _ & _ & _ & _ & _ & _ & _ & _ & _ & _ & Hrs & Hw).
    destruct Hw as (_ & Hen & _).
    destruct (IH rest st1 fuel) as (st2 & -> & I1 & I2); try done.
    { lia. }
    { intros Hin'. apply Hnl. rewrite H2'. apply elem_of_app. by right. }
    { rewrite H2' in He. by apply no_eof_app in He as [_ ?]. }
    { lia. }
    { by rewrite Hrs, Hen. }
    { lia. }
    exists st2. split_and!; try done. by eapply same_but_input_trans.
  - destruct (READ_next_token_eof st) as (st1 & -> & H1 & H2); try done;
      [by rewrite Hx|]. by exists st1.
Qed.

(** X13.  When no allocation fails, no byte that is left to read is taken
    for [EOF], the end of standard input is not a read error and the sizes
    are below [LIMIT], [DNL] drops what is left to read up to and including
    the first newline, and nothing after it.  When there is no newline it
    drops all that is left and control goes to [end_of_input]. *)
Theorem DNL_drops_the_line (st : m4) :
  no_eof (to_read_of st) -> heap (env st) = [] ->
  buf_ok (next_token st) -> buf_ok (input st) ->
  Z.of_nat (pending st) + 2 <= LIMIT ->
  (read_stdin st = true -> stdin_errno (env st) = false) ->
  (forall pre rest,
     to_read_of st = pre ++ LF :: rest -> LF ∉ pre ->
     exists st',
       DNL st = Ret tt st' /\ to_read_of st' = rest /\ same_but_input st st')
  /\ (LF ∉ to_read_of st ->
      exists st',
        DNL st = EndOfInput st'
        /\ to_read_of st' = [] /\ same_but_input st st').
Proof.
  intros He Hh Hnt Hin HL Herr.
  pose proof (to_read_length (input st) (read_stdin st) (env st)) as Hlen.
  fold (to_read_of st) in Hlen. fold (pending st) in Hlen.
  unfold DNL, bind, get. split.
  - intros pre rest Hx Hnl. rewrite Hx, length_app in Hlen.
    apply (DNL_loop_line (length pre) pre); try done; lia.
  - intros Hnl.
    apply (DNL_loop_eof (length (to_read_of st)) (to_read_of st));
      try done; lia.
Qed.

(** *** The end of the input within an identifier *)

Lemma same_but_input_read st st' : same_but_input st st' -> same_but_read st st'.
Proof.
  unfold same_but_input, same_but_read. intros H. destruct_and!.
  by repeat (split; [done|]).
Qed.

Lemma READ_token_eof st :
  first_token (to_read_of st) = None -> heap (env st) = [] ->
  buf_ok (token st) -> Z.of_nat (pending st) + 2 <= LIMIT ->
  (read_stdin st = true -> stdin_errno (env st) = false) ->
  exists st',
    READ_TOKEN token set_token st = EndOfInput st'
    /\ to_read_of st' = [] /\ same_but_read st st'.
Proof.
  intros Hf Hh Hnt HL Herr.
  destruct (getword_eof (token st) (input st) (read_stdin st) (env st))
    as (tk & inp & w & G & H1 & H2 & H3 & H4); try done.
  exists (set_env w (set_input inp (set_token tk st))).
  unfold READ_TOKEN. rewrite G. cbn [Z.eqb negb]. split.
  { destruct (read_stdin st); [by rewrite Herr|done]. }
  split.
  { unfold to_read_of, to_read, unread. cbn. rewrite H1.
    destruct (read_stdin st); [by rewrite H4|done]. }
  unfold same_but_read. cbn. by repeat (split; [done|]).
Qed.

Lemma READ_TOKEN_next_set_ht t st :
  READ_TOKEN next_token set_next_token (set_ht t st)
  = with_table t (READ_TOKEN next_token set_next_token st).
Proof.
  unfold READ_TOKEN. simpl.
  destruct (getword (next_token st) (input st) (read_stdin st) (env st))
    as [[[[r e] tk] inp] w].
  destruct (r =? 0); simpl; [done|]. by destruct e.
Qed.

Lemma EAT_WS_loop_set_ht t fuel : forall st,
  EAT_WS_loop fuel (set_ht t st) = with_table t (EAT_WS_loop fuel st).
Proof.
  induction fuel as [|fuel IH]; intros st; [done|].
  cbn [EAT_WS_loop]. unfold bind. rewrite READ_TOKEN_next_set_ht.
  destruct (READ_TOKEN next_token set_next_token st) as [[] st1| | | |];
    try done.
  cbn [with_table]. unfold get.
  change (NTS (set_ht t st1)) with (NTS st1).
  destruct (WS (NTS st1)); [apply IH|done].
Qed.

Lemma DNL_loop_set_ht t fuel : forall st,
  DNL_loop fuel (set_ht t st) = with_table t (DNL_loop fuel st).
Proof.
  induction fuel as [|fuel IH]; intros st; [done|].
  cbn [DNL_loop]. unfold bind. rewrite READ_TOKEN_next_set_ht.
  destruct (READ_TOKEN next_token set_next_token st) as [[] st1| | | |];
    try done.
  cbn [with_table]. unfold get.
  change (NTS (set_ht t st1)) with (NTS st1).
  destruct (negb (streq (NTS st1) [to_char 10])); [apply IH|done].
Qed.

Lemma is_ws_no_eof c : is_ws c = true -> char_to_int c <> EOF.
Proof.
  intros H. assert (code c < 128) as Hc.
  { revert H. unfold is_ws. rewrite !orb_true_iff, !bool_decide_eq_true.
    intros [[[->| ->]| ->]| ->]; vm_compute; reflexivity. }
  rewrite char_to_int_small by done. pose proof (code_range c).
  unfold EOF. lia.
Qed.

Lemma skip_ws_app pre x :
  Forall (fun c => is_ws c = true) pre -> skip_ws (pre ++ x) = skip_ws x.
Proof.
  induction 1 as [|c pre Hc _ IH]; [done|]. cbn [app skip_ws].
  by rewrite Hc.
Qed.

(** C10: when the bytes that are left to read end within an identifier,
    the identifier is dropped wherever it is read.  [READ_TOKEN] jumps to
    [end_of_input], whether it reads into the token or the next token and
    whatever the table holds, and leaves the stack, the argument buffers,
    the diversions and the table as they are; so does the round of the loop
    that reads it, which writes nothing but the old contents of diversion 0
    as every round does, so does [EAT_WS] when only white space is in front
    of the identifier, and so does [DNL] when no newline is in front of
    it. *)
Theorem input_ends_within_identifier
    (st : m4) (pre : list ascii) (c : ascii) (run : list ascii) :
  to_read_of st = pre ++ c :: run ->
  ident_start c = true -> Forall (fun c => ident_char c = true) run ->
  (read_stdin st = true -> stdin_errno (env st) = false) ->
  heap (env st) = [] ->
  buf_ok (token st) -> buf_ok (next_token st) -> buf_ok (input st) ->
  Z.of_nat (pending st) + 2 <= LIMIT ->
  (pre = [] ->
   (forall rd,
      rd ∈ [READ_TOKEN token set_token;
            READ_TOKEN next_token set_next_token] ->
      exists st',
        rd st = EndOfInput st'
        /\ same_but_read st st' /\ to_read_of st' = []
        /\ forall t, rd (set_ht t st) = EndOfInput (set_ht t st'))
   /\ (disk_ok (env st) ->
       forall d0, diversion st !! 0%nat = Some d0 ->
       exists st',
         m4_round st = EndOfInput st'
         /\ (forall t, m4_round (set_ht t st) = EndOfInput (set_ht t st'))
         /\ stack st' = stack st /\ ht st' = ht st
         /\ diversion st' = <[0%nat := delete_buf d0]> (diversion st)
         /\ stdout (env st') = stdout (env st) ++ b_a d0
         /\ stderr (env st') = stderr (env st)
         /\ to_read_of st' = []
         /\ quote_on st' = quote_on st /\ quote_depth st' = quote_depth st
         /\ act_div st' = act_div st /\ output st' = output st))
  /\ (Forall (fun c => is_ws c = true) pre ->
      exists st',
        EAT_WS st = EndOfInput st'
        /\ same_but_read st st' /\ to_read_of st' = []
        /\ forall t, EAT_WS (set_ht t st) = EndOfInput (set_ht t st'))
  /\ (LF ∉ pre -> no_eof pre ->
      exists st',
        DNL st = EndOfInput st'
        /\ same_but_read st st' /\ to_read_of st' = []
        /\ forall t, DNL (set_ht t st) = EndOfInput (set_ht t st')).
Proof.
  intros Hr Hs Hrun Herr Hh Htk Hnt Hin HL.
  assert (first_token (c :: run) = None) as Hnone.
  { cbn [first_token]. by rewrite Hs, (ident_run_all run Hrun). }
  assert (no_eof (c :: run)) as Hne.
  { constructor; [by apply ident_char_not_EOF, ident_start_char|].
    eapply Forall_impl; [exact Hrun|]. intros d. apply ident_char_not_EOF. }
  pose proof (to_read_length (input st) (read_stdin st) (env st)) as Hlen.
  fold (to_read_of st) in Hlen. fold (pending st) in Hlen.
  split; [|split].
  - intros ->. cbn [app] in Hr. split.
    + intros rd [->|[->|[]%elem_of_nil]%elem_of_cons]%elem_of_cons.
      * destruct (READ_token_eof st) as (st' & E & H1 & H2); try done;
          [by rewrite Hr|].
        exists st'. split_and!; try done. intros t.
        by rewrite READ_TOKEN_token_set_ht, E.
      * destruct (READ_next_token_eof st) as (st' & E & H1 & H2); try done;
          [by rewrite Hr|].
        exists st'. split_and!; try done; [by apply same_but_input_read|].
        intros t. by rewrite READ_TOKEN_next_set_ht, E.
    + intros Hd d0 Hd0.
      destruct (m4_round_eof st d0) as (st' & H); try done; [by rewrite Hr|].
      exists st'. destruct_and!. by repeat (split; [done|]).
  - intros Hws.
    pose proof (EAT_WS_loop_skips (to_read_of st) st (S (pending st))
                  eq_refl) as H.
    rewrite Hr, (skip_ws_app pre (c :: run) Hws) in H.
    assert (skip_ws (c :: run) = c :: run) as Hsk.
    { cbn [skip_ws]. destruct (is_ws c) eqn:E; [|done].
      apply is_ws_plain in E as [E _]. congruence. }
    rewrite Hsk, Hnone in H.
    destruct H as (st' & E & H1 & H2); try done; [|rewrite Hr in Hlen; lia|].
    { apply Forall_app. split; [|done].
      eapply Forall_impl; [exact Hws|]. intros d. apply is_ws_no_eof. }
    exists st'.
    assert (EAT_WS st = EndOfInput st') as EE.
    { unfold EAT_WS, bind, get. by rewrite E. }
    split_and!; try done; [by apply same_but_input_read|].
    intros t. unfold EAT_WS, bind, get.
    change (pending (set_ht t st)) with (pending st).
    by rewrite EAT_WS_loop_set_ht, E.
  - intros Hnl Hpe.
    assert (LF ∉ to_read_of st) as Hnl'.
    { rewrite Hr. intros [H|H]%elem_of_app; [done|].
      assert (ident_char LF = true) as HL'; [|by vm_compute in HL'].
      apply elem_of_cons in H as [<-|H]; [by apply ident_start_char|].
      rewrite Forall_forall in Hrun. by apply Hrun. }
    destruct (DNL_loop_eof (length (to_read_of st)) (to_read_of st) st
                (S (pending st))) as (st' & E & H1 & H2); try done; try lia.
    { rewrite Hr. by apply Forall_app. }
    exists st'.
    assert (DNL st = EndOfInput st') as EE.
    { unfold DNL, bind, get. by rewrite E. }
    split_and!; try done; [by apply same_but_input_read|].
    intros t. unfold DNL, bind, get.
    change (pending (set_ht t st)) with (pending st).
    by rewrite DNL_loop_set_ht, E.
Qed.

End Reading_extras.

Lemma getword_reads_first_token_witness :
  exists e token' input' w',
    @getword unsigned_char (held "") (held "") true (world_of (lit "ab c"))
    = (0, e, token', input', w')
    /\ b_a token' = lit "ab" ++ [NUL]
    /\ to_read input' true w' = lit " c".
Proof.
  destruct (@getword_reads_first_token unsigned_char (held "") (held "") true
              (world_of (lit "ab c")))
    as (r & e & tk & inp & w' & G & _ & H).
  - unfold no_eof. closed_bool.
  - reflexivity.
  - unfold buf_ok. vm_compute. split; discriminate.
  - unfold buf_ok. vm_compute. split; discriminate.
  - vm_compute. discriminate.
  - change (first_token (to_read (held "") true (world_of (lit "ab c"))))
      with (Some (lit "ab", lit " c")) in H.
    destruct H as (-> & H1 & H2 & _). by exists e, tk, inp, w'.
Defined.

Lemma EAT_WS_skips_white_space_witness :
  exists st',
    @EAT_WS unsigned_char (top_state (lit "  x y") ∅) = Ret tt st'
    /\ to_read_of st' = lit "x y".
Proof.
  pose proof (@EAT_WS_skips_white_space unsigned_char
                (top_state (lit "  x y") ∅)) as H.
  change (first_token (skip_ws (to_read_of (top_state (lit "  x y") ∅))))
    with (Some (lit "x", lit " y")) in H.
  destruct H as (st' & H1 & H2 & _).
  - unfold no_eof. closed_bool.
  - reflexivity.
  - unfold buf_ok. vm_compute. split; discriminate.
  - unfold buf_ok. vm_compute. split; discriminate.
  - vm_compute. discriminate.
  - reflexivity.
  - by exists st'.
Defined.

Lemma DNL_drops_the_line_witness :
  exists st',
    @DNL unsigned_char (top_state (lit " a comment" ++ LF :: lit "text") ∅)
    = Ret tt st'
    /\ to_read_of st' = lit "text".
Proof.
  destruct (@DNL_drops_the_line unsigned_char
              (top_state (lit " a comment" ++ LF :: lit "text") ∅))
    as [H _].
  - unfold no_eof. closed_bool.
  - reflexivity.
  - unfold buf_ok. vm_compute. split; discriminate.
  - unfold buf_ok. vm_compute. split; discriminate.
  - vm_compute. discriminate.
  - reflexivity.
  - destruct (H (lit " a comment") (lit "text")) as (st' & H1 & H2 & _).
    + reflexivity.
    + closed_bool.
    + by exists st'.
Defined.

Lemma input_ends_within_identifier_witness :
  (exists st',
     @m4_round unsigned_char (top_state (lit "hello") builtin_table)
     = EndOfInput st'
     /\ stdout (env st') = []
     /\ diversion st' = diversion (top_state (lit "hello") builtin_table)
     /\ stack st' = []
     /\ to_read_of st' = [])
  /\ (exists st',
        @EAT_WS unsigned_char (top_state (lit " abc") builtin_table)
        = EndOfInput st'
        /\ to_read_of st' = [])
  /\ (exists st',
        @DNL unsigned_char (top_state (lit " abc") builtin_table)
        = EndOfInput st'
        /\ to_read_of st' = []).
Proof.
  split; [|split].
  - destruct (@input_ends_within_identifier unsigned_char
                (top_state (lit "hello") builtin_table)
                [] "h"%char (lit "ello")) as [H _]; try reflexivity;
      try (unfold buf_ok; vm_compute; split; discriminate).
    + repeat constructor.
    + vm_compute. discriminate.
    + destruct (H eq_refl) as [_ H2].
      destruct (H2 ltac:(constructor) (held "") eq_refl)
        as (st' & H1 & _ & H3 & _ & H4 & H5 & _ & H6 & _).
      exists st'. by repeat (split; [done|]).
  - destruct (@input_ends_within_identifier unsigned_char
                (top_state (lit " abc") builtin_table)
                (lit " ") "a"%char (lit "bc")) as (_ & H & _);
      try reflexivity;
      try (unfold buf_ok; vm_compute; split; discriminate).
    + repeat constructor.
    + vm_compute. discriminate.
    + destruct H as (st' & H1 & _ & H2 & _); [by repeat constructor|].
      by exists st'.
  - destruct (@input_ends_within_identifier unsigned_char
                (top_state (lit " abc") builtin_table)
                (lit " ") "a"%char (lit "bc")) as (_ & _ & H);
      try reflexivity;
      try (unfold buf_ok; vm_compute; split; discriminate).
    + repeat constructor.
    + vm_compute. discriminate.
    + destruct H as (st' & H1 & _ & H2 & _).
      * closed_bool.
      * unfold no_eof. closed_bool.
      * by exists st'.
Defined.

(** The identifier at the end of the input is dropped after the start of a
    call and after [dnl] too: the runs end at [end_of_input] without
    writing it, the first with the message for the call that is left
    open. *)
Lemma identifier_dropped_in_the_run :
  status_and_output (@main unsigned_char 100 [] (world_of (lit "len( abc")))
  = Some (1, [])
  /\ status_and_output (@main unsigned_char 100 [] (world_of (lit "dnl abc")))
     = Some (0, [])
  /\ status_and_output (@main unsigned_char 100 [] (world_of (lit "abc")))
     = Some (0, []).
Proof. split; [|split]; vm_compute; reflexivity. Qed.

(** ** The engine: the shape that every round of [main] keeps *)

Section Engine_extras.

Context {platform : Platform}.

Lemma frame_like_refl m : frame_like m m.
Proof. unfold frame_like. by repeat (split; [done|]). Qed.

Lemma frame_like_trans m1 m2 m3 :
  frame_like m1 m2 -> frame_like m2 m3 -> frame_like m1 m3.
Proof.
  unfold frame_like. intros (A1 & A2 & A3 & A4 & A5) (B1 & B2 & B3 & B4 & B5).
  repeat (split; [congruence|]). intros n. by rewrite B5.
Qed.

Lemma frames_like_refl l : Forall2 frame_like l l.
Proof. induction l; constructor; [apply frame_like_refl|done]. Qed.

Lemma frames_like_trans l1 : forall l2 l3,
  Forall2 frame_like l1 l2 -> Forall2 frame_like l2 l3 ->
  Forall2 frame_like l1 l3.
Proof.
  induction l1 as [|m1 l1 IH]; intros l2 l3 H12 H23;
    inversion H12; subst; inversion H23; subst; constructor.
  - by eapply frame_like_trans.
  - by eapply IH.
Qed.

Lemma like_refl st : like st st.
Proof. unfold like. repeat (split; [done|]). apply frames_like_refl. Qed.

Lemma like_trans st1 st2 st3 : like st1 st2 -> like st2 st3 -> like st1 st3.
Proof.
  unfold like. intros (A1 & A2 & A3 & A4 & A5 & A6) (B1 & B2 & B3 & B4 & B5 & B6).
  repeat (split; [congruence|]). by eapply frames_like_trans.
Qed.

(** States that differ in fields that the shape does not look at. *)
Lemma like_fields st st' :
  length (diversion st') = length (diversion st) ->
  act_div st' = act_div st -> output st' = output st ->
  left_quote st' = left_quote st -> right_quote st' = right_quote st ->
  stack st' = stack st -> like st st'.
Proof.
  intros H1 H2 H3 H4 H5 H6. unfold like. repeat (split; [done|]).
  rewrite H6. apply frames_like_refl.
Qed.

Lemma args_ok_like m m' : args_ok m -> frame_like m m' -> args_ok m'.
Proof.
  intros (A1 & A2 & A3) (B1 & B2 & B3 & B4 & B5). unfold args_ok.
  rewrite B3, B4. split; [done|]. split; [done|].
  intros n. by rewrite B5.
Qed.

Lemma engine_ok_like st st' : engine_ok st -> like st st' -> engine_ok st'.
Proof.
  intros (A1 & A2 & A3 & A4 & A5) (B1 & B2 & B3 & B4 & B5 & B6).
  unfold engine_ok, sink_ok in *. rewrite B1, B2, B3, B4, B5.
  split; [done|]. split; [done|]. split.
  { clear A4. induction B6 as [|m m' l l' Hm Hl IH]; [constructor|].
    apply Forall_cons in A3 as [? ?]. constructor; [|by apply IH].
    by eapply args_ok_like. }
  split; [|done]. rewrite A4.
  destruct B6 as [|m m' l l' Hm Hl]; [done|].
  destruct Hm as (_ & _ & -> & _). done.
Qed.

Lemma run_like_weaken {A} (u t : Prop) st (o : outcome A) :
  run_like False False st o -> run_like u t st o.
Proof. by destruct o. Qed.

Lemma run_like_bind {A B} (u t : Prop) st (c : M A) (k : A -> M B) :
  run_like u t st (c st) ->
  (forall x st', c st = Ret x st' -> like st st' -> run_like u t st' (k x st')) ->
  run_like u t st (bind c k st).
Proof.
  unfold bind. destruct (c st) as [x st'| | | |]; try done.
  intros H1 H2. specialize (H2 x st' eq_refl H1).
  destruct (k x st'); try done; cbn in *; by eapply like_trans.
Qed.

Lemma steady_weaken {A} (u : Prop) (c : M A) : steady False c -> steady u c.
Proof. intros H st Hst. by apply run_like_weaken, H. Qed.

Lemma steady_ret {A} u (x : A) : steady u (ret x).
Proof. intros st _. apply like_refl. Qed.

Lemma steady_get u : steady u get.
Proof. intros st _. apply like_refl. Qed.

Lemma steady_QUIT {A} u : steady u (@QUIT A).
Proof. intros st _. apply like_refl. Qed.

Lemma steady_bind {A B} u (c : M A) (k : A -> M B) :
  steady u c -> (forall x, steady u (k x)) -> steady u (bind c k).
Proof.
  intros Hc Hk st Hst. apply run_like_bind; [by apply Hc|].
  intros x st' _ Hl. apply Hk. by eapply engine_ok_like.
Qed.

Lemma steady_modify u (f : m4 -> m4) :
  (forall st, like st (f st)) -> steady u (modify f).
Proof. intros H st _. apply H. Qed.

Lemma like_set_env w st : like st (set_env w st).
Proof. by apply like_fields. Qed.

Lemma steady_EMSG u msg : steady u (EMSG msg).
Proof. apply steady_modify. intros st. apply like_set_env. Qed.

Lemma steady_EQUIT {A} u msg : steady u (@EQUIT A msg).
Proof. apply steady_bind; [apply steady_EMSG|intros _; apply steady_QUIT]. Qed.

Lemma steady_for_each {A} u (l : list A) (f : A -> M unit) :
  (forall k, k ∈ l -> steady u (f k)) -> steady u (for_each l f).
Proof.
  induction l as [|k l IH]; intros H; cbn [for_each]; [apply steady_ret|].
  apply steady_bind; [apply H; by left|]. intros _. apply IH.
  intros k' Hk'. apply H. by right.
Qed.

Lemma steady_must_alloc u : steady u must_alloc.
Proof.
  intros st _. unfold must_alloc. destruct (alloc (env st)) as [[] w]; cbn;
    apply like_set_env.
Qed.

Lemma steady_unget_input u x : steady u (unget_input x).
Proof.
  intros st _. unfold unget_input, on_buf.
  destruct (ungetstr (input st) x (env st)) as [[r b] w].
  destruct (negb (r =? 0)); cbn; by apply like_fields.
Qed.

Lemma steady_on_result u f : steady u (on_buf result set_result f).
Proof.
  intros st _. unfold on_buf.
  destruct (f (result st) (env st)) as [[r b] w].
  destruct (negb (r =? 0)); cbn; by apply like_fields.
Qed.

Lemma steady_READ_token u : steady u (READ_TOKEN token set_token).
Proof.
  intros st _. unfold READ_TOKEN.
  destruct (getword _ _ _ _) as [[[[r e] tk] inp] w].
  destruct (negb (r =? 0)); [destruct e|]; cbn; by apply like_fields.
Qed.

Lemma steady_READ_next_token u : steady u (READ_TOKEN next_token set_next_token).
Proof.
  intros st _. unfold READ_TOKEN.
  destruct (getword _ _ _ _) as [[[[r e] tk] inp] w].
  destruct (negb (r =? 0)); [destruct e|]; cbn; by apply like_fields.
Qed.

Lemma DIV_in_range st n :
  length (diversion st) = 11%nat -> 0 <= n <= 10 -> is_Some (DIV st n).
Proof.
  intros Hl Hn. unfold DIV. destruct (Z.ltb_spec n 0); [lia|].
  apply lookup_lt_is_Some. lia.
Qed.

Lemma like_set_DIV st n b : like st (set_DIV n b st).
Proof. apply like_fields; try done. cbn. by rewrite length_insert. Qed.

Lemma steady_OUT_DIV u n : 0 <= n <= 10 -> steady u (OUT_DIV n).
Proof.
  intros Hn st (Hl & _). unfold OUT_DIV.
  destruct (DIV_in_range st n Hl Hn) as [d ->].
  destruct (negb (b_i d =? 0)).
  - destruct (fwrite (b_a d) (env st)) as [c w].
    destruct (negb (c =? b_i d)); cbn.
    + apply like_set_env.
    + apply (like_trans _ (set_env w st)); [apply like_set_env|].
      apply like_set_DIV.
  - apply like_set_DIV.
Qed.

Lemma steady_UNDIVERT_ALL u : steady u UNDIVERT_ALL.
Proof.
  apply steady_for_each. intros k Hk. apply steady_OUT_DIV.
  apply elem_of_seqZ in Hk. lia.
Qed.

Lemma frame_like_set_arg_buf m n b :
  is_Some (arg_slot m n) -> frame_like m (set_arg_buf n b m).
Proof.
  intros Hs. unfold frame_like, set_arg_buf. cbn [mc_name mc_def act_arg arg_buf].
  rewrite length_insert. repeat (split; [done|]).
  assert (0 <= n /\ (Z.to_nat n < length (arg_buf m))%nat) as [H0 Hlt].
  { unfold arg_slot in Hs. destruct (Z.ltb_spec n 0); [by destruct Hs|].
    split; [done|]. apply lookup_lt_is_Some.
    destruct (arg_buf m !! Z.to_nat n); [by eexists|by destruct Hs]. }
  intros k. rewrite arg_slot_insert by done.
  case_bool_decide; [subst k|done]. split; [done|by eexists].
Qed.

Lemma steady_put_output u x : steady u (put_output x).
Proof.
  intros st (Hl & Ha & Hs & Ho & _). unfold put_output. rewrite Ho.
  destruct (stack st) as [|m stk] eqn:Estk.
  - destruct (DIV_in_range st (act_div st) Hl Ha) as [d ->].
    destruct (put_str d x (env st)) as [[r b] w].
    destruct (negb (r =? 0)); cbn;
      (apply (like_trans _ (set_DIV (act_div st) b st));
         [apply like_set_DIV|apply like_set_env]).
  - apply Forall_cons in Hs as [(_ & Hm1 & Hm2) _].
    assert (is_Some (arg_slot m (act_arg m))) as Hsome by (apply Hm2; lia).
    destruct Hsome as [b0 Hb0]. rewrite Hb0.
    destruct (put_str b0 x (env st)) as [[r b] w].
    assert (like st (set_env w (set_stack (set_arg_buf (act_arg m) b m :: stk) st))).
    { unfold like. cbn. repeat (split; [done|]). rewrite Estk.
      constructor; [|apply frames_like_refl].
      apply frame_like_set_arg_buf. by rewrite Hb0. }
    by destruct (negb (r =? 0)).
Qed.

(** The loops of [EAT_WS] and [DNL], while they have fuel. *)
Lemma EAT_WS_loop_like fuel : forall st,
  engine_ok st -> run_like False True st (EAT_WS_loop fuel st).
Proof.
  induction fuel as [|fuel IH]; intros st Hst; [done|]. cbn [EAT_WS_loop].
  apply run_like_bind; [by apply run_like_weaken, steady_READ_next_token|].
  intros _ st1 _ Hl1. unfold bind, get. destruct (WS (NTS st1)).
  - apply IH. by eapply engine_ok_like.
  - apply like_refl.
Qed.

Lemma DNL_loop_like fuel : forall st,
  engine_ok st -> run_like False True st (DNL_loop fuel st).
Proof.
  induction fuel as [|fuel IH]; intros st Hst; [done|]. cbn [DNL_loop].
  apply run_like_bind; [by apply run_like_weaken, steady_READ_next_token|].
  intros _ st1 _ Hl1. unfold bind, get.
  destruct (negb (streq (NTS st1) [to_char 10])).
  - apply IH. by eapply engine_ok_like.
  - apply like_refl.
Qed.

Lemma steady_DNL u : steady u DNL.
Proof.
  intros st Hst. unfold DNL, bind, get.
  pose proof (DNL_loop_like (S (pending st)) st Hst) as H.
  pose proof (DNL_loop_fuel (S (pending st)) st (Nat.lt_succ_diag_r _)) as Hf.
  by destruct (DNL_loop (S (pending st)) st).
Qed.

Lemma steady_EAT_WS u : steady u EAT_WS.
Proof.
  intros st Hst. unfold EAT_WS. unfold bind at 1. unfold get at 1.
  apply run_like_bind.
  - pose proof (EAT_WS_loop_like (S (pending st)) st Hst) as H.
    pose proof (EAT_WS_loop_fuel (S (pending st)) st (Nat.lt_succ_diag_r _))
      as Hf.
    by destruct (EAT_WS_loop (S (pending st)) st).
  - intros _ st1 _ Hl. unfold bind, get.
    apply steady_unget_input. by eapply engine_ok_like.
Qed.

Lemma steady_undefined {A} : steady True (@undefined A).
Proof. by intros st _. Qed.

Ltac steady_step :=
  lazymatch goal with
  | |- steady _ (ret _) => apply steady_ret
  | |- steady _ get => apply steady_get
  | |- steady _ QUIT => apply steady_QUIT
  | |- steady _ (EQUIT _) => apply steady_EQUIT
  | |- steady _ (EMSG _) => apply steady_EMSG
  | |- steady _ must_alloc => apply steady_must_alloc
  | |- steady _ (unget_input _) => apply steady_unget_input
  | |- steady _ (put_output _) => apply steady_put_output
  | |- steady _ DNL => apply steady_DNL
  | |- steady _ EAT_WS => apply steady_EAT_WS
  | |- steady _ UNDIVERT_ALL => apply steady_UNDIVERT_ALL
  | |- steady _ undefined => apply steady_undefined
  | |- steady _ (modify _) => apply steady_modify; intros ?; apply like_set_env
  | |- steady _ (for_each _ _) => apply steady_for_each; intros ? ?
  | |- steady _ (bind _ _) => apply steady_bind; [|intros ?]
  | |- steady _ (match _ with _ => _ end) => case_match
  end.
Ltac steady_tac := repeat steady_step.

Lemma steady_DIVNUM u : steady u DIVNUM.
Proof. unfold DIVNUM. steady_tac. Qed.

Lemma steady_bi_define u m : steady u (bi_define m).
Proof.
  intros st _. unfold bi_define.
  destruct (upsert_entry _ _ _ _) as [[r t] w].
  destruct (negb (r =? 0)); cbn; by apply like_fields.
Qed.

Lemma steady_bi_undefine u m : steady u (bi_undefine m).
Proof.
  intros st _. unfold bi_undefine.
  destruct (delete_entry _ _) as [r t].
  destruct (negb (r =? 0)); cbn; by apply like_fields.
Qed.

Lemma steady_bi_dumpdef u m : steady u (bi_dumpdef m).
Proof. unfold bi_dumpdef. steady_tac. Qed.

Lemma steady_bi_errprint u m : steady u (bi_errprint m).
Proof. unfold bi_errprint. steady_tac. Qed.

Lemma steady_bi_ifdef u m : steady u (bi_ifdef m).
Proof. unfold bi_ifdef. steady_tac. Qed.

Lemma steady_bi_ifelse u m : steady u (bi_ifelse m).
Proof. unfold bi_ifelse. steady_tac. Qed.

Lemma steady_bi_include m : steady True (bi_include m).
Proof.
  intros st _. unfold bi_include.
  destruct (include _ _ _) as [[[r b] w]|]; [|done].
  destruct (negb (r =? 0)); cbn; by apply like_fields.
Qed.

Lemma steady_bi_len u m : steady u (bi_len m).
Proof. unfold bi_len. steady_tac. Qed.

Lemma steady_bi_index u m : steady u (bi_index m).
Proof. unfold bi_index. steady_tac. Qed.

Lemma steady_bi_substr u m : steady u (bi_substr m).
Proof. unfold bi_substr. steady_tac. Qed.

Lemma steady_bi_incr u m : steady u (bi_incr m).
Proof. unfold bi_incr. steady_tac. Qed.

Lemma steady_bi_htdist u : steady u bi_htdist.
Proof. unfold bi_htdist. steady_tac. Qed.

Lemma steady_bi_dirsep u : steady u bi_dirsep.
Proof. unfold bi_dirsep. steady_tac. Qed.

Lemma steady_bi_translit m : steady True (bi_translit m).
Proof. unfold bi_translit. steady_tac. Qed.

Lemma one_digit_range x d : one_digit x = Some d -> 0 <= d <= 9.
Proof.
  unfold one_digit. destruct x as [|c [|]]; try done.
  rewrite isdigit_char_to_int.
  destruct ((48 <=? code c) && (code c <=? 57)) eqn:E; [|done].
  intros [= <-]. rewrite char_to_int_small; lia.
Qed.

Lemma steady_bi_undivert u m : steady u (bi_undivert m).
Proof.
  unfold bi_undivert. apply steady_bind; [apply steady_get|]. intros st0.
  destruct (act_div st0 =? 0); apply steady_for_each; intros k _;
    destruct (one_digit (ARG m k)) as [d|] eqn:Ed; try apply steady_ret;
    apply one_digit_range in Ed.
  - destruct (negb (d =? 0)); [|apply steady_ret].
    apply steady_OUT_DIV. lia.
  - destruct (negb (d =? 0) && negb (d =? act_div st0)); [|apply steady_ret].
    intros st (Hl & Ha & _).
    destruct (DIV_in_range st (act_div st) Hl Ha) as [dst ->].
    destruct (DIV_in_range st d Hl) as [src ->]; [lia|].
    destruct (buf_dump_buf dst src (env st)) as [[[r dst'] src'] w].
    assert (like st (set_env w (set_DIV d src' (set_DIV (act_div st) dst' st)))).
    { apply like_fields; try done. cbn. by rewrite !length_insert. }
    by destruct (negb (r =? 0)).
Qed.

Lemma steady_arith_loop u ks m invalid (step : Z -> Z -> M Z) :
  (forall w n, steady u (step w n)) ->
  forall w, steady u (arith_loop ks m invalid step w).
Proof.
  intros Hstep. induction ks as [|k ks IH]; intros w; cbn [arith_loop].
  { apply steady_ret. }
  destruct (negb (streq (ARG m k) [])); [|apply IH].
  destruct (str_to_num (ARG m k)); [|apply steady_EQUIT].
  apply steady_bind; [apply Hstep|]. intros w'. apply IH.
Qed.

Lemma steady_bi_add u m : steady u (bi_add m).
Proof.
  unfold bi_add. apply steady_bind; [|intros; apply steady_unget_input].
  apply steady_arith_loop. intros w n. steady_tac.
Qed.

Lemma steady_bi_mult u m : steady u (bi_mult m).
Proof.
  unfold bi_mult. apply steady_bind; [|intros; apply steady_unget_input].
  apply steady_arith_loop. intros w n. steady_tac.
Qed.

Lemma steady_arith_from_arg1 u m unused invalid (step : Z -> Z -> M Z) :
  (forall w n, steady u (step w n)) ->
  steady u (arith_from_arg1 m unused invalid step).
Proof.
  intros Hstep. unfold arith_from_arg1.
  destruct (streq (ARG m 1) []); [apply steady_EQUIT|].
  destruct (str_to_num (ARG m 1)); [|apply steady_EQUIT].
  apply steady_bind; [|intros; apply steady_unget_input].
  by apply steady_arith_loop.
Qed.

Lemma steady_bi_sub u m : steady u (bi_sub m).
Proof. apply steady_arith_from_arg1. intros w n. steady_tac. Qed.

Lemma steady_bi_div u m : steady u (bi_div m).
Proof. apply steady_arith_from_arg1. intros w n. steady_tac. Qed.

Lemma steady_bi_mod u m : steady u (bi_mod m).
Proof. apply steady_arith_from_arg1. intros w n. steady_tac. Qed.

Lemma run_like_ok {A} (u t : Prop) st (o : outcome A) :
  engine_ok st -> run_like u t st o -> run_ok u t o engine_ok.
Proof. intros Hst. destruct o; cbn; try done; by apply engine_ok_like. Qed.

Lemma steady_ok {A} (u : Prop) (c : M A) st :
  steady u c -> engine_ok st -> run_ok u False (c st) engine_ok.
Proof. intros Hc Hst. apply (run_like_ok u False st); [done|by apply Hc]. Qed.

Lemma run_ok_bind {A B} (u t : Prop) (c : M A) (k : A -> M B) st
    (R Q : m4 -> Prop) :
  run_ok u t (c st) R -> (forall st', R st' -> Q st') ->
  (forall x st', c st = Ret x st' -> R st' -> run_ok u t (k x st') Q) ->
  run_ok u t (bind c k st) Q.
Proof.
  unfold bind. destruct (c st) as [x st'| | | |]; cbn; try done.
  - intros H1 _ H2. by apply H2.
  - intros H1 H2 _. by apply H2.
Qed.

Ltac by_steady lem :=
  match goal with
  | |- run_ok _ _ (?c ?st) _ =>
      apply (steady_ok _ c st); [apply lem|assumption]
  end.

(** A change of the active diversion, followed by [SET_OUTPUT]. *)
Lemma set_act_div_ok u d st :
  engine_ok st -> 0 <= d <= 10 ->
  run_ok u False ((modify (set_act_div d) ;;; SET_OUTPUT) st) engine_ok.
Proof.
  intros (Hl & Ha & Hs & Ho & Hq) Hd. cbn.
  unfold engine_ok, sink_ok. cbn. by destruct (stack st).
Qed.

Lemma bi_divert_ok u m st :
  engine_ok st -> run_ok u False (bi_divert m st) engine_ok.
Proof.
  intros Hst. unfold bi_divert.
  destruct (one_digit (ARG m 1)) as [d|] eqn:Ed.
  - apply one_digit_range in Ed. apply set_act_div_ok; [done|lia].
  - destruct (streq (ARG m 1) (lit "-1")).
    + apply set_act_div_ok; [done|lia].
    + by_steady @steady_EQUIT.
Qed.

Lemma isgraph_char_to_int c : isgraph (char_to_int c) = isgraph (code c).
Proof. apply class_char_to_int. unfold isgraph. lia. Qed.

Lemma bi_changequote_ok u m st :
  engine_ok st -> run_ok u False (bi_changequote m st) engine_ok.
Proof.
  intros Hst. unfold bi_changequote.
  destruct (ARG m 1) as [|l [|]]; try by_steady @steady_EQUIT.
  destruct (ARG m 2) as [|r [|]]; try by_steady @steady_EQUIT.
  match goal with |- context [if ?b then _ else _] => destruct b eqn:E end;
    [by_steady @steady_EQUIT|].
  rewrite !orb_false_iff, !negb_false_iff, !bool_decide_eq_false in E.
  rewrite !isgraph_char_to_int in E.
  destruct E as ((((((((E1 & E2) & E3) & E4) & E5) & E6) & E7) & E8) & E9).
  destruct Hst as (Hl & Ha & Hs & Ho & Hq). cbn.
  unfold engine_ok, sink_ok, quotes_ok. cbn.
  repeat (split; [done|]). split.
  - intros H. change (lit "(),") with ["("%char; ")"%char; ","%char] in H.
    rewrite !elem_of_cons, elem_of_nil in H. tauto.
  - intros H. change (lit "(),") with ["("%char; ")"%char; ","%char] in H.
    rewrite !elem_of_cons, elem_of_nil in H. tauto.
Qed.

(** The built-in macros keep the shape of the engine. *)
Lemma PROCESS_BI_WITH_ARGS_ok m st :
  engine_ok st ->
  run_ok True False (PROCESS_BI_WITH_ARGS m st) engine_ok.
Proof.
  intros Hst. unfold PROCESS_BI_WITH_ARGS. cbn zeta.
  repeat (match goal with
          | |- context [if streq (mc_name m) ?x then _ else _] =>
              destruct (streq (mc_name m) x) eqn:?
          end;
          [first [ by apply bi_divert_ok | by apply bi_changequote_ok
                 | by_steady steady_bi_define | by_steady steady_bi_undefine
                 | by_steady steady_bi_dumpdef | by_steady steady_bi_errprint
                 | by_steady steady_bi_ifdef | by_steady steady_bi_ifelse
                 | by_steady steady_bi_include | by_steady steady_bi_len
                 | by_steady steady_bi_index | by_steady steady_bi_substr
                 | by_steady steady_bi_undivert | by_steady steady_DNL
                 | by_steady steady_DIVNUM | by_steady steady_bi_incr
                 | by_steady steady_bi_htdist | by_steady steady_bi_dirsep
                 | by_steady steady_bi_add | by_steady steady_bi_mult
                 | by_steady steady_bi_sub | by_steady steady_bi_div
                 | by_steady steady_bi_mod
                 | idtac ]|]).
  - by_steady steady_bi_translit.
  - done.
Qed.

Lemma PROCESS_BI_NO_ARGS_ok u st :
  engine_ok st -> run_ok u False (PROCESS_BI_NO_ARGS st) engine_ok.
Proof.
  intros Hst. unfold PROCESS_BI_NO_ARGS, bind at 1, get at 1.
  destruct (streq (TS st) (lit "dnl")); [by_steady steady_DNL|].
  destruct (streq (TS st) (lit "divnum")); [by_steady steady_DIVNUM|].
  destruct (streq (TS st) (lit "undivert")).
  { destruct (negb (act_div st =? 0));
      [by_steady @steady_EQUIT|by_steady steady_UNDIVERT_ALL]. }
  destruct (streq (TS st) (lit "divert")); [by apply set_act_div_ok|].
  destruct (streq (TS st) (lit "htdist")); [by_steady steady_bi_htdist|].
  destruct (streq (TS st) (lit "dirsep")); [by_steady steady_bi_dirsep|].
  by_steady steady_put_output.
Qed.

Lemma bind_ret_eq {A B} (c : M A) (k : A -> M B) st x st' :
  c st = Ret x st' -> bind c k st = k x st'.
Proof. unfold bind. by intros ->. Qed.

Lemma bind_quit_eq {A B} (c : M A) (k : A -> M B) st st' :
  c st = Quit st' -> bind c k st = Quit st'.
Proof. unfold bind. by intros ->. Qed.

Lemma on_head_eq f m stk st :
  stack st = m :: stk -> on_head f st = Ret tt (set_stack (f m :: stk) st).
Proof. unfold on_head. by intros ->. Qed.

Lemma head_mcall_eq m stk st : stack st = m :: stk -> head_mcall st = Ret m st.
Proof. unfold head_mcall. by intros ->. Qed.

Lemma must_alloc_cases st :
  (exists w, must_alloc st = Ret tt (set_env w st))
  \/ (exists st', must_alloc st = Quit st').
Proof.
  unfold must_alloc. destruct (alloc (env st)) as [[] w]; [left|right];
    by eexists.
Qed.

Lemma engine_ok_fields st st' :
  engine_ok st ->
  length (diversion st') = length (diversion st) ->
  act_div st' = act_div st ->
  left_quote st' = left_quote st -> right_quote st' = right_quote st ->
  Forall args_ok (stack st') -> sink_ok st' -> engine_ok st'.
Proof.
  intros (A1 & A2 & A3 & A4 & A5) B1 B2 B3 B4 B5 B6. unfold engine_ok.
  by rewrite B1, B2, B3, B4.
Qed.

Lemma args_ok_same_args m m' :
  arg_buf m' = arg_buf m -> act_arg m' = act_arg m -> args_ok m -> args_ok m'.
Proof.
  unfold args_ok, arg_slot. intros -> ->. done.
Qed.

Lemma init_buf_cases w :
  (exists w', init_buf w = (Some {| b_a := []; b_s := INIT_BUF_SIZE |}, w'))
  \/ (exists w', init_buf w = (None, w')).
Proof.
  unfold init_buf. destruct (alloc w) as [[] w1]; cbn [negb];
    [|right; by eexists].
  destruct (alloc w1) as [[] w2]; cbn [negb]; [left|right]; by eexists.
Qed.

Lemma slot_of_fresh_call (b : buf) n :
  is_Some (mjoin ([None; Some b; None; None; None; None; None; None; None;
                   None] !! Z.to_nat n))
  <-> n = 1 \/ (n <= 0 /\ False).
Proof.
  destruct (Z.to_nat n) as [|[|k]] eqn:E; cbn.
  - split; [by intros [? ?]|]. intros [->|[_ []]]. done.
  - split; [intros _; left; lia|by eexists].
  - split; [|intros [->|[_ []]]; done].
    do 8 (destruct k as [|k]; [by intros [? ?]|]). by intros [? ?].
Qed.

Lemma init_mcall_args_ok w t w' : init_mcall w = (Some t, w') -> args_ok t.
Proof.
  unfold init_mcall. destruct (alloc w) as [[] w1]; cbn [negb]; [|done].
  destruct (init_buf w1) as [[b|] w2]; [|done]. intros [= <- <-].
  unfold args_ok, arg_slot. cbn [arg_buf act_arg].
  split; [done|]. split; [lia|]. intros n.
  destruct (Z.ltb_spec n 0); [split; [by intros [? ?]|lia]|].
  rewrite slot_of_fresh_call. lia.
Qed.

(** The start of a call, or a call without arguments. *)
Lemma macro_token_ok u e st :
  engine_ok st -> run_ok u False (macro_token e st) engine_ok.
Proof.
  intros Hst. unfold macro_token.
  apply (run_ok_bind _ _ _ _ _ engine_ok);
    [by_steady steady_READ_next_token|done|].
  intros _ st1 _ Hst1. unfold bind at 1, get at 1.
  destruct (streq (NTS st1) (lit "(")).
  - (* Start of macro with arguments *)
    unfold bind at 1. unfold stack_on_mcall.
    destruct (init_mcall (env st1)) as [[t|] w] eqn:Ei; cbn [Z.eqb negb];
      [|done].
    apply init_mcall_args_ok in Ei.
    set (st2 := set_env w (set_stack (t :: stack st1) st1)).
    destruct (must_alloc_cases st2) as [[w3 H3]|[? H3]];
      [rewrite (bind_ret_eq _ _ _ _ _ H3); cbv beta
      |by rewrite (bind_quit_eq _ _ _ _ H3)].
    set (st3 := set_env w3 st2).
    assert (exists w4,
              match e_def e with Some _ => must_alloc | None => ret tt end st3
              = Ret tt (set_env w4 st3)
              \/ exists st', match e_def e with
                             | Some _ => must_alloc
                             | None => ret tt
                             end st3 = Quit st') as (w4 & [H4|[? H4]]).
    { destruct (e_def e).
      - destruct (must_alloc_cases st3) as [[w4 H4]|[st' H4]];
          [exists w4; by left|exists w3; right; by exists st'].
      - exists w3. left. by destruct st1. }
    2: by rewrite (bind_quit_eq _ _ _ _ H4).
    rewrite (bind_ret_eq _ _ _ _ _ H4). cbv beta.
    erewrite (bind_ret_eq (on_head _)) by (apply on_head_eq; reflexivity).
    cbv beta.
    erewrite (bind_ret_eq (on_head _)) by (apply on_head_eq; reflexivity).
    cbv beta. unfold bind at 1. cbn [SET_OUTPUT modify].
    match goal with |- run_ok _ _ (EAT_WS ?s) _ => set (st5 := s) end.
    assert (engine_ok st5); [|by_steady steady_EAT_WS].
    apply (engine_ok_fields st1); try done.
    cbn. constructor; [|by destruct Hst1 as (_ & _ & ? & _)].
    by apply (args_ok_same_args t).
  - (* Macro call without arguments *)
    apply (run_ok_bind _ _ _ _ _ engine_ok);
      [by_steady steady_unget_input|done|].
    intros _ st2 _ Hst2. destruct (e_def e) as [d|].
    + unfold bind.
      destruct (strip_def d (env st2)) as [[sd|] w]; [|done].
      assert (engine_ok (set_env w st2))
        by (by apply (engine_ok_like st2), like_set_env).
      by_steady steady_unget_input.
    + by apply PROCESS_BI_NO_ARGS_ok.
Qed.

Lemma REMOVE_SH_ok t st :
  engine_ok st -> run_ok True t (REMOVE_SH st) engine_ok.
Proof.
  intros Hst. unfold REMOVE_SH, bind, delete_stack_head.
  destruct (stack st) as [|m stk] eqn:Es.
  - cbn. apply (engine_ok_fields st); try done; cbn.
  - destruct (free_mcall m) as [[]|]; [|done]. cbn.
    apply (engine_ok_fields st); try done; cbn.
    all: try (unfold sink_ok; cbn; by destruct stk).
    destruct Hst as (_ & _ & Hs & _). rewrite Es in Hs.
    by apply Forall_cons in Hs as [_ ?].
Qed.

Lemma frame_like_bracket d m : frame_like m (set_bracket_depth d m).
Proof. unfold frame_like. by repeat (split; [done|]). Qed.

Lemma like_head st m m' stk :
  stack st = m :: stk -> frame_like m m' ->
  like st (set_stack (m' :: stk) st).
Proof.
  intros Hs Hm. unfold like. cbn. repeat (split; [done|]). rewrite Hs.
  constructor; [done|apply frames_like_refl].
Qed.

Lemma on_head_bracket_ok u t (d : mcall -> Z) st :
  engine_ok st -> stack st <> [] ->
  run_ok u t (on_head (fun m => set_bracket_depth (d m) m) st) engine_ok.
Proof.
  intros Hst Hne. destruct (stack st) as [|m stk] eqn:Es; [done|].
  rewrite (on_head_eq _ m stk st Es). cbn.
  apply (engine_ok_like st); [done|].
  apply (like_head st m _ stk); [done|apply frame_like_bracket].
Qed.

Lemma terminate_args_like m w r m' w' :
  args_ok m -> terminate_args m w = Some (r, m', w') -> frame_like m m'.
Proof.
  intros (Hl & Ha & Hp) H. rewrite terminate_args_unfold in H.
  assert (11 - 1 <= Z.of_nat 10) as Hfuel by (by vm_compute).
  pose proof (terminate_args_loop_spec 10 1 m w (act_arg m)
                ltac:(lia) Hfuel Hl ltac:(lia)) as Hspec.
  rewrite H in Hspec.
  destruct Hspec as (H1 & H2 & H3 & H4 & H5 & H6 & _);
    [intros n Hn; rewrite Hp; lia|].
  unfold frame_like. rewrite H5, Hl. by repeat (split; [done|]).
Qed.

(** The end of a call: the built-in is run or the expansion is pushed
    back, and the call is taken off the stack. *)
Lemma arg_end_ok st :
  engine_ok st -> stack st <> [] ->
  run_ok True False (arg_end st) engine_ok.
Proof.
  intros Hst Hne. destruct (stack st) as [|m stk] eqn:Es; [done|].
  unfold arg_end.
  apply (run_ok_bind _ _ _ _ _ engine_ok); [|done|intros; by apply REMOVE_SH_ok].
  unfold arg_end_call.
  rewrite (bind_ret_eq _ _ _ _ _ (on_head_eq _ m stk st Es)).
  set (m1 := set_bracket_depth _ m).
  set (st1 := set_stack (m1 :: stk) st).
  assert (engine_ok st1) as Hst1.
  { apply (engine_ok_like st); [done|].
    apply (like_head st m _ stk); [done|apply frame_like_bracket]. }
  rewrite (bind_ret_eq _ _ _ _ _ (head_mcall_eq m1 stk st1 eq_refl)).
  assert (args_ok m1) as Hm1.
  { destruct Hst1 as (_ & _ & Hs & _). by apply Forall_cons in Hs as [? _]. }
  change (mc_def m1) with (mc_def m). destruct (mc_def m) as [d|] eqn:Ed.
  - (* User defined macro *)
    apply (run_ok_bind _ _ _ _ _ engine_ok);
      [by_steady steady_on_result|done|].
    intros _ st2 _ Hst2. unfold bind, get. by_steady steady_unget_input.
  - (* Built-in macro *)
    unfold bind at 1.
    destruct (terminate_args m1 (env st1)) as [[[r m2] w]|] eqn:Et; [|done].
    pose proof (terminate_args_like _ _ _ _ _ Hm1 Et) as Hm2.
    set (st2 := set_env w (set_stack (m2 :: tail (stack st1)) st1)).
    destruct (negb (r =? 0)); [done|].
    assert (engine_ok st2) as Hst2.
    { apply (engine_ok_like st1); [done|].
      apply (like_trans _ (set_stack (m2 :: stk) st1));
        [by apply (like_head st1 m1 _ stk)|by apply like_fields]. }
    rewrite (bind_ret_eq _ _ _ _ _ (head_mcall_eq m2 stk st2 eq_refl)).
    by apply PROCESS_BI_WITH_ARGS_ok.
Qed.

(** An argument comma: the next argument buffer is set up. *)
Lemma arg_comma_ok u st :
  engine_ok st -> stack st <> [] ->
  run_ok u False (arg_comma st) engine_ok.
Proof.
  intros Hst Hne. destruct (stack st) as [|m stk] eqn:Es; [done|].
  unfold arg_comma.
  rewrite (bind_ret_eq _ _ _ _ _ (head_mcall_eq m stk st Es)).
  destruct (Z.eqb_spec (act_arg m) 9) as [|H9]; [done|].
  rewrite (bind_ret_eq _ _ _ _ _ (on_head_eq _ m stk st Es)).
  set (st1 := set_stack _ st).
  unfold bind at 1.
  destruct (init_buf_cases (env st1)) as [[w ->]|[w ->]]; [|done].
  rewrite (on_head_eq _ (set_act_arg (act_arg m + 1) m) stk
             (set_env w st1) eq_refl).
  unfold bind at 1. cbn [SET_OUTPUT modify].
  match goal with |- run_ok _ _ (EAT_WS ?s) _ => set (st3 := s) end.
  assert (engine_ok st3); [|by_steady steady_EAT_WS].
  pose proof Hst as (A1 & A2 & A3 & A4 & A5). rewrite Es in A3.
  apply Forall_cons in A3 as [(Hl & Ha & Hp) A3].
  apply (engine_ok_fields st); try done. cbn.
  constructor; [|done]. unfold args_ok, set_arg_buf, set_act_arg.
  cbn [arg_buf act_arg]. rewrite length_insert.
  split; [done|]. split; [lia|]. intros n.
  pose proof (arg_slot_insert m (act_arg m + 1)
                {| b_a := []; b_s := INIT_BUF_SIZE |} n) as Hins.
  unfold arg_slot in *. cbn [arg_buf] in *. rewrite Hins by lia.
  case_bool_decide as E; [subst n; split; [lia|by eexists]|].
  rewrite Hp. lia.
Qed.

(** One round of the loop keeps the shape of the engine, and it is never
    out of fuel. *)
Lemma m4_round_ok st :
  engine_ok st -> run_ok True False (m4_round st) engine_ok.
Proof.
  intros Hst. unfold m4_round.
  apply (run_ok_bind _ _ _ _ _ (fun st' => engine_ok st' /\ like st st')).
  { pose proof (steady_OUT_DIV False 0 ltac:(lia) st Hst) as H.
    destruct (OUT_DIV 0 st); try done; cbn in *;
      (split; [by eapply engine_ok_like|done]). }
  { by intros ? [? _]. }
  intros _ st1 _ [Hst1 Hl1].
  apply (run_ok_bind _ _ _ _ _ (fun st' => engine_ok st' /\ like st st')).
  { pose proof (steady_READ_token False st1 Hst1) as H.
    destruct (READ_TOKEN token set_token st1); try done; cbn in *;
      (split; [by eapply engine_ok_like|by eapply like_trans]). }
  { by intros ? [? _]. }
  intros _ st2 _ [Hst2 Hl2]. unfold bind at 1, get at 1.
  assert (forall (c : M unit), steady False c ->
            run_ok True False (c st2) engine_ok) as Hsteady.
  { intros c Hc. apply (steady_ok _ c st2); [by apply steady_weaken|done]. }
  destruct (streq (TS st2) [left_quote st2]).
  { apply Hsteady. steady_tac; apply steady_modify; intros ?;
      by apply like_fields. }
  destruct (streq (TS st2) [right_quote st2]).
  { apply Hsteady. steady_tac; apply steady_modify; intros ?;
      by apply like_fields. }
  destruct (quote_on st2); [apply Hsteady, steady_put_output|].
  destruct (ISMACRO (ht st2) (TS st2)) as [e|]; [by apply macro_token_ok|].
  destruct (ARG_END st2) eqn:E1.
  { apply arg_end_ok; [done|].
    unfold ARG_END in E1; by destruct (stack st2). }
  destruct (ARG_COMMA st2) eqn:E2.
  { apply arg_comma_ok; [done|].
    unfold ARG_COMMA in E2; by destruct (stack st2). }
  assert (forall d,
            (NESTED_CB st2 = true \/ NESTED_OB st2 = true) ->
            run_ok True False
              ((put_output (TS st2) ;;;
                on_head (fun m => set_bracket_depth (d m) m)) st2)
              engine_ok) as Hnested.
  { intros d Hn.
    assert (stack st2 <> []) as Hne.
    { unfold NESTED_CB, NESTED_OB in Hn. destruct (stack st2); [|done].
      by destruct Hn. }
    apply (run_ok_bind _ _ _ _ _ (fun st' => engine_ok st' /\ stack st' <> [])).
    - pose proof (steady_put_output False (TS st2) st2 Hst2) as H.
      destruct (put_output (TS st2) st2) as [? st3| |st3| |]; try done;
        cbn in *; (split; [by eapply engine_ok_like|]);
        destruct H as (_ & _ & _ & _ & _ & H); destruct H; done.
    - by intros ? [? _].
    - intros _ st3 _ [Hst3 Hne3]. by apply on_head_bracket_ok. }
  destruct (NESTED_CB st2) eqn:E3; [apply Hnested; by left|].
  destruct (NESTED_OB st2) eqn:E4; [apply Hnested; by right|].
  apply Hsteady, steady_put_output.
Qed.

Lemma init_bufs_length n : forall w l w',
  init_bufs n w = (Some l, w') -> length l = n.
Proof.
  induction n as [|n IH]; intros w l w'; cbn [init_bufs].
  { by intros [= <- <-]. }
  destruct (init_buf w) as [[b|] w1]; [|done].
  destruct (init_bufs n w1) as [[l1|] w2] eqn:E; [|done].
  intros [= <- <-]. cbn. f_equal. by eapply IH.
Qed.

Lemma quotes_ok_initial : quotes_ok "`"%char "'"%char.
Proof.
  unfold quotes_ok. split; [done|]. split; [done|]. split; [done|].
  split; intros H; change (lit "(),") with ["("%char; ")"%char; ","%char] in H;
    rewrite !elem_of_cons, elem_of_nil in H;
    by destruct H as [H|[H|[H|H]]].
Qed.

Lemma m4_init_ok args w st : m4_init args w = Some (inl st) -> engine_ok st.
Proof.
  unfold m4_init. intros H.
  repeat (case_match; simplify_eq);
    match goal with
    | H : init_bufs 11 _ = (Some ?d, _) |- _ => apply init_bufs_length in H
    end;
    unfold engine_ok, sink_ok; cbn;
    (split; [done|]); (split; [done|]); (split; [constructor|]);
    (split; [done|apply quotes_ok_initial]).
Qed.

(** X14.  The shape of the engine is an invariant of the loop of [main]:
    it holds when the loop is entered, and a round that starts in it and
    falls through to the next round or jumps to [end_of_input] ends in it,
    with the quotes still two different graph characters.  A round never
    runs out of fuel.  Nothing is said of a round that C gives no meaning
    to. *)
Theorem engine_shape_is_kept :
  (forall args w st, m4_init args w = Some (inl st) -> engine_ok st)
  /\ (forall st,
        engine_ok st ->
        match m4_round st with
        | Ret _ st' | EndOfInput st' => engine_ok st'
        | Quit _ | Undefined => True
        | Timeout => False
        end).
Proof.
  split; [apply m4_init_ok|]. intros st Hst.
  pose proof (m4_round_ok st Hst) as H. by destruct (m4_round st).
Qed.

Lemma OUT_DIV_ret n st st' :
  OUT_DIV n st = Ret tt st' -> 0 <= n ->
  stack st' = stack st /\ quote_on st' = quote_on st
  /\ exists d, diversion st !! Z.to_nat n = Some d
               /\ diversion st' = <[Z.to_nat n := delete_buf d]> (diversion st).
Proof.
  unfold OUT_DIV, DIV. intros H Hn. destruct (Z.ltb_spec n 0); [lia|].
  destruct (diversion st !! Z.to_nat n) as [d|] eqn:Ed; [|done].
  destruct (negb (b_i d =? 0)).
  - destruct (fwrite (b_a d) (env st)) as [c w].
    destruct (negb (c =? b_i d)); [done|]. injection H as <-. cbn.
    split; [done|]. split; [done|]. by exists d.
  - injection H as <-. cbn. split; [done|]. split; [done|]. by exists d.
Qed.

Lemma for_each_OUT_DIV_ends l : forall st,
  match for_each l OUT_DIV st with
  | EndOfInput _ | Timeout => False
  | _ => True
  end.
Proof.
  induction l as [|n l IH]; intros st; cbn [for_each]; [done|].
  unfold bind. destruct (OUT_DIV n st) as [[] st1| | | |] eqn:E; try done;
    [apply IH|..]; unfold OUT_DIV in E; repeat case_match; simplify_eq.
Qed.

Lemma for_each_OUT_DIV l : forall st st',
  Forall (fun n => 0 <= n) l ->
  for_each l OUT_DIV st = Ret tt st' ->
  stack st' = stack st /\ quote_on st' = quote_on st
  /\ (forall n, n ∈ l -> emptied (diversion st') (Z.to_nat n))
  /\ (forall i, emptied (diversion st) i -> emptied (diversion st') i).
Proof.
  induction l as [|n l IH]; intros st st' Hl; cbn [for_each].
  { intros [= <-]. split; [done|]. split; [done|].
    split; [by intros n ?%elem_of_nil|done]. }
  apply Forall_cons in Hl as [Hn Hl]. unfold bind.
  destruct (OUT_DIV n st) as [[] st1| | | |] eqn:E1; try done.
  apply OUT_DIV_ret in E1 as (A1 & A2 & d & A3 & A4); [|done].
  intros H. apply IH in H as (B1 & B2 & B3 & B4); [|done].
  split; [congruence|]. split; [congruence|].
  assert (forall i, emptied (diversion st) i -> emptied (diversion st1) i)
    as Hkeep.
  { intros i (d' & Hd' & He). rewrite A4. unfold emptied.
    destruct (decide (i = Z.to_nat n)) as [->|Hne].
    - rewrite list_lookup_insert_eq by (by eapply lookup_lt_Some).
      by eexists.
    - rewrite list_lookup_insert_ne by done. by eexists. }
  split; [|by intros i Hi; apply B4, Hkeep].
  intros k [->|Hk]%elem_of_cons; [|by apply B3].
  apply B4. rewrite A4. unfold emptied.
  rewrite list_lookup_insert_eq by (by eapply lookup_lt_Some). by eexists.
Qed.

Lemma m4_loop_ok fuel : forall st,
  engine_ok st ->
  match m4_loop fuel st with
  | Ret _ _ => False
  | EndOfInput st' => engine_ok st'
  | Quit _ | Timeout | Undefined => True
  end.
Proof.
  induction fuel as [|fuel IH]; intros st Hst; cbn [m4_loop]; [done|].
  unfold bind. pose proof (m4_round_ok st Hst) as H.
  destruct (m4_round st) as [[] st1| | | |]; cbn in H; try done.
  by apply IH.
Qed.

(** X15.  From a state of the shape of the engine, whenever the loop,
    [end_of_input] and [clean_up] return, the exit status is 0 or 1.  The
    status is 0 only when the input ended outside every call and outside
    quotes, and then each of the diversions 0 to 9 is empty: what they held
    was written.  So the exit status that [main] returns is 0 or 1. *)
Theorem exit_status_zero_is_clean :
  (forall fuel st,
     engine_ok st ->
     match m4_run fuel st with
     | Ret r st' =>
         (r = 0 \/ r = 1)
         /\ (r = 0 ->
             stack st' = [] /\ quote_on st' = false
             /\ forall n, 0 <= n <= 9 ->
                  emptied (diversion st') (Z.to_nat n))
     | Quit _ | EndOfInput _ => False
     | Undefined | Timeout => True
     end)
  /\ (forall fuel args w r w',
        main fuel args w = Some (r, w') -> r = 0 \/ r = 1).
Proof.
  assert (forall fuel st,
     engine_ok st ->
     match m4_run fuel st with
     | Ret r st' =>
         (r = 0 \/ r = 1)
         /\ (r = 0 ->
             stack st' = [] /\ quote_on st' = false
             /\ forall n, 0 <= n <= 9 ->
                  emptied (diversion st') (Z.to_nat n))
     | Quit _ | EndOfInput _ => False
     | Undefined | Timeout => True
     end) as Hrun.
  { intros fuel st Hst. unfold m4_run.
    pose proof (m4_loop_ok fuel st Hst) as H.
    assert (forall st0,
              match clean_up 1 st0 with
              | Ret r st' =>
                  (r = 0 \/ r = 1)
                  /\ (r = 0 ->
                      stack st' = [] /\ quote_on st' = false
                      /\ forall n, 0 <= n <= 9 ->
                           emptied (diversion st') (Z.to_nat n))
              | Quit _ | EndOfInput _ => False
              | Undefined | Timeout => True
              end) as Hq.
    { intros st0. unfold clean_up. destruct (free_stack (stack st0)); [|done].
      split; [by right|done]. }
    destruct (m4_loop fuel st) as [|st1|st1| |]; try done.
    { apply Hq. }
    unfold end_of_input, bind at 1, get at 1.
    destruct (bool_decide (stack st1 = [])) eqn:Es; cbn [negb];
      [|unfold EQUIT, EMSG, bind, modify, QUIT; apply Hq].
    apply bool_decide_eq_true in Es.
    destruct (quote_on st1) eqn:Eq;
      [unfold EQUIT, EMSG, bind, modify, QUIT; apply Hq|].
    unfold bind.
    pose proof (steady_UNDIVERT_ALL False st1 H) as Hu.
    pose proof (for_each_OUT_DIV_ends (seqZ 0 10) st1) as Hends.
    fold UNDIVERT_ALL in Hends.
    destruct (UNDIVERT_ALL st1) as [[] st2|st2| | |] eqn:E2; try done;
      [|apply Hq].
    cbn [ret].
    apply for_each_OUT_DIV in E2 as (B1 & B2 & B3 & _).
    - unfold clean_up. rewrite B1, Es. cbn [free_stack].
      split; [by left|]. intros _.
      split; [congruence|]. split; [congruence|].
      intros n Hn. apply B3, elem_of_seqZ. lia.
    - apply Forall_forall. intros n Hn%elem_of_seqZ. lia. }
  split; [exact Hrun|].
  intros fuel args w r w'. unfold main.
  destruct (m4_init args w) as [[st|w1]|] eqn:Ei; [| |done].
  - apply m4_init_ok in Ei. specialize (Hrun fuel st Ei).
    destruct (m4_run fuel st); try done. intros [= <- <-]. tauto.
  - intros [= <- <-]. by right.
Qed.

End Engine_extras.

Lemma engine_shape_is_kept_witness :
  engine_ok (top_state (lit "len(abc)") builtin_table)
  /\ match @m4_round unsigned_char (top_state (lit "len(abc)") builtin_table)
     with
     | Ret _ st' | EndOfInput st' => engine_ok st'
     | Quit _ | Undefined => True
     | Timeout => False
     end.
Proof.
  destruct (@engine_shape_is_kept unsigned_char) as [H1 H2].
  assert (engine_ok (top_state (lit "len(abc)") builtin_table)) as H.
  { apply (H1 [] (world_of (lit "len(abc)"))). apply m4_init_stdin. }
  split; [exact H|]. apply H2, H.
Defined.

Lemma exit_status_zero_is_clean_witness :
  @main unsigned_char 100 [] (world_of (lit "len(abc)"))
  = Some (0, with_stdout (world_of []) (lit "3"))
  /\ (0 = 0 \/ 0 = 1).
Proof.
  assert (@main unsigned_char 100 [] (world_of (lit "len(abc)"))
          = Some (0, with_stdout (world_of []) (lit "3"))) as H
    by (vm_compute; reflexivity).
  split; [exact H|].
  destruct (@exit_status_zero_is_clean unsigned_char) as [_ H2].
  exact (H2 _ _ _ _ _ H).
Defined.

(** ** Quotes *)

Section Quote_extras.

Context {platform : Platform}.

Lemma wrap_small x : 0 <= x <= LIMIT -> wrap x = x.
Proof.
  intros H. unfold wrap. apply Z.mod_small. unfold LIMIT, SIZE_MAX in *. lia.
Qed.

(** A token is written to the emptied diversion 0. *)
Lemma put_output_first st tok d0 ds :
  output st = Diversion 0 -> diversion st = d0 :: ds ->
  b_a d0 = [] -> buf_ok d0 -> heap (env st) = [] -> no_nul tok ->
  Z.of_nat (length tok) <= LIMIT ->
  exists d1,
    put_output tok st = Ret tt (set_env (env st) (set_DIV 0 d1 st))
    /\ b_a d1 = tok /\ buf_ok d1.
Proof.
  intros Ho Hd Hb0 Hok Hh Hnn HL.
  destruct (put_str_ok d0 tok (env st)) as (d1 & HP & Hd1 & Hokd1);
    [done|done|rewrite (no_nul_cstr tok Hnn); unfold b_i; rewrite Hb0; cbn; lia|].
  exists d1. unfold put_output, DIV. rewrite Ho. simpl. rewrite Hd. simpl.
  rewrite HP. simpl. by rewrite Hd1, Hb0, (no_nul_cstr tok Hnn).
Qed.

Ltac flow_goal :=
  try done; cbn; try congruence; try lia;
  try (by apply buf_ok_delete);
  try (case_bool_decide; [lia|done]);
  try (match goal with H : diversion _ = _ |- _ => by rewrite H end).

(** One round on a token that is written or is a quote. *)
Lemma m4_round_quote macro d st tok rest d' w :
  flowing d st ->
  first_token (to_read_of st) = Some (tok, rest) ->
  no_eof (to_read_of st) -> no_nul tok ->
  (macro tok = false -> ISMACRO (ht st) tok = None) ->
  quote_step macro (left_quote st) (right_quote st) d tok = Some (d', w) ->
  exists st' d0 d1,
    m4_round st = Ret tt st'
    /\ flowing d' st'
    /\ to_read_of st' = rest
    /\ ht st' = ht st /\ left_quote st' = left_quote st
    /\ right_quote st' = right_quote st
    /\ diversion st !! 0%nat = Some d0
    /\ diversion st' = <[0%nat := d1]> (diversion st)
    /\ b_a d1 = w
    /\ stdout (env st') = stdout (env st) ++ b_a d0.
Proof.
  intros (Hstk & Hq & Hqd & Had & Hout & Hlen & Hd0ok & Htk & Hin & Hh & Hd
          & Herr & HL) Hf He Hnn Hm Hstep.
  destruct (diversion st) as [|d0 ds] eqn:Ediv; [done|].
  specialize (Hd0ok d0 eq_refl).
  destruct (OUT_DIV_ok 0 d0 st) as (st1 & HO & H1 & H2 & H3 & H4);
    [by rewrite Ediv|done|].
  change (Z.of_nat 0) with 0 in HO. rewrite Ediv in H2. cbn in H2.
  destruct H4 as (Ein & Etok & Ent & Eres & Eht & Eqo & Eqd & Ead & Eout
                  & Elq & Erq & Estk & Ers & Eheap & Estdin & Eerrno
                  & Estderr & Efiles).
  assert (to_read (input st1) (read_stdin st1) (env st1) = to_read_of st)
    as Htr by (unfold to_read_of, to_read; by rewrite Ein, Ers, Estdin).
  destruct (getword_token (token st1) (input st1) (read_stdin st1) (env st1)
              tok rest)
    as (tk & inp & w1 & G & Htk' & Happ & Hr' & Hoktk & Hokin & Hw & Hpend & _).
  { by rewrite Htr. }
  { by rewrite Htr. }
  { by rewrite Eheap. }
  { by rewrite Etok. }
  { by rewrite Ein. }
  { unfold pending in HL. rewrite Ein, Estdin. lia. }
  destruct Hw as (Hwh & Hwe & Hwd & Hwo & Hwer & Hwf).
  set (st2 := set_env w1 (set_input inp (set_token tk st1))).
  assert (READ_TOKEN token set_token st1 = Ret tt st2) as HR.
  { unfold READ_TOKEN. by rewrite G. }
  assert (TS st2 = tok) as HTS.
  { unfold TS. cbn. rewrite Htk'. by apply cstr_app_nul. }
  assert (Z.of_nat (length tok) <= LIMIT) as Htl.
  { pose proof (to_read_length (input st) (read_stdin st) (env st)) as Hl.
    fold (to_read_of st) in Hl. rewrite <- Htr, Happ, length_app in Hl.
    unfold pending in HL. lia. }
  assert (forall s, output s = Diversion 0 ->
            diversion s = delete_buf d0 :: ds -> env s = w1 ->
            exists d1,
              put_output tok s = Ret tt (set_env w1 (set_DIV 0 d1 s))
              /\ b_a d1 = tok /\ buf_ok d1) as Hput.
  { intros s Hs1 Hs2 Hs3.
    destruct (put_output_first s tok (delete_buf d0) ds) as (d1 & P1 & P2 & P3);
      try done; [by apply buf_ok_delete|by rewrite Hs3, Hwh, Eheap|].
    exists d1. by rewrite <- Hs3. }
  assert (forall dq q s,
            diversion s = dq :: ds -> buf_ok dq -> env s = w1 ->
            stack s = [] -> act_div s = 0 -> output s = Diversion 0 ->
            token s = tk -> input s = inp -> read_stdin s = read_stdin st ->
            quote_on s = negb (bool_decide (q = 0%nat)) ->
            quote_depth s = Z.of_nat q -> (q <= S d)%nat ->
            flowing q s) as Hflow.
  { intros dq q s S1 S2 S3 S4 S5 S6 S7 S8 S9 S10 S11 S12.
    unfold flowing, pending. rewrite S1, S3, S7, S8, S9.
    repeat (split; [done|]). split; [by intros ? [= <-]|].
    split; [done|]. split; [done|].
    split; [by rewrite Hwh, Eheap|].
    split; [unfold disk_ok in *; by rewrite Hwd|].
    split; [by rewrite Hwe, Eerrno|].
    unfold pending in HL. rewrite Ein, Estdin in Hpend. lia. }
  assert (m4_round st
          = (let* s := get in
             if streq (TS s) [left_quote s] then
               modify (set_quote_on true) ;;;
               (if negb (quote_depth s =? 0) then put_output (TS s)
                else ret tt) ;;;
               modify (set_quote_depth (wrap (quote_depth s + 1)))
             else if streq (TS s) [right_quote s] then
               (if 1 <? quote_depth s then put_output (TS s) else ret tt) ;;;
               modify (set_quote_depth (wrap (quote_depth s - 1))) ;;;
               (if wrap (quote_depth s - 1) =? 0
                then modify (set_quote_on false) else ret tt)
             else if quote_on s then put_output (TS s)
             else
               match ISMACRO (ht s) (TS s) with
               | Some e => macro_token e
               | None =>
                   if ARG_END s then arg_end
                   else if ARG_COMMA s then arg_comma
                   else if NESTED_CB s then
                     put_output (TS s) ;;;
                     on_head (fun m => set_bracket_depth
                                         (wrap (bracket_depth m - 1)) m)
                   else if NESTED_OB s then
                     put_output (TS s) ;;;
                     on_head (fun m => set_bracket_depth
                                         (wrap (bracket_depth m + 1)) m)
                   else put_output (TS s)
               end) st2) as ->.
  { unfold m4_round. unfold bind at 1. rewrite HO. unfold bind at 1.
    by rewrite HR. }
  unfold bind at 1, get at 1. rewrite HTS.
  replace (left_quote st2) with (left_quote st) by done.
  replace (right_quote st2) with (right_quote st) by done.
  replace (quote_depth st2) with (Z.of_nat d) by (cbn; congruence).
  replace (quote_on st2) with (negb (bool_decide (d = 0%nat)))
    by (cbn; congruence).
  replace (ht st2) with (ht st) by done.
  unfold quote_step in Hstep. unfold streq.
  assert (stdout w1 = stdout (env st) ++ b_a d0) as Hstdout
    by (by rewrite Hwo, H1).
  destruct (bool_decide (tok = [left_quote st])) eqn:Elq'.
  { (* A left quote *)
    injection Hstep as <- <-.
    rewrite wrap_small by lia.
    unfold bind at 1. cbn [modify]. unfold bind at 1.
    destruct d as [|d].
    - cbn [Z.of_nat Z.eqb negb ret]. cbn [modify].
      eexists _, d0, (delete_buf d0). split; [reflexivity|].
      split.
      { apply (Hflow (delete_buf d0)); flow_goal. }
      cbn. rewrite H2. by repeat (split; [done|]).
    - destruct (Z.eqb_spec (Z.of_nat (S d)) 0) as [|_]; [lia|]. cbn [negb].
      destruct (Hput (set_quote_on true st2)) as (d1 & -> & Hd1 & Hokd1);
        try done; [cbn; congruence|].
      cbn [modify]. eexists _, d0, d1. split; [reflexivity|].
      split.
      { apply (Hflow d1); flow_goal. }
      cbn. rewrite H2. by repeat (split; [done|]). }
  destruct (bool_decide (tok = [right_quote st])) eqn:Erq'.
  { (* A right quote *)
    destruct d as [|d]; [done|]. injection Hstep as <- <-.
    replace (Z.of_nat (S d) - 1) with (Z.of_nat d) by lia.
    rewrite wrap_small by lia.
    unfold bind at 1.
    destruct d as [|d].
    - cbn [Z.of_nat Z.ltb Z.compare Pos.compare Pos.compare_cont ret].
      unfold bind at 1. cbn [modify]. cbn [Z.eqb].
      eexists _, d0, (delete_buf d0). split; [reflexivity|].
      split.
      { apply (Hflow (delete_buf d0)); flow_goal. }
      cbn. rewrite H2. by repeat (split; [done|]).
    - destruct (Z.ltb_spec 1 (Z.of_nat (S (S d)))) as [_|]; [|lia].
      destruct (Hput st2) as (d1 & -> & Hd1 & Hokd1);
        try done; [cbn; congruence|].
      unfold bind at 1. cbn [modify].
      destruct (Z.eqb_spec (Z.of_nat (S d)) 0) as [|_]; [lia|]. cbn [ret].
      eexists _, d0, d1. split; [reflexivity|].
      split.
      { apply (Hflow d1); flow_goal. rewrite Eqo, Hq. by repeat case_bool_decide. }
      cbn. rewrite H2. by repeat (split; [done|]). }
  assert (exists d1,
            put_output tok st2 = Ret tt (set_env w1 (set_DIV 0 d1 st2))
            /\ b_a d1 = tok /\ buf_ok d1) as (d1 & Hp1 & Hd1 & Hokd1).
  { apply Hput; try done. cbn; congruence. }
  assert (flowing d (set_env w1 (set_DIV 0 d1 st2)) /\ d' = d /\ w = tok
          /\ (d = 0%nat -> ISMACRO (ht st) tok = None))
    as (Hfl & -> & -> & Hnm).
  { split.
    { apply (Hflow d1); flow_goal. }
    destruct d as [|d].
    - destruct (macro tok) eqn:Em; [done|]. injection Hstep as <- <-.
      repeat (split; [done|]). intros _. by apply Hm.
    - injection Hstep as <- <-. by repeat (split; [done|]). }
  assert ((if negb (bool_decide (d = 0%nat)) then put_output tok
           else
             match ISMACRO (ht st) tok with
             | Some e => macro_token e
             | None =>
                 if ARG_END st2 then arg_end
                 else if ARG_COMMA st2 then arg_comma
                 else if NESTED_CB st2 then
                   put_output tok ;;;
                   on_head (fun m => set_bracket_depth
                                       (wrap (bracket_depth m - 1)) m)
                 else if NESTED_OB st2 then
                   put_output tok ;;;
                   on_head (fun m => set_bracket_depth
                                       (wrap (bracket_depth m + 1)) m)
                 else put_output tok
             end) st2 = put_output tok st2) as ->.
  { destruct (decide (d = 0%nat)) as [E0|E0];
      [rewrite (bool_decide_eq_true_2 _ E0)
      |by rewrite (bool_decide_eq_false_2 _ E0)].
    cbn [negb]. rewrite (Hnm E0).
    unfold ARG_END, ARG_COMMA, NESTED_CB, NESTED_OB.
    by replace (stack st2) with (@nil mcall) by (cbn; congruence). }
  rewrite Hp1. eexists _, d0, d1. split; [reflexivity|].
  split; [done|]. cbn. rewrite H2. by repeat (split; [done|]).
Qed.

(** The loop over tokens that are written or are quotes. *)
Lemma m4_loop_quote macro toks : forall st d out,
  tokenized (to_read_of st) toks ->
  flowing d st -> no_eof (to_read_of st) -> no_nul (to_read_of st) ->
  (forall t, t ∈ toks -> macro t = false -> ISMACRO (ht st) t = None) ->
  unquoted macro (left_quote st) (right_quote st) d toks = Some out ->
  exists st' d0 d1,
    m4_loop (S (length toks)) st = EndOfInput st'
    /\ diversion st !! 0%nat = Some d0
    /\ diversion st' = <[0%nat := d1]> (diversion st)
    /\ stdout (env st') ++ b_a d1 = stdout (env st) ++ b_a d0 ++ out
    /\ stack st' = [] /\ quote_on st' = false /\ disk_ok (env st').
Proof.
  induction toks as [|tok toks IH]; intros st d out Htok Hp He Hnn Hm Hu.
  - inversion Htok as [Hx|]; subst. cbn [unquoted] in Hu.
    destruct d as [|d]; [|done]. injection Hu as <-.
    pose proof Hp as
      (Hstk & Hq & Hqd & Had & Hout & Hlen & Hd0ok & Htk & Hin & Hh & Hd
       & Herr & HL).
    destruct (diversion st) as [|d0 ds] eqn:Ediv; [done|].
    destruct (m4_round_eof st d0) as (st' & HR & _ & H); try done.
    { by rewrite <- Hx. }
    { by rewrite Ediv. }
    destruct H as (Hs' & _ & Hdiv' & Hout' & _ & _ & Hq' & _ & _ & _ & Hdk).
    exists st', d0, (delete_buf d0). split.
    { cbn [length m4_loop]. unfold bind. by rewrite HR. }
    rewrite Ediv in *. rewrite Hout'. cbn. rewrite ?app_nil_r.
    repeat (split; [done|]). split; [congruence|]. split; [|done].
    by rewrite Hq', Hq.
  - inversion Htok as [|x tok' rest toks' Hf Hrest]; subst.
    cbn [unquoted] in Hu.
    destruct (quote_step macro (left_quote st) (right_quote st) d tok)
      as [[d' w]|] eqn:Hstep; [|done].
    destruct (unquoted macro (left_quote st) (right_quote st) d' toks)
      as [out'|] eqn:Hu'; [|done].
    injection Hu as <-.
    pose proof (first_token_app _ _ _ Hf) as [Happ _].
    assert (no_nul tok /\ no_nul rest) as [Hnt Hnr]
      by (rewrite Happ in Hnn; by apply Forall_app in Hnn).
    destruct (m4_round_quote macro d st tok rest d' w Hp Hf He Hnt)
      as (st1 & d0 & d1 & HR & Hp1 & Hr1 & Eht & Elq & Erq & Hd0 & Hdiv1
          & Hd1 & Hout1); [|done|].
    { apply Hm. by left. }
    destruct (IH st1 d' out') as (st' & d0' & d1' & HL' & Hd0' & Hdiv' & Hout'
                                  & Hs' & Hq' & Hdk').
    { by rewrite Hr1. }
    { done. }
    { rewrite Hr1. rewrite Happ in He. by apply Forall_app in He as [_ ?]. }
    { by rewrite Hr1. }
    { intros t Ht. rewrite Eht. apply Hm. by right. }
    { by rewrite Elq, Erq. }
    exists st', d0, d1'. split.
    { change (length (tok :: toks)) with (S (length toks)).
      cbn [m4_loop]. unfold bind at 1. rewrite HR. exact HL'. }
    split; [done|]. split.
    { rewrite Hdiv', Hdiv1. by rewrite list_insert_insert_eq. }
    split; [|done].
    rewrite Hout', Hout1. rewrite Hdiv1 in Hd0'.
    rewrite list_lookup_insert_eq in Hd0' by (by eapply lookup_lt_Some).
    injection Hd0' as <-. rewrite Hd1. by rewrite <- !app_assoc.
Qed.

(** The run from a state outside quotes and calls. *)
Lemma m4_run_quote macro (st : m4) (inp out : list ascii) :
  flowing 0 st ->
  Forall (fun d => b_a d = []) (diversion st) ->
  to_read_of st = inp ->
  no_nul inp -> no_eof inp ->
  (forall t, t ∈ tokens inp -> macro t = false -> ISMACRO (ht st) t = None) ->
  concat (tokens inp) = inp ->
  unquoted macro (left_quote st) (right_quote st) 0 (tokens inp) = Some out ->
  exists st',
    m4_run (S (length (tokens inp))) st = Ret 0 st'
    /\ stdout (env st') = stdout (env st) ++ out.
Proof.
  intros Hp Hempty Hr Hnn He Hm Hcat Hu.
  pose proof (tokenized_tokens_upto _ _ Hcat) as Htok.
  fold (tokens inp) in Htok.
  destruct (m4_loop_quote macro (tokens inp) st 0%nat out)
    as (st1 & d0 & d1 & HL & Hd0 & Hdiv & Hout & Hstk & Hq & Hdk);
    try done; try (by rewrite Hr).
  destruct Hp as (_ & _ & _ & _ & _ & Hlen & _).
  destruct (diversion st) as [|d0' ds] eqn:Ediv; [done|].
  injection Hd0 as ->. cbn in Hdiv.
  apply Forall_cons in Hempty as [Hd0e Hdse].
  destruct (OUT_DIV_range (take 10 (diversion st1)) []
              (drop 10 (diversion st1)) st1)
    as (st2 & HU & Hout2 & _ & _ & Hsame); [by rewrite take_drop|done|].
  assert (length (take 10 (diversion st1)) = 10%nat) as Hl10.
  { rewrite length_take, Hdiv. cbn [length] in *. lia. }
  rewrite Hl10 in HU.
  assert (stack st2 = []) as Hstk2.
  { unfold same_but_flushed in Hsame. destruct_and!. congruence. }
  exists st2. split.
  - unfold m4_run. rewrite HL. unfold end_of_input, bind, get.
    rewrite Hstk, Hq. cbn [negb bool_decide decide_rel]. unfold UNDIVERT_ALL.
    change (Z.of_nat (length (@nil buf))) with 0 in HU.
    change (Z.of_nat 10) with 10 in HU.
    rewrite bool_decide_eq_true_2 by done. cbn [negb]. rewrite HU.
    unfold ret, clean_up. by rewrite Hstk2.
  - rewrite Hout2, Hdiv. cbn. rewrite app_assoc, Hout, Hd0e.
    rewrite concat_empty by (by apply Forall_take).
    by rewrite !app_nil_r.
Qed.

Lemma top_state_flowing inp t :
  Z.of_nat (length inp) + 2 <= LIMIT -> flowing 0 (top_state inp t).
Proof.
  intros HL. unfold flowing, top_state, pending. cbn.
  repeat (split; [reflexivity|]).
  split; [intros d [= <-]; unfold buf_ok; vm_compute; split; discriminate|].
  split; [unfold buf_ok; vm_compute; split; discriminate|].
  split; [unfold buf_ok; vm_compute; split; discriminate|].
  split; [reflexivity|]. split; [constructor|]. split; [reflexivity|].
  exact HL.
Qed.

(** X16.  Quotes.  Take an input without NUL bytes and without a byte that
    is taken for [EOF], which does not end within an identifier, in which no
    right quote stands outside quotes, every quote is closed at the end and
    no token outside quotes is a macro.  When it is read outside calls with
    the diversions empty, while no allocation and no write fails, the end of
    standard input is not a read error and the sizes are below [LIMIT], what
    the run writes is the input with the quotes of the outermost level
    dropped: a token in quotes is written as it is, a quote in quotes and the
    name of a macro included, which is not expanded; quotes nest by
    counting.  The exit status is 0.  In particular this is what the program
    does on such a standard input, with the quotes and the macros that
    [main] sets up. *)
Theorem quotes_are_stripped (inp out : list ascii) :
  no_nul inp -> no_eof inp -> concat (tokens inp) = inp ->
  (forall macro st,
     flowing 0 st ->
     Forall (fun d => b_a d = []) (diversion st) ->
     to_read_of st = inp ->
     (forall t, t ∈ tokens inp -> macro t = false ->
        ISMACRO (ht st) t = None) ->
     unquoted macro (left_quote st) (right_quote st) 0 (tokens inp)
     = Some out ->
     exists st',
       m4_run (S (length (tokens inp))) st = Ret 0 st'
       /\ stdout (env st') = stdout (env st) ++ out)
  /\ (Z.of_nat (length inp) + 2 <= LIMIT ->
      unquoted (fun t => bool_decide (t ∈ builtin_names)) "`" "'" 0
        (tokens inp) = Some out ->
      status_and_output (main (S (length (tokens inp))) [] (world_of inp))
      = Some (0, out)).
Proof.
  intros Hnn He Hcat. split.
  { intros macro st Hp Hempty Hr Hm Hu. by eapply m4_run_quote. }
  intros HL Hu.
  pose proof (tokenized_tokens_upto _ _ Hcat) as Htok.
  fold (tokens inp) in Htok.
  pose proof (tokenized_elem _ _ Htok) as Hel.
  destruct (m4_run_quote (fun t => bool_decide (t ∈ builtin_names))
              (top_state inp builtin_table) inp out)
    as (st' & HR & Hout).
  - by apply top_state_flowing.
  - apply top_state_empty.
  - reflexivity.
  - exact Hnn.
  - exact He.
  - intros t Ht Hb. apply bool_decide_eq_false in Hb.
    apply ISMACRO_lookup, builtin_table_lookup; [|done].
    apply Forall_forall. intros c Hc.
    unfold no_nul in Hnn. rewrite Forall_forall in Hnn.
    apply Hnn. by eapply Hel.
  - exact Hcat.
  - exact Hu.
  - unfold main. rewrite m4_init_stdin, HR.
    unfold status_and_output. cbn [fmap option_fmap option_map fst snd].
    rewrite Hout. reflexivity.
Qed.

End Quote_extras.

Lemma quotes_are_stripped_witness :
  status_and_output
    (@main unsigned_char (S (length (tokens nested_quotes))) []
       (world_of nested_quotes))
  = Some (0, lit "a len(b) ``c'' d e" ++ newline).
Proof.
  apply (@quotes_are_stripped unsigned_char nested_quotes).
  - unfold no_nul. closed_bool.
  - unfold no_eof. closed_bool.
  - vm_compute. reflexivity.
  - vm_compute. discriminate.
  - vm_compute. reflexivity.
Defined.

(** ** Built-in macros: [translit], [divert] and [divnum], [index],
    [htdist] *)

Section Builtin_extras.

Context {platform : Platform}.

Lemma code_inj c c' : code c = code c' -> c = c'.
Proof. intros H. by rewrite <- (to_char_code c), H, to_char_code. Qed.

Lemma map_of_init : map_of (fun _ => -1) map_init.
Proof.
  split; [done|]. intros c Hc. unfold map_read, map_init.
  apply lookup_replicate_2. pose proof (code_range c).
  change (Z.to_nat UCHAR_MAX) with 255%nat. lia.
Qed.

Lemma map_write_of g map uc x :
  map_of g map -> code uc < 255 ->
  exists map',
    map_write map uc x = Some map'
    /\ map_of (fun c => if bool_decide (c = uc) then x else g c) map'.
Proof.
  intros [Hl Hg] Hc. unfold map_write. rewrite Hl.
  destruct (Z.ltb_spec (code uc) (Z.of_nat 255)); [|lia].
  eexists. split; [done|]. split; [by rewrite length_insert|].
  intros c Hc'. unfold map_read. pose proof (code_range c).
  pose proof (code_range uc). case_bool_decide as E.
  - subst c. apply list_lookup_insert_eq. lia.
  - rewrite list_lookup_insert_ne; [by apply Hg|].
    intros E'. apply E. symmetry. apply code_inj. lia.
Qed.

Lemma translit_delete_of p : forall g map,
  map_of g map -> Forall (fun c => code c < 255) p ->
  exists map',
    translit_delete p map = Some map'
    /\ map_of (fun c => if bool_decide (c ∈ p) then 0 else g c) map'.
Proof.
  induction p as [|uc p IH]; intros g map Hmap Hp; cbn [translit_delete].
  { exists map. split; [done|]. destruct Hmap as [Hl Hg]. split; [done|].
    intros c Hc. rewrite bool_decide_eq_false_2 by apply not_elem_of_nil.
    by apply Hg. }
  apply Forall_cons in Hp as [Huc Hp].
  destruct (map_write_of g map uc 0 Hmap Huc) as (map1 & -> & Hmap1).
  destruct (IH _ map1 Hmap1 Hp) as (map2 & -> & [Hl2 Hg2]).
  exists map2. split; [done|]. split; [done|]. intros c Hc.
  rewrite (Hg2 c Hc). f_equal.
  destruct (decide (c = uc)) as [->|Hne].
  - rewrite (bool_decide_eq_true_2 (uc ∈ uc :: p)) by (by left).
    by repeat case_bool_decide.
  - rewrite (bool_decide_eq_false_2 (c = uc)) by done.
    apply (f_equal (fun b : bool => if b then 0 else g c)).
    apply bool_decide_ext. rewrite elem_of_cons. tauto.
Qed.

(** The map that the two loops over [from] and [to] build. *)
Lemma translit_pairs_of p : forall q g map,
  map_of g map -> (forall c, g c = -1 \/ 0 < g c) ->
  Forall (fun c => code c < 255) p -> no_nul q ->
  exists map',
    translit_pairs p q map = Some map'
    /\ map_of (fun c =>
                 if bool_decide (c ∈ drop (length q) p) then 0
                 else if g c =? -1 then
                   match partner c p q with
                   | Some t => code t
                   | None => -1
                   end
                 else g c) map'.
Proof.
  induction p as [|uc p IH]; intros q g map Hmap Hg Hp Hq;
    cbn [translit_pairs].
  { exists map. split; [done|]. destruct Hmap as [Hl Hm]. split; [done|].
    intros c Hc. rewrite (Hm c Hc), drop_nil.
    rewrite bool_decide_eq_false_2 by apply not_elem_of_nil.
    cbn [partner]. by destruct (Z.eqb_spec (g c) (-1)) as [->|]. }
  destruct q as [|uc2 q].
  { destruct (translit_delete_of (uc :: p) g map Hmap Hp)
      as (map' & -> & [Hl Hm]).
    exists map'. split; [done|]. split; [done|]. intros c Hc.
    rewrite (Hm c Hc). cbn [length drop partner].
    case_bool_decide; [done|]. by destruct (Z.eqb_spec (g c) (-1)) as [->|]. }
  pose proof Hp as [Huc Hp']%Forall_cons.
  apply Forall_cons in Hq as [Huc2 Hq].
  pose proof Hmap as [Hl Hm]. rewrite (Hm uc Huc).
  pose proof (code_range uc2) as Hr2.
  assert (exists g' map1,
            (if g uc =? -1
             then match map_write map uc (code uc2) with
                  | Some map => translit_pairs p q map
                  | None => None
                  end
             else translit_pairs p q map) = translit_pairs p q map1
            /\ map_of g' map1 /\ (forall c, g' c = -1 \/ 0 < g' c)
            /\ (forall c, g' c = if bool_decide (c = uc) && (g uc =? -1)
                                 then code uc2 else g c))
    as (g' & map1 & -> & Hmap1 & Hg' & Hgg).
  { destruct (Z.eqb_spec (g uc) (-1)) as [E|E].
    - destruct (map_write_of g map uc (code uc2) Hmap Huc)
        as (map1 & -> & Hmap1).
      eexists _, map1. split; [done|]. split; [exact Hmap1|]. split.
      + intros c. cbv beta. case_bool_decide; [right; lia|apply Hg].
      + intros c. cbv beta. by case_bool_decide.
    - exists g, map. split; [done|]. split; [done|]. split; [done|].
      intros c. by rewrite andb_false_r. }
  destruct (IH q g' map1 Hmap1 Hg' Hp' Hq) as (map2 & -> & [Hl2 Hm2]).
  exists map2. split; [done|]. split; [done|]. intros c Hc.
  rewrite (Hm2 c Hc). f_equal. cbn [length drop partner].
  case_bool_decide; [done|]. rewrite (Hgg c).
  destruct (decide (c = uc)) as [->|Hne].
  - rewrite (bool_decide_eq_true_2 (uc = uc)) by done. cbn [andb].
    destruct (Z.eqb_spec (g uc) (-1)) as [E|E].
    + destruct (Z.eqb_spec (code uc2) (-1)); [lia|done].
    + by destruct (Z.eqb_spec (g uc) (-1)).
  - by rewrite (bool_decide_eq_false_2 (c = uc)) by done.
Qed.

Lemma translit_apply_of g map s :
  map_of g map -> Forall (fun c => code c < 255) s ->
  translit_apply s map
  = Some (omap (fun c => if g c =? -1 then Some c
                         else if negb (g c =? 0) then Some (to_char (g c))
                         else None) s).
Proof.
  intros [Hl Hm]. induction 1 as [|c s Hc Hs IH]; [done|].
  cbn [translit_apply omap list_omap]. rewrite (Hm c Hc), IH.
  destruct (g c =? -1); [done|]. by destruct (negb (g c =? 0)).
Qed.

(** X17.  [translit] on bytes below 255: every byte of the first argument
    is deleted when it occurs in the second argument beyond the length of the
    third, else replaced by the byte of the third argument at the place of
    its first occurrence in the second, else kept; the result is pushed back.
    On such arguments the call stays within the array [map]. *)
Theorem translit_maps_bytes (m : mcall) (st : m4) :
  Forall (fun c => code c < 255) (ARG m 1 ++ ARG m 2) ->
  bi_translit m st
  = (must_alloc ;;;
     unget_input (omap (transliterated (ARG m 2) (ARG m 3)) (ARG m 1))) st.
Proof.
  intros [H1 H2]%Forall_app. unfold bi_translit.
  destruct (translit_pairs_of (ARG m 2) (ARG m 3) (fun _ => -1) map_init)
    as (map & -> & Hmap); try done.
  { apply map_of_init. }
  { by left. }
  { unfold no_nul. rewrite <- ARG_cstr. apply cstr_no_nul. }
  rewrite (translit_apply_of _ _ _ Hmap H1).
  assert (no_nul (ARG m 3)) as Hq
    by (unfold no_nul; rewrite <- ARG_cstr; apply cstr_no_nul).
  replace (omap _ (ARG m 1))
    with (omap (transliterated (ARG m 2) (ARG m 3)) (ARG m 1)); [done|].
  apply list_omap_ext. apply Forall2_same_length_lookup_2; [done|].
  intros i c c' Hi Hi'. simplify_eq. unfold transliterated.
  case_bool_decide; [done|]. change (-1 =? -1) with true. cbv iota.
  destruct (partner c (ARG m 2) (ARG m 3)) as [t|] eqn:Ep; [|done].
  assert (code t <> 0) as Ht.
  { clear -Ep Hq. revert Hq Ep. generalize (ARG m 3).
    induction (ARG m 2) as [|f p IH]; intros q Hq; [done|].
    destruct q as [|t' q]; [done|]. cbn [partner].
    apply Forall_cons in Hq as [Ht' Hq].
    case_bool_decide; [by intros [= <-]|by apply IH]. }
  pose proof (code_range t).
  destruct (Z.eqb_spec (code t) (-1)); [lia|].
  destruct (Z.eqb_spec (code t) 0); [done|]. cbn [negb].
  by rewrite to_char_code.
Qed.

Lemma ulong_str_digit d : 0 <= d <= 9 -> ulong_str d = [to_char (48 + d)].
Proof.
  intros Hd. unfold ulong_str. cbn [digits].
  rewrite (Z.mod_small d 10) by lia. rewrite (Z.div_small d 10) by lia.
  done.
Qed.

Lemma one_digit_string x d :
  one_digit x = Some d -> 0 <= d <= 9 /\ x = ulong_str d.
Proof.
  intros H. pose proof (one_digit_range x d H) as Hr. split; [done|].
  unfold one_digit in H. destruct x as [|c [|]]; try done.
  rewrite isdigit_char_to_int in H.
  destruct ((48 <=? code c) && (code c <=? 57)) eqn:E; [|done].
  injection H as <-. rewrite ulong_str_digit by done. f_equal.
  rewrite char_to_int_small by lia.
  replace (48 + (code c - 48)) with (code c) by lia.
  by rewrite to_char_code.
Qed.

(** X18.  [divert] and [divnum] agree: after a call of [divert] that
    returns, [divnum] pushes back the very argument of that call, a digit or
    [-1]; the active diversion is then one of the eleven, the eleventh for
    [-1] only.  Any other argument is fatal and leaves the active diversion
    and the output as they are. *)
Theorem divnum_after_divert (m : mcall) (st : m4) :
  match bi_divert m st with
  | Ret _ st' =>
      DIVNUM st' = unget_input (ARG m 1) st'
      /\ 0 <= act_div st' <= 10
      /\ (act_div st' = 10 <-> ARG m 1 = lit "-1")
  | Quit st' => act_div st' = act_div st /\ output st' = output st
  | _ => False
  end.
Proof.
  unfold bi_divert. destruct (one_digit (ARG m 1)) as [d|] eqn:Ed.
  - apply one_digit_string in Ed as [Hd Hx].
    unfold bind, SET_OUTPUT, modify. cbv beta iota.
    unfold DIVNUM, bind, get. cbv beta iota.
    cbn [act_div set_output set_act_div].
    destruct (Z.eqb_spec d 10); [lia|]. rewrite <- Hx.
    split; [done|]. split; [lia|]. split; [lia|].
    intros E. rewrite E in Hx. exfalso.
    rewrite ulong_str_digit in Hx by done. discriminate.
  - destruct (streq (ARG m 1) (lit "-1")) eqn:E.
    + apply streq_true in E.
      unfold bind, SET_OUTPUT, modify. cbv beta iota.
      unfold DIVNUM, bind, get. cbv beta iota.
      cbn [act_div set_output set_act_div]. change (10 =? 10) with true.
      cbv iota. rewrite E.
      split; [done|]. split; [lia|]. done.
    + done.
Qed.

Lemma is_prefix_spec t : forall s, is_prefix t s = true <-> t `prefix_of` s.
Proof.
  induction t as [|x t IH]; intros s; cbn [is_prefix].
  { split; [intros _; apply prefix_nil|done]. }
  destruct s as [|y s].
  { split; [done|]. intros H. by apply prefix_nil_not in H. }
  rewrite andb_true_iff, bool_decide_eq_true, IH. split.
  - intros [-> H]. by apply prefix_cons.
  - intros H. split; [by apply prefix_cons_inv_1 in H|
                      by apply prefix_cons_inv_2 in H].
Qed.

Lemma strstr_spec t : forall s,
  match strstr s t with
  | Some k =>
      0 <= k /\ occurs_at t s (Z.to_nat k)
      /\ forall j, (j < Z.to_nat k)%nat -> ~ occurs_at t s j
  | None => forall j, ~ occurs_at t s j
  end.
Proof.
  unfold occurs_at. induction s as [|c s IH]; cbn [strstr].
  - destruct (is_prefix t []) eqn:E.
    + apply is_prefix_spec in E. split; [done|]. split; [done|]. lia.
    + intros j. rewrite drop_nil. intros H. apply is_prefix_spec in H.
      congruence.
  - destruct (is_prefix t (c :: s)) eqn:E.
    + apply is_prefix_spec in E. split; [done|]. split; [done|]. lia.
    + destruct (strstr s t) as [k|]; cbn.
      * destruct IH as (Hk & Hocc & Hmin).
        split; [lia|]. rewrite Z2Nat.inj_succ by done. split; [done|].
        intros [|j] Hj.
        -- cbn. intros H. apply is_prefix_spec in H. congruence.
        -- cbn. apply Hmin. lia.
      * intros [|j]; cbn; [|apply IH].
        intros H. apply is_prefix_spec in H. congruence.
Qed.

(** X19.  [index] pushes back the decimal offset of the first occurrence
    of its second argument in its first, and [-1] when there is none; an
    empty second argument occurs at the offset 0. *)
Theorem index_is_first_occurrence (m : mcall) (st : m4) :
  exists x,
    bi_index m st = unget_input x st
    /\ ((x = lit "-1" /\ forall j, ~ occurs_at (ARG m 2) (ARG m 1) j)
        \/ (exists k,
              x = ulong_str (Z.of_nat k)
              /\ occurs_at (ARG m 2) (ARG m 1) k
              /\ forall j, (j < k)%nat -> ~ occurs_at (ARG m 2) (ARG m 1) j))
    /\ (ARG m 2 = [] -> x = lit "0").
Proof.
  unfold bi_index. pose proof (strstr_spec (ARG m 2) (ARG m 1)) as H.
  destruct (strstr (ARG m 1) (ARG m 2)) as [k|] eqn:E.
  - destruct H as (Hk & Hocc & Hmin). eexists. split; [done|]. split.
    + right. exists (Z.to_nat k). by rewrite Z2Nat.id.
    + intros E2. rewrite E2 in Hmin.
      destruct (Z.to_nat k) as [|j] eqn:Ek.
      * by replace k with 0 by lia.
      * exfalso. apply (Hmin 0%nat); [lia|]. apply prefix_nil.
  - eexists. split; [done|]. split; [by left|].
    intros E2. exfalso. apply (H 0%nat). rewrite E2. apply prefix_nil.
Qed.

Lemma total_insert (l : list Z) j x y :
  l !! j = Some y -> total (<[j := x]> l) = total l - y + x.
Proof.
  revert j. induction l as [|z l IH]; intros [|j] H; try done.
  - injection H as ->. unfold total. cbn. lia.
  - change (total (<[S j := x]> (z :: l))) with (z + total (<[j := x]> l)).
    change (total (z :: l)) with (z + total l).
    cbn in H. rewrite (IH j H). lia.
Qed.

(** The histogram after the chains of the slots [ks] have been counted. *)
Lemma htdist_fold t ks : forall freq freq',
  length freq = 101%nat ->
  freq' =
    foldl (fun freq k =>
             let count := Z.of_nat (length (bucket t k)) in
             let j := Z.to_nat (if count <? 100 then count else 100) in
             <[j := default 0 (freq !! j) + 1]> freq) freq ks ->
  length freq' = 101%nat
  /\ total freq' = total freq + Z.of_nat (length ks)
  /\ forall j, (j <= 100)%nat ->
       freq' !! j
       = Some (default 0 (freq !! j)
               + Z.of_nat (length (filter
                   (fun k => Nat.min (length (bucket t k)) 100 = j) ks))).
Proof.
  induction ks as [|k ks IH]; intros freq freq' Hl ->; cbn [foldl].
  { split; [done|]. split; [cbn; lia|]. intros j Hj.
    destruct (lookup_lt_is_Some_2 freq j) as [y Hy]; [lia|].
    rewrite Hy. cbn. f_equal. lia. }
  set (count := Z.of_nat (length (bucket t k))).
  set (i := Z.to_nat (if count <? 100 then count else 100)).
  assert (i = Nat.min (length (bucket t k)) 100) as Hi.
  { subst i count. destruct (Z.ltb_spec (Z.of_nat (length (bucket t k))) 100);
      lia. }
  assert (i < length freq)%nat as Hlt by lia.
  destruct (lookup_lt_is_Some_2 freq i Hlt) as [y Hy].
  destruct (IH (<[i := default 0 (freq !! i) + 1]> freq) _
              ltac:(by rewrite length_insert) eq_refl) as (I1 & I2 & I3).
  cbv zeta in I1, I2, I3.
  split; [done|]. split.
  { rewrite I2, (total_insert _ _ _ y Hy), Hy. cbn [length]. simpl default.
    lia. }
  intros j Hj. rewrite (I3 j Hj), filter_cons. f_equal.
  destruct (decide (i = j)) as [<-|Hne].
  - rewrite list_lookup_insert_eq by done. rewrite Hy. simpl default.
    rewrite decide_True by done. cbn [length]. lia.
  - rewrite list_lookup_insert_ne by done.
    rewrite decide_False by (by rewrite <- Hi). done.
Qed.

(** X20.  The histogram of [htdist] counts every slot of the hash table
    once: slot [j] of [freq], for [j] below 100, holds the number of chains
    with [j] entries and slot 100 the number of chains with 100 entries or
    more, so that the slots add up to [HASH_TABLE_SIZE]; no index leaves the
    101 slots. *)
Theorem htdist_counts_every_chain (t : table) :
  length (htdist_freq t) = 101%nat
  /\ total (htdist_freq t) = HASH_TABLE_SIZE
  /\ (forall j, (j < 100)%nat ->
        htdist_freq t !! j = Some (chains_of t (fun n => n = j)))
  /\ htdist_freq t !! 100%nat = Some (chains_of t (fun n => (100 <= n)%nat)).
Proof.
  pose proof (length_seqZ 0 HASH_TABLE_SIZE) as Hs.
  unfold htdist_freq, chains_of.
  generalize dependent (seqZ 0 HASH_TABLE_SIZE). intros ks Hs.
  destruct (htdist_fold t ks (replicate 101 0) _ eq_refl eq_refl)
    as (H1 & H2 & H3).
  cbv zeta in H1, H2, H3.
  split; [exact H1|]. split.
  { rewrite H2, Hs, Z2Nat.id; [reflexivity|]. discriminate. }
  assert (forall j, (j <= 100)%nat -> replicate 101 0 !! j = Some 0) as Hz.
  { intros j Hj. apply lookup_replicate_2. lia. }
  split.
  - intros j Hj. rewrite H3 by lia. rewrite Hz by lia. simpl default.
    rewrite Z.add_0_l. do 3 f_equal. apply list_filter_iff. intros k. lia.
  - rewrite H3 by lia. rewrite Hz by lia. simpl default.
    rewrite Z.add_0_l. do 3 f_equal. apply list_filter_iff. intros k. lia.
Qed.

End Builtin_extras.

Lemma translit_maps_bytes_witness :
  @bi_translit unsigned_char bananas_call (top_state [] ∅)
  = (must_alloc ;;; @unget_input unsigned_char (lit "yxnxnx"))
      (top_state [] ∅).
Proof.
  rewrite (@translit_maps_bytes unsigned_char bananas_call (top_state [] ∅)).
  - vm_compute. reflexivity.
  - closed_bool.
Defined.

(** ** Start-up: the command line files *)

Lemma strdup_heap x w r w' : strdup x w = (r, w') -> same_but_heap w w'.
Proof.
  unfold strdup. destruct (alloc w) as [ok w1] eqn:E. intros [= <- <-].
  by eapply alloc_heap.
Qed.

Lemma init_buf_heap w b w' :
  init_buf w = (b, w') ->
  same_but_heap w w'
  /\ (b = None \/ b = Some {| b_a := []; b_s := INIT_BUF_SIZE |}).
Proof.
  unfold init_buf. destruct (alloc w) as [[] w1] eqn:E1; cbn [negb].
  - destruct (alloc w1) as [[] w2] eqn:E2; cbn [negb]; intros [= <- <-];
      (split; [|by auto]);
      eapply same_but_heap_trans; by eapply alloc_heap.
  - intros [= <- <-]. split; [by eapply alloc_heap|by left].
Qed.

Lemma init_bufs_heap n : forall w l w',
  init_bufs n w = (l, w') ->
  same_but_heap w w'
  /\ forall bs, l = Some bs ->
       bs = replicate n {| b_a := []; b_s := INIT_BUF_SIZE |}.
Proof.
  induction n as [|n IH]; intros w l w'; cbn [init_bufs].
  { intros [= <- <-]. split; [apply same_but_heap_refl|]. by intros bs [= <-]. }
  destruct (init_buf w) as [b w1] eqn:E1.
  destruct (init_buf_heap _ _ _ E1) as [H1 Hb].
  destruct b as [b|]; [|intros [= <- <-]; by split].
  destruct (init_bufs n w1) as [l1 w2] eqn:E2.
  destruct (IH _ _ _ E2) as [H2 Hl].
  destruct l1 as [l1|]; intros [= <- <-];
    (split; [by eapply same_but_heap_trans|]); [|done].
  intros bs [= <-]. destruct Hb as [|[= ->]]; [done|].
  cbn [replicate]. f_equal. by apply Hl.
Qed.

Lemma upsert_entry_heap t n d w r t' w' :
  upsert_entry t n d w = (r, t', w') -> same_but_heap w w'.
Proof.
  unfold upsert_entry. intros H.
  destruct (lookup_entry t n).
  - destruct d as [d|].
    + destruct (strdup d w) as [d1 w1] eqn:E. apply strdup_heap in E.
      destruct (bool_decide (d1 = None)); by simplify_eq.
    + simplify_eq. apply same_but_heap_refl.
  - destruct (alloc w) as [[] w1] eqn:E1; cbn [negb] in H;
      apply alloc_heap in E1; [|by simplify_eq].
    destruct (strdup n w1) as [n1 w2] eqn:E2. apply strdup_heap in E2.
    pose proof (same_but_heap_trans _ _ _ E1 E2) as E12.
    destruct n1 as [n1|]; [|by simplify_eq].
    destruct d as [d|].
    + destruct (strdup d w2) as [d1 w3] eqn:E3. apply strdup_heap in E3.
      pose proof (same_but_heap_trans _ _ _ E12 E3).
      destruct (bool_decide (d1 = None)); by simplify_eq.
    + by simplify_eq.
Qed.

Lemma define_builtins_heap names : forall t w t' w',
  define_builtins names t w = (t', w') -> same_but_heap w w'.
Proof.
  induction names as [|n names IH]; intros t w t' w'; cbn [define_builtins].
  { intros [= <- <-]. apply same_but_heap_refl. }
  destruct (upsert_entry t n None w) as [[r t1] w1] eqn:U.
  apply upsert_entry_heap in U.
  destruct (negb (r =? 0)); [by intros [= <- <-]|].
  intros H. eapply same_but_heap_trans; [done|by eapply IH].
Qed.

(** The loop of [include] on a buffer with [fs] free bytes. *)
Lemma include_loop_room (l x : list ascii) (fs : Z) :
  0 <= fs ->
  match include_loop x (Z.of_nat (length l) + fs)
          (l ++ replicate (Z.to_nat fs) NUL) with
  | Some (k, a') =>
      k = Z.of_nat (length l) + fs - Z.of_nat (length x)
      /\ (k = Z.of_nat (length l) -> a' = l ++ reverse x)
  | None => Z.of_nat (length l) + fs < Z.of_nat (length x)
  end.
Proof.
  intros Hfs.
  pose proof (include_loop_spec x (Z.of_nat (length l) + fs)
                (l ++ replicate (Z.to_nat fs) NUL)) as H.
  rewrite length_app, length_replicate in H. specialize (H ltac:(lia)).
  destruct (include_loop x _ _) as [[k a']|]; [|done].
  destruct H as (-> & Hk & ->). split; [done|]. intros E.
  rewrite E, Nat2Z.id, take_app_length, drop_ge, app_nil_r; [done|].
  rewrite length_app, length_replicate. lia.
Qed.

Lemma filesize_nonneg fn w fs : filesize fn w = Some fs -> 0 <= fs.
Proof.
  unfold filesize. destruct (file_lookup w fn) as [f|]; [|done].
  destruct (st_size f <? 0); [done|]. intros [= <-].
  unfold wrap, SIZE_MAX. apply Z.mod_pos_bound. lia.
Qed.

(** [include] that returns 0 has put the file in front of the buffer. *)
Lemma include_front b fn w r b' w' :
  include b fn w = Some (r, b', w') -> b_i b <= b_s b ->
  same_but_heap w w'
  /\ (r = 0 ->
      exists x, holds w fn x /\ unread b' = x ++ unread b
                /\ b_i b' <= b_s b').
Proof.
  unfold include, BUF_FREE_SIZE. intros H Hi.
  destruct (filesize fn w) as [fs|] eqn:Efs;
    [|simplify_eq; split; [apply same_but_heap_refl|intros; lia]].
  pose proof (filesize_nonneg _ _ _ Efs) as Hfs.
  assert (exists b1 w1,
            (if b_s b - b_i b <? fs then grow_buf b fs w else (0, b, w))
            = (0, b1, w1)
            /\ b_a b1 = b_a b /\ b_i b1 + fs <= b_s b1 /\ same_but_heap w w1
            \/ (r = 1 /\ same_but_heap w w')) as Hg.
  { destruct (Z.ltb_spec (b_s b - b_i b) fs).
    - destruct (grow_buf b fs w) as [[r1 b1] w1] eqn:Hg.
      pose proof (grow_buf_bytes _ _ _ _ _ _ Hg) as Hb.
      pose proof (grow_buf_heap _ _ _ _ _ _ Hg) as Hw.
      destruct (grow_buf_result _ _ _ _ _ _ Hg Hi) as [(-> & Hr & _)|[-> ->]].
      + exists b1, w1. left. split; [done|]. split; [done|]. by split.
      + cbn in H. injection H as <- <- <-. exists b, w. by right.
    - exists b, w. left. split; [done|]. split; [done|].
      split; [lia|apply same_but_heap_refl]. }
  destruct Hg as (b1 & w1 & [(Eg & Hb & Hroom & Hw)|[-> Hw]]);
    [|split; [done|intros; lia]].
  rewrite Eg in H. cbn [Z.eqb negb] in H.
  rewrite (file_lookup_heap w w1 fn Hw) in H.
  destruct (file_lookup w fn) as [f|] eqn:Ef;
    [|simplify_eq; (split; [done|intros; lia])].
  destruct (opens f) eqn:Eo; cbn [negb] in H; [|simplify_eq; (split; [done|intros; lia])].
  pose proof (include_loop_room (b_a b1) (bytes f) fs Hfs) as HL.
  fold (b_i b1) in HL.
  destruct (include_loop (bytes f) (b_i b1 + fs) _) as [[k a']|]; [|done].
  destruct HL as [Hk Ha'].
  destruct (read_errno f) eqn:Ee; [simplify_eq; (split; [done|intros; lia])|].
  destruct (closes f) eqn:Ec; cbn [negb] in H; [|simplify_eq; (split; [done|intros; lia])].
  destruct (Z.eqb_spec k (b_i b1)) as [E|E]; cbn [negb] in H;
    [|simplify_eq; (split; [done|intros; lia])].
  injection H as <- <- <-. split; [done|]. intros _.
  rewrite (Ha' E), Hb.
  assert (Z.of_nat (length (bytes f)) = fs) as Hn by lia.
  exists (bytes f). split.
  { exists f. rewrite Hn. by repeat split. }
  unfold unread, b_i in *. cbn [b_a b_s].
  rewrite reverse_app, reverse_involutive. split; [done|].
  rewrite length_app, length_reverse. rewrite Hb in Hroom. lia.
Qed.

Lemma holds_heap w w' a c : same_but_heap w w' -> holds w' a c -> holds w a c.
Proof.
  intros Hw (f & H1 & H2 & H3). exists f.
  by rewrite <- (file_lookup_heap w w'), <- (filesize_heap w w').
Qed.

(** The files are put in front one after the other, so that the last one
    included is read first. *)
Lemma include_files_front fns : forall b w,
  b_i b <= b_s b ->
  match include_files fns b w with
  | Some (ob, w') =>
      same_but_heap w w'
      /\ forall b', ob = Some b' ->
           exists contents,
             Forall2 (holds w) fns contents
             /\ unread b' = concat (reverse contents) ++ unread b
  | None => fns <> []
  end.
Proof.
  induction fns as [|fn fns IH]; intros b w Hi; cbn [include_files].
  { split; [apply same_but_heap_refl|].
    intros b' [= <-]. exists []. by split; [constructor|]. }
  destruct (include b fn w) as [[[r b1] w1]|] eqn:E; [|done].
  destruct (include_front _ _ _ _ _ _ E Hi) as [Hw Hr].
  destruct (Z.eqb_spec r 0) as [->|Hne]; cbn [negb]; [|by split].
  destruct (Hr eq_refl) as (x & Hx & Hu & Hi1).
  specialize (IH b1 w1 Hi1).
  destruct (include_files fns b1 w1) as [[ob w']|]; [|done].
  destruct IH as [Hw' Hb]. split.
  { by eapply same_but_heap_trans. }
  intros b' ->. destruct (Hb b' eq_refl) as (contents & Hc & Hu').
  exists (x :: contents). split.
  - constructor; [done|]. eapply Forall2_impl; [exact Hc|].
    intros a c. by apply holds_heap.
  - rewrite Hu', Hu, reverse_cons, concat_app. cbn [concat].
    by rewrite app_nil_r, <- app_assoc.
Qed.

Lemma total_filesize_sum fns : forall contents acc w,
  Forall2 (holds w) fns contents -> 0 <= acc ->
  acc + Z.of_nat (length (concat contents)) <= LIMIT ->
  total_filesize fns acc w
  = Some (acc + Z.of_nat (length (concat contents))).
Proof.
  induction fns as [|fn fns IH]; intros contents acc w Hc Ha HL;
    inversion Hc as [|? x ? cs Hx Hcs]; subst; cbn [total_filesize].
  { cbn. f_equal. lia. }
  destruct Hx as (f & _ & -> & _).
  cbn [concat] in *. rewrite length_app in *.
  assert (wrap (acc + Z.of_nat (length x)) = acc + Z.of_nat (length x)) as ->.
  { unfold wrap, SIZE_MAX, LIMIT in *. apply Z.mod_small. lia. }
  rewrite (IH cs) by (try done; lia). f_equal. lia.
Qed.

(** In a buffer with room for all of them the files are included without
    growing it. *)
Lemma include_files_fit fns : forall contents b w,
  Forall2 (holds w) fns contents ->
  b_i b + Z.of_nat (length (concat contents)) <= b_s b ->
  exists b', include_files fns b w = Some (Some b', w).
Proof.
  induction fns as [|fn fns IH]; intros contents b w Hc Hs;
    inversion Hc as [|? x ? cs Hx Hcs]; subst; cbn [include_files].
  { by eexists. }
  destruct Hx as (f & Ef & Efs & (Ho & Hn & He & Hcl) & <-).
  cbn [concat] in Hs. rewrite length_app in Hs.
  unfold include, BUF_FREE_SIZE. rewrite Efs.
  destruct (Z.ltb_spec (b_s b - b_i b) (Z.of_nat (length (bytes f))));
    [lia|].
  cbn [Z.eqb negb]. rewrite Ef, Ho. cbn [negb].
  pose proof (include_loop_room (b_a b) (bytes f)
                (Z.of_nat (length (bytes f))) ltac:(lia)) as HL.
  fold (b_i b) in HL. pose proof (b_i_nonneg b) as Hnn.
  destruct (include_loop (bytes f) _ _) as [[k a']|]; [|lia].
  destruct HL as [Hk Ha']. rewrite He, Hcl. cbn [negb].
  destruct (Z.eqb_spec k (b_i b)) as [E|E]; [|lia]. cbn [negb].
  apply (IH cs); [done|]. rewrite (Ha' E).
  unfold b_i in *. cbn [b_a b_s].
  rewrite length_app, length_reverse. lia.
Qed.

Lemma length_concat_reverse (l : list (list ascii)) :
  length (concat (reverse l)) = length (concat l).
Proof.
  induction l as [|x l IH]; [done|].
  rewrite reverse_cons, concat_app, !length_app. cbn [concat].
  rewrite app_nil_r, length_app, IH. lia.
Qed.

Lemma init_bufs_no_fault n w :
  heap w = [] ->
  init_bufs n w = (Some (replicate n {| b_a := []; b_s := INIT_BUF_SIZE |}), w).
Proof.
  intros Hh. induction n as [|n IH]; cbn [init_bufs replicate]; [done|].
  unfold init_buf. rewrite !alloc_no_fault by done. cbn [negb].
  by rewrite IH.
Qed.

Lemma define_builtins_no_fault names : forall t w,
  heap w = [] -> exists t', define_builtins names t w = (Some t', w).
Proof.
  induction names as [|n names IH]; intros t w Hh; cbn [define_builtins].
  { by eexists. }
  unfold upsert_entry, strdup. destruct (lookup_entry t n).
  - cbn [Z.eqb negb]. by apply IH.
  - rewrite !alloc_no_fault by done. cbn [negb Z.eqb]. by apply IH.
Qed.

(** X21.  Start-up.  Without file arguments the engine reads standard
    input.  With file arguments it does not read standard input: when the
    start succeeds, every argument names a regular file that was read as
    [stat] reported it, and the input is what the files hold, in the order of
    the command line, although the files are loaded from the last to the
    first.  Start-up writes nothing, also when it fails.  It has no meaning
    in C only with file arguments (a file that delivers more bytes than
    [stat] reported and the buffer holds).  Without allocation failure, for
    files that are read as [stat] reports them and whose total size is
    within [LIMIT], it succeeds. *)
Theorem command_line_files_in_order (args : list (list ascii)) (w : world) :
  match m4_init args w with
  | Some (inl st) =>
      same_but_heap w (env st)
      /\ match args with
         | [] => read_stdin st = true /\ to_read_of st = stdin w
         | _ :: _ =>
             read_stdin st = false
             /\ exists contents,
                  Forall2 (holds w) args contents
                  /\ to_read_of st = concat contents
         end
  | Some (inr w') => same_but_heap w w'
  | None => args <> []
  end
  /\ (forall contents,
        heap w = [] -> Forall2 (holds w) args contents ->
        Z.of_nat (length (concat contents)) <= LIMIT ->
        exists st, m4_init args w = Some (inl st)).
Proof.
  split.
  - unfold m4_init.
    destruct (init_bufs 5 w) as [bufs w1] eqn:E1.
    destruct (init_bufs_heap _ _ _ _ E1) as [H1 Hb].
    destruct bufs as [bufs|]; [|done].
    rewrite (Hb bufs eq_refl). cbn [replicate].
    destruct (init_bufs 11 w1) as [divs w2] eqn:E2.
    destruct (init_bufs_heap _ _ _ _ E2) as [H2 _].
    pose proof (same_but_heap_trans _ _ _ H1 H2) as H12.
    destruct divs as [divs|]; [|done].
    destruct (alloc w2) as [[] w3] eqn:E3; cbn [negb];
      apply alloc_heap in E3;
      pose proof (same_but_heap_trans _ _ _ H12 E3) as H13; [|done].
    destruct (define_builtins builtin_names ∅ w3) as [t w4] eqn:E4.
    apply define_builtins_heap in E4.
    pose proof (same_but_heap_trans _ _ _ H13 E4) as H14.
    destruct t as [t|]; [|done].
    destruct args as [|a args].
    { cbn [env read_stdin]. split; [done|]. split; [done|].
      unfold to_read_of, to_read, unread. cbn.
      by destruct H14 as (-> & _). }
    set (fns := reverse (a :: args)).
    destruct (total_filesize fns 0 w4) as [fs|]; [|done].
    destruct (grow_buf _ fs w4) as [[r b1] w5] eqn:E5.
    pose proof (grow_buf_bytes _ _ _ _ _ _ E5) as Hbytes.
    pose proof (grow_buf_heap _ _ _ _ _ _ E5) as H45.
    pose proof (same_but_heap_trans _ _ _ H14 H45) as H15.
    destruct (grow_buf_result _ _ _ _ _ _ E5) as [(-> & Hr & Hs)|[-> ->]];
      [unfold b_i; cbn; unfold INIT_BUF_SIZE; lia| |done].
    cbn [Z.eqb negb].
    assert (b_i b1 <= b_s b1) as Hi1.
    { unfold b_i in *. rewrite Hbytes in *. cbn [b_a length] in *.
      cbn [b_s] in Hs. unfold INIT_BUF_SIZE in Hs. lia. }
    pose proof (include_files_front fns b1 w5 Hi1) as Hfront.
    destruct (include_files fns b1 w5) as [[ob w6]|]; [|done].
    destruct Hfront as [H56 Hob].
    pose proof (same_but_heap_trans _ _ _ H15 H56) as H16.
    destruct ob as [b2|]; [|done].
    cbn [env read_stdin set_env set_input set_read_stdin].
    split; [done|]. split; [done|].
    destruct (Hob b2 eq_refl) as (contents & Hc & Hu).
    exists (reverse contents). split.
    + rewrite <- (reverse_involutive (a :: args)). apply Forall2_reverse.
      eapply Forall2_impl; [exact Hc|]. intros x c. by apply holds_heap.
    + unfold to_read_of, to_read. cbn [input read_stdin env set_env set_input
        set_read_stdin]. rewrite Hu. unfold unread. rewrite Hbytes.
      cbn [b_a]. by rewrite reverse_nil, !app_nil_r.
  - intros contents Hh Hc HL. unfold m4_init.
    rewrite !init_bufs_no_fault by done. cbn [replicate].
    rewrite alloc_no_fault by done. cbn [negb].
    destruct (define_builtins_no_fault builtin_names ∅ w Hh) as [t ->].
    destruct args as [|a args]; [by eexists|].
    set (fns := reverse (a :: args)).
    assert (Forall2 (holds w) fns (reverse contents)) as Hc'
      by by apply Forall2_reverse.
    pose proof (length_concat_reverse contents) as Hlen.
    rewrite (total_filesize_sum fns (reverse contents) 0 w Hc')
      by (try done; lia).
    rewrite Z.add_0_l, Hlen.
    destruct (grow_buf_ok {| b_a := []; b_s := INIT_BUF_SIZE |}
                (Z.of_nat (length (concat contents))) w Hh)
      as (s' & -> & Hs' & _).
    { unfold buf_ok. vm_compute. split; discriminate. }
    { lia. }
    { unfold b_i. cbn [b_a length]. lia. }
    cbn [Z.eqb negb b_a].
    destruct (include_files_fit fns (reverse contents)
                {| b_a := []; b_s := s' |} w Hc') as [b' ->].
    { unfold b_i in *. cbn [b_a b_s length] in *. lia. }
    by eexists.
Qed.

Lemma command_line_files_in_order_witness :
  exists st, m4_init [lit "one"; lit "two"] two_files = Some (inl st)
             /\ read_stdin st = false
             /\ to_read_of st = lit "define(x, 1)x".
Proof.
  destruct (command_line_files_in_order [lit "one"; lit "two"] two_files)
    as [H1 H2].
  destruct (H2 [lit "define(x, 1)"; lit "x"]) as [st E].
  - reflexivity.
  - repeat constructor;
      eexists; (split; [vm_compute; reflexivity|]);
      (split; [vm_compute; reflexivity|]); by repeat split.
  - vm_compute. discriminate.
  - exists st. split; [exact E|]. rewrite E in H1.
    destruct H1 as (_ & Hr & contents & Hc & ->). split; [exact Hr|].
    inversion Hc as [|? x ? cs Hx Hcs]; subst.
    inversion Hcs as [|? y ? cs' Hy Hcs']; subst.
    inversion Hcs'; subst.
    destruct Hx as (f & Hf & _ & _ & <-).
    destruct Hy as (g & Hg & _ & _ & <-).
    vm_compute in Hf. vm_compute in Hg.
    injection Hf as <-. injection Hg as <-. reflexivity.
Defined.

(** ** Built-in macros: [incr], [substr], [undivert] with arguments *)

Section Number_extras.

Context {platform : Platform}.

(** X22.  [incr] reads its first argument as an unsigned decimal number
    and pushes back the number plus one, in decimal, which reads back as
    that number; it ends the run with a message when the argument is no
    number, the empty argument included, and when the number is
    [SIZE_MAX]. *)
Theorem incr_adds_one (m : mcall) (st : m4) :
  match number (ARG m 1) with
  | Some n =>
      if n =? SIZE_MAX then bi_incr m st = EQUIT "incr: Integer overflow" st
      else bi_incr m st = unget_input (ulong_str (n + 1)) st
           /\ number (ulong_str (n + 1)) = Some (n + 1)
  | None => bi_incr m st = EQUIT "incr: Invalid number" st
  end.
Proof.
  unfold bi_incr. rewrite str_to_num_spec, ARG_cstr.
  destruct (number (ARG m 1)) as [n|] eqn:N; [|done].
  apply number_range in N. unfold AOF.
  destruct (Z.eqb_spec n SIZE_MAX) as [->|Hne].
  - by destruct (Z.ltb_spec (SIZE_MAX - 1) SIZE_MAX); [|lia].
  - destruct (Z.ltb_spec (SIZE_MAX - 1) n); [lia|].
    split; [done|]. apply number_ulong_str. lia.
Qed.

(** X23.  [substr]: for a first argument that is not empty, with an
    offset [w] and a length [n] that are numbers, the bytes pushed back are
    the at most [n] bytes of the argument from the offset [w] on, and none
    for an offset past the end; a length of [SIZE_MAX] ends the run without
    a message.  For an empty first argument nothing is done, and the other
    arguments are not checked. *)
Theorem substr_is_a_slice (m : mcall) (st : m4) :
  match ARG m 1 with
  | [] => bi_substr m st = Ret tt st
  | _ :: _ =>
      match number (ARG m 2), number (ARG m 3) with
      | Some w, Some n =>
          if Z.of_nat (length (ARG m 1)) <=? w then bi_substr m st = Ret tt st
          else if n =? SIZE_MAX then bi_substr m st = (must_alloc ;;; QUIT) st
          else bi_substr m st
               = (must_alloc ;;;
                  unget_input (take (Z.to_nat n)
                                 (drop (Z.to_nat w) (ARG m 1)))) st
      | _, _ => bi_substr m st = EQUIT "substr: Invalid index or length" st
      end
  end.
Proof.
  unfold bi_substr. rewrite !str_to_num_spec, !ARG_cstr.
  destruct (ARG m 1) as [|c s] eqn:E; [done|].
  set (len := Z.of_nat (length (c :: s))).
  assert (0 < len) as Hlen by (subst len; cbn [length]; lia).
  destruct (Z.eqb_spec len 0) as [|_]; [lia|].
  destruct (number (ARG m 2)) as [w|] eqn:W; [|done].
  destruct (number (ARG m 3)) as [n|] eqn:N; [|done].
  apply number_range in W, N.
  destruct (Z.leb_spec len w), (Z.ltb_spec w len); try lia; [done|].
  unfold AOF.
  destruct (Z.eqb_spec n SIZE_MAX) as [->|Hne].
  - by destruct (Z.ltb_spec (SIZE_MAX - 1) SIZE_MAX); [|lia].
  - destruct (Z.ltb_spec (SIZE_MAX - 1) n); [lia|].
    assert (take (Z.to_nat (MIN (len + 1) (n + 1) - 1))
              (drop (Z.to_nat w) (c :: s))
            = take (Z.to_nat n) (drop (Z.to_nat w) (c :: s))) as ->; [|done].
    unfold MIN. destruct (Z.ltb_spec (len + 1) (n + 1)).
    + rewrite !take_ge; [done|rewrite length_drop..]; subst len; lia.
    + f_equal. lia.
Qed.

Lemma grow_buf_cases b n w r b' w' :
  grow_buf b n w = (r, b', w') ->
  (r = 0 /\ b_a b' = b_a b) \/ (r = 1 /\ b' = b).
Proof.
  unfold grow_buf. intros H. repeat case_match; simplify_eq; auto.
Qed.

Lemma buf_dump_buf_cases dst src w r dst' src' w' :
  buf_dump_buf dst src w = (r, dst', src', w') ->
  same_but_heap w w'
  /\ ((r = 0 /\ b_a dst' = b_a dst ++ b_a src /\ b_a src' = [])
      \/ (r = 1 /\ dst' = dst /\ src' = src
          /\ BUF_FREE_SIZE dst < b_i src
          /\ grow_buf dst (b_i src) w = (1, dst, w')))
  /\ (b_i src <= BUF_FREE_SIZE dst
      \/ (heap w = [] /\ buf_ok dst /\ b_i dst + b_i src <= LIMIT) ->
      r = 0).
Proof.
  unfold buf_dump_buf. intros H.
  destruct (Z.ltb_spec (BUF_FREE_SIZE dst) (b_i src)) as [Hlt|Hge].
  - destruct (grow_buf dst _ w) as [[r1 b1] w1] eqn:Hg.
    pose proof (grow_buf_heap _ _ _ _ _ _ Hg) as Hw.
    destruct (grow_buf_cases _ _ _ _ _ _ Hg) as [[-> Hb]|[-> ->]];
      cbn in H; injection H as <- <- <- <-; (split; [done|]).
    + split; [|done]. left. cbn. by rewrite Hb.
    + split; [by right|]. intros [Hroom|(Hh & Hok & HL)]; [lia|].
      destruct (grow_buf_ok dst (b_i src) w Hh Hok) as (s' & E & _);
        [apply b_i_nonneg|done|]. by rewrite E in Hg.
  - cbn in H. injection H as <- <- <- <-.
    split; [apply same_but_heap_refl|]. split; [by left|done].
Qed.

(** X24.  [undivert] with one argument, called while a diversion other
    than 0 is active: the argument is a digit [d]; for [d] other than 0 and
    the active diversion, the text of diversion [d] is moved to the end of
    the active diversion, and nothing is written to standard output.  The
    run ends instead, with the diversions as they were, only when the active
    diversion lacks the room and [grow_buf] fails: the text is moved when
    the room is there, and when no allocation fails and the sizes are below
    [LIMIT].  For 0 and for the active diversion nothing is done. *)
Theorem undivert_into_active_diversion (m : mcall) (st : m4) (d : Z) :
  (forall k, 2 <= k <= 9 -> ARG m k = []) ->
  one_digit (ARG m 1) = Some d ->
  length (diversion st) = 11%nat -> 1 <= act_div st <= 10 ->
  if (d =? 0) || (d =? act_div st) then bi_undivert m st = Ret tt st
  else
    exists dst src,
      DIV st (act_div st) = Some dst /\ DIV st d = Some src
      /\ match bi_undivert m st with
         | Ret _ st' =>
             b_a <$> diversion st'
             = <[Z.to_nat d := []]>
                 (<[Z.to_nat (act_div st) := b_a dst ++ b_a src]>
                    (b_a <$> diversion st))
             /\ stdout (env st') = stdout (env st)
         | Quit st' =>
             diversion st' = diversion st
             /\ BUF_FREE_SIZE dst < b_i src
             /\ grow_buf dst (b_i src) (env st) = (1, dst, env st')
         | _ => False
         end
      /\ (b_i src <= BUF_FREE_SIZE dst
          \/ (heap (env st) = [] /\ buf_ok dst
              /\ b_i dst + b_i src <= LIMIT) ->
          exists st', bi_undivert m st = Ret tt st').
Proof.
  intros Hrest Hd Hlen Ha. pose proof (one_digit_range _ _ Hd) as Hr.
  unfold bi_undivert, bind, get.
  destruct (Z.eqb_spec (act_div st) 0) as [|_]; [lia|].
  change (seqZ 1 9) with [1; 2; 3; 4; 5; 6; 7; 8; 9].
  cbn [for_each]. rewrite Hd.
  rewrite !Hrest by lia. change (one_digit []) with (@None Z).
  unfold bind, ret.
  destruct (Z.eqb_spec d 0) as [->|Hd0]; cbn [negb andb orb]; [done|].
  destruct (Z.eqb_spec d (act_div st)) as [->|Hda]; cbn [negb]; [done|].
  unfold DIV. destruct (Z.ltb_spec (act_div st) 0); [lia|].
  destruct (Z.ltb_spec d 0); [lia|].
  destruct (lookup_lt_is_Some_2 (diversion st) (Z.to_nat (act_div st)))
    as [dst Hdst]; [lia|].
  destruct (lookup_lt_is_Some_2 (diversion st) (Z.to_nat d))
    as [src Hsrc]; [lia|].
  rewrite Hdst, Hsrc. exists dst, src. split; [done|]. split; [done|].
  destruct (buf_dump_buf dst src (env st)) as [[[r dst'] src'] w'] eqn:E.
  destruct (buf_dump_buf_cases _ _ _ _ _ _ _ E)
    as (Hw & [(-> & Hb & Hs)|(-> & -> & -> & Hlt & Hg)] & Hok); cbn.
  - split; [|by eexists]. split; [|by destruct Hw as (_ & _ & _ & -> & _)].
    by rewrite !list_fmap_insert, Hb, Hs.
  - split.
    + rewrite (list_insert_id _ _ dst) by done.
      by rewrite list_insert_id.
    + intros Hcond. specialize (Hok Hcond). lia.
Qed.

End Number_extras.

Lemma undivert_into_active_diversion_witness :
  exists st',
    @bi_undivert unsigned_char undivert_call (undivert_state 1) = Ret tt st'
    /\ b_a <$> diversion st'
       = lit <$> ["zero "; "one three "; ""; ""; ""; ""; ""; ""; ""; "";
                  "discarded"]%string.
Proof.
  destruct (@undivert_into_active_diversion unsigned_char undivert_call
              (undivert_state 1) 3) as (dst & src & Hdst & Hsrc & H & Hok).
  - intros k Hk.
    assert (k = 2 \/ k = 3 \/ k = 4 \/ k = 5 \/ k = 6 \/ k = 7 \/ k = 8
            \/ k = 9) as Hc by lia.
    by destruct Hc as [->|[->|[->|[->|[->|[->|[->| ->]]]]]]].
  - reflexivity.
  - reflexivity.
  - vm_compute. split; discriminate.
  - vm_compute in Hdst. vm_compute in Hsrc.
    injection Hdst as <-. injection Hsrc as <-.
    destruct Hok as [st' E]; [left; vm_compute; discriminate|].
    rewrite E in H. exists st'. split; [done|].
    destruct H as [-> _]. reflexivity.
Defined.
